(* ===== verification/_CoqProject ===== *)
-Q . S2P
Prelude.v
Machine.v
Logic.v
Race.v
Discipline.v
Harness.v
Lock.v
Counter.v
Bench.v
Termination.v
Stats.v
StatsExact.v
MsgPass.v
Spinlock.v
MemoryOrdering.v
Review.v
Atomics.v
AtomicsSolution.v
CacheEffects.v
Barrier.v
BarrierSpec.v
Rwlock.v
RwlockSolution.v
Queue.v
Summary.v
