(* ===== verification/Prelude.v ===== *)
(** * A verification of the multithreading workshop

    The program (src/) is a set of C11/pthreads programs, one per exercise
    (src/exercises/NN_name/NN_name.c), solutions of three of them that are
    programs of their own, and a header of measuring helpers they share
    (src/include/benchmark.h). The exercises build, in turn, threads and
    return values, counters with and without synchronization, message passing
    through a flag, a reader-writer lock, per-thread counters with two memory
    layouts, four spin locks, a reusable barrier, and a ring buffer. They share
    no state; each has a [main] that creates threads, joins them and prints.

    ** How the code is modelled

    - Machine.v is the C11 machine the programs run on: threads as trees of
      operations ([prog], a monad with the control structures of C), a shared
      world, and the step relation. Atomic objects keep their whole
      modification order and every thread has a view of it, so that relaxed
      loads may be stale and a store may land anywhere after what its thread
      has seen; release and acquire transfer views. Plain objects carry vector
      clocks: an access that is not ordered after the last conflicting one is a
      fault, like every other undefined behaviour (signed overflow, unlocking a
      mutex one does not hold, destroying a lock in use, a failed assert).
      Mutexes, condition variables with spurious wake-ups, reader-writer locks,
      thread creation and joining, [exit], the clock and the output are
      operations too. [memory_order_seq_cst] is treated as acquire-release,
      which allows more executions than C11 does: what is proved for all
      executions holds for C11's. Fences and [consume] are not used by the
      programs.
    - An execution is a sequence of [step]s; [reachable main C] says that the
      program [main] can get to the configuration [C], [faulty C] that some
      thread's next operation is undefined in it, [returned C] gives the return
      value of the first thread. [run] and [drive] execute a given schedule and
      a round-robin one: the witnesses use them, with as much fuel as the run
      they show needs; no theorem depends on fuel.
    - A C [int] or [long] is an integer [Z] kept in range by [in_range], with
      overflow a fault; unsigned and atomic arithmetic wraps around ([uwrap],
      [wrap]). The constants of the exercises (threads, iterations, phases,
      messages) are parameters of the programs, and the definitions that carry
      the names of the macros give the values of the source. A [printf] is
      recorded with its format and its integer arguments; a [%s] is substituted,
      and an elapsed time is recorded in nanoseconds, before it is divided. The
      doubles of the statistics helpers are IEEE 754 binary64 numbers.

    ** The proof library

    - Prelude.v (this file): tactics, hints, lemmas on lists, sums and machine
      integers.
    - Logic.v: a program logic: threads with ghost states, an invariant, and
      weakest preconditions indexed by the number of steps, with its adequacy
      theorem. A weakest precondition also says that the thread can finish
      whenever it is scheduled while ready ([fin], least fixed point), and
      [progress] is the theorem that a program with always some ready thread
      can return; [rets] is for programs that cannot.
    - Race.v: in a program without undefined behaviour no two threads are ever
      about to access a plain object with one of them writing it
      ([race_free_excl]).
    - Discipline.v: a check, on the code of the threads alone, that an object is
      accessed only under a reader-writer lock ([obeys]), and that the lock is
      then held at every access.
    - Harness.v: the create/join pattern of all exercises: the classes
      [Client], [Growing], [Forkable] and [OutFree] are what the invariant of an
      exercise must satisfy, [Progress] is that some unfinished thread is always
      ready; [harness_total] is the verdict on a whole program.
    - Termination.v: programs whose every execution returns. [ends] says that a
      thread takes finitely many steps by itself ([bounded], for a program and
      the threads it creates, found by the hints of database [ends]); their
      executions are then finite, and where the logic shows that the program
      cannot get stuck, every one of them returns ([must_return],
      [harness_always]), whatever the scheduler does.
    - Lock.v: the interface [Lock], what a lock promises; the pthread mutex, the
      pthread spin lock, which spins, and a flag in an atomic object implement
      it.
    - Counter.v: workers that increment a plain counter under any [Lock], and
      workers that increment atomic counters, shared or their own.
    - MsgPass.v: message passing through a flag, round after round on the same
      variables, for any payload that satisfies the interface [Payload] (an
      atomic object, or a plain one).

    ** The exercises

    - Review.v (00): return values of threads arrive in order; the unprotected
      counter races; mutex and atomic counters are exact; the message arrives.
    - Atomics.v (01): the seq_cst and relaxed counters are exact and the plain
      one races; release/acquire message passing is free of races and delivers,
      relaxed message passing races. AtomicsSolution.v: the same for the
      program of solution.c.
    - Rwlock.v (02): the counter is sequentially consistent as seen in the
      output, every access is made under the lock and a writer excludes the
      others, and the final value is exact.
      RwlockSolution.v: output and final value for the program of solution.c.
    - CacheEffects.v (03): both layouts count exactly; aligned counters never
      share a cache line, packed ones do.
    - MemoryOrdering.v (04): the ordered versions deliver, the broken one races.
    - Spinlock.v (05): the four spin locks, and the one of pthreads, implement
      [Lock], hence protect the counter and exclude each other's accesses; the
      sequence of operations of the backoff lock.
    - Barrier.v (06): no thread passes a phase before all have reached it, and
      every thread goes through all phases; an invariant of the fields of
      [barrier_t]. BarrierSpec.v: an abstract barrier, an automaton on the lines
      the threads print, and the refinement theorem.
    - Queue.v (07): the queue as it is in the source, in which [head] and [tail]
      never move: no race, and nothing is ever delivered; its index arithmetic
      and its layout are right.
    - Summary.v (08): the capstone as it is in the source, with empty bodies,
      and its solution.c, which prints two lines.
    - Bench.v and Stats.v (benchmark.h): the clock arithmetic is exact;
      [TIME_IT] and [MEASURE_CACHE_MISSES] never end; minimum, maximum and count
      of the statistics are right and the standard deviation is never NaN. StatsExact.v: on integers below the precision of
      doubles the sums are exact, and the mean where it is an integer.

    The theorems about all executions say that no fault is reachable, what the
    output can be at every moment, and what it is when the program returns.
    Where no thread waits in a loop (joins, mutexes and reader-writer locks
    excepted, which the machine blocks on) they also say that every execution
    returns ([must_return]): there is no deadlock, and no infinite execution.
    Where a thread spins (on an atomic object, or in [pthread_spin_lock]) or
    waits on a condition variable,
    an unfair scheduler can make it do so for ever; the theorems then say that
    from every reachable configuration the program can still return
    ([can_return]), by steps none of which is a spurious wake-up or a spurious
    failure: there is no deadlock, no lost wake-up and no livelock that the
    threads cannot leave. Those about a race give a schedule after which a
    thread's plain access to the object they name is undefined ([races]).

    ** Not modelled

    The bodies of the kernel, the C library and the allocator (parameters, or
    operations of the machine by their documented behaviour); failures of
    [pthread_create], [calloc] and [malloc], which the source does not check for
    (the addresses are arguments of the programs), and of [clock_gettime];
    [free]; that automatic and allocated storage is indeterminate before it is
    initialized; the width of loop counters; the formatting of numbers; the compiler barriers of benchmark.h, which nothing
    uses; the other solution files, which include the exercise and add nothing;
    Makefile and documentation. Fairness of the scheduler is not modelled: [can_return]
    says that a return is always possible, not that every fair run has one. *)

From stdpp Require Export base functions list strings relations.
From Stdlib Require Export ZArith Lia.

#[global] Open Scope Z_scope.

(** ** Hint databases and tactics of the development *)

Create HintDb workshop.

(** Case analysis on every update [<[a:=v]> f] applied to an argument: of
    the goal, or of the hypotheses too. *)
Ltac fn_case :=
  repeat match goal with
  | |- context [ <[?a:=?v]> ?f ?b ] =>
      unfold insert, fn_insert; destruct (decide (a = b)); simplify_eq
  end.
Ltac fn_cases :=
  repeat match goal with
  | H : context [ <[?a:=?v]> ?f ?b ] |- _ =>
      unfold insert, fn_insert in H; destruct (decide (a = b)); simplify_eq
  end; fn_case.

(** Rewrite updates whose keys are known to be equal or different. *)
Ltac fn_simpl :=
  repeat first [ rewrite fn_lookup_insert | rewrite fn_lookup_insert_ne by (done || lia) ].

(** Destruct all conjunctions and existentials of the context. *)
Ltac destr :=
  repeat match goal with
  | H : _ /\ _ |- _ => destruct H
  | H : exists _, _ |- _ => destruct H
  end.

Ltac split_all := repeat match goal with |- _ /\ _ => split end.

(** ** Lists *)

Lemma elem_of_reverse_rev {A} (x : A) (l : list A) : x ∈ rev l <-> x ∈ l.
Proof. by rewrite rev_alt, <- (elem_of_reverse x l). Qed.

(** ** Machine integers *)

(** Two's complement wrap-around of [v] at width [b]: what a C11 atomic
    fetch-and-add does on a signed atomic integer (C11 7.17.7.5: "there are
    no undefined results"). *)
Definition wrap (b v : Z) : Z := (v + 2 ^ (b - 1)) mod 2 ^ b - 2 ^ (b - 1).

(** The range of a signed integer of width [b]: outside it, [+] and [++] on
    a plain [int] or [long] are undefined behaviour. *)
Definition in_range (b v : Z) : bool := (- 2 ^ (b - 1) <=? v) && (v <? 2 ^ (b - 1)).

Definition INT_BITS : Z := 32.
Definition LONG_BITS : Z := 64.

(** Wrap-around of an unsigned [b]-bit integer ([size_t], [uint64_t]). *)
Definition uwrap (b v : Z) : Z := v mod 2 ^ b.

Lemma wrap_in_range b v : 0 < b -> in_range b v = true -> wrap b v = v.
Proof.
  intros Hb Hr. unfold in_range in Hr. unfold wrap.
  apply andb_prop in Hr as [H1 H2]. apply Z.leb_le in H1. apply Z.ltb_lt in H2.
  assert (2 ^ b = 2 * 2 ^ (b - 1)) as Hp
    by (rewrite <- Z.pow_succ_r by lia; f_equal; lia).
  rewrite Z.mod_small by lia. lia.
Qed.

Lemma in_range_intro b v : - 2 ^ (b - 1) <= v < 2 ^ (b - 1) -> in_range b v = true.
Proof. intros H. unfold in_range. apply andb_true_intro. split; lia. Qed.

Lemma in_range_between b v u : in_range b u = true -> 0 <= v <= u -> in_range b v = true.
Proof.
  intros Hu Hv. unfold in_range in *. apply andb_prop in Hu as [_ Hu%Z.ltb_lt].
  pose proof (Z.pow_nonneg 2 (b - 1) ltac:(lia)). apply andb_true_intro. split; lia.
Qed.

(** ** Sums over thread identifiers *)

(** [sumn n f] is [f 0 + ... + f (n-1)]. *)
Fixpoint sumn (n : nat) (f : nat -> Z) : Z :=
  match n with O => 0 | S n => sumn n f + f n end.

Lemma sumn_ext n f g : (forall i, (i < n)%nat -> f i = g i) -> sumn n f = sumn n g.
Proof.
  induction n as [|n IH]; intros H; simpl; [done|].
  rewrite IH by (intros; apply H; lia). by rewrite (H n) by lia.
Qed.

(** Changing one summand changes the sum by the difference. *)
Lemma sumn_upd n f g i :
  (i < n)%nat -> (forall j, j <> i -> g j = f j) -> sumn n g = sumn n f + (g i - f i).
Proof.
  induction n as [|n IH]; intros Hi Hne; [lia|]. simpl.
  destruct (decide (i = n)) as [->|Hn].
  - rewrite (sumn_ext n g f) by (intros; apply Hne; lia). lia.
  - rewrite IH by (done || lia). rewrite (Hne n) by done. lia.
Qed.

Lemma sumn_le n f c : (forall i, (i < n)%nat -> f i <= c) -> sumn n f <= Z.of_nat n * c.
Proof.
  induction n as [|n IH]; intros H; simpl; [lia|].
  specialize (IH ltac:(intros; apply H; lia)). specialize (H n ltac:(lia)). lia.
Qed.

Lemma sumn_mono n f g : (forall i, (i < n)%nat -> f i <= g i) -> sumn n f <= sumn n g.
Proof.
  induction n as [|n IH]; intros H; simpl; [lia|].
  specialize (IH ltac:(intros; apply H; lia)). specialize (H n ltac:(lia)). lia.
Qed.

Lemma sumn_nonneg n f : (forall i, (i < n)%nat -> 0 <= f i) -> 0 <= sumn n f.
Proof.
  induction n as [|n IH]; intros H; simpl; [lia|].
  specialize (IH ltac:(intros; apply H; lia)). specialize (H n ltac:(lia)). lia.
Qed.

Lemma sumn_const n f c : (forall i, (i < n)%nat -> f i = c) -> sumn n f = Z.of_nat n * c.
Proof.
  induction n as [|n IH]; intros H; simpl; [lia|].
  rewrite IH by (intros; apply H; lia). rewrite (H n) by lia. lia.
Qed.

Lemma sumn_first n f : sumn (S n) f = f 0%nat + sumn n (fun i => f (S i)).
Proof. induction n as [|n IH]; [simpl; lia|]. change (sumn (S (S n)) f) with (sumn (S n) f + f (S n)).
  rewrite IH. simpl. lia.
Qed.

#[global] Arguments sumn : simpl never.
