(* ===== verification/Machine.v ===== *)
(** * The C11 machine: threads, views, atomics, pthread objects *)

From S2P Require Import Prelude.

(** ** Views *)

(** A thread identifier is its index in the pool of threads, a time stamp is
    a position in the modification order of an atomic object, a location is
    an address. *)
Abbreviation tid := nat (only parsing).
Abbreviation ts := nat (only parsing).
Abbreviation loc := Z (only parsing).

(** A view records what a thread has observed: for an atomic object, the
    oldest write it may still read ([KL]); for a thread, the latest of its
    plain accesses that happen before ([KT], a vector clock). *)
Inductive key := KL (x : loc) | KT (t : tid).
#[export] Instance key_eq_dec : EqDecision key.
Proof. solve_decision. Defined.

Definition view := key -> nat.
Definition vbot : view := fun _ => 0%nat.
Definition vsing (k : key) (n : nat) : view := <[k := n]> vbot.
Definition vjoin (V W : view) : view := fun k => Nat.max (V k) (W k).
Definition vle (V W : view) : Prop := forall k, (V k <= W k)%nat.
Infix "⊑v" := vle (at level 70, no associativity).
Infix "⊔v" := vjoin (at level 50, left associativity).

(** An epoch [(u, c)]: the [c]-th plain access of thread [u]. [covers V e]:
    the access [e] happens before a thread whose view is [V]. *)
Definition epoch : Type := tid * nat.
Definition covers (V : view) (e : epoch) : bool := (e.2 <=? V (KT e.1))%nat.

(** ** Memory orders of [<stdatomic.h>] *)

Inductive memory_order :=
  memory_order_relaxed | memory_order_acquire | memory_order_release
| memory_order_acq_rel | memory_order_seq_cst.

Definition is_acq (o : memory_order) : bool :=
  match o with
  | memory_order_acquire | memory_order_acq_rel | memory_order_seq_cst => true
  | _ => false
  end.

Definition is_rel (o : memory_order) : bool :=
  match o with
  | memory_order_release | memory_order_acq_rel | memory_order_seq_cst => true
  | _ => false
  end.

(** ** The shared state *)

(** A plain (non-atomic) object: its value, the epoch of its last write and
    the epochs of the reads since that write. *)
Record cell := Cell { nval : Z; nwr : epoch; nrd : list epoch }.

(** A write to an atomic object: the value and the view it publishes. *)
Record msg := Msg { mval : Z; mview : view }.

(** A [pthread_mutex_t] or [pthread_spinlock_t]. *)
Record mutex := Mutex { mowner : option tid; mrel : view }.

(** A [pthread_rwlock_t]: its writer, its readers, and what the write and
    the read sections released so far. *)
Record rwlock := Rwlock
  { rwriter : option tid; rreaders : list tid; rw_wrel : view; rw_rrel : view }.

(** One line printed by [printf]: the thread, the format, the arguments. *)
Record event := Event { ev_tid : tid; ev_fmt : string; ev_args : list Z }.

Record world := World {
  wview : tid -> view;                 (* what each thread has observed *)
  whist : loc -> ts -> option msg;     (* modification order of the atomics *)
  wcell : loc -> cell;                 (* plain objects *)
  wmtx : loc -> mutex;
  wcond : loc -> list tid;             (* threads waiting on a condition *)
  wrw : loc -> rwlock;
  wdone : tid -> option Z;             (* return values of ended threads *)
  wn : nat;                            (* number of threads created *)
  wout : list event;                   (* output, latest line first *)
  wexit : option Z                     (* set by [exit] *)
}.

Definition set_view (t : tid) (V : view) (w : world) : world :=
  World (<[t := V]> (wview w)) (whist w) (wcell w) (wmtx w) (wcond w) (wrw w)
        (wdone w) (wn w) (wout w) (wexit w).
Definition set_hist (x : loc) (i : ts) (m : msg) (w : world) : world :=
  World (wview w) (<[x := <[i := Some m]> (whist w x)]> (whist w)) (wcell w)
        (wmtx w) (wcond w) (wrw w) (wdone w) (wn w) (wout w) (wexit w).
Definition set_cell (x : loc) (c : cell) (w : world) : world :=
  World (wview w) (whist w) (<[x := c]> (wcell w)) (wmtx w) (wcond w) (wrw w)
        (wdone w) (wn w) (wout w) (wexit w).
Definition set_mtx (x : loc) (m : mutex) (w : world) : world :=
  World (wview w) (whist w) (wcell w) (<[x := m]> (wmtx w)) (wcond w) (wrw w)
        (wdone w) (wn w) (wout w) (wexit w).
Definition set_cond (x : loc) (l : list tid) (w : world) : world :=
  World (wview w) (whist w) (wcell w) (wmtx w) (<[x := l]> (wcond w)) (wrw w)
        (wdone w) (wn w) (wout w) (wexit w).
Definition set_rw (x : loc) (r : rwlock) (w : world) : world :=
  World (wview w) (whist w) (wcell w) (wmtx w) (wcond w) (<[x := r]> (wrw w))
        (wdone w) (wn w) (wout w) (wexit w).
Definition set_done (t : tid) (v : Z) (w : world) : world :=
  World (wview w) (whist w) (wcell w) (wmtx w) (wcond w) (wrw w)
        (<[t := Some v]> (wdone w)) (wn w) (wout w) (wexit w).
Definition set_n (n : nat) (w : world) : world :=
  World (wview w) (whist w) (wcell w) (wmtx w) (wcond w) (wrw w)
        (wdone w) n (wout w) (wexit w).
Definition add_out (e : event) (w : world) : world :=
  World (wview w) (whist w) (wcell w) (wmtx w) (wcond w) (wrw w)
        (wdone w) (wn w) (e :: wout w) (wexit w).
Definition set_exit (v : Z) (w : world) : world :=
  World (wview w) (whist w) (wcell w) (wmtx w) (wcond w) (wrw w)
        (wdone w) (wn w) (wout w) (Some v).

(** Program start: static storage is zero, every lock is free, one thread.
    Automatic and allocated storage, indeterminate in C, starts as zero too: a
    read of an object that was never initialized is not detected. *)
Definition init_world : world :=
  World (fun _ => vbot) (fun _ i => if (i =? 0)%nat then Some (Msg 0 vbot) else None)
        (fun _ => Cell 0 (0%nat, 0%nat) []) (fun _ => Mutex None vbot) (fun _ => [])
        (fun _ => Rwlock None [] vbot vbot) (fun _ => None) 1 [] None.

(** ** The operations a thread performs *)

Inductive op :=
(* plain objects *)
| NaRead (x : loc)
| NaWrite (x : loc) (v : Z)
(* <stdatomic.h> *)
| AtomicLoad (x : loc) (o : memory_order)
| AtomicStore (x : loc) (v : Z) (o : memory_order)
| AtomicFetchAdd (bits : Z) (x : loc) (d : Z) (o : memory_order)
| AtomicFlagTestAndSet (x : loc) (o : memory_order)
| AtomicCasWeak (x : loc) (expected desired : Z) (succ fail : memory_order)
(* <pthread.h>; the spin locks too are initialized, unlocked and destroyed by
   the operations of mutexes *)
| MutexInit (m : loc) | MutexLock (m : loc) | MutexUnlock (m : loc) | MutexDestroy (m : loc)
| SpinTrylock (m : loc)      (* pthread_spin_trylock: never waits *)
| CondInit (c : loc) | CondDestroy (c : loc) | CondBroadcast (c : loc)
| CondEnter (c m : loc)      (* first half of pthread_cond_wait: unlock and block *)
| CondWake (c m : loc)       (* second half: woken, lock again *)
| RwInit (l : loc) | RwRdlock (l : loc) | RwWrlock (l : loc) | RwUnlock (l : loc) | RwDestroy (l : loc)
| Join (t : Z)
| ThreadExit (v : Z)
(* the rest of libc *)
| Printf (fmt : string) (args : list Z)
| Pause                       (* cpu_relax, CPU_PAUSE, usleep, nanosleep *)
| ClockGettime                (* CLOCK_MONOTONIC, in nanoseconds *)
| SchedGetcpu
| Exit (v : Z)
(* undefined behaviour, or a failed assert *)
| Undefined.

(** How the environment resolves what the standard leaves open: the write an
    atomic access reads or the place a store takes in the modification order
    ([cts]), spurious failures and wake-ups ([cspur]), the clock and the number
    of the processor ([cval]). *)
Record choice := Choice { cts : ts; cspur : bool; cval : Z }.

(** [Blocked]: this operation cannot take place now with this choice.
    [Fault]: a data race or other undefined behaviour, or a failed assert. *)
Inductive outcome := Blocked | Fault | Done (r : Z) (w : world).

(** *** Plain accesses, with race detection by vector clocks *)

Definition tick (t : tid) (V : view) : view := <[KT t := S (V (KT t))]> V.

Definition do_na_read (t : tid) (x : loc) (w : world) : outcome :=
  let V := wview w t in let c := wcell w x in
  if covers V (nwr c) then
    let V' := tick t V in
    Done (nval c) (set_cell x (Cell (nval c) (nwr c) ((t, V' (KT t)) :: nrd c))
                    (set_view t V' w))
  else Fault.

Definition do_na_write (t : tid) (x : loc) (v : Z) (w : world) : outcome :=
  let V := wview w t in let c := wcell w x in
  if covers V (nwr c) && forallb (covers V) (nrd c) then
    let V' := tick t V in
    Done 0 (set_cell x (Cell v (t, V' (KT t)) []) (set_view t V' w))
  else Fault.

(** *** Atomic accesses *)

(** The view after reading message [m] of [x] at time stamp [i]. *)
Definition read_view (V : view) (x : loc) (i : ts) (m : msg) (o : memory_order) : view :=
  V ⊔v vsing (KL x) i ⊔v (if is_acq o then mview m else vbot).

Definition do_load (c : choice) (t : tid) (x : loc) (o : memory_order) (w : world) : outcome :=
  let V := wview w t in
  match whist w x (cts c) with
  | Some m => if (V (KL x) <=? cts c)%nat
              then Done (mval m) (set_view t (read_view V x (cts c) m o) w)
              else Blocked
  | None => Blocked
  end.

Definition do_store (c : choice) (t : tid) (x : loc) (v : Z) (o : memory_order)
    (w : world) : outcome :=
  let V := wview w t in let i := cts c in
  match whist w x i with
  | Some _ => Blocked
  | None => if (V (KL x) <? i)%nat
            then let V' := V ⊔v vsing (KL x) i in
                 Done 0 (set_hist x i (Msg v (if is_rel o then V' else vsing (KL x) i))
                          (set_view t V' w))
            else Blocked
  end.

(** The view after, and the message left by, a read-modify-write that reads
    [m] at time stamp [i] and writes [v]: the message carries on the release
    sequence it joins. *)
Definition rmw_view (V : view) (x : loc) (i : ts) (m : msg) (o : memory_order) : view :=
  read_view V x i m o ⊔v vsing (KL x) (S i).
Definition rmw_msg (V : view) (x : loc) (i : ts) (m : msg) (v : Z) (o : memory_order) : msg :=
  Msg v (mview m ⊔v (if is_rel o then rmw_view V x i m o else vsing (KL x) (S i))).

(** A read-modify-write of [x]: it reads a write whose successor in the
    modification order is free and becomes that successor. *)
Definition do_rmw (c : choice) (t : tid) (x : loc) (f : Z -> Z) (r : Z -> Z)
    (o : memory_order) (w : world) : outcome :=
  let V := wview w t in let i := cts c in
  match whist w x i, whist w x (S i) with
  | Some m, None =>
      if (V (KL x) <=? i)%nat
      then Done (r (mval m)) (set_hist x (S i) (rmw_msg V x i m (f (mval m)) o)
                               (set_view t (rmw_view V x i m o) w))
      else Blocked
  | _, _ => Blocked
  end.

(** [atomic_compare_exchange_weak_explicit]: 1 on success, 0 on failure. *)
Definition do_cas_weak (c : choice) (t : tid) (x : loc) (e d : Z)
    (osucc ofail : memory_order) (w : world) : outcome :=
  match whist w x (cts c) with
  | Some m =>
      if (mval m =? e) && negb (cspur c)
      then do_rmw c t x (fun _ => d) (fun _ => 1) osucc w
      else match do_load c t x ofail w with Done _ w' => Done 0 w' | b => b end
  | None => Blocked
  end.

(** *** pthread objects *)

Definition do_lock (t : tid) (m : loc) (w : world) : outcome :=
  match mowner (wmtx w m) with
  | None => Done 0 (set_mtx m (Mutex (Some t) (mrel (wmtx w m)))
                     (set_view t (wview w t ⊔v mrel (wmtx w m)) w))
  | Some _ => Blocked
  end.

(** 0, or [EBUSY] when the lock is held. *)
Definition EBUSY : Z := 16.
Definition do_trylock (t : tid) (m : loc) (w : world) : outcome :=
  match do_lock t m w with Blocked => Done EBUSY w | b => b end.

Definition do_unlock (t : tid) (m : loc) (w : world) : outcome :=
  if decide (mowner (wmtx w m) = Some t)
  then Done 0 (set_mtx m (Mutex None (wview w t)) w)
  else Fault.

Definition do_cond_enter (t : tid) (cv m : loc) (w : world) : outcome :=
  match do_unlock t m w with
  | Done r w' => Done r (set_cond cv (t :: wcond w' cv) w')
  | b => b
  end.

Definition do_cond_wake (c : choice) (t : tid) (cv m : loc) (w : world) : outcome :=
  if cspur c || negb (bool_decide (t ∈ wcond w cv))
  then match do_lock t m w with
       | Done r w' => Done r (set_cond cv (filter (fun u => u <> t) (wcond w' cv)) w')
       | b => b
       end
  else Blocked.

Definition do_rdlock (t : tid) (l : loc) (w : world) : outcome :=
  let R := wrw w l in
  match rwriter R with
  | None => Done 0 (set_rw l (Rwlock None (t :: rreaders R) (rw_wrel R) (rw_rrel R))
                     (set_view t (wview w t ⊔v rw_wrel R) w))
  | Some _ => Blocked
  end.

Definition do_wrlock (t : tid) (l : loc) (w : world) : outcome :=
  let R := wrw w l in
  match rwriter R, rreaders R with
  | None, [] => Done 0 (set_rw l (Rwlock (Some t) [] (rw_wrel R) (rw_rrel R))
                         (set_view t (wview w t ⊔v rw_wrel R ⊔v rw_rrel R) w))
  | _, _ => Blocked
  end.

(** Remove one occurrence. *)
Fixpoint remove1 (t : tid) (l : list tid) : list tid :=
  match l with
  | [] => []
  | u :: l => if decide (u = t) then l else u :: remove1 t l
  end.

Definition do_rwunlock (t : tid) (l : loc) (w : world) : outcome :=
  let R := wrw w l in
  if decide (rwriter R = Some t)
  then Done 0 (set_rw l (Rwlock None (rreaders R) (rw_wrel R ⊔v wview w t) (rw_rrel R)) w)
  else if decide (t ∈ rreaders R)
  then Done 0 (set_rw l (Rwlock (rwriter R) (remove1 t (rreaders R)) (rw_wrel R)
                          (rw_rrel R ⊔v wview w t)) w)
  else Fault.

Definition do_join (t : tid) (u : Z) (w : world) : outcome :=
  match wdone w (Z.to_nat u) with
  | Some v => Done v (set_view t (wview w t ⊔v wview w (Z.to_nat u)) w)
  | None => Blocked
  end.

(** Destroying a lock in use is undefined behaviour. *)
Definition unused_or_fault (b : bool) (w : world) : outcome :=
  if b then Done 0 w else Fault.

Definition is_free (m : mutex) : bool :=
  match mowner m with None => true | Some _ => false end.
Definition rw_is_free (r : rwlock) : bool :=
  match rwriter r, rreaders r with None, [] => true | _, _ => false end.
Definition no_waiter (l : list tid) : bool :=
  match l with [] => true | _ => false end.

Definition exec (c : choice) (t : tid) (o : op) (w : world) : outcome :=
  match o with
  | NaRead x => do_na_read t x w
  | NaWrite x v => do_na_write t x v w
  | AtomicLoad x o => do_load c t x o w
  | AtomicStore x v o => do_store c t x v o w
  | AtomicFetchAdd b x d o => do_rmw c t x (fun v => wrap b (v + d)) (fun v => v) o w
  | AtomicFlagTestAndSet x o => do_rmw c t x (fun _ => 1) (fun v => v) o w
  | AtomicCasWeak x e d osucc ofail => do_cas_weak c t x e d osucc ofail w
  | MutexInit m => Done 0 (set_mtx m (Mutex None vbot) w)
  | MutexLock m => do_lock t m w
  | MutexUnlock m => do_unlock t m w
  | MutexDestroy m => unused_or_fault (is_free (wmtx w m)) w
  | SpinTrylock m => do_trylock t m w
  | CondInit v => Done 0 (set_cond v [] w)
  | CondDestroy v => unused_or_fault (no_waiter (wcond w v)) w
  | CondBroadcast v => Done 0 (set_cond v [] w)
  | CondEnter v m => do_cond_enter t v m w
  | CondWake v m => do_cond_wake c t v m w
  | RwInit l => Done 0 (set_rw l (Rwlock None [] vbot vbot) w)
  | RwRdlock l => do_rdlock t l w
  | RwWrlock l => do_wrlock t l w
  | RwUnlock l => do_rwunlock t l w
  | RwDestroy l => unused_or_fault (rw_is_free (wrw w l)) w
  | Join u => do_join t u w
  | ThreadExit v => Done 0 (set_done t v w)
  | Printf fmt args => Done 0 (add_out (Event t fmt args) w)
  | Pause => Done 0 w
  | ClockGettime | SchedGetcpu => Done (cval c) w
  | Exit v => Done 0 (set_exit v w)
  | Undefined => Fault
  end.

(** ** Thread code *)

(** The code of a thread, from the point where it is now: it returns, it
    performs an operation and goes on with the result, it creates a thread
    ([pthread_create] with the start routine applied to its argument), or it
    enters an unbounded loop, whose body maps the loop variable either to its
    next value ([inl]) or to the value the loop is left with ([inr]). *)
Inductive prog (A : Type) : Type :=
| Ret (a : A)
| Op (o : op) (k : Z -> prog A)
| Fork (child : prog Z) (k : Z -> prog A)
| Iter (body : Z -> prog (Z + Z)) (s : Z) (k : Z -> prog A).
Arguments Ret {A} a.
Arguments Op {A} o k.
Arguments Fork {A} child k.
Arguments Iter {A} body s k.

Fixpoint bind {A B} (p : prog A) (f : A -> prog B) : prog B :=
  match p with
  | Ret a => f a
  | Op o k => Op o (fun r => bind (k r) f)
  | Fork c k => Fork c (fun r => bind (k r) f)
  | Iter b s k => Iter b s (fun r => bind (k r) f)
  end.

Declare Scope prog_scope.
Delimit Scope prog_scope with prog.
Bind Scope prog_scope with prog.
Notation "x ← y ; z" := (bind y (fun x => z))
  (at level 20, y at level 100, z at level 200, only parsing) : prog_scope.
Notation "x ;; z" := (bind x (fun _ => z))
  (at level 100, z at level 200, only parsing, right associativity) : prog_scope.
#[global] Open Scope prog_scope.

(** One turn of a loop. *)
Definition unfold_iter {A} (body : Z -> prog (Z + Z)) (s : Z) (k : Z -> prog A) : prog A :=
  bind (body s) (fun r => match r with inl s' => Iter body s' k | inr x => k x end).

Definition perform (o : op) : prog Z := Op o Ret.
Definition do_ (o : op) : prog unit := Op o (fun _ => Ret tt).

(** [while (cond) { body }] *)
Definition while_ (cond : prog bool) (body : prog unit) : prog unit :=
  Iter (fun _ => b ← cond; if b then body;; Ret (inl 0) else Ret (inr 0)) 0 (fun _ => Ret tt).

(** [while (1) { body }], where the body yields the next value of the one
    local variable that lives across turns, or leaves by [break]. *)
Definition loop_ (s : Z) (body : Z -> prog (Z + Z)) : prog Z := Iter body s Ret.

(** [for (i = 0; i < n; i++) { body }]; the counter is an integer, where the
    source has an [int] or a [long]: the two agree as long as [n] fits its
    type. *)
Fixpoint for_from (n : nat) (i : Z) (body : Z -> prog unit) : prog unit :=
  match n with
  | O => Ret tt
  | S n => body i;; for_from n (i + 1) body
  end.
Definition for_ (n : Z) (body : Z -> prog unit) : prog unit := for_from (Z.to_nat n) 0 body.

(** [x++] on a plain signed integer of width [bits]: a read and a write, and
    undefined behaviour on overflow. *)
Definition incr (bits : Z) (x : loc) : prog unit :=
  v ← perform (NaRead x);
  if in_range bits (v + 1) then do_ (NaWrite x (v + 1)) else do_ Undefined.

Definition load (x : loc) (o : memory_order) : prog Z := perform (AtomicLoad x o).
Definition store (x : loc) (v : Z) (o : memory_order) : prog unit := do_ (AtomicStore x v o).
Definition printf (fmt : string) (args : list Z) : prog unit := do_ (Printf fmt args).
Fixpoint puts (lines : list string) : prog unit :=
  match lines with [] => Ret tt | l :: ls => printf l [];; puts ls end.
Definition assert_ (b : bool) : prog unit := if b then Ret tt else do_ Undefined.

(** Creating a thread always succeeds: the source does not look at the error
    number. *)
Definition pthread_create (start : prog Z) : prog Z := Fork start Ret.
Definition pthread_join (t : Z) : prog Z := perform (Join t).

(** [for (i = 0; i < n; i++) pthread_create(&threads[i], NULL, start, i)],
    with the array of thread identifiers as result. *)
Fixpoint create_from (n : nat) (i : Z) (start : Z -> prog Z) : prog (list Z) :=
  match n with
  | O => Ret []
  | S n => t ← pthread_create (start i); ts ← create_from n (i + 1) start; Ret (t :: ts)
  end.
Definition create_threads (n : Z) (start : Z -> prog Z) : prog (list Z) :=
  create_from (Z.to_nat n) 0 start.

(** [for (i = 0; i < n; i++) pthread_join(threads[i], NULL)] *)
Fixpoint join_threads (ts : list Z) : prog unit :=
  match ts with
  | [] => Ret tt
  | t :: ts => pthread_join t;; join_threads ts
  end.

(** A thread ends by [pthread_exit] with what its start routine returns. *)
Definition thread (start : prog Z) : prog Z :=
  v ← start; Op (ThreadExit v) (fun _ => Ret v).

(** [performs p l q]: with some results of its operations, [p] performs the
    operations [l], in order, and is then at [q]. *)
Inductive performs {A} : prog A -> list op -> prog A -> Prop :=
| performs_nil p : performs p [] p
| performs_op o k r l q : performs (k r) l q -> performs (Op o k) (o :: l) q
| performs_iter b s k l q : performs (unfold_iter b s k) l q -> performs (Iter b s k) l q.

(** ** Configurations and steps *)

Record config := Config { pool : list (prog Z); wld : world }.

(** Creating thread [wn w]: it starts with what its creator has observed. *)
Definition fork_world (t : tid) (w : world) : world :=
  set_n (S (wn w)) (set_view (wn w) (wview w t) w).

Inductive cresult := CBlocked | CFault | CStep (C : config).

(** Thread [t] takes its next step, the environment choosing [c]. *)
Definition cstep (t : tid) (c : choice) (C : config) : cresult :=
  match wexit (wld C) with
  | Some _ => CBlocked
  | None =>
    match pool C !! t with
    | None | Some (Ret _) => CBlocked
    | Some (Op o k) =>
        match exec c t o (wld C) with
        | Blocked => CBlocked
        | Fault => CFault
        | Done r w' => CStep (Config (<[t := k r]> (pool C)) w')
        end
    | Some (Fork ch k) =>
        CStep (Config (<[t := k (Z.of_nat (wn (wld C)))]> (pool C) ++ [thread ch])
                 (fork_world t (wld C)))
    | Some (Iter b s k) => CStep (Config (<[t := unfold_iter b s k]> (pool C)) (wld C))
    end
  end.

Definition step (C C' : config) : Prop := exists t c, cstep t c C = CStep C'.
Definition steps : config -> config -> Prop := rtc step.
Definition faulty (C : config) : Prop := exists t c, cstep t c C = CFault.

(** The plain object an operation accesses, and whether it writes it. *)
Definition plain_access (o : op) : option (loc * bool) :=
  match o with NaRead x => Some (x, false) | NaWrite x _ => Some (x, true) | _ => None end.

(** The plain access that is the next operation of thread [t], if it is one. *)
Definition next_access (t : tid) (C : config) : option (loc * bool) :=
  match pool C !! t with Some (Op o _) => plain_access o | _ => None end.
Definition about_to (x : loc) (b : bool) (t : tid) (C : config) : Prop :=
  next_access t C = Some (x, b).

(** A data race on the plain object [x]: the next operation of some thread is
    a plain access to [x], and it is undefined. No other undefined behaviour
    is of this form: a plain access is undefined exactly when it is not ordered
    after the last conflicting access. *)
Definition races (x : loc) (C : config) : Prop :=
  exists t c b, about_to x b t C /\ cstep t c C = CFault.

(** Two threads are about to access [x], and one of them to write it. *)
Definition conflict (x : loc) (C : config) : Prop :=
  exists t u b, t <> u /\ about_to x true t C /\ about_to x b u C.

(** A program started as thread 0. *)
Definition start (main : prog Z) : config := Config [main] init_world.
Definition reachable (main : prog Z) (C : config) : Prop := steps (start main) C.

(** Running a given schedule. *)
Fixpoint run (sched : list (tid * choice)) (C : config) : cresult :=
  match sched with
  | [] => CStep C
  | (t, c) :: sched =>
      match cstep t c C with CStep C' => run sched C' | b => b end
  end.

(** A round-robin scheduler, for running programs to the end: an atomic
    access reads the newest write it can, a store takes the first free place,
    of the first [K]. *)
Definition candidates (K : nat) (p : prog Z) : list choice :=
  map (fun i => Choice i false 0)
    match p with Op (AtomicStore _ _ _) _ => seq 0 K | _ => rev (seq 0 K) end.

Fixpoint first_step (t : tid) (cs : list choice) (C : config) : cresult :=
  match cs with
  | [] => CBlocked
  | c :: cs => match cstep t c C with CStep C' => CStep C' | _ => first_step t cs C end
  end.

Fixpoint some_step (K : nat) (ts : list tid) (C : config) : cresult :=
  match ts with
  | [] => CBlocked
  | t :: ts =>
      match pool C !! t with
      | Some p => match first_step t (candidates K p) C with
                  | CStep C' => CStep C' | _ => some_step K ts C
                  end
      | None => some_step K ts C
      end
  end.

Definition turns (fuel n : nat) : list tid := rotate (fuel mod n) (seq 0 n).

Fixpoint drive (fuel K : nat) (C : config) : config :=
  match fuel with
  | O => C
  | S fuel =>
      match some_step K (turns fuel (length (pool C))) C with
      | CStep C' => drive fuel K C' | _ => C
      end
  end.

(** What the first thread has returned. *)
Definition returned (C : config) : option Z :=
  match pool C with Ret v :: _ => Some v | _ => None end.

(** A step in which no operation fails or wakes up spuriously. *)
Definition sure_step (C C' : config) : Prop :=
  exists t c, cspur c = false /\ cstep t c C = CStep C'.

(** The program can still return, by such steps: it is neither deadlocked nor
    doomed to spin for ever. *)
Definition can_return (C : config) : Prop :=
  exists C', rtc sure_step C C' /\ is_Some (returned C').

Lemma run_steps sched C C' : run sched C = CStep C' -> steps C C'.
Proof.
  revert C; induction sched as [|[t c] sched IH]; intros C H; simpl in H.
  - simplify_eq. apply rtc_refl.
  - destruct (cstep t c C) as [| |C1] eqn:E; try done.
    eapply rtc_l; [|by apply IH]. by exists t, c.
Qed.

(** The schedule leads to a data race on [x]. *)
Definition races_after (sched : list (tid * choice)) (t : tid) (c : choice) (x : loc) (C : config) : bool :=
  match run sched C with
  | CStep C' =>
      match cstep t c C', next_access t C' with CFault, Some (y, _) => y =? x | _, _ => false end
  | _ => false
  end.

Lemma run_race sched t c x C :
  races_after sched t c x C = true -> exists C', steps C C' /\ races x C'.
Proof.
  unfold races_after. intros H. destruct (run sched C) as [| |C'] eqn:E; try done. exists C'.
  split; [by eapply run_steps|]. destruct (cstep t c C') eqn:Ec; try done.
  destruct (next_access t C') as [[y b]|] eqn:Ea; [|done]. apply Z.eqb_eq in H as ->. by exists t, c, b.
Qed.

Lemma races_faulty x C : races x C -> faulty C.
Proof. intros (t & c & b & _ & Hc). by exists t, c. Qed.

Lemma first_step_step t cs C C' : first_step t cs C = CStep C' -> step C C'.
Proof.
  induction cs as [|c cs IH]; simpl; [done|]. intros H.
  destruct (cstep t c C) as [| |C1] eqn:E; auto. simplify_eq. by exists t, c.
Qed.

Lemma some_step_step K ts C C' : some_step K ts C = CStep C' -> step C C'.
Proof.
  induction ts as [|t ts IH]; simpl; [done|]. intros H. destruct (pool C !! t); [|auto].
  destruct (first_step t _ C) as [| |C1] eqn:E; auto. simplify_eq. by eapply first_step_step.
Qed.

Lemma drive_steps fuel K C : steps C (drive fuel K C).
Proof.
  revert C; induction fuel as [|fuel IH]; intros C; simpl; [apply rtc_refl|].
  destruct (some_step K _ C) as [| |C1] eqn:E; [apply rtc_refl..|].
  eapply rtc_l; [by eapply some_step_step|apply IH].
Qed.

(** ** Views form a join semilattice *)

#[export] Instance vle_preorder : PreOrder vle.
Proof. split; [intros ??; lia|intros V1 V2 V3 H1 H2 k; specialize (H1 k); specialize (H2 k); lia]. Qed.

#[export] Instance vjoin_proper : Proper (vle ==> vle ==> vle) vjoin.
Proof. intros V1 V2 H W1 W2 H' k. unfold vjoin. specialize (H k). specialize (H' k). lia. Qed.

Lemma vjoin_l V W : V ⊑v V ⊔v W.
Proof. intros k. unfold vjoin. lia. Qed.
Lemma vjoin_r V W : W ⊑v V ⊔v W.
Proof. intros k. unfold vjoin. lia. Qed.
Lemma vbot_le V : vbot ⊑v V.
Proof. intros k. unfold vbot. lia. Qed.
Lemma vle_join_l V W1 W2 : V ⊑v W1 -> V ⊑v W1 ⊔v W2.
Proof. intros H. etrans; [exact H|apply vjoin_l]. Qed.
Lemma vle_join_r V W1 W2 : V ⊑v W2 -> V ⊑v W1 ⊔v W2.
Proof. intros H. etrans; [exact H|apply vjoin_r]. Qed.
Lemma vsing_key k n : vsing k n k = n.
Proof. unfold vsing. apply fn_lookup_insert. Qed.
Lemma vsing_le k n V : (n <= V k)%nat -> vsing k n ⊑v V.
Proof. intros H k'. unfold vsing, vbot. fn_case; [done|lia]. Qed.
Lemma tick_le t V : V ⊑v tick t V.
Proof. intros k. unfold tick. fn_case; lia. Qed.
Lemma covers_mono V W e : V ⊑v W -> covers V e = true -> covers W e = true.
Proof. unfold covers. intros H. specialize (H (KT e.1)). rewrite !Nat.leb_le. lia. Qed.

#[export] Hint Resolve vjoin_l vjoin_r vbot_le vle_join_l vle_join_r vsing_le tick_le : workshop.
