(* ===== verification/Logic.v ===== *)
(** * A program logic for the machine *)

From S2P Require Import Prelude Machine.

(** ** Well-formed worlds *)

Definition epochs (c : cell) : list epoch := nwr c :: nrd c.

(** A view points to writes that exist. *)
Definition seen (w : world) (V : view) : Prop := forall x, is_Some (whist w x (V (KL x))).

(** All views in a world do, and the writes are finitely many. *)
Record wf_hist (w : world) : Prop := {
  wh_bot : seen w vbot;
  wh_view : forall u, seen w (wview w u);
  wh_msg : forall x i m, whist w x i = Some m -> seen w (mview m);
  wh_mtx : forall a, seen w (mrel (wmtx w a));
  wh_wrel : forall a, seen w (rw_wrel (wrw w a));
  wh_rrel : forall a, seen w (rw_rrel (wrw w a));
  wh_bound : forall x, exists B, forall i, (B <= i)%nat -> whist w x i = None
}.

(** Every recorded access is counted by the thread that made it; threads
    that do not exist yet have observed nothing. *)
Record wf (w : world) : Prop := {
  wf_epoch : forall x e, e ∈ epochs (wcell w x) -> (e.2 <= wview w e.1 (KT e.1))%nat;
  wf_fresh : forall u k, (wn w <= u)%nat -> wview w u k = 0%nat;
  wf_seen : wf_hist w
}.

(** The operations that may have to wait for another thread. *)
Definition waits (o : op) : bool :=
  match o with
  | MutexLock _ | CondWake _ _ | RwRdlock _ | RwWrlock _ | Join _ => true
  | _ => false
  end.

(** ** Equivalence of programs up to the continuations' extension *)

Inductive peq {A} : prog A -> prog A -> Prop :=
| peq_ret a : peq (Ret a) (Ret a)
| peq_op o k k' : (forall r, peq (k r) (k' r)) -> peq (Op o k) (Op o k')
| peq_fork c k k' : (forall r, peq (k r) (k' r)) -> peq (Fork c k) (Fork c k')
| peq_iter b s k k' : (forall r, peq (k r) (k' r)) -> peq (Iter b s k) (Iter b s k').

(** ** The logic

    Every thread [t] owns a local ghost state [g t : L]. A logic is given by
    what threads know of each other, the invariant [inv w g]; by when a thread
    can count on getting on with its next operation, [ready t o w g]; and by
    the ghost states of threads that have ended. *)
Record logic (L : Type) := Logic {
  inv : world -> (tid -> L) -> Prop;
  ready : tid -> op -> world -> (tid -> L) -> Prop;
  ended : L -> Prop
}.
Arguments Logic {L}. Arguments inv {L}. Arguments ready {L}. Arguments ended {L}.

Section Wp.
Context {L : Type} (G : logic L).

(** The states in which thread [t] may find the world at its next step. *)
Definition at_state (t : tid) (l : L) (V : view) (w : world) (g : tid -> L) : Prop :=
  wf w /\ inv G w g /\ g t = l /\ wview w t = V /\ (t < wn w)%nat.

(** [fin t p l V Q]: thread [t] can finish [p] if it always gets on when it is
    ready: each of its operations then has an outcome, without a spurious
    failure or wake-up, from which it can finish; finitely many steps lead to
    [Q]. *)
Inductive fin : forall {A : Type}, tid -> prog A -> L -> view -> (A -> L -> view -> Prop) -> Prop :=
| fin_ret A t a l V (Q : A -> L -> view -> Prop) : Q a l V -> fin t (Ret a) l V Q
| fin_op A t o k l V (Q : A -> L -> view -> Prop) (S : Z -> L -> view -> Prop) :
    (forall w g, at_state t l V w g -> ready G t o w g ->
       exists c r w' l', cspur c = false /\ exec c t o w = Done r w' /\
         inv G w' (<[t := l']> g) /\ S r l' (wview w' t)) ->
    (forall r l' V', S r l' V' -> fin t (k r) l' V' Q) -> fin t (Op o k) l V Q
| fin_fork A t ch k l V (Q : A -> L -> view -> Prop) (Sc Sp : tid -> L -> Prop) :
    (forall w g, at_state t l V w g ->
       exists l' lu, inv G (fork_world t w) (<[wn w := lu]> (<[t := l']> g)) /\
         Sc (wn w) lu /\ Sp (wn w) l') ->
    (forall u lu, Sc u lu -> fin u (thread ch) lu V (fun _ l _ => ended G l)) ->
    (forall u l', Sp u l' -> fin t (k (Z.of_nat u)) l' V Q) -> fin t (Fork ch k) l V Q
| fin_iter A t b s k l V (Q : A -> L -> view -> Prop) :
    fin t (unfold_iter b s k) l V Q -> fin t (Iter b s k) l V Q.

(** [wpn n t p l V Q]: for [n] steps, thread [t] running [p] with ghost state
    [l] and view [V] meets no fault, keeps the invariant, can finish at every
    moment, and satisfies [Q] when it returns. *)
Fixpoint wpn (n : nat) {A : Type} (t : tid) (p : prog A) (l : L) (V : view)
    (Q : A -> L -> view -> Prop) {struct n} : Prop :=
  match n with
  | O => True
  | S n =>
    fin t p l V Q /\
    match p with
    | Ret a => Q a l V
    | Op o k =>
        forall w g c, at_state t l V w g ->
        match exec c t o w with
        | Blocked => True
        | Fault => False
        | Done r w' =>
            exists l', inv G w' (<[t := l']> g) /\ wpn n t (k r) l' (wview w' t) Q
        end
    | Fork ch k =>
        forall w g, at_state t l V w g ->
        exists l' lu,
          inv G (fork_world t w) (<[wn w := lu]> (<[t := l']> g)) /\
          wpn n (wn w) (thread ch) lu V (fun _ l _ => ended G l) /\
          wpn n t (k (Z.of_nat (wn w))) l' V Q
    | Iter b s k => wpn n t (unfold_iter b s k) l V Q
    end
  end.

(** For every number of steps. *)
Definition wp {A : Type} (t : tid) (p : prog A) (l : L) (V : view)
    (Q : A -> L -> view -> Prop) : Prop := forall n, wpn n t p l V Q.

(** The first thread's postcondition matters, the others' end is
    [ThreadExit]. *)
Definition post (Qm : Z -> L -> view -> Prop) (t : tid) : Z -> L -> view -> Prop :=
  match t with O => Qm | S _ => fun _ l _ => ended G l end.

(** All threads of a configuration are verified for [n] more steps. *)
Definition ok (Qm : Z -> L -> view -> Prop) (n : nat) (C : config) : Prop :=
  exists g, inv G (wld C) g /\ wf (wld C) /\ length (pool C) = wn (wld C) /\
    (0 < length (pool C))%nat /\
    forall t p, pool C !! t = Some p ->
      wpn n t p (g t) (wview (wld C) t) (post Qm t).
End Wp.
Arguments fin {L} G {A} t p l V Q.
Arguments wpn {L} G n {A} t p l V Q.
Arguments wp {L} G {A} t p l V Q.

(** ** Facts about single steps *)

Ltac exec_cases H :=
  unfold exec, do_cas_weak, do_cond_enter, do_cond_wake, do_trylock in H;
  unfold do_na_read, do_na_write, do_load, do_store, do_lock, do_unlock, do_rdlock, do_wrlock, do_rwunlock, do_join,
    unused_or_fault in H;
  repeat case_match; simplify_eq/=.

Lemma read_view_le V x i m o : V ⊑v read_view V x i m o.
Proof. unfold read_view. auto with workshop. Qed.
Lemma rmw_view_le V x i m o : V ⊑v rmw_view V x i m o.
Proof. unfold rmw_view. auto using read_view_le with workshop. Qed.
#[export] Hint Resolve read_view_le rmw_view_le : workshop.

Lemma do_rmw_inv c t x f r o w v w' :
  do_rmw c t x f r o w = Done v w' ->
  exists m, whist w x (cts c) = Some m /\ whist w x (S (cts c)) = None /\
    (wview w t (KL x) <= cts c)%nat /\ v = r (mval m) /\
    w' = set_hist x (S (cts c)) (rmw_msg (wview w t) x (cts c) m (f (mval m)) o)
           (set_view t (rmw_view (wview w t) x (cts c) m o) w).
Proof.
  unfold do_rmw. intros H. destruct (whist w x (cts c)) as [m|]; [|done].
  destruct (whist w x (S (cts c))); [done|].
  destruct (Nat.leb_spec (wview w t (KL x)) (cts c)); [|done].
  simplify_eq. exists m. naive_solver.
Qed.

(** A plain access by a thread that has seen all earlier ones. *)
Lemma na_read_ok t x w :
  (forall e, e ∈ epochs (wcell w x) -> covers (wview w t) e = true) ->
  do_na_read t x w = Done (nval (wcell w x))
    (set_cell x (Cell (nval (wcell w x)) (nwr (wcell w x))
                   ((t, tick t (wview w t) (KT t)) :: nrd (wcell w x)))
       (set_view t (tick t (wview w t)) w)).
Proof. intros H. unfold do_na_read. by rewrite H by apply list_elem_of_here. Qed.

Lemma na_write_ok t x v w :
  (forall e, e ∈ epochs (wcell w x) -> covers (wview w t) e = true) ->
  do_na_write t x v w = Done 0
    (set_cell x (Cell v (t, tick t (wview w t) (KT t)) []) (set_view t (tick t (wview w t)) w)).
Proof.
  intros H. unfold do_na_write. rewrite H by apply list_elem_of_here.
  replace (forallb (covers (wview w t)) (nrd (wcell w x))) with true; [done|].
  symmetry. apply forallb_forall. intros e He. apply H. apply list_elem_of_further.
  by apply list_elem_of_In.
Qed.

Lemma epochs_read c e e' :
  e ∈ epochs (Cell (nval c) (nwr c) (e' :: nrd c)) -> e = e' \/ e ∈ epochs c.
Proof. unfold epochs. simpl. rewrite !elem_of_cons. tauto. Qed.

Lemma epochs_write v e e' : e ∈ epochs (Cell v e' []) -> e = e'.
Proof. unfold epochs. simpl. by intros ->%list_elem_of_singleton. Qed.

Lemma covers_tick t V W : tick t V ⊑v W -> covers W (t, tick t V (KT t)) = true.
Proof. intros H. unfold covers. apply Nat.leb_le, H. Qed.

(** A step of [t] changes no view but its own, which grows. *)
Lemma exec_view c t o w r w' :
  exec c t o w = Done r w' ->
  (forall u, u <> t -> wview w' u = wview w u) /\ wview w t ⊑v wview w' t /\
  wn w' = wn w.
Proof.
  intros H. destruct o; exec_cases H;
    repeat match goal with H : do_rmw _ _ _ _ _ _ _ = Done _ _ |- _ =>
      apply do_rmw_inv in H; destr; subst end; simpl;
    (split_all; [by intros; rewrite ?fn_lookup_insert_ne by done
      |rewrite ?fn_lookup_insert; solve [reflexivity|auto with workshop]|done]).
Qed.

Lemma exec_view_le c t o w r w' u :
  exec c t o w = Done r w' -> wview w u ⊑v wview w' u.
Proof.
  intros H. apply exec_view in H as (H1 & H2 & _).
  destruct (decide (u = t)) as [->|Hu]; [done|]. by rewrite H1.
Qed.

(** A thread that has observed all threads there are has observed all plain
    accesses. *)
Lemma covers_all V w x e :
  wf w -> (forall u, (u < wn w)%nat -> wview w u ⊑v V) -> e ∈ epochs (wcell w x) ->
  covers V e = true.
Proof.
  intros Hwf HV He. pose proof (wf_epoch _ Hwf _ _ He) as Hle. unfold covers. apply Nat.leb_le.
  destruct (decide (e.1 < wn w)%nat) as [Hlt|Hge].
  - specialize (HV _ Hlt (KT e.1)). lia.
  - rewrite (wf_fresh _ Hwf) in Hle by lia. lia.
Qed.

Lemma covers_alone w x e :
  wf w -> wn w = 1%nat -> e ∈ epochs (wcell w x) -> covers (wview w 0%nat) e = true.
Proof. intros Hwf Hn. apply covers_all; [done|]. intros u Hu. by replace u with 0%nat by lia. Qed.

(** A step records at most one new plain access, by the stepping thread and
    counted by its own clock. *)
Lemma exec_epochs c t o w r w' x e :
  exec c t o w = Done r w' -> e ∈ epochs (wcell w' x) ->
  e ∈ epochs (wcell w x) \/ e = (t, wview w' t (KT t)).
Proof.
  intros H He. destruct o; exec_cases H;
    repeat match goal with H : do_rmw _ _ _ _ _ _ _ = Done _ _ |- _ =>
      apply do_rmw_inv in H; destr; subst end; simpl in *; try by left.
  all: rewrite fn_lookup_insert; unfold epochs in *; fn_cases; simpl in *; try by left.
  all: rewrite ?elem_of_cons in He; rewrite ?elem_of_cons; destruct_or? He; auto;
    by apply elem_of_nil in He.
Qed.

(** *** Views point to existing writes *)

Lemma seen_join w V W : seen w V -> seen w W -> seen w (V ⊔v W).
Proof.
  intros HV HW x. unfold vjoin.
  destruct (Nat.max_spec (V (KL x)) (W (KL x))) as [[_ ->]|[_ ->]]; auto.
Qed.

Lemma seen_tick w t V : seen w V -> seen w (tick t V).
Proof. intros HV x. unfold tick. fn_simpl. apply HV. Qed.

Lemma seen_sing w x i : seen w vbot -> is_Some (whist w x i) -> seen w (vsing (KL x) i).
Proof. intros H0 Hi y. unfold vsing. fn_case; [done|apply H0]. Qed.

Lemma hist_at x i m w : is_Some (whist (set_hist x i m w) x i).
Proof. simpl. fn_simpl. by eexists. Qed.

Lemma hist_grow x i m w y j :
  is_Some (whist w y j) -> is_Some (whist (set_hist x i m w) y j).
Proof.
  intros H. simpl. unfold insert, fn_insert. repeat case_decide; subst; [by eexists|done|done].
Qed.

Lemma seen_grow x i m w V : seen w V -> seen (set_hist x i m w) V.
Proof. intros HV y. apply hist_grow, HV. Qed.

Lemma seen_set_view t U w V : seen w V -> seen (set_view t U w) V.
Proof. done. Qed.

Lemma seen_read w V x i m o :
  wf_hist w -> seen w V -> whist w x i = Some m -> seen w (read_view V x i m o).
Proof.
  intros Hw HV Hi. unfold read_view. apply seen_join; [apply seen_join; [done|]|].
  - apply seen_sing; [by apply wh_bot|by eexists].
  - case_match; [by eapply wh_msg|by apply wh_bot].
Qed.

Lemma wh_set_view t V w : wf_hist w -> seen w V -> wf_hist (set_view t V w).
Proof. intros [H1 H2 H3 H4 H5 H6 H7] HV. split; try done. intros u x. simpl. fn_case; [apply HV|apply H2]. Qed.

Lemma wh_set_hist x i m w :
  wf_hist w -> seen (set_hist x i m w) (mview m) -> wf_hist (set_hist x i m w).
Proof.
  intros [H1 H2 H3 H4 H5 H6 H7] Hm. split; try (intros; apply seen_grow; simpl; auto; fail).
  - intros y j m'. simpl. unfold insert at 1, fn_insert at 1.
    case_decide; [subst y|intros; apply seen_grow; eauto].
    unfold insert, fn_insert. case_decide; [by intros [= <-]|]. intros; apply seen_grow; eauto.
  - intros y. destruct (H7 y) as [B HB]. exists (B `max` S i)%nat. intros j Hj. simpl.
    unfold insert, fn_insert. repeat case_decide; subst; [lia|apply HB; lia|apply HB; lia].
Qed.

Lemma wh_set_mtx a o R w : wf_hist w -> seen w R -> wf_hist (set_mtx a (Mutex o R) w).
Proof. intros [H1 H2 H3 H4 H5 H6 H7] HV. split; try done. intros u x. simpl. fn_case; [apply HV|apply H4]. Qed.

Lemma wh_set_rw a o us R R' w :
  wf_hist w -> seen w R -> seen w R' -> wf_hist (set_rw a (Rwlock o us R R') w).
Proof.
  intros [H1 H2 H3 H4 H5 H6 H7] Hm Hr. split; try done; intros u x; simpl; fn_case;
    [apply Hm|apply H5|apply Hr|apply H6].
Qed.

(** A change to the parts of a world that hold no view. *)
Lemma wh_frame w w' :
  wview w' = wview w -> whist w' = whist w -> wmtx w' = wmtx w -> wrw w' = wrw w ->
  wf_hist w -> wf_hist w'.
Proof. intros E1 E2 E3 E4 []. split; unfold seen in *; rewrite ?E1, ?E2, ?E3, ?E4; done. Qed.

Lemma wh_set_cell x c w : wf_hist w -> wf_hist (set_cell x c w).
Proof. by apply wh_frame. Qed.
Lemma wh_set_cond x c w : wf_hist w -> wf_hist (set_cond x c w).
Proof. by apply wh_frame. Qed.
Lemma wh_set_done t v w : wf_hist w -> wf_hist (set_done t v w).
Proof. by apply wh_frame. Qed.
Lemma wh_add_out e w : wf_hist w -> wf_hist (add_out e w).
Proof. by apply wh_frame. Qed.
Lemma wh_set_exit v w : wf_hist w -> wf_hist (set_exit v w).
Proof. by apply wh_frame. Qed.

Create HintDb seen.
#[export] Hint Resolve seen_set_view seen_join seen_tick seen_sing seen_grow hist_at wh_bot wh_view wh_mtx wh_wrel
  wh_rrel wh_msg wh_set_view wh_set_mtx wh_set_rw seen_read
  wh_set_cell wh_set_cond wh_set_done wh_add_out wh_set_exit : seen.

(** A write by a thread that moves to the view [V]. *)
Lemma wh_write t V x i m w :
  wf_hist w -> seen (set_hist x i m w) V -> seen (set_hist x i m w) (mview m) ->
  wf_hist (set_hist x i m (set_view t V w)).
Proof.
  intros Hw HV Hm. change (wf_hist (set_view t V (set_hist x i m w))).
  apply wh_set_view; [|done]. by apply wh_set_hist.
Qed.

Lemma wh_rmw t x i m v o w :
  wf_hist w -> whist w x i = Some m ->
  wf_hist (set_hist x (S i) (rmw_msg (wview w t) x i m v o)
             (set_view t (rmw_view (wview w t) x i m o) w)).
Proof.
  intros Hw Hi. set (m' := rmw_msg _ _ _ _ _ _).
  assert (seen (set_hist x (S i) m' w) (rmw_view (wview w t) x i m o)) as HV
    by (unfold rmw_view; apply seen_join; [apply seen_grow, seen_read|apply seen_sing]; eauto with seen).
  apply wh_write; [done..|]. simpl. apply seen_join; [eauto with seen|].
  case_match; [done|]. eauto with seen.
Qed.

Lemma exec_wf_hist c t o w r w' : exec c t o w = Done r w' -> wf_hist w -> wf_hist w'.
Proof.
  intros H Hw. destruct o; exec_cases H;
    repeat match goal with H : do_rmw _ _ _ _ _ _ _ = Done _ _ |- _ =>
      apply do_rmw_inv in H; destr; subst end;
    try (by apply wh_rmw); try (by eauto 20 with seen);
    (apply wh_write; [done| |]; simpl; eauto 20 with seen).
Qed.

Lemma exec_wf c t o w r w' :
  exec c t o w = Done r w' -> (t < wn w)%nat -> wf w -> wf w'.
Proof.
  intros H Ht [He Hf Hs]. destruct (exec_view _ _ _ _ _ _ H) as (Hu & Hle & Hn).
  split; [| |by eapply exec_wf_hist].
  - intros x e Hin. destruct (exec_epochs _ _ _ _ _ _ _ _ H Hin) as [Hin'| ->]; [|done].
    specialize (He _ _ Hin'). pose proof (exec_view_le _ _ _ _ _ _ e.1 H (KT e.1)). lia.
  - intros u k. rewrite Hn. intros Hk. rewrite Hu by lia. by apply Hf.
Qed.

Lemma fork_wf t w : wf w -> wf (fork_world t w).
Proof.
  intros [He Hf Hs]. split; simpl.
  - intros x e Hin. specialize (He _ _ Hin). fn_case; [|done].
    rewrite Hf in He by lia. lia.
  - intros u k Hk. fn_case; [lia|]. apply Hf. lia.
  - unfold fork_world. eapply (wh_frame (set_view (wn w) (wview w t) w)); [done..|]. eauto with seen.
Qed.

Lemma init_wf : wf init_world.
Proof.
  split; simpl; [|done|].
  - intros x e He. unfold epochs in He; simpl in He. apply list_elem_of_singleton in He as ->. done.
  - assert (seen init_world vbot) as H0 by (intros x; by eexists).
    split; simpl; try done.
    + intros x [|i] m; [|done]. by intros [= <-].
    + intros x. exists 1%nat. intros [|i] Hi; [lia|done].
Qed.

(** An operation that does not wait for another thread always has an outcome,
    and without a spurious failure. *)
Lemma last_write w t x :
  wf_hist w -> exists i m, whist w x i = Some m /\ whist w x (S i) = None /\ (wview w t (KL x) <= i)%nat.
Proof.
  intros Hw. destruct (wh_bound _ Hw x) as [B HB]. pose proof (wh_view _ Hw t x) as Hv.
  set (v := wview w t (KL x)) in *. clearbody v.
  assert (forall n i, (B <= i + n)%nat -> (v <= i)%nat -> is_Some (whist w x i) ->
            exists i m, whist w x i = Some m /\ whist w x (S i) = None /\ (v <= i)%nat) as Hn.
  { induction n as [|n IH]; intros i Hi Hvi [m Hm].
    - rewrite HB in Hm by lia. done.
    - destruct (whist w x (S i)) eqn:E; [|by exists i, m]. apply (IH (S i)); [lia|lia|by eexists]. }
  by apply (Hn B v); [lia| |].
Qed.

Lemma exec_enabled t o w :
  wf_hist w -> waits o = false -> exists c, cspur c = false /\ exec c t o w <> Blocked.
Proof.
  intros Hw Ho.
  assert (forall x, exists c m, cspur c = false /\ whist w x (cts c) = Some m /\
            whist w x (S (cts c)) = None /\ (wview w t (KL x) <=? cts c)%nat = true) as Hlast.
  { intros x. destruct (last_write w t x Hw) as (i & m & H1 & H2 & H3).
    exists (Choice i false 0), m. split_all; try done. by apply Nat.leb_le. }
  destruct o as [x|x v|x o|x v o|b x d o|x o|x e d o1 o2|m|m|m|m|m|v|v|v|v m|v m|a|a|a|a|a|u|v|f args| | | |v|];
    try done; try (exists (Choice 0 false 0); split; [done|]; simpl; unfold do_na_read, do_na_write, do_unlock,
      do_trylock, do_lock, do_cond_enter, do_unlock, do_rwunlock, unused_or_fault; repeat case_match; done).
  - destruct (Hlast x) as (c & m & Hc & H1 & _ & H2). exists c. split; [done|]. simpl. unfold do_load.
    by rewrite H1, H2.
  - destruct (wh_bound _ Hw x) as [B HB]. exists (Choice (B `max` S (wview w t (KL x))) false 0).
    split; [done|]. simpl. unfold do_store. simpl. rewrite HB by lia.
    destruct (Nat.ltb_spec (wview w t (KL x)) (B `max` S (wview w t (KL x)))); [done|lia].
  - destruct (Hlast x) as (c & m & Hc & H1 & H0 & H2). exists c. split; [done|]. simpl. unfold do_rmw.
    by rewrite H1, H0, H2.
  - destruct (Hlast x) as (c & m & Hc & H1 & H0 & H2). exists c. split; [done|]. simpl. unfold do_rmw.
    by rewrite H1, H0, H2.
  - destruct (Hlast x) as (c & m & Hc & H1 & H0 & H2). exists c. split; [done|]. simpl.
    unfold do_cas_weak, do_rmw, do_load. rewrite H1, H0, H2. by case_match.
Qed.

(** ** Program equivalence *)

#[export] Instance peq_refl {A} : Reflexive (@peq A).
Proof. intros p. induction p; by constructor. Qed.

#[export] Instance peq_trans {A} : Transitive (@peq A).
Proof.
  intros p q r Hpq. revert r. induction Hpq; intros r' Hqr; inversion Hqr; subst; auto;
    constructor; auto.
Qed.

Lemma bind_cong {A B} (p : prog A) (f f' : A -> prog B) :
  (forall a, peq (f a) (f' a)) -> peq (bind p f) (bind p f').
Proof. intros Hf. induction p; simpl; auto; by constructor; auto. Qed.

Lemma bind_assoc {A B C} (p : prog A) (f : A -> prog B) (h : B -> prog C) :
  peq (bind (bind p f) h) (bind p (fun a => bind (f a) h)).
Proof. induction p; simpl; [reflexivity|..]; by constructor; auto. Qed.

Lemma bind_ret {A} (p : prog A) : peq (bind p Ret) p.
Proof. induction p; simpl; by constructor. Qed.

Lemma unfold_cong {A} b s (k k' : Z -> prog A) :
  (forall r, peq (k r) (k' r)) -> peq (unfold_iter b s k) (unfold_iter b s k').
Proof. intros H. apply bind_cong. intros [s'|x]; [by constructor|done]. Qed.

(** Unfolding a loop under a continuation. *)
Lemma unfold_bind {A B} b s (k : Z -> prog A) (f : A -> prog B) :
  peq (bind (unfold_iter b s k) f) (unfold_iter b s (fun r => bind (k r) f)).
Proof.
  unfold unfold_iter. etrans; [apply bind_assoc|].
  apply bind_cong. intros [s'|x]; simpl; reflexivity.
Qed.

(** ** Structural rules *)

Section WpRules.
Context {L : Type} (G : logic L).
Local Abbreviation fin := (fin G).
Local Abbreviation wpn := (wpn G).

Lemma fin_mono {A} t (p : prog A) l V Q Q' :
  (forall a l V, Q a l V -> Q' a l V) -> fin t p l V Q -> fin t p l V Q'.
Proof.
  intros HQ Hp. revert Q' HQ.
  induction Hp as [A t a l V Q Ha|A t o k l V Q S Hs _ IH|A t ch k l V Q Sc Sp Hs Hc _ _ IH
    |A t b s k l V Q _ IH]; intros Q' HQ.
  - apply fin_ret. by apply HQ.
  - eapply fin_op; [exact Hs|]. intros. by eapply IH.
  - eapply fin_fork; [exact Hs|exact Hc|]. intros. by eapply IH.
  - apply fin_iter. by apply IH.
Qed.

Lemma fin_peq {A} t (p p' : prog A) l V Q : peq p p' -> fin t p l V Q -> fin t p' l V Q.
Proof.
  intros He Hp. revert p' He.
  induction Hp as [A t a l V Q Ha|A t o k l V Q S Hs _ IH|A t ch k l V Q Sc Sp Hs Hc _ _ IH
    |A t b s k l V Q _ IH]; intros p' He; inversion He as [|? ? k' Hk|? ? k' Hk|? ? ? k' Hk]; simplify_eq.
  - by apply fin_ret.
  - eapply fin_op; [exact Hs|]. intros. by eapply IH.
  - eapply fin_fork; [exact Hs|exact Hc|]. intros. by eapply IH.
  - apply fin_iter, IH. by apply unfold_cong.
Qed.

Lemma fin_bind {A B} t (p : prog A) (f : A -> prog B) l V Q :
  fin t p l V (fun a l' V' => fin t (f a) l' V' Q) -> fin t (bind p f) l V Q.
Proof.
  remember (fun a l' V' => fin t (f a) l' V' Q) as R eqn:ER. intros Hp.
  assert (forall a l' V', R a l' V' -> fin t (f a) l' V' Q) as HR by (by rewrite ER). clear ER.
  revert f Q HR.
  induction Hp as [A t a l V R Ha|A t o k l V R S Hs _ IH|A t ch k l V R Sc Sp Hs Hc _ _ IH
    |A t b s k l V R _ IH]; intros f Q HR; simpl.
  - by apply HR.
  - eapply fin_op; [exact Hs|]. intros. by eapply IH.
  - eapply fin_fork; [exact Hs|exact Hc|]. intros. by eapply IH.
  - apply fin_iter. eapply fin_peq; [apply unfold_bind|]. by apply IH.
Qed.

(** One turn of a loop, and perhaps more. *)
Lemma fin_loop t (body : Z -> prog (Z + Z)) s l V (Q : Z -> L -> view -> Prop) :
  fin t (body s) l V (fun r l' V' =>
    match r with inl s' => fin t (loop_ s' body) l' V' Q | inr x => Q x l' V' end) ->
  fin t (loop_ s body) l V Q.
Proof.
  intros H. apply fin_iter, fin_bind. eapply fin_mono; [|exact H]. intros [s'|x] l' V' Hr; [done|].
  by apply fin_ret.
Qed.

Lemma fin_while t (cond : prog bool) (body : prog unit) l V (Q : unit -> L -> view -> Prop) :
  fin t cond l V (fun b l' V' =>
    if b then fin t body l' V' (fun _ l'' V'' => fin t (while_ cond body) l'' V'' Q)
    else Q tt l' V') ->
  fin t (while_ cond body) l V Q.
Proof.
  intros H. apply fin_iter, fin_bind, fin_bind. eapply fin_mono; [|exact H].
  intros [] l' V' Hr; [|by apply fin_ret, fin_ret].
  apply fin_bind. eapply fin_mono; [|exact Hr]. intros u l'' V'' H'. by apply fin_ret.
Qed.

(** Fewer steps, weaker postcondition. *)
Lemma wpn_mono {A} n m t (p : prog A) l V Q Q' :
  (m <= n)%nat -> (forall a l V, Q a l V -> Q' a l V) ->
  wpn n t p l V Q -> wpn m t p l V Q'.
Proof.
  revert A m t p l V Q Q'. induction n as [|n IH]; intros A m t p l V Q Q' Hm HQ Hp.
  { by replace m with 0%nat by lia. }
  destruct m as [|m]; [done|]. simpl in *. destruct Hp as [Hfin Hp].
  split; [by eapply fin_mono|]. destruct p as [a|o k|ch k|b s k].
  - by apply HQ.
  - intros w g c Hst. specialize (Hp w g c Hst). destruct (exec c t o w); [done..|].
    destruct Hp as (l' & Hi & Hk). exists l'. split; [done|].
    eapply IH; [|done|exact Hk]; lia.
  - intros w g Hst. destruct (Hp w g Hst) as (l' & lu & Hi & Hc & Hk).
    exists l', lu. split_all; [done|eapply IH; [| |exact Hc]; [lia|done]
      |eapply IH; [|done|exact Hk]; lia].
  - eapply IH; [|done|exact Hp]; lia.
Qed.

Lemma wpn_peq {A} n t (p p' : prog A) l V Q :
  peq p p' -> wpn n t p l V Q -> wpn n t p' l V Q.
Proof.
  revert A t p p' l V Q. induction n as [|n IH]; intros A t p p' l V Q He Hp; [done|].
  destruct Hp as [Hfin Hp]. split; [by eapply fin_peq|]. clear Hfin.
  destruct He as [a|o k k' Hk|ch k k' Hk|b s k k' Hk]; simpl in *.
  - done.
  - intros w g c Hst. specialize (Hp w g c Hst). destruct (exec c t o w); [done..|].
    destruct Hp as (l' & Hi & Hp). exists l'. split; [done|]. eapply IH; [apply Hk|done].
  - intros w g Hst. destruct (Hp w g Hst) as (l' & lu & Hi & Hc & Hp').
    exists l', lu. split_all; [done..|]. eapply IH; [apply Hk|done].
  - eapply IH; [|exact Hp]. by apply unfold_cong.
Qed.

Lemma wpn_fin {A} n t (p : prog A) l V Q : wpn (S n) t p l V Q -> fin t p l V Q.
Proof. by intros [H _]. Qed.

Lemma wpn_bind {A B} n t (p : prog A) (f : A -> prog B) l V Q :
  wpn n t p l V (fun a l' V' => wpn n t (f a) l' V' Q) -> wpn n t (bind p f) l V Q.
Proof.
  revert t p l V. induction n as [|n IH]; intros t p l V Hp; [done|].
  assert (forall (p : prog A) l V, wpn n t p l V (fun a l' V' => wpn (S n) t (f a) l' V' Q) ->
            wpn n t (bind p f) l V Q) as IH'.
  { intros q l' V' Hq. apply IH. eapply wpn_mono; [| |exact Hq]; [done|].
    intros a l1 V1 Ha. eapply wpn_mono; [| |exact Ha]; [lia|done]. }
  assert (fin t (bind p f) l V Q) as Hfin.
  { apply fin_bind. eapply fin_mono; [|apply (wpn_fin _ _ _ _ _ _ Hp)]. intros a l' V' Ha. exact (wpn_fin n _ _ _ _ _ Ha). }
  destruct Hp as [_ Hp].
  destruct p as [a|o k|ch k|b s k]; [exact Hp|..]; (split; [exact Hfin|]); clear Hfin.
  - intros w g c Hst. specialize (Hp w g c Hst). destruct (exec c t o w); [done..|].
    destruct Hp as (l' & Hi & Hk). exists l'. split; [done|]. by apply IH'.
  - intros w g Hst. destruct (Hp w g Hst) as (l' & lu & Hi & Hc & Hk).
    exists l', lu. split_all; [done..|]. by apply IH'.
  - eapply wpn_peq; [apply unfold_bind|]. by apply IH'.
Qed.

(** *** Rules for every number of steps *)

Local Abbreviation wp := (wp G).

Lemma wp_fin {A} t (p : prog A) l V Q : wp t p l V Q -> fin t p l V Q.
Proof. intros H. apply (wpn_fin 0), H. Qed.

Lemma wp_ret {A} t (a : A) l V (Q : A -> L -> view -> Prop) : Q a l V -> wp t (Ret a) l V Q.
Proof. intros H [|n]; [done|]. split; [by apply fin_ret|exact H]. Qed.

Lemma wp_mono {A} t (p : prog A) l V Q Q' :
  wp t p l V Q -> (forall a l V, Q a l V -> Q' a l V) -> wp t p l V Q'.
Proof. intros H HQ n. by eapply wpn_mono. Qed.

Lemma wp_bind {A B} t (p : prog A) (f : A -> prog B) l V Q :
  wp t p l V (fun a l' V' => wp t (f a) l' V' Q) -> wp t (bind p f) l V Q.
Proof.
  intros H n. apply wpn_bind. eapply wpn_mono; [done| |exact (H n)]. intros a l' V' Ha. apply Ha.
Qed.

Lemma wp_peq {A} t (p p' : prog A) l V Q : peq p p' -> wp t p l V Q -> wp t p' l V Q.
Proof. intros He H n. eapply wpn_peq; [exact He|apply H]. Qed.

Lemma wp_op {A} t o (k : Z -> prog A) l V Q :
  (forall w g c, at_state G t l V w g ->
     match exec c t o w with
     | Blocked => True
     | Fault => False
     | Done r w' => exists l', inv G w' (<[t := l']> g) /\ wp t (k r) l' (wview w' t) Q
     end) ->
  (forall w g, at_state G t l V w g -> ready G t o w g ->
     exists c, cspur c = false /\ exec c t o w <> Blocked) ->
  wp t (Op o k) l V Q.
Proof.
  intros H Hlive [|n]; [done|]. split.
  - eapply fin_op with (S := fun r l' V' => wp t (k r) l' V' Q); [|intros r l' V'; apply wp_fin].
    intros w g Hst Hr. destruct (Hlive w g Hst Hr) as (c & Hc & Hb). specialize (H w g c Hst).
    destruct (exec c t o w) as [| |r w'] eqn:E; [done..|]. destruct H as (l' & Hi & Hw).
    by exists c, r, w', l'.
  - intros w g c Hst. specialize (H w g c Hst).
    destruct (exec c t o w); [done..|]. destruct H as (l' & Hi & Hk). by exists l'.
Qed.

Lemma wp_fork {A} t ch (k : Z -> prog A) l V Q :
  (forall w g, at_state G t l V w g ->
     exists l' lu, inv G (fork_world t w) (<[wn w := lu]> (<[t := l']> g)) /\
       wp (wn w) (thread ch) lu V (fun _ l _ => ended G l) /\
       wp t (k (Z.of_nat (wn w))) l' V Q) ->
  wp t (Fork ch k) l V Q.
Proof.
  intros H [|n]; [done|]. split.
  - eapply fin_fork with (Sc := fun u lu => wp u (thread ch) lu V (fun _ l _ => ended G l))
      (Sp := fun u l' => wp t (k (Z.of_nat u)) l' V Q); [exact H|..]; intros; by apply wp_fin.
  - intros w g Hst. destruct (H w g Hst) as (l' & lu & Hi & Hc & Hk). by exists l', lu.
Qed.

(** An unbounded loop with invariant [P] on its variable, which can be left
    whenever the thread is ready. *)
Lemma wp_loop t body s l V (P : Z -> L -> view -> Prop) (Q : Z -> L -> view -> Prop) :
  (forall s l V, P s l V ->
     wp t (body s) l V (fun r l' V' => match r with inl s' => P s' l' V' | inr x => Q x l' V' end)) ->
  (forall s l V, P s l V -> fin t (loop_ s body) l V Q) ->
  P s l V -> wp t (loop_ s body) l V Q.
Proof.
  intros Hb Hfin HP n. revert s l V HP. induction n as [|n IH]; intros s l V HP; [done|].
  split; [by apply Hfin|]. apply wpn_bind. eapply wpn_mono; [done| |exact (Hb s l V HP n)].
  intros [s'|x] l' V' H; [by apply IH|]. by apply wp_ret.
Qed.

(** One turn of a loop. *)
Lemma wp_loop_turn t body s l V (Q : Z -> L -> view -> Prop) :
  wp t (body s) l V (fun r l' V' =>
    match r with inl s' => wp t (loop_ s' body) l' V' Q | inr x => Q x l' V' end) ->
  wp t (loop_ s body) l V Q.
Proof.
  intros Hb [|n]; [done|]. split.
  - apply fin_loop. eapply fin_mono; [|by apply wp_fin]. intros [s'|x] l' V' Hr; [by apply wp_fin|done].
  - apply wpn_bind. eapply wpn_mono; [done| |exact (Hb n)]. intros [s'|x] l' V' Hr; [exact (Hr n)|by apply wp_ret].
Qed.

(** One turn of a [while] loop. *)
Lemma wp_while_turn t (cond : prog bool) (body : prog unit) l V (Q : unit -> L -> view -> Prop) :
  wp t cond l V (fun b l' V' =>
    if b then wp t body l' V' (fun _ l'' V'' => wp t (while_ cond body) l'' V'' Q) else Q tt l' V') ->
  wp t (while_ cond body) l V Q.
Proof.
  intros Hb [|n]; [done|]. split.
  - apply fin_while. eapply fin_mono; [|by apply wp_fin]. intros [] l' V' Hr; [|done].
    eapply fin_mono; [|by apply wp_fin]. intros u l'' V''. apply wp_fin.
  - apply wpn_bind, wpn_bind. eapply wpn_mono; [done| |exact (Hb n)].
    intros [] l' V' Hr; [|by apply wp_ret, wp_ret]. apply wpn_bind.
    eapply wpn_mono; [done| |exact (Hr n)]. intros u l'' V'' Hr'. apply wp_ret. exact (Hr' n).
Qed.

Lemma wp_while t (cond : prog bool) body l V (P : L -> view -> Prop) (Q : unit -> L -> view -> Prop) :
  (forall l V, P l V ->
     wp t cond l V (fun b l' V' =>
       if b then wp t body l' V' (fun _ l'' V'' => P l'' V'') else Q tt l' V')) ->
  (forall l V, P l V -> fin t (while_ cond body) l V Q) ->
  P l V -> wp t (while_ cond body) l V Q.
Proof.
  intros Hb Hfin HP n. revert l V HP. induction n as [|n IH]; intros l V HP; [done|].
  split; [by apply Hfin|]. apply wpn_bind, wpn_bind.
  eapply wpn_mono; [done| |exact (Hb l V HP n)]. intros [] l' V' H.
  - apply wpn_bind. eapply wpn_mono; [done| |exact (H n)].
    intros u l'' V'' HP'. apply wp_ret, IH, HP'.
  - by do 2 apply wp_ret.
Qed.

(** A counted loop with invariant [P] on its counter. *)
Lemma wp_for_from t n i body l V (P : Z -> L -> view -> Prop) :
  (forall j l V, i <= j < i + Z.of_nat n -> P j l V ->
     wp t (body j) l V (fun _ l' V' => P (j + 1) l' V')) ->
  P i l V ->
  wp t (for_from n i body) l V (fun _ l' V' => P (i + Z.of_nat n) l' V').
Proof.
  revert i l V. induction n as [|n IH]; intros i l V Hb HP.
  { apply wp_ret. by replace (i + Z.of_nat 0) with i by lia. }
  apply wp_bind. eapply wp_mono; [apply Hb; [lia|exact HP]|]. intros u l' V' HP'.
  replace (i + Z.of_nat (S n)) with (i + 1 + Z.of_nat n) by lia.
  apply IH; [|done]. intros j l1 V1 Hj. apply Hb. lia.
Qed.

Lemma wp_for t n body l V (P : Z -> L -> view -> Prop) :
  0 <= n ->
  (forall j l V, 0 <= j < n -> P j l V -> wp t (body j) l V (fun _ l' V' => P (j + 1) l' V')) ->
  P 0 l V -> wp t (for_ n body) l V (fun _ l' V' => P n l' V').
Proof.
  intros Hn Hb HP. pose proof (wp_for_from t (Z.to_nat n) 0 body l V P) as H.
  rewrite Z2Nat.id in H by done. apply H; [|done]. intros j l' V' Hj. apply Hb. lia.
Qed.

(** *** Adequacy *)

Context (Qm : Z -> L -> view -> Prop).
Local Abbreviation ok := (ok G Qm).
Local Abbreviation post := (post G Qm).

Lemma ok_no_fault n C : ok (S n) C -> ~ faulty C.
Proof.
  intros (g & Hi & Hwf & Hlen & _ & Hp) (t & c & Hf). unfold cstep in Hf.
  destruct (wexit (wld C)); [done|].
  destruct (pool C !! t) as [[| |ch k|]|] eqn:Et; try done.
  specialize (Hp _ _ Et). apply lookup_lt_Some in Et. destruct Hp as [_ Hp].
  specialize (Hp (wld C) g c). destruct (exec c t o (wld C)); try done.
  apply Hp. unfold at_state. split_all; try done. lia.
Qed.

(** Threads other than the stepping one keep their local assertion. *)
Lemma ok_others n C g t p' w' g' u p :
  (forall t p, pool C !! t = Some p ->
     wpn (S n) t p (g t) (wview (wld C) t) (post t)) ->
  (forall v, v <> t -> (v < length (pool C))%nat -> g' v = g v /\ wview w' v = wview (wld C) v) ->
  wpn n t p' (g' t) (wview w' t) (post t) ->
  <[t := p']> (pool C) !! u = Some p ->
  wpn n u p (g' u) (wview w' u) (post u).
Proof.
  intros Hp Hs Ht Hu. destruct (decide (u = t)) as [->|Hne].
  - rewrite list_lookup_insert_eq in Hu by (apply lookup_lt_Some in Hu; by rewrite length_insert in Hu).
    by simplify_eq.
  - rewrite list_lookup_insert_ne in Hu by done.
    destruct (Hs u Hne) as [-> ->]; [by eapply lookup_lt_Some|].
    eapply wpn_mono; [| |by apply Hp]; [lia|done].
Qed.

Lemma ok_step n C C' : ok (S n) C -> step C C' -> ok n C'.
Proof.
  intros (g & Hi & Hwf & Hlen & Hpos & Hp) (t & c & Hs). unfold cstep in Hs.
  destruct (wexit (wld C)); [done|].
  destruct (pool C !! t) as [p|] eqn:Et; [|done].
  destruct (Hp _ _ Et) as [_ Ht]. pose proof (lookup_lt_Some _ _ _ Et) as Hlt.
  assert (at_state G t (g t) (wview (wld C) t) (wld C) g) as Hst
    by (unfold at_state; split_all; try done; lia).
  destruct p as [a|o k|ch k|b s k]; [done|..].
  - specialize (Ht (wld C) g c Hst). destruct (exec c t o (wld C)) as [| |r w'] eqn:Ex; [done..|].
    simplify_eq. destruct Ht as (l' & Hi' & Hk).
    destruct (exec_view _ _ _ _ _ _ Ex) as (Hv & _ & Hn).
    exists (<[t := l']> g). simpl. rewrite length_insert.
    split_all; [done|eapply exec_wf; [exact Ex|lia|done]|lia|lia|].
    intros u q Hu. eapply ok_others; [exact Hp| | |exact Hu].
    + intros v Hv'. rewrite fn_lookup_insert_ne by done. auto.
    + by rewrite fn_lookup_insert.
  - simplify_eq. destruct (Ht (wld C) g Hst) as (l' & lu & Hi' & Hc & Hk).
    exists (<[wn (wld C) := lu]> (<[t := l']> g)). simpl. rewrite length_app, length_insert. simpl.
    split_all; [done|by apply fork_wf|lia|lia|].
    intros u q Hu. apply lookup_app_Some in Hu as [Hu|[Hge Hu]].
    + eapply (ok_others n C g t _ (fork_world t (wld C))); [exact Hp| | |exact Hu]; simpl.
      * intros v Hv Hvl. fn_simpl. done.
      * fn_simpl. exact Hk.
    + rewrite length_insert in *. apply list_lookup_singleton_Some in Hu as [Hu <-].
      assert (u = wn (wld C)) as -> by lia. fn_simpl.
      destruct (wn (wld C)) eqn:Ew; [lia|]. exact Hc.
  - simplify_eq. exists g. simpl. rewrite length_insert. split_all; [done..|].
    intros u q Hu. eapply ok_others; [exact Hp| | |exact Hu]; [done|exact Ht].
Qed.

Lemma ok_reachable main g n C :
  inv G init_world g -> wp 0%nat main (g 0%nat) vbot Qm -> reachable main C -> ok n C.
Proof.
  intros Hi Hm Hr. unfold reachable, steps in Hr. apply rtc_nsteps in Hr as [k Hr].
  assert (ok (k + n) (start main)) as Hok0.
  { exists g. split_all; [done|apply init_wf|done|simpl; lia|].
    intros t p. destruct t; simpl; [|done]. intros [= <-]. apply Hm. }
  revert n Hok0. induction Hr as [|k C1 C2 C3 Hst Hr IH]; [done|].
  intros n Hok0. apply IH. eapply ok_step; [|done]. exact Hok0.
Qed.

(** A verified program, in every reachable configuration: no fault, the
    invariant holds, and if the first thread has returned its
    postcondition holds. *)
Theorem adequacy main g :
  inv G init_world g -> wp 0%nat main (g 0%nat) vbot Qm ->
  forall C, reachable main C -> ~ faulty C /\ exists g', inv G (wld C) g' /\ wf (wld C) /\
    forall v, pool C !! 0%nat = Some (Ret v) -> Qm v (g' 0%nat) (wview (wld C) 0%nat).
Proof.
  intros Hi Hm C Hr.
  split; [by apply (ok_no_fault 0), (ok_reachable main g)|].
  destruct (ok_reachable main g 1 C Hi Hm Hr) as (g' & ? & ? & _ & _ & Hp). exists g'. split_all; [done..|].
  intros v Hv. exact (proj2 (Hp _ _ Hv)).
Qed.

(** *** Progress

    A configuration whose threads can all finish, and in which always some
    thread is ready, can be run to the end. The threads' ways to finish are
    trees; a run follows one edge of one of them at a time. *)

Abbreviation tmap := (tid -> option (prog Z * L * view)) (only parsing).

(** Thread [t] of [T] has a way to go on that leads to a member of [P]. *)
Definition move (P : tmap -> Prop) (T : tmap) (t : tid) (p : prog Z) (l : L) (V : view) : Prop :=
  match p with
  | Ret v => post t v l V
  | Op o k =>
      exists S : Z -> L -> view -> Prop,
        (forall w g, at_state G t l V w g -> ready G t o w g ->
           exists c r w' l', cspur c = false /\ exec c t o w = Done r w' /\
             inv G w' (<[t := l']> g) /\ S r l' (wview w' t)) /\
        (forall r l' V' T', S r l' V' -> (forall u, T' u = <[t := Some (k r, l', V')]> T u) -> P T')
  | Fork ch k =>
      exists Sc Sp : tid -> L -> Prop,
        (forall w g, at_state G t l V w g ->
           exists l' lu, inv G (fork_world t w) (<[wn w := lu]> (<[t := l']> g)) /\
             Sc (wn w) lu /\ Sp (wn w) l') /\
        (forall u lu l' T', (0 < u)%nat -> T u = None -> Sc u lu -> Sp u l' ->
           (forall v, T' v = <[u := Some (thread ch, lu, V)]>
                              (<[t := Some (k (Z.of_nat u), l', V)]> T) v) -> P T')
  | Iter b s k => forall T', (forall u, T' u = <[t := Some (unfold_iter b s k, l, V)]> T u) -> P T'
  end.

Definition moves (P : tmap -> Prop) (T : tmap) : Prop :=
  forall t p l V, T t = Some (p, l, V) -> move P T t p l V.

(** The threads of [T] can all finish, however their steps are interleaved. *)
Definition multi (T : tmap) : Prop :=
  forall P : tmap -> Prop, (forall T, moves P T -> P T) -> P T.

Lemma moves_mono (P P' : tmap -> Prop) T : (forall T, P T -> P' T) -> moves P T -> moves P' T.
Proof.
  intros HP Hc t p l V Ht. specialize (Hc t p l V Ht). destruct p; simpl in *; [done|..].
  - destruct Hc as (S & H1 & H2). exists S. split; eauto.
  - destruct Hc as (Sc & Sp & H1 & H2). exists Sc, Sp. split; eauto 10.
  - eauto.
Qed.

Lemma multi_fold T : moves multi T -> multi T.
Proof. intros Hc P HP. apply HP. eapply moves_mono; [|exact Hc]. intros T' H. by apply H. Qed.

Lemma multi_rec (P : tmap -> Prop) :
  (forall T, multi T -> moves P T -> P T) -> forall T, multi T -> P T.
Proof.
  intros HP T HT. apply (HT (fun T => multi T /\ P T)). intros T' Hc.
  assert (multi T') as HT' by (apply multi_fold; eapply moves_mono; [|exact Hc]; by intros ? []).
  split; [done|]. apply HP; [done|]. eapply moves_mono; [|exact Hc]. by intros ? [].
Qed.

Lemma multi_ext T T' : (forall u, T' u = T u) -> multi T -> multi T'.
Proof.
  intros HTT HT. revert T' HTT. pattern T. revert T HT. apply multi_rec. intros T HT Hc T' HTT.
  apply multi_fold. intros t p l V Ht. rewrite HTT in Ht. specialize (Hc t p l V Ht).
  destruct p as [v|o k|ch k|b s k]; simpl in *; [done|..].
  - destruct Hc as (S & H1 & H2). exists S. split; [done|]. intros r l' V' T1 HS HT1.
    eapply H2; [exact HS|intros u; reflexivity|]. intros u. rewrite HT1. unfold insert, fn_insert. by case_decide.
  - destruct Hc as (Sc & Sp & H1 & H2). exists Sc, Sp. split; [done|]. intros u lu l' T1 Hu Tu HSc HSp HT1.
    rewrite HTT in Tu. eapply H2; [exact Hu|exact Tu|exact HSc|exact HSp|intros v; reflexivity|].
    intros v. rewrite HT1. unfold insert, fn_insert. by repeat case_decide.
  - intros T1 HT1. eapply Hc; [intros u; reflexivity|]. intros u. rewrite HT1. unfold insert, fn_insert. by case_decide.
Qed.

(** What the other threads do is the same with and without thread [t]. *)
Lemma move_other t σ T T' u p l V :
  T t = None -> (forall u, T' u = <[t := Some σ]> T u) -> u <> t ->
  move (fun T1 => T1 t = None -> forall T1', (forall u, T1' u = <[t := Some σ]> T1 u) -> multi T1')
    T u p l V ->
  move multi T' u p l V.
Proof.
  intros Hn HT' Hne. destruct p as [v|o k|ch k|b s k]; simpl; [done|..].
  - intros (S & H1 & H2). exists S. split; [done|]. intros r l' V' T1 HS HT1.
    eapply (H2 r l' V' (<[u := Some (k r, l', V')]> T)); [done|done|by fn_simpl|].
    intros x. rewrite HT1. unfold insert, fn_insert. repeat case_decide; subst; try done; rewrite HT'; by fn_simpl.
  - intros (Sc & Sp & H1 & H2). exists Sc, Sp. split; [done|]. intros x lu l' T1 Hx Tx HSc HSp HT1.
    assert (x <> t) as Hxt by (intros ->; rewrite HT', fn_lookup_insert in Tx; done).
    rewrite HT', fn_lookup_insert_ne in Tx by done.
    eapply (H2 x lu l' (<[x := Some (thread ch, lu, V)]> (<[u := Some (k (Z.of_nat x), l', V)]> T)));
      [done..|by fn_simpl|].
    intros y. rewrite HT1. unfold insert, fn_insert. repeat case_decide; subst; try done; rewrite HT'; by fn_simpl.
  - intros H2 T1 HT1. eapply (H2 (<[u := Some (unfold_iter b s k, l, V)]> T)); [done|by fn_simpl|].
    intros x. rewrite HT1. unfold insert, fn_insert. repeat case_decide; subst; try done; rewrite HT'; by fn_simpl.
Qed.

(** Adding a thread. *)
Definition insertable (t : tid) (p : prog Z) (l : L) (V : view) : Prop :=
  forall T, multi T -> T t = None ->
  forall T', (forall u, T' u = <[t := Some (p, l, V)]> T u) -> multi T'.

Lemma insertable_intro t p l V :
  (forall T T', multi T -> T t = None -> (forall u, T' u = <[t := Some (p, l, V)]> T u) ->
     move multi T' t p l V) ->
  insertable t p l V.
Proof.
  intros H T HT. pattern T. revert T HT. apply multi_rec. intros T HT Hc Hn T' HT'.
  apply multi_fold. intros u q l1 V1 Hu. destruct (decide (u = t)) as [->|Hne].
  - rewrite HT', fn_lookup_insert in Hu. simplify_eq. by eapply H.
  - eapply move_other; [exact Hn|exact HT'|done|]. rewrite HT', fn_lookup_insert_ne in Hu by done.
    by apply Hc.
Qed.

Lemma fin_insertable {A : Type} t (p : prog A) l V Q :
  fin t p l V Q -> forall e : @eq Type Z A,
  (forall a l V, Q a l V -> post t (eq_rect_r (fun X => X) a e) l V) ->
  insertable t (eq_rect_r prog p e) l V.
Proof.
  induction 1 as [A t a l V Q Ha|A t o k l V Q S Hs _ IH|A t ch k l V Q Sc Sp Hs Hc IHc Hk IH
    |A t b s k l V Q _ IH]; intros e HQ; destruct e; cbv [eq_rect_r eq_rect eq_sym] in *;
    apply insertable_intro; intros T T' HT Hn HT'; simpl.
  - by apply HQ.
  - exists S. split; [done|]. intros r l' V' T1 HS HT1.
    apply (IH r l' V' HS eq_refl HQ T HT Hn). intros u. rewrite HT1.
    unfold insert, fn_insert. case_decide; [done|]. rewrite HT'. by fn_simpl.
  - exists Sc, Sp. split; [done|]. intros u lu l' T1 Hu Tu HSc HSp HT1.
    assert (u <> t) as Hut by (intros ->; rewrite HT', fn_lookup_insert in Tu; done).
    rewrite HT', fn_lookup_insert_ne in Tu by done.
    eapply (IHc u lu HSc eq_refl); [|eapply (IH u l' HSp eq_refl HQ T HT Hn); reflexivity|by fn_simpl|].
    + intros a l1 V1 Ha. by destruct u; [lia|].
    + intros v. rewrite HT1. unfold insert, fn_insert. repeat case_decide; subst; try done.
      rewrite HT'. by fn_simpl.
  - intros T1 HT1. apply (IH eq_refl HQ T HT Hn). intros u. rewrite HT1.
    unfold insert, fn_insert. case_decide; [done|]. rewrite HT'. by fn_simpl.
Qed.

(** The threads of a configuration. *)
Definition threads (C : config) (g : tid -> L) : tmap := fun t =>
  match pool C !! t with Some p => Some (p, g t, wview (wld C) t) | None => None end.

Lemma threads_multi C g :
  (forall t p, pool C !! t = Some p -> fin t p (g t) (wview (wld C) t) (post t)) ->
  multi (threads C g).
Proof.
  intros Hf.
  assert (forall n, multi (fun t => if decide (t < n)%nat then threads C g t else None)) as Hn.
  { induction n as [|n IH].
    - apply multi_fold. intros t p l V Ht. case_decide; [lia|done].
    - unfold threads in *. destruct (pool C !! n) as [p|] eqn:E.
      + eapply (fin_insertable n p _ _ _ (Hf n p E) eq_refl); [done|exact IH|simpl; by rewrite decide_False by lia|]; simpl.
        intros u. destruct (decide (u = n)) as [->|Hne]; fn_simpl; [rewrite decide_True by lia; by rewrite E|].
        repeat case_decide; try done; lia.
      + eapply multi_ext; [|exact IH]. intros t. simpl.
        destruct (decide (t = n)) as [->|]; [rewrite E; by repeat case_decide|].
        repeat case_decide; try done; lia. }
  eapply multi_ext; [|apply (Hn (length (pool C)))]. intros t. simpl. case_decide as Ht; [done|].
  unfold threads. by rewrite lookup_ge_None_2 by lia.
Qed.

(** The threads after a step. *)
Lemma threads_upd C g t q w' l' :
  (t < length (pool C))%nat -> (forall u, u <> t -> wview w' u = wview (wld C) u) ->
  forall u, <[t := Some (q, l', wview w' t)]> (threads C g) u =
    threads (Config (<[t := q]> (pool C)) w') (<[t := l']> g) u.
Proof.
  intros Hlt Hv u. unfold threads; simpl. destruct (decide (u = t)) as [->|Hne]; fn_simpl.
  - by rewrite list_lookup_insert_eq by done.
  - rewrite list_lookup_insert_ne by done. by rewrite Hv by done.
Qed.

Lemma threads_fork C g t q ch l' lu (w := wld C) :
  (t < length (pool C))%nat -> length (pool C) = wn w ->
  forall u, <[wn w := Some (thread ch, lu, wview w t)]>
      (<[t := Some (q, l', wview w t)]> (threads C g)) u =
    threads (Config (<[t := q]> (pool C) ++ [thread ch]) (fork_world t w))
      (<[wn w := lu]> (<[t := l']> g)) u.
Proof.
  intros Hlt Hlen u. unfold threads; simpl. destruct (decide (u = wn w)) as [->|Hne].
  { rewrite lookup_app_r by (rewrite length_insert; lia).
    rewrite length_insert, Hlen, Nat.sub_diag. by fn_simpl. }
  fn_simpl. destruct (decide (u < length (pool C))%nat) as [Hu|Hu].
  - rewrite lookup_app_l by (rewrite length_insert; lia). destruct (decide (u = t)) as [->|]; fn_simpl.
    + by rewrite list_lookup_insert_eq by done.
    + by rewrite list_lookup_insert_ne by done.
  - rewrite !fn_lookup_insert_ne by lia.
    rewrite (lookup_ge_None_2 (pool C)), lookup_ge_None_2; [done|rewrite length_app, length_insert; simpl; lia|lia].
Qed.

Lemma sure_step_return t c C C' :
  cspur c = false -> cstep t c C = CStep C' -> can_return C' -> can_return C.
Proof.
  intros Hc E (C2 & Hs & Hr). exists C2. split; [|done]. eapply rtc_l; [|exact Hs]. by exists t, c.
Qed.

(** Some thread is ready, whatever the configuration; and nothing calls
    [exit]. *)
Hypothesis Hexit : forall w g, inv G w g -> wexit w = None.
Hypothesis Hsome : forall C g,
  inv G (wld C) g -> wf (wld C) -> length (pool C) = wn (wld C) -> (0 < length (pool C))%nat ->
  (forall t v, pool C !! t = Some (Ret v) -> post t v (g t) (wview (wld C) t)) ->
  returned C = None ->
  exists t p, pool C !! t = Some p /\ (forall v, p <> Ret v) /\
    forall o k, p = Op o k -> ready G t o (wld C) g.

Lemma multi_run T :
  multi T -> forall C g,
  inv G (wld C) g -> wf (wld C) -> length (pool C) = wn (wld C) -> (0 < length (pool C))%nat ->
  (forall t, T t = threads C g t) -> can_return C.
Proof.
  intros HT. pattern T. revert T HT. apply multi_rec.
  intros T _ Hc C g Hi Hwf Hlen Hpos HT.
  destruct (returned C) as [v|] eqn:Er; [exists C; split; [apply rtc_refl|by eexists]|].
  destruct (Hsome C g) as (t & p & Et & Hp & Hr); try done.
  { intros t v Et. apply (Hc t (Ret v)). rewrite HT. unfold threads. by rewrite Et. }
  pose proof (lookup_lt_Some _ _ _ Et) as Hlt. pose proof (Hexit _ _ Hi) as Hex.
  assert (at_state G t (g t) (wview (wld C) t) (wld C) g) as Hst
    by (unfold at_state; split_all; try done; lia).
  specialize (Hc t p (g t) (wview (wld C) t)). rewrite HT in Hc. unfold threads in Hc. rewrite Et in Hc.
  specialize (Hc eq_refl).
  assert (forall σ u, <[t := σ]> T u = <[t := σ]> (threads C g) u) as HTu
    by (intros σ u; unfold insert, fn_insert; case_decide; [done|apply HT]).
  destruct p as [a|o k|ch k|b s k]; [by destruct (Hp a)|..].
  - destruct Hc as (S & H1 & H2). destruct (H1 _ _ Hst (Hr _ _ eq_refl)) as (c & r & w' & l' & Hc & E & Hi' & HS).
    destruct (exec_view _ _ _ _ _ _ E) as (Hv & _ & Hn).
    eapply (sure_step_return t c C); [done|unfold cstep; by rewrite Hex, Et, E|].
    eapply (H2 r l' (wview w' t) _ HS (fun u => eq_refl)); simpl; rewrite ?length_insert; [exact Hi'| |lia..|].
    + eapply exec_wf; [exact E|lia|done].
    + intros u. rewrite HTu. by apply threads_upd.
  - destruct Hc as (Sc & Sp & H1 & H2). destruct (H1 _ _ Hst) as (l' & lu & Hi' & HSc & HSp).
    assert (T (wn (wld C)) = None) as Hnone by (rewrite HT; unfold threads; by rewrite lookup_ge_None_2 by lia).
    eapply (sure_step_return t (Choice 0 false 0) C); [done|unfold cstep; by rewrite Hex, Et|].
    eapply (H2 (wn (wld C)) lu l' _ ltac:(lia) Hnone HSc HSp (fun u => eq_refl)); simpl;
      rewrite ?length_app, ?length_insert; simpl; [exact Hi'|by apply fork_wf|lia..|].
    intros u. etrans; [|by apply threads_fork]. cbv zeta. destruct (decide (u = wn (wld C))) as [->|]; [by rewrite !fn_lookup_insert|].
    rewrite !(fn_lookup_insert_ne _ (wn (wld C)) u) by done. apply HTu.
  - eapply (sure_step_return t (Choice 0 false 0) C); [done|unfold cstep; by rewrite Hex, Et|].
    eapply (Hc _ (fun u => eq_refl)); simpl; rewrite ?length_insert; [exact Hi|done..|].
    intros u. rewrite HTu, (threads_upd C g t _ (wld C) (g t)) by done. unfold threads. simpl. by fn_case.
Qed.

(** A verified program can return, from every configuration it reaches. *)
Theorem progress main g C :
  inv G init_world g -> wp 0%nat main (g 0%nat) vbot Qm -> reachable main C -> can_return C.
Proof.
  intros Hi Hm Hr. destruct (ok_reachable main g 1 C Hi Hm Hr) as (g' & H1 & H2 & H3 & H4 & Hp).
  eapply (multi_run (threads C g') (threads_multi C g' _) C g'); try done.
  Unshelve. intros t p Et. by apply (wpn_fin 0), Hp.
Qed.
End WpRules.

#[global] Opaque wp.

(** ** What a program can return

    [rets P p]: whatever the other threads do, thread code [p] returns only
    values in [P]. With [P] empty, it never returns. *)
Inductive rets {A} (P : A -> Prop) : prog A -> Prop :=
| rets_ret a : P a -> rets P (Ret a)
| rets_op o k : (forall r, rets P (k r)) -> rets P (Op o k)
| rets_fork c k : (forall r, rets P (k r)) -> rets P (Fork c k)
| rets_iter b s k (X : Z -> Prop) :
    (forall s, rets (fun r => match r with inl _ => True | inr x => X x end) (b s)) ->
    (forall x, X x -> rets P (k x)) -> rets P (Iter b s k).

Lemma rets_bind {A B} (X : A -> Prop) (P : B -> Prop) p f :
  rets X p -> (forall a, X a -> rets P (f a)) -> rets P (bind p f).
Proof. intros Hp Hf. induction Hp; simpl; [auto|..]; econstructor; eauto. Qed.

Lemma rets_mono {A} (P Q : A -> Prop) p : (forall a, P a -> Q a) -> rets P p -> rets Q p.
Proof. intros HPQ Hp. induction Hp; econstructor; eauto. Qed.

Lemma rets_any {A} (p : prog A) : rets (fun _ => True) p.
Proof.
  induction p as [A a|A o k IH|A c IHc k IH|A b IHb s k IH]; try by constructor.
  apply rets_iter with (X := fun _ => True); [|done].
  intros s'. eapply rets_mono; [|apply IHb]. by intros [].
Qed.

(** Any body, then [f]. *)
Lemma rets_seq {A B} (P : B -> Prop) (p : prog A) f :
  (forall a, rets P (f a)) -> rets P (bind p f).
Proof. intros Hf. eapply rets_bind; [apply rets_any|auto]. Qed.

Lemma rets_unfold {A} (P : A -> Prop) b s k : rets P (Iter b s k) -> rets P (unfold_iter b s k).
Proof.
  intros H. inversion H as [| | |b' s' k' X Hb Hk]; subst.
  eapply rets_bind; [apply Hb|]. intros [s1|x] Hx; [by eapply rets_iter|by apply Hk].
Qed.

(** A program none of whose paths returns does not return. *)
Definition stays (C : config) : Prop :=
  exists p ps, pool C = p :: ps /\ rets (fun _ => False) p.

Lemma stays_step C C' : step C C' -> stays C -> stays C'.
Proof.
  intros (t & c & Hs) (p & ps & E & Hp). unfold cstep in Hs. rewrite E in Hs.
  destruct (wexit (wld C)); [done|]. destruct t as [|t]; simpl in Hs.
  - destruct p as [a|o k|ch k|b s k]; [done|destruct (exec c 0%nat o (wld C)); try done|..];
      simplify_eq/=; do 2 eexists; (split; [reflexivity|]); [by inversion Hp..|by apply rets_unfold].
  - destruct (ps !! t) as [[a|o k|ch k|b s k]|]; try done;
      [destruct (exec c (S t) o (wld C)); try done|..]; simplify_eq/=; do 2 eexists; eauto.
Qed.

Lemma rets_never main C : rets (fun _ => False) main -> reachable main C -> returned C = None.
Proof.
  intros Hm Hr. assert (stays C) as (p & ps & E & Hp).
  { assert (stays (start main)) as H0 by (by exists main, []). revert H0. unfold reachable, steps in Hr.
    induction Hr; [done|]. eauto using stays_step. }
  unfold returned. rewrite E. by destruct p; [inversion Hp|..].
Qed.
