(* ===== verification/Race.v ===== *)
(** * Mutual exclusion from race freedom

    In a program without undefined behaviour no two threads are ever about to
    access a plain object with one of them writing it: if they were, one could
    go first and the other would race with it. The proof needs that vector
    clocks are consistent: nobody has observed more accesses of a thread than
    the thread has made. *)

From S2P Require Import Prelude Machine Logic.

(** ** Consistent clocks *)

Definition clk (w : world) (V : view) : Prop := forall t, (V (KT t) <= wview w t (KT t))%nat.

Record wf_clk (w : world) : Prop := {
  ck_view : forall u, clk w (wview w u);
  ck_msg : forall x i m, whist w x i = Some m -> clk w (mview m);
  ck_mtx : forall a, clk w (mrel (wmtx w a));
  ck_wrel : forall a, clk w (rw_wrel (wrw w a));
  ck_rrel : forall a, clk w (rw_rrel (wrw w a))
}.

Lemma clk_bot w : clk w vbot.
Proof. intros t. unfold vbot. lia. Qed.
Lemma clk_join w V W : clk w V -> clk w W -> clk w (V ⊔v W).
Proof. intros HV HW t. unfold vjoin. specialize (HV t). specialize (HW t). lia. Qed.
Lemma clk_sing w x i : clk w (vsing (KL x) i).
Proof. intros t. unfold vsing, vbot. fn_case; lia. Qed.

Lemma clk_read w V x i m o :
  wf_clk w -> clk w V -> whist w x i = Some m -> clk w (read_view V x i m o).
Proof.
  intros Hw HV Hi. unfold read_view. apply clk_join; [apply clk_join; [done|apply clk_sing]|].
  case_match; [by eapply ck_msg|apply clk_bot].
Qed.

Lemma clk_grow w w' V : (forall u, wview w u ⊑v wview w' u) -> clk w V -> clk w' V.
Proof. intros Hg HV t. specialize (Hg t (KT t)). specialize (HV t). lia. Qed.

(** A thread moves to a view whose clocks are consistent, but perhaps its own. *)
Lemma ck_set_view t V w :
  wf_clk w -> wview w t ⊑v V -> (forall u, u <> t -> (V (KT u) <= wview w u (KT u))%nat) ->
  wf_clk (set_view t V w).
Proof.
  intros [H1 H2 H3 H4 H5] Hle HV.
  assert (forall U, clk w U -> clk (set_view t V w) U) as Hg.
  { intros U. apply clk_grow. intros u. simpl. by fn_case. }
  split; simpl; eauto. intros u. fn_case; [|by apply Hg].
  intros v. simpl. fn_case; [done|by apply HV].
Qed.

Lemma ck_move t V w : wf_clk w -> wview w t ⊑v V -> clk w V -> wf_clk (set_view t V w).
Proof. intros Hw Hle HV. apply ck_set_view; [done..|]. intros u _. apply HV. Qed.

Lemma ck_tick t w : wf_clk w -> wf_clk (set_view t (tick t (wview w t)) w).
Proof.
  intros Hw. apply ck_set_view; [done|apply tick_le|]. intros u Hu. unfold tick. fn_case. by apply ck_view.
Qed.

Lemma ck_set_hist x i m w : wf_clk w -> clk w (mview m) -> wf_clk (set_hist x i m w).
Proof.
  intros [H1 H2 H3 H4 H5] Hm. split; try done. intros y j m'. simpl. unfold insert at 1, fn_insert at 1.
  case_decide; [subst y|by apply H2]. unfold insert, fn_insert. case_decide; [by intros [= <-]|by apply H2].
Qed.

Lemma ck_set_mtx a o R w : wf_clk w -> clk w R -> wf_clk (set_mtx a (Mutex o R) w).
Proof. intros [H1 H2 H3 H4 H5] HR. split; try done. intros b. simpl. fn_case; [done|apply H3]. Qed.

Lemma ck_set_rw a o us R R' w : wf_clk w -> clk w R -> clk w R' -> wf_clk (set_rw a (Rwlock o us R R') w).
Proof.
  intros [H1 H2 H3 H4 H5] HR HR'. split; try done; intros b; simpl; fn_case; first [done|apply H4|apply H5].
Qed.

(** A change to the parts of a world that hold no view. *)
Lemma ck_frame w w' :
  wview w' = wview w -> whist w' = whist w -> wmtx w' = wmtx w -> wrw w' = wrw w -> wf_clk w -> wf_clk w'.
Proof. intros E1 E2 E3 E4 []. split; unfold clk in *; rewrite ?E1, ?E2, ?E3, ?E4; done. Qed.

Lemma ck_set_cell x c w : wf_clk w -> wf_clk (set_cell x c w).
Proof. by apply ck_frame. Qed.
Lemma ck_set_cond x l w : wf_clk w -> wf_clk (set_cond x l w).
Proof. by apply ck_frame. Qed.
Lemma ck_set_done t v w : wf_clk w -> wf_clk (set_done t v w).
Proof. by apply ck_frame. Qed.
Lemma ck_add_out e w : wf_clk w -> wf_clk (add_out e w).
Proof. by apply ck_frame. Qed.
Lemma ck_set_exit v w : wf_clk w -> wf_clk (set_exit v w).
Proof. by apply ck_frame. Qed.

Lemma clk_moved t V w U : wview w t ⊑v V -> clk w U -> clk (set_view t V w) U.
Proof. intros HV. apply clk_grow. intros u. simpl. by fn_case. Qed.

Create HintDb clocks.
#[export] Hint Resolve clk_bot clk_join clk_sing clk_read clk_moved ck_view ck_msg ck_mtx ck_wrel ck_rrel
  ck_move ck_tick ck_set_hist ck_set_mtx ck_set_rw ck_set_cell ck_set_cond ck_set_done ck_add_out ck_set_exit : clocks.

Lemma ck_rmw t x i m v o w :
  wf_clk w -> whist w x i = Some m ->
  wf_clk (set_hist x (S i) (rmw_msg (wview w t) x i m v o) (set_view t (rmw_view (wview w t) x i m o) w)).
Proof.
  intros Hw Hi. assert (clk w (rmw_view (wview w t) x i m o)) as HV by (unfold rmw_view; eauto with clocks).
  apply ck_set_hist; [auto with clocks workshop|]. apply clk_moved; [auto with workshop|].
  unfold rmw_msg. simpl. apply clk_join; [eauto with clocks|]. case_match; auto with clocks.
Qed.

Lemma exec_wf_clk c t o w r w' : exec c t o w = Done r w' -> wf_clk w -> wf_clk w'.
Proof.
  intros H Hw. destruct o; exec_cases H;
    repeat match goal with H : do_rmw _ _ _ _ _ _ _ = Done _ _ |- _ =>
      apply do_rmw_inv in H; destr; subst end;
    try (by apply ck_rmw); eauto 20 with clocks workshop.
Qed.

Lemma fork_wf_clk t w : wf w -> wf_clk w -> wf_clk (fork_world t w).
Proof.
  intros Hwf Hw. eapply (ck_frame (set_view (wn w) (wview w t) w)); [done..|].
  apply ck_set_view; [done| |].
  - intros k. rewrite (wf_fresh _ Hwf) by lia. lia.
  - intros u _. by apply ck_view.
Qed.

(** ** Reachable configurations *)

Record sane (C : config) : Prop := {
  sn_wf : wf (wld C);
  sn_clk : wf_clk (wld C);
  sn_pool : length (pool C) = wn (wld C)
}.

Lemma start_sane main : sane (start main).
Proof.
  split; [apply init_wf| |done]. split; simpl; try (intros; apply clk_bot).
  intros x [|i] m; [intros [= <-]; apply clk_bot|done].
Qed.

Lemma step_sane C C' : step C C' -> sane C -> sane C'.
Proof.
  intros (t & c & Hs) [Hwf Hck Hlen]. unfold cstep in Hs. destruct (wexit (wld C)); [done|].
  destruct (pool C !! t) as [[a|o k|ch k|b s k]|] eqn:Et; try done; pose proof (lookup_lt_Some _ _ _ Et).
  - destruct (exec c t o (wld C)) as [| |r w'] eqn:E; simplify_eq/=. split; simpl.
    + eapply exec_wf; [exact E|lia|done].
    + by eapply exec_wf_clk.
    + rewrite length_insert. by destruct (exec_view _ _ _ _ _ _ E) as (_ & _ & ->).
  - simplify_eq/=. split; simpl; [by apply fork_wf|by apply fork_wf_clk|].
    rewrite length_app, length_insert. simpl. lia.
  - simplify_eq/=. split; simpl; [done..|]. by rewrite length_insert.
Qed.

Lemma reach_sane main C : reachable main C -> sane C.
Proof.
  intros Hr. refine (rtc_ind_r sane (start main) (start_sane main) _ _ Hr).
  intros C1 C2 _ Hs H. by eapply step_sane.
Qed.

(** ** Exclusion *)

(** After an access of another thread, a write of it, the next access is
    undefined. *)
Lemma unseen_write u x b w t n o c :
  plain_access o = Some (x, b) -> nwr (wcell w x) = (t, n) -> (wview w u (KT t) < n)%nat ->
  exec c u o w = Fault.
Proof.
  intros Ho Hw Hlt. assert (covers (wview w u) (t, n) = false) as Hc by (unfold covers; simpl; by apply Nat.leb_gt).
  destruct o; simplify_eq/=; unfold do_na_read, do_na_write; by rewrite Hw, Hc.
Qed.

Lemma about_to_op x b t C :
  about_to x b t C -> exists o k, pool C !! t = Some (Op o k) /\ plain_access o = Some (x, b).
Proof. unfold about_to, next_access. destruct (pool C !! t) as [[|o k| |]|]; try done. by exists o, k. Qed.

Lemma tick_own t V : tick t V (KT t) = S (V (KT t)).
Proof. unfold tick. apply fn_lookup_insert. Qed.

Theorem race_free_excl main :
  (forall C, reachable main C -> ~ faulty C /\ wexit (wld C) = None) ->
  forall C x, reachable main C -> ~ conflict x C.
Proof.
  intros Hsafe C x Hr (t & u & b & Hne & (ot & kt & Ht & Hwt)%about_to_op & (ou & ku & Hu & Hau)%about_to_op).
  destruct (Hsafe C Hr) as [Hf Hex]. pose proof (sn_clk _ (reach_sane _ _ Hr)) as Hck.
  set (c := Choice 0 false 0). destruct ot as [|y v| | | | | | | | | | | | | | | | | | | | | | | | | | | |];
    simplify_eq/=.
  destruct (exec c t (NaWrite x v) (wld C)) as [| |r w'] eqn:E.
  - simpl in E. unfold do_na_write in E. by case_match.
  - apply Hf. exists t, c. unfold cstep. by rewrite Hex, Ht, E.
  - set (C' := Config (<[t := kt r]> (pool C)) w').
    assert (step C C') as Hst by (exists t, c; unfold cstep; by rewrite Hex, Ht, E).
    assert (reachable main C') as Hr' by (by eapply rtc_r).
    destruct (Hsafe C' Hr') as [Hf' Hex']. apply Hf'. exists u, c. unfold cstep. rewrite Hex'. simpl.
    rewrite list_lookup_insert_ne, Hu by done.
    simpl in E. unfold do_na_write in E. case_match; [|done]. simplify_eq.
    erewrite unseen_write; [done|exact Hau|simpl; by rewrite fn_lookup_insert|].
    simpl. rewrite fn_lookup_insert_ne by done. rewrite tick_own. pose proof (ck_view _ Hck u t). lia.
Qed.
