(* ===== verification/Discipline.v ===== *)
(** * Lock discipline of a reader-writer lock

    Which accesses a thread makes to an object while it holds a reader-writer
    lock can be read off its code. [obeys] is that check, on the code alone;
    the theorem is that in a program of threads that obey, every access by a
    created thread finds the lock held as the check says. *)

From S2P Require Import Prelude Machine Logic.

(** How a thread holds the lock. *)
Inductive hold := HNone | HRead | HWrite.
#[export] Instance hold_eq_dec : EqDecision hold.
Proof. solve_decision. Defined.

Lemma elem_of_remove1 t u (l : list tid) : NoDup l -> u ∈ remove1 t l <-> u ∈ l /\ u <> t.
Proof.
  induction 1 as [|v l Hv Hl IH]; simpl; [rewrite !elem_of_nil; tauto|].
  case_decide as E; [subst v|]; rewrite !elem_of_cons, ?IH.
  - split; [intros Hu; split; [by right|by intros ->]|by intros [[->|] ?]].
  - split; [intros [->|[]]; auto|intros [[->|] ?]; auto].
Qed.

Lemma nodup_remove1 t (l : list tid) : NoDup l -> NoDup (remove1 t l).
Proof.
  induction 1 as [|v l Hv Hl IH]; simpl; [constructor|]. case_decide; [done|].
  constructor; [|done]. rewrite elem_of_remove1 by done. tauto.
Qed.

Section Discipline.
Context (a x : loc).

(** How the thread holds the lock at [a] after operation [o], or [None] if [o]
    breaks the discipline. A [strict] thread reads [x] only while it holds the
    lock, and writes it only while it holds it for writing. *)
Definition hold_after (strict : bool) (h : hold) (o : op) : option hold :=
  match o with
  | RwRdlock l => if l =? a then (if decide (h = HNone) then Some HRead else None) else Some h
  | RwWrlock l => if l =? a then (if decide (h = HNone) then Some HWrite else None) else Some h
  | RwUnlock l => if l =? a then (if decide (h = HNone) then None else Some HNone) else Some h
  | RwInit l => if l =? a then None else Some h
  | NaRead y => if strict && (y =? x) then (if decide (h = HNone) then None else Some h) else Some h
  | NaWrite y _ => if strict && (y =? x) then (if decide (h = HWrite) then Some h else None) else Some h
  | _ => Some h
  end.

(** The code [p], of a thread that holds the lock as [h], obeys, and ends in
    [Q]; the threads it creates are strict and end without the lock. *)
Fixpoint obeys {A : Type} (strict : bool) (h : hold) (p : prog A) (Q : hold -> A -> Prop) : Prop :=
  match p with
  | Ret v => Q h v
  | Op o k => match hold_after strict h o with Some h' => forall r, obeys strict h' (k r) Q | None => False end
  | Fork ch k => obeys true HNone ch (fun h' _ => h' = HNone) /\ forall r, obeys strict h (k r) Q
  | Iter _ _ _ => False
  end.

Lemma obeys_mono {A} s h (p : prog A) (Q Q' : hold -> A -> Prop) :
  (forall h v, Q h v -> Q' h v) -> obeys s h p Q -> obeys s h p Q'.
Proof.
  intros HQ. revert h. induction p as [A v|A o k IH|A ch IHc k IH|A b IHb i k IH]; intros h; simpl; [by apply HQ| | |done].
  - destruct (hold_after s h o); [|done]. intros Hk r. by eapply IH; [exact HQ|apply Hk].
  - intros [Hc Hk]. split; [done|]. intros r. by eapply IH; [exact HQ|apply Hk].
Qed.

Lemma obeys_bind {A B} s h (p : prog A) (f : A -> prog B) Q :
  obeys s h p (fun h' v => obeys s h' (f v) Q) -> obeys s h (bind p f) Q.
Proof.
  revert h. induction p as [A v|A o k IH|A ch IHc k IH|A b IHb i k IH]; intros h; simpl; [done| | |done].
  - destruct (hold_after s h o); [|done]. intros Hk r. by apply IH.
  - intros [Hc Hk]. split; [done|]. intros r. by apply IH.
Qed.

(** A counted loop whose body keeps the hold. *)
Lemma obeys_for_from s h n i body Q :
  (forall j, obeys s h (body j) (fun h' _ => h' = h)) -> Q h tt -> obeys s h (for_from n i body) Q.
Proof.
  intros Hb HQ. revert i. induction n as [|n IH]; intros i; [done|]. apply obeys_bind.
  eapply obeys_mono; [|apply Hb]. intros h' _ ->. apply IH.
Qed.

Lemma obeys_for s h n body Q :
  (forall j, obeys s h (body j) (fun h' _ => h' = h)) -> Q h tt -> obeys s h (for_ n body) Q.
Proof. apply obeys_for_from. Qed.

Lemma obeys_create h n code (Q : hold -> list Z -> Prop) :
  (forall i, obeys true HNone (code i) (fun h' _ => h' = HNone)) -> (forall ts, Q h ts) ->
  obeys false h (create_threads n code) Q.
Proof.
  intros Hc HQ. unfold create_threads. generalize (Z.to_nat n) as m, 0 as i. intros m. revert Q HQ.
  induction m as [|m IH]; intros Q HQ i; simpl; [apply HQ|]. split; [apply Hc|]. intros r.
  apply obeys_bind, IH. intros ts. apply HQ.
Qed.

Lemma obeys_join h ts (Q : hold -> unit -> Prop) : Q h tt -> obeys false h (join_threads ts) Q.
Proof. intros HQ. induction ts as [|t ts IH]; [done|]. simpl. by intros r. Qed.

(** ** Configurations of threads that obey *)

(** The lock's state is what the threads' code says. *)
Record lock_holds (hs : tid -> hold) (l : rwlock) : Prop := {
  lh_writer : forall t, hs t = HWrite <-> rwriter l = Some t;
  lh_readers : forall t, hs t = HRead <-> t ∈ rreaders l;
  lh_nodup : NoDup (rreaders l);
  lh_excl : rwriter l <> None -> rreaders l = []
}.

Record obedient (hs : tid -> hold) (C : config) : Prop := {
  ob_code : forall t p, pool C !! t = Some p -> obeys (0 <? t)%nat (hs t) p (fun _ _ => True);
  ob_new : forall t, (length (pool C) <= t)%nat -> hs t = HNone;
  ob_lock : lock_holds hs (wrw (wld C) a)
}.

(** An operation that obeys changes the lock as the hold of its thread. *)
Lemma lock_frame c t o w r w' :
  exec c t o w = Done r w' ->
  match o with RwRdlock l | RwWrlock l | RwUnlock l | RwInit l => l <> a | _ => True end ->
  wrw w' a = wrw w a.
Proof.
  intros He Ho. destruct o; exec_cases He;
    repeat match goal with H : do_rmw _ _ _ _ _ _ _ = Done _ _ |- _ =>
      apply do_rmw_inv in H; destr; subst end; simpl; try done; by rewrite fn_lookup_insert_ne.
Qed.

Lemma lock_step s c t o w r w' hs h' :
  exec c t o w = Done r w' -> hold_after s (hs t) o = Some h' ->
  lock_holds hs (wrw w a) -> lock_holds (<[t := h']> hs) (wrw w' a).
Proof.
  intros He Hh Hl. pose proof Hl as [H1 H2 H3 H4].
  assert (wrw w' a = wrw w a -> h' = hs t -> lock_holds (<[t := h']> hs) (wrw w' a)) as Hsame.
  { intros -> ->. split; [intros u..|done|done]; fn_case; auto. }
  pose proof (lock_frame _ _ _ _ _ _ He) as Hfr.
  destruct o; simpl in Hh; repeat case_match; simplify_eq; try (by apply Hsame; [apply Hfr|]);
    try (apply Hsame; [apply Hfr; lia|done]);
    match goal with H : (_ =? _) = true |- _ => apply Z.eqb_eq in H; subst end; simpl in He;
    match goal with H : decide _ = _ |- _ => clear H end; clear Hsame Hfr.
  - unfold do_rdlock in He. destruct (rwriter (wrw w a)) eqn:E1; [done|]. simplify_eq/=. fn_simpl. split; simpl.
    + intros u. fn_case; [done|]. by rewrite H1.
    + intros u. rewrite elem_of_cons, <- H2. fn_case; [split; auto|]. split; [by right|by intros [->|]].
    + constructor; [|done]. rewrite <- H2. congruence.
    + done.
  - unfold do_wrlock in He. destruct (rwriter (wrw w a)) eqn:E1; [done|].
    destruct (rreaders (wrw w a)) eqn:E2; [|done]. simplify_eq/=. fn_simpl. split; simpl.
    + intros u. fn_case; [done|]. rewrite H1. split; [done|by intros [=]].
    + intros u. rewrite <- H2. fn_case; [split; congruence|done].
    + constructor.
    + done.
  - unfold do_rwunlock in He. case_decide as Hw; [|case_decide as Hr; [|done]]; simplify_eq/=; fn_simpl; split; simpl.
    + intros u. fn_case; [done|]. rewrite H1, Hw. split; [by intros [= ->]|done].
    + intros u. rewrite <- H2. fn_case; [|done]. apply H1 in Hw. split; congruence.
    + done.
    + done.
    + intros u. rewrite <- H1. fn_case; [|done]. apply H2 in Hr. split; congruence.
    + intros u. rewrite elem_of_remove1, <- H2 by done. fn_case; [split; [done|by intros []]|].
      split; [by split|by intros []].
    + by apply nodup_remove1.
    + intros Hne. rewrite H4 in Hr by done. by apply elem_of_nil in Hr.
Qed.

Lemma obeys_exit v h : obeys true h (Op (ThreadExit v) (fun _ => Ret v)) (fun _ _ => True).
Proof. done. Qed.

Lemma obedient_step hs C C' : step C C' -> obedient hs C -> exists hs', obedient hs' C'.
Proof.
  intros (t & c & Hs) [Hc Hn Hl]. unfold cstep in Hs. destruct (wexit (wld C)); [done|].
  destruct (pool C !! t) as [[v|o k|ch k|b s k]|] eqn:Et; try done; specialize (Hc _ _ Et) as Hp; simpl in Hp; [| |done].
  - destruct (exec c t o (wld C)) as [| |r w'] eqn:E; simplify_eq/=.
    destruct (hold_after _ (hs t) o) as [h'|] eqn:Eh; [|done]. exists (<[t := h']> hs). split; simpl.
    + intros u p. destruct (decide (u = t)) as [->|Hne].
      * rewrite list_lookup_insert_eq by (by eapply lookup_lt_Some). intros [= <-]. fn_simpl. apply Hp.
      * rewrite list_lookup_insert_ne by done. fn_simpl. apply Hc.
    + intros u. rewrite length_insert. intros Hu. apply lookup_lt_Some in Et. fn_simpl. by apply Hn.
    + by eapply lock_step.
  - simplify_eq/=. destruct Hp as [Hch Hk]. exists hs. split; simpl; [|intros u; rewrite length_app, length_insert; intros; apply Hn; lia|done].
    intros u p. destruct (decide (u < length (pool C))%nat) as [Hlt|Hge].
    + rewrite lookup_app_l by (by rewrite length_insert). destruct (decide (u = t)) as [->|Hne].
      * rewrite list_lookup_insert_eq by done. intros [= <-]. apply Hk.
      * rewrite list_lookup_insert_ne by done. apply Hc.
    + rewrite lookup_app_r, length_insert by (rewrite length_insert; lia).
      destruct (u - length (pool C))%nat as [|m] eqn:Em; [|done]. intros [= <-].
      replace (0 <? u)%nat with true by (apply lookup_lt_Some in Et; symmetry; apply Nat.ltb_lt; lia).
      rewrite Hn by lia. apply obeys_bind. eapply obeys_mono; [|exact Hch]. intros h v _. apply obeys_exit.
Qed.

Lemma obedient_steps hs C C' : steps C C' -> obedient hs C -> exists hs', obedient hs' C'.
Proof.
  intros Hs. revert hs. induction Hs as [C|C C1 C2 H1 _ IH]; intros hs Ho; [by exists hs|].
  destruct (obedient_step _ _ _ H1 Ho) as (hs1 & Ho1). by eapply IH.
Qed.

(** ** The discipline *)

(** How the lock is held by a thread that accesses [x]. *)
Definition held_for (b : bool) (t : tid) (l : rwlock) : Prop :=
  if b then rwriter l = Some t else rwriter l = Some t \/ t ∈ rreaders l.

Lemma obedient_access hs C t b :
  obedient hs C -> (0 < t)%nat -> about_to x b t C -> held_for b t (wrw (wld C) a).
Proof.
  intros [Hc _ [H1 H2 _ _]] Ht Ha. unfold about_to, next_access in Ha.
  destruct (pool C !! t) as [[|o k| |]|] eqn:Et; try done. specialize (Hc _ _ Et). simpl in Hc.
  replace (0 <? t)%nat with true in Hc by (symmetry; by apply Nat.ltb_lt).
  unfold held_for. destruct o; simplify_eq/=; rewrite Z.eqb_refl in Hc; simpl in Hc; case_decide; try done.
  - destruct (hs t) eqn:E; [done|right; by apply H2|left; by apply H1].
  - by apply H1.
Qed.

(** A program that initializes the lock and then obeys. *)
Theorem discipline_holds (k : Z -> prog Z) C :
  obeys false HNone (k 0) (fun _ _ => True) -> reachable (Op (RwInit a) k) C ->
  forall t b, (0 < t)%nat -> about_to x b t C ->
    let l := wrw (wld C) a in
    held_for b t l /\ (rwriter l <> None -> rreaders l = []).
Proof.
  intros Hk Hr t b Ht Ha. apply rtc_inv in Hr as [<-|(C1 & (u & c & Hs) & Hr)].
  { unfold about_to, next_access in Ha. destruct t; [lia|done]. }
  destruct u as [|u]; [|done]. simpl in Hs. unfold cstep in Hs. simpl in Hs. simplify_eq.
  assert (obedient (fun _ => HNone) (Config [k 0] (set_rw a (Rwlock None [] vbot vbot) init_world))) as Ho.
  { split; simpl; [|done|].
    - intros [|u] p; [by intros [= <-]|done].
    - fn_simpl. split; simpl; try done; [|constructor]. intros u. by rewrite elem_of_nil. }
  destruct (obedient_steps _ _ _ Hr Ho) as (hs & Ho'). split; [by eapply obedient_access|].
  apply (lh_excl _ _ (ob_lock _ _ Ho')).
Qed.
End Discipline.
