(* ===== verification/Harness.v ===== *)
(** * The create/join harness *)

(** Every exercise starts its threads from one function, with a row of
    [pthread_create] and a row of [pthread_join] calls. This file does the
    bookkeeping of that pattern once: which threads exist, which have ended
    and with what, and that joining a thread makes all it did visible. A
    client adds its own invariant [CI] on the world and on the ghost states
    of the threads. *)

From S2P Require Import Prelude Machine Logic.

(** ** Growth of a world *)

(** [w'] differs from [w] only by what threads have observed, by new threads
    (which have observed what thread 0 had), by ended threads, and by the
    atomic and lock objects in [A]. *)
Record grows_off (A : loc -> Prop) (w w' : world) : Prop := {
  go_view : forall u, wview w u ⊑v wview w' u;
  go_hist : forall x, ~ A x -> whist w' x = whist w x;
  go_cell : wcell w' = wcell w;
  go_mtx : forall x, ~ A x -> wmtx w' x = wmtx w x;
  go_cond : wcond w' = wcond w;
  go_rw : wrw w' = wrw w;
  go_out : wout w' = wout w;
  go_n : (wn w <= wn w')%nat;
  go_new : forall u, (wn w <= u < wn w')%nat -> wview w 0%nat ⊑v wview w' u
}.

Definition grows : world -> world -> Prop := grows_off (fun _ => False).

(** ** Ghost states and the invariant *)

(** The ghost state of a thread: for thread 0, the number of threads it has
    created and those it has joined; whether the thread has ended; the lines
    it has printed, latest first; and the client's part. *)
Record lst (W : Type) :=
  Lst { l_c : nat; l_j : list nat; l_end : bool; l_out : list event; l_w : W }.
Arguments Lst {W}. Arguments l_c {W}. Arguments l_j {W}. Arguments l_end {W}. Arguments l_w {W}.
Arguments l_out {W}.

Definition upd_w {W} (l : lst W) (x : W) : lst W := Lst (l_c l) (l_j l) (l_end l) (l_out l) x.
Definition say {W} (e : event) (l : lst W) : lst W :=
  Lst (l_c l) (l_j l) (l_end l) (e :: l_out l) (l_w l).
Definition fresh {W} (x : W) : lst W := Lst 0 [] false [] x.

(** The lines printed by one thread. *)
Definition log (t : tid) (out : list event) : list event := filter (fun e => ev_tid e = t) out.

(** What a thread has printed, in order. *)
Definition printed (t : tid) (C : config) : list event := rev (log t (wout (wld C))).

(** What a program is checked against: at most [h_max] created threads, the
    [i]-th of which runs [h_code i] from ghost state [h_init (S i)]; a thread
    [u] ends with a value, a log and a ghost state in [h_final u]; every line
    printed is in [h_good]. [h_ready] says when a created thread can get on,
    and [h_wait n] that thread 0 may join a thread when it has created [n]. *)
Record harness (W : Type) := Harness {
  h_max : nat;
  h_code : nat -> prog Z;
  h_init : tid -> W;
  h_final : tid -> Z -> list event -> W -> Prop;
  h_good : event -> Prop;
  h_ready : tid -> world -> (tid -> W) -> Prop;
  h_wait : nat -> bool
}.
Arguments Harness {W}. Arguments h_max {W}. Arguments h_code {W}. Arguments h_init {W}.
Arguments h_final {W}. Arguments h_good {W}. Arguments h_ready {W}. Arguments h_wait {W}.

Section Harness.
Context {W : Type} (H : harness W) (CI : world -> (tid -> W) -> Prop).

Definition gw (g : tid -> lst W) : tid -> W := fun u => l_w (g u).

Record hinv (w : world) (g : tid -> lst W) : Prop := {
  hi_n : wn w = S (l_c (g 0%nat));
  hi_max : (l_c (g 0%nat) <= h_max H)%nat;
  hi_done : forall u v, wdone w u = Some v ->
    l_end (g u) = true /\ h_final H u v (l_out (g u)) (l_w (g u)) /\ (u < wn w)%nat;
  hi_join : forall u, u ∈ l_j (g 0%nat) -> is_Some (wdone w u) /\ wview w u ⊑v wview w 0%nat;
  hi_init : forall u, (wn w <= u)%nat -> l_w (g u) = h_init H u /\ l_out (g u) = [];
  hi_out : Forall (h_good H) (wout w);
  hi_log : forall u, log u (wout w) = l_out (g u);
  hi_end : forall u, (0 < u)%nat -> l_end (g u) = true -> is_Some (wdone w u);
  hi_exit : wexit w = None;
  hi_ci : CI w (gw g)
}.

(** Thread 0 is ready, but to join a thread that has not ended while others
    are at work; another thread is ready when the client says so. *)
Definition ready_for (t : tid) (w : world) (x : tid -> W) : Prop :=
  match t with O => True | S _ => h_ready H t w x end.

Definition can_join (u : tid) (w : world) (g : tid -> lst W) : Prop :=
  is_Some (wdone w u) \/ (forall v, (0 < v < wn w)%nat -> is_Some (wdone w v)) \/
  h_wait H (l_c (g 0%nat)) = false.

Definition hready (t : tid) (o : op) (w : world) (g : tid -> lst W) : Prop :=
  ready_for t w (gw g) /\
  match t, o with O, Join u => can_join (Z.to_nat u) w g | _, _ => True end.

Definition hlogic : logic (lst W) := Logic hinv hready (fun l => l_end l = true).

(** What thread [t] may rely on when it takes a step. *)
Record hfacts (t : tid) (l : lst W) (V : view) (w : world) (x : tid -> W) : Prop := {
  hf_wf : wf w;
  hf_ci : CI w x;
  hf_me : x t = l_w l;
  hf_view : wview w t = V;
  hf_lt : (t < wn w)%nat;
  hf_max : (wn w <= S (h_max H))%nat;
  hf_init : forall u, (wn w <= u)%nat -> x u = h_init H u;
  hf_main : t = 0%nat -> wn w = S (l_c l) /\
    forall u, u ∈ l_j l -> (exists v out, h_final H u v out (x u)) /\ wview w u ⊑v wview w 0%nat
}.
End Harness.
Arguments hf_wf {W H CI t l V w x}. Arguments hf_ci {W H CI t l V w x}.
Arguments hf_me {W H CI t l V w x}. Arguments hf_view {W H CI t l V w x}.
Arguments hf_lt {W H CI t l V w x}. Arguments hf_max {W H CI t l V w x}.
Arguments hf_init {W H CI t l V w x}. Arguments hf_main {W H CI t l V w x}.

(** What a client promises: its invariant survives growth without new
    threads; and, for most clients, the creation of a thread. *)
Class Client {W} (CI : world -> (tid -> W) -> Prop) := client_grows :
  forall w w' x x', grows w w' -> wn w' = wn w -> (forall u, x u = x' u) -> CI w x -> CI w' x'.
Class Forkable {W} (CI : world -> (tid -> W) -> Prop) := client_fork :
  forall w x, wf w -> CI w x -> CI (fork_world 0%nat w) x.

(** Both, at once. *)
Class Growing {W} (CI : world -> (tid -> W) -> Prop) := client_grow :
  forall w w' x x', grows w w' -> (forall u, x u = x' u) -> CI w x -> CI w' x'.

(** A client whose invariant does not speak of the output of thread [t]. *)
Class OutFree {W} (CI : world -> (tid -> W) -> Prop) (t : tid) := client_out :
  forall w fmt args x, CI w x -> CI (add_out (Event t fmt args) w) x.

(** At any moment when thread 0 may be waiting for others, one of them is
    ready. *)
Class Progress {W} (H : harness W) (CI : world -> (tid -> W) -> Prop) := some_ready :
  forall w g, hinv H CI w g -> wf w -> h_wait H (l_c (g 0%nat)) = true ->
    (exists u, (0 < u < wn w)%nat /\ wdone w u = None) ->
    exists u, (0 < u < wn w)%nat /\ wdone w u = None /\ h_ready H u w (gw g).

(** The operations that are the client's business, and those of them that do
    not wait. *)
Definition own_op (o : op) : bool :=
  match o with Join _ | ThreadExit _ | Exit _ | Printf _ _ => false | _ => true end.
Definition client_op (o : op) : bool := own_op o && negb (waits o).

(** ** Lemmas *)

(** The output only grows. *)
Lemma exec_out c t o w r w' : exec c t o w = Done r w' -> exists new, wout w' = new ++ wout w.
Proof.
  intros He. destruct o; exec_cases He;
    repeat match goal with H : do_rmw _ _ _ _ _ _ _ = Done _ _ |- _ =>
      apply do_rmw_inv in H; destr; subst end; (by exists []) || by eexists [_].
Qed.

Lemma step_out C C' : step C C' -> exists new, wout (wld C') = new ++ wout (wld C).
Proof.
  intros (t & c & Hs). unfold cstep in Hs. destruct (wexit (wld C)); [done|].
  destruct (pool C !! t) as [[a|o k|ch k|b s k]|]; try done; [|simplify_eq/=; by exists []..].
  destruct (exec c t o (wld C)) as [| |r w'] eqn:E; simplify_eq/=. by eapply exec_out.
Qed.

Lemma steps_out C C' : steps C C' -> exists new, wout (wld C') = new ++ wout (wld C).
Proof.
  induction 1 as [C|C C1 C2 H1 _ (new2 & ->)]; [by exists []|].
  destruct (step_out _ _ H1) as (new1 & ->). exists (new2 ++ new1). by rewrite app_assoc.
Qed.

Lemma sure_steps C C' : rtc sure_step C C' -> steps C C'.
Proof. apply rtc_subrel. intros D D' (t & c & _ & Hs). by exists t, c. Qed.

Lemma upd_w_id {W} (l : lst W) x : l_w l = x -> upd_w l x = l.
Proof. intros <-. by destruct l. Qed.

Lemma grows_refl A w : grows_off A w w.
Proof. split; try done. intros u Hu. lia. Qed.

Lemma grows_set_view A t V w : wview w t ⊑v V -> grows_off A w (set_view t V w).
Proof.
  intros HV. split; simpl; try done; [|intros; lia]. intros u. by fn_case.
Qed.

Lemma grows_done A t v w : grows_off A w (set_done t v w).
Proof. split; simpl; try done. intros u Hu. lia. Qed.

Lemma grows_fork A w : wf w -> grows_off A w (fork_world 0%nat w).
Proof.
  intros [_ Hf _]. split; simpl; try done; try lia.
  - intros u k. fn_case; [|done]. rewrite Hf by lia. lia.
  - intros u Hu. by replace u with (wn w) by lia; fn_simpl.
Qed.

#[export] Instance growing_client {W} CI `{!Growing (W := W) CI} : Client CI.
Proof. intros w w' x x' Hg _. by apply client_grow. Qed.
#[export] Instance growing_fork {W} CI `{!Growing (W := W) CI} : Forkable CI.
Proof. intros w x Hwf. apply client_grow; [by apply grows_fork|done]. Qed.

Lemma client_op_frame c t o w r w' :
  own_op o = true -> exec c t o w = Done r w' ->
  wdone w' = wdone w /\ wout w' = wout w /\ wexit w' = wexit w.
Proof.
  intros Ho He. destruct o; try done; exec_cases He;
    repeat match goal with H : do_rmw _ _ _ _ _ _ _ = Done _ _ |- _ =>
      apply do_rmw_inv in H; destr; subst end; done.
Qed.

(** Bring the head operation of a program to the front, without unfolding
    the functions it calls. *)
Ltac prog_simpl :=
  cbn [bind perform do_ load store printf puts incr pthread_create pthread_join
       create_from join_threads map].

Section Rules.
Context {W : Type} (H : harness W) (CI : world -> (tid -> W) -> Prop) `{!Client CI}.
Local Abbreviation wp := (wp (hlogic H CI)).

Lemma at_state_facts t l V w g :
  at_state (hlogic H CI) t l V w g -> hfacts H CI t l V w (gw g).
Proof.
  intros (Hwf & Hi & Hg & HV & Ht). destruct Hi as [Hn Hm Hd Hj Hin Ho Hlg He Hex Hci].
  split; try done; [by unfold gw; rewrite Hg|rewrite Hn; lia|by intros u Hu; apply Hin|].
  intros ->. rewrite Hg in *. split; [done|].
  intros u Hu. destruct (Hj u Hu) as [[v Hv] Hle]. split; [|done].
  exists v, (l_out (g u)). by apply Hd.
Qed.

Lemma gw_upd (g : tid -> lst W) t l u : gw (<[t := l]> g) u = (<[t := l_w l]> (gw g)) u.
Proof. unfold gw. by fn_case. Qed.

(** What a step of the client's keeps of the bookkeeping. *)
Lemma hinv_step t o c l V w g r w' y :
  own_op o = true -> l_end l = false -> at_state (hlogic H CI) t l V w g ->
  exec c t o w = Done r w' -> CI w' (<[t := y]> (gw g)) ->
  hinv H CI w' (<[t := upd_w l y]> g).
Proof.
  intros Ho Hend (Hwf & Hi & Hg & HV & Ht) He Hci.
  destruct Hi as [Hn Hm Hd Hj Hin Hout Hlg Hen Hex _].
  destruct (exec_view _ _ _ _ _ _ He) as (Hv & Hle & Hn').
  destruct (client_op_frame _ _ _ _ _ _ Ho He) as (Hd' & Ho' & Hex').
  assert (forall u, is_Some (wdone w u) -> u <> t) as Hne.
  { intros u [v Hu] ->. destruct (Hd _ _ Hu) as [Hbad _]. congruence. }
  assert (l_c (<[t := upd_w l y]> g 0%nat) = l_c (g 0%nat)
          /\ l_j (<[t := upd_w l y]> g 0%nat) = l_j (g 0%nat)) as [Hc Hjj]
    by (unfold insert, fn_insert; case_decide; [subst t; by rewrite Hg|done]).
  split; rewrite ?Hc, ?Hjj, ?Hn', ?Ho', ?Hex'; try done.
  - intros u v Hu. rewrite Hd' in Hu. assert (u <> t) by (apply Hne; by eexists).
    fn_simpl. by apply Hd.
  - intros u Hu. destruct (Hj u Hu) as [Hs Hle']. rewrite Hd'. split; [done|].
    rewrite Hv by (by apply Hne). destruct (decide (t = 0%nat)) as [->|Ht0].
    + by etrans.
    + by rewrite (Hv 0%nat) by done.
  - intros u Hu. fn_case; [lia|]. by apply Hin.
  - intros u. rewrite Hlg. by fn_case.
  - intros u Hu Hue. rewrite Hd'. apply Hen; [done|]. revert Hue. fn_case; [|done]. simpl. congruence.
  - eapply client_grows; [apply grows_refl|done| |exact Hci]. intros u. by rewrite gw_upd.
Qed.

(** Any operation of the client: the client's invariant must survive it; an
    operation that waits must not be blocked when the thread is ready. *)
Lemma wp_client_wait {A} t o (k : Z -> prog A) l V Q :
  own_op o = true -> l_end l = false ->
  (forall w x c, hfacts H CI t l V w x ->
     match exec c t o w with
     | Blocked => True
     | Fault => False
     | Done r w' => exists y, CI w' (<[t := y]> x) /\ wp t (k r) (upd_w l y) (wview w' t) Q
     end) ->
  (forall w x, hfacts H CI t l V w x -> ready_for H t w x ->
     exists c, cspur c = false /\ exec c t o w <> Blocked) ->
  wp t (Op o k) l V Q.
Proof.
  intros Ho Hend Hk Hlive. apply wp_op.
  - intros w g c Hst. specialize (Hk w (gw g) c (at_state_facts _ _ _ _ _ Hst)).
    destruct (exec c t o w) as [| |r w'] eqn:He; [done..|].
    destruct Hk as (y & Hci & Hk). exists (upd_w l y). split; [|done]. by eapply hinv_step.
  - intros w g Hst [Hr _]. eapply Hlive; [by apply at_state_facts|done].
Qed.

Lemma wp_client {A} t o (k : Z -> prog A) l V Q :
  client_op o = true -> l_end l = false ->
  (forall w x c, hfacts H CI t l V w x ->
     match exec c t o w with
     | Blocked => True
     | Fault => False
     | Done r w' => exists y, CI w' (<[t := y]> x) /\ wp t (k r) (upd_w l y) (wview w' t) Q
     end) ->
  wp t (Op o k) l V Q.
Proof.
  intros [Ho Hw]%andb_prop Hend Hk. apply wp_client_wait; [done..|]. intros w x Hf _.
  apply exec_enabled; [apply Hf|by apply negb_true_iff].
Qed.

(** An operation with a good outcome, when the thread is ready. *)
Lemma fin_client {A} t o (k : Z -> prog A) l V Q :
  own_op o = true -> l_end l = false ->
  (forall w x, hfacts H CI t l V w x -> ready_for H t w x ->
     exists c r w' y, cspur c = false /\ exec c t o w = Done r w' /\ CI w' (<[t := y]> x) /\
       fin (hlogic H CI) t (k r) (upd_w l y) (wview w' t) Q) ->
  fin (hlogic H CI) t (Op o k) l V Q.
Proof.
  intros Ho Hend Hk. eapply fin_op with (S := fun r l' V' => fin (hlogic H CI) t (k r) l' V' Q); [|done].
  intros w g Hst [Hr _]. destruct (Hk w (gw g)) as (c & r & w' & y & Hc & He & Hci & Hf);
    [by apply at_state_facts|done|].
  exists c, r, w', (upd_w l y). split_all; try done. by eapply hinv_step.
Qed.

(** A client operation that leaves the client's ghost state alone and only
    makes the world grow. *)
Lemma wp_grow {A} t o (k : Z -> prog A) l V Q :
  client_op o = true -> l_end l = false ->
  (forall w x c, hfacts H CI t l V w x ->
     match exec c t o w with
     | Blocked => True
     | Fault => False
     | Done r w' => grows w w' /\ wp t (k r) l (wview w' t) Q
     end) ->
  wp t (Op o k) l V Q.
Proof.
  intros Ho Hend Hk. apply wp_client; [done..|]. intros w x c Hf. specialize (Hk w x c Hf).
  destruct (exec c t o w) as [| |r w'] eqn:He; [done..|]. destruct Hk as [Hg Hk].
  exists (l_w l). split; [|by destruct l].
  eapply client_grows; [exact Hg|by eapply exec_view| |apply Hf]. intros u. fn_case; [apply Hf|done].
Qed.

(** An atomic load by any thread. *)
Lemma wp_load_any {A} t a o (k : Z -> prog A) l V Q :
  l_end l = false -> (forall v V', V ⊑v V' -> wp t (k v) l V' Q) ->
  wp t (Op (AtomicLoad a o) k) l V Q.
Proof.
  intros Hend Hk. apply wp_grow; [done..|]. intros w x c Hf. simpl. unfold do_load.
  destruct (whist w a (cts c)) as [m|]; [|done].
  destruct (wview w t (KL a) <=? cts c)%nat; [|done]. split.
  - apply grows_set_view. auto with workshop.
  - simpl. fn_simpl. apply Hk. rewrite <- (hf_view Hf). auto with workshop.
Qed.

Lemma wp_pause {A} t (k : Z -> prog A) l V Q :
  l_end l = false -> wp t (k 0) l V Q -> wp t (Op Pause k) l V Q.
Proof.
  intros Hend Hk. apply wp_grow; [done..|]. intros w x c Hf. simpl.
  split; [apply grows_refl|]. by rewrite (hf_view Hf).
Qed.

Lemma wp_clock {A} t (k : Z -> prog A) l V Q :
  l_end l = false -> (forall v, wp t (k v) l V Q) -> wp t (Op ClockGettime k) l V Q.
Proof.
  intros Hend Hk. apply wp_grow; [done..|]. intros w x c Hf. simpl.
  split; [apply grows_refl|]. by rewrite (hf_view Hf).
Qed.

(** Printing a line. *)
Lemma wp_print_gen {A} t fmt args (k : Z -> prog A) l V Q :
  l_end l = false -> h_good H (Event t fmt args) ->
  (forall w x, hfacts H CI t l V w x ->
     exists y, CI (add_out (Event t fmt args) w) (<[t := y]> x) /\
       wp t (k 0) (upd_w (say (Event t fmt args) l) y) V Q) ->
  wp t (Op (Printf fmt args) k) l V Q.
Proof.
  intros Hend Hgood Hk. apply wp_op; [|by intros w g _ _; exists (Choice 0 false 0)].
  intros w g c Hst. simpl. destruct (Hk w (gw g) (at_state_facts _ _ _ _ _ Hst)) as (y & Hci & Hw).
  destruct Hst as (Hwf & Hi & Hg & HV & Ht). destruct Hi as [Hn Hm Hd Hj Hin Hout Hlg Hen Hex _].
  set (l' := upd_w _ y) in *. exists l'. rewrite HV. split; [|done].
  assert (forall u, u <> t -> <[t := l']> g u = g u) as Hne by (intros; by fn_simpl).
  assert (l_c (<[t := l']> g 0%nat) = l_c (g 0%nat)
          /\ l_j (<[t := l']> g 0%nat) = l_j (g 0%nat)) as [Hc Hjj]
    by (unfold insert, fn_insert; case_decide; [subst t; by rewrite Hg|done]).
  split; rewrite ?Hc, ?Hjj; simpl; try done.
  - intros u v Hu. destruct (decide (u = t)) as [->|Hu']; [|rewrite Hne by done; by apply Hd].
    destruct (Hd _ _ Hu) as [Hbad _]. congruence.
  - intros u Hu. rewrite Hne by lia. by apply Hin.
  - by constructor.
  - intros u. specialize (Hlg u). unfold log in *. rewrite filter_cons. simpl.
    unfold insert, fn_insert. repeat case_decide; subst; try done. simpl. by f_equal.
  - intros u Hu Hue. apply Hen; [done|]. revert Hue. fn_case; [|done]. simpl. congruence.
  - eapply client_grows; [apply grows_refl|done| |exact Hci]. intros u. by rewrite gw_upd.
Qed.

Lemma wp_printf {A} t `{!OutFree CI t} fmt args (k : Z -> prog A) l V Q :
  l_end l = false -> h_good H (Event t fmt args) -> wp t (k 0) (say (Event t fmt args) l) V Q ->
  wp t (Op (Printf fmt args) k) l V Q.
Proof.
  intros Hend Hgood Hk. apply wp_print_gen; [done..|]. intros w x Hf. exists (l_w l). split.
  - apply client_out. eapply client_grows; [apply grows_refl|done| |apply Hf].
    intros u. fn_case; [apply Hf|done].
  - by destruct l.
Qed.

(** The log after [puts]. *)
Definition say_lines (t : tid) (lines : list string) (l : lst W) : lst W :=
  fold_left (fun l f => say (Event t f []) l) lines l.

Lemma wp_puts t `{!OutFree CI t} lines l V (Q : unit -> lst W -> view -> Prop) :
  l_end l = false -> (forall f, h_good H (Event t f [])) -> Q tt (say_lines t lines l) V ->
  wp t (puts lines) l V Q.
Proof.
  intros Hend Hgood. revert l Hend. induction lines as [|ln lines IH]; intros l Hend HQ; [by apply wp_ret|].
  prog_simpl. apply wp_printf; [done..|]. by apply IH.
Qed.

(** The end of a thread. *)
Lemma wp_thread t st l V :
  (0 < t)%nat ->
  wp t st l V (fun v l' _ => l_end l' = false /\ h_final H t v (l_out l') (l_w l')) ->
  wp t (thread st) l V (fun _ l' _ => l_end l' = true).
Proof.
  intros Ht0 Hst. apply wp_bind. eapply wp_mono; [exact Hst|]. clear l V Hst.
  intros v l V [Hend Hfin]. apply wp_op; [|by intros w g _ _; exists (Choice 0 false 0)].
  intros w g c Hst. simpl.
  destruct Hst as (Hwf & Hi & Hg & HV & Ht). destruct Hi as [Hn Hm Hd Hj Hin Hout Hlg Hen Hex Hci].
  exists (Lst (l_c l) (l_j l) true (l_out l) (l_w l)). split; [|by apply wp_ret].
  split; simpl; fn_simpl; try done.
  - intros u v' Hu. destruct (decide (u = t)) as [->|Hne]; fn_simpl.
    + rewrite fn_lookup_insert in Hu. by simplify_eq/=.
    + rewrite fn_lookup_insert_ne in Hu by done. by apply Hd.
  - intros u Hu. destruct (Hj u Hu) as [Hs Hle]. split; [|done].
    destruct (decide (u = t)) as [->|Hne]; fn_simpl; [by eexists|done].
  - intros u Hu. fn_simpl. by apply Hin.
  - intros u. rewrite Hlg. by fn_case.
  - intros u Hu Hue. destruct (decide (u = t)) as [->|Hne]; fn_simpl; [by eexists|].
    rewrite fn_lookup_insert_ne in Hue by done. by apply Hen.
  - eapply client_grows; [apply grows_done|done| |exact Hci].
    intros u. rewrite gw_upd. unfold gw. simpl. by fn_case.
Qed.

(** Every thread the program creates is verified. *)
Definition code_ok : Prop :=
  forall i V, (i < h_max H)%nat ->
    wp (S i) (h_code H i) (fresh (h_init H (S i))) V
      (fun v l' _ => l_end l' = false /\ h_final H (S i) v (l_out l') (l_w l')).

(** Creating a thread, when the client's invariant allows it; thread 0's own
    ghost state becomes [y]. *)
Lemma wp_create_gen {A} n y code (k : Z -> prog A) l V Q :
  code_ok -> l_end l = false -> l_c l = n -> (n < h_max H)%nat -> code = h_code H n ->
  (forall w x, hfacts H CI 0%nat l V w x -> CI (fork_world 0%nat w) (<[0%nat := y]> x)) ->
  wp 0%nat (k (Z.of_nat (S n))) (Lst (S n) (l_j l) (l_end l) (l_out l) y) V Q ->
  wp 0%nat (Fork code k) l V Q.
Proof.
  intros Hcode Hend <- Hlt -> Hfork Hk. apply wp_fork. intros w g Hst.
  specialize (Hfork _ _ (at_state_facts _ _ _ _ _ Hst)).
  destruct Hst as (Hwf & Hi & Hg & HV & Ht). destruct Hi as [Hn Hm Hd Hj Hin Hout Hlg Hen Hex Hci].
  rewrite Hg in *. set (l' := Lst (S (l_c l)) (l_j l) (l_end l) (l_out l) y) in *.
  exists l', (fresh (h_init H (wn w))).
  split; [|rewrite Hn; split; [apply wp_thread; [lia|by apply Hcode]|done]].
  split; simpl; fn_simpl; simpl; try done; try lia.
  - intros u v Hu. destruct (Hd _ _ Hu) as (He & Hf & Hl). split_all; [| |lia].
    + fn_simpl. unfold insert, fn_insert. case_decide; [subst u; simpl; by rewrite <- Hg|done].
    + fn_simpl. unfold insert, fn_insert. case_decide; [|done]. subst u. congruence.
  - intros u Hu. destruct (Hj u Hu) as [[v Hv] Hle]. destruct (Hd _ _ Hv) as (_ & _ & Hl).
    fn_simpl. split; [by eexists|done].
  - intros u Hu. fn_simpl. apply Hin. lia.
  - intros u. rewrite Hlg. unfold insert, fn_insert. repeat case_decide; subst; simpl.
    + by apply Hin. + done. + done.
  - intros u Hu. destruct (decide (u = wn w)) as [->|]; fn_simpl; [done|by apply Hen].
  - eapply client_grows; [apply grows_refl|done| |exact Hfork]. intros u. unfold gw.
    unfold insert, fn_insert. repeat case_decide; subst; simpl; try done.
    + lia. + by destruct (Hin (wn w)).
Qed.

Lemma wp_create_as `{!Forkable CI} {A} n code (k : Z -> prog A) l V Q :
  code_ok -> l_end l = false -> l_c l = n -> (n < h_max H)%nat -> code = h_code H n ->
  wp 0%nat (k (Z.of_nat (S n))) (Lst (S n) (l_j l) (l_end l) (l_out l) (l_w l)) V Q ->
  wp 0%nat (Fork code k) l V Q.
Proof.
  intros Hcode Hend Hc Hlt Hh Hk. eapply wp_create_gen; [done..| |exact Hk].
  intros w x Hf. apply (client_grows (fork_world 0%nat w) _ x); [apply grows_refl|done| |].
  - intros u. fn_case; [apply Hf|done].
  - apply client_fork; apply Hf.
Qed.

Lemma wp_join {A} u (k : Z -> prog A) l V Q :
  l_end l = false -> h_wait H (l_c l) = true -> (0 < u <= l_c l)%nat ->
  (forall v out x V', h_final H u v out x -> V ⊑v V' ->
     wp 0%nat (k v) (Lst (l_c l) (u :: l_j l) (l_end l) (l_out l) (l_w l)) V' Q) ->
  wp 0%nat (Op (Join (Z.of_nat u)) k) l V Q.
Proof.
  intros Hend Hwait Hu Hk. apply wp_op.
  2:{ intros w g (_ & Hi & Hg & _) [_ Hr]. exists (Choice 0 false 0). split; [done|]. simpl. unfold do_join.
      rewrite Nat2Z.id. simpl in Hr. rewrite Nat2Z.id in Hr.
      assert (is_Some (wdone w u)) as [v ->]; [|done]. destruct Hr as [Hs|[Hall|Hno]]; [done| |].
      - apply Hall. rewrite (hi_n _ _ _ _ Hi), Hg. lia.
      - rewrite Hg in Hno. congruence. }
  intros w g c Hst. simpl. unfold do_join. rewrite Nat2Z.id.
  destruct Hst as (Hwf & Hi & Hg & HV & Ht). destruct Hi as [Hn Hm Hd Hj Hin Hout Hlg Hen Hex Hci].
  destruct (wdone w u) as [v|] eqn:Eu; [|done]. destruct (Hd _ _ Eu) as (He & Hf & Hl).
  assert (u <> 0%nat) as Hu0 by (intros ->; congruence).
  exists (Lst (l_c l) (u :: l_j l) (l_end l) (l_out l) (l_w l)). rewrite <- HV in *. split.
  - split; simpl; fn_simpl; rewrite Hg in *; simpl; try done.
    + intros u' v' Hu'. destruct (decide (u' = 0%nat)) as [->|Hne].
      * destruct (Hd _ _ Hu'). congruence.
      * fn_simpl. by apply Hd.
    + intros u' Hu'. apply elem_of_cons in Hu' as [->|Hu'].
      * fn_simpl. split; [by eexists|auto with workshop].
      * destruct (Hj _ Hu') as [[v' Hs] Hle].
        assert (u' <> 0%nat) by (intros ->; destruct (Hd _ _ Hs); congruence).
        fn_simpl. split; [by eexists|auto with workshop].
    + intros u' Hu'. fn_simpl. by apply Hin.
    + intros u'. rewrite Hlg. by fn_case.
    + intros u' Hu'. fn_simpl. by apply Hen.
    + eapply client_grows; [apply grows_set_view; auto with workshop|done| |exact Hci].
      intros u'. rewrite gw_upd. unfold gw. simpl. by fn_case.
  - simpl. fn_simpl. eapply Hk; [exact Hf|]. auto with workshop.
Qed.

(** The row of [pthread_create] calls. *)
Lemma wp_create_from `{!Forkable CI} n i start l V (Q : list Z -> lst W -> view -> Prop) :
  code_ok -> l_end l = false -> (l_c l + n <= h_max H)%nat ->
  (forall j, (j < n)%nat -> start (i + Z.of_nat j) = h_code H (l_c l + j)) ->
  Q (map Z.of_nat (seq (S (l_c l)) n))
    (Lst (l_c l + n)%nat (l_j l) (l_end l) (l_out l) (l_w l)) V ->
  wp 0%nat (create_from n i start) l V Q.
Proof.
  intros Hcode. revert i l Q. induction n as [|n IH]; intros i l Q Hend Hle Hs HQ; prog_simpl.
  { apply wp_ret. rewrite Nat.add_0_r in HQ. by destruct l. }
  pose proof (Hs 0%nat ltac:(lia)) as H0. rewrite Z.add_0_r, Nat.add_0_r in H0.
  apply wp_create_as with (n := l_c l); [done|done|done|lia|done|].
  apply wp_bind. apply IH; simpl; [done|lia|..].
  { intros j Hj. replace (i + 1 + Z.of_nat j) with (i + Z.of_nat (S j)) by lia.
    rewrite Hs by lia. f_equal. lia. }
  apply wp_ret. by replace (l_c l + S n)%nat with (S (l_c l + n))%nat in HQ by lia.
Qed.

(** The row of [pthread_join] calls. *)
Lemma wp_join_threads us l V (Q : unit -> lst W -> view -> Prop) :
  l_end l = false -> h_wait H (l_c l) = true -> (forall u, u ∈ us -> (0 < u <= l_c l)%nat) ->
  (forall V', V ⊑v V' -> Q tt (Lst (l_c l) (rev us ++ l_j l) (l_end l) (l_out l) (l_w l)) V') ->
  wp 0%nat (join_threads (map Z.of_nat us)) l V Q.
Proof.
  intros Hend. revert l V Hend. induction us as [|u us IH]; intros l V Hend Hwait Hus HQ; prog_simpl.
  { apply wp_ret. destruct l. by apply HQ. }
  apply wp_join; [done|done|apply Hus; by left|]. intros v out x V' _ HV.
  apply IH; [done|done|intros u' Hu'; apply Hus; by right|]. intros V'' HV'. simpl.
  specialize (HQ V'' ltac:(by etrans)). simpl in HQ. by rewrite <- app_assoc in HQ.
Qed.

(** Create [n] more threads, then join them, in order. *)
Lemma wp_create_join_more `{!Forkable CI} n start l0 V (Q : unit -> lst W -> view -> Prop) :
  code_ok -> (l_c l0 + n <= h_max H)%nat -> l_end l0 = false -> h_wait H (l_c l0 + n) = true ->
  (forall i, (i < n)%nat -> start (Z.of_nat i) = h_code H (l_c l0 + i)) ->
  (forall l V', l_c l = (l_c l0 + n)%nat -> l_j l = rev (seq (S (l_c l0)) n) ++ l_j l0 ->
     l_end l = false -> l_w l = l_w l0 -> l_out l = l_out l0 -> V ⊑v V' -> Q tt l V') ->
  wp 0%nat (ts ← create_threads (Z.of_nat n) start; join_threads ts) l0 V Q.
Proof.
  intros Hcode Hc Hend Hwait Hs HQ. apply wp_bind. unfold create_threads. rewrite Nat2Z.id.
  apply wp_create_from; [done..|]. apply wp_join_threads; [done|done| |].
  - intros u. rewrite elem_of_seq. simpl. lia.
  - intros V' HV. by apply HQ.
Qed.

(** Create all [h_max] threads and join them. *)
Definition all_joined (l : lst W) : Prop :=
  l_c l = h_max H /\ forall u, (0 < u <= h_max H)%nat -> u ∈ l_j l.

Lemma wp_create_join `{!Forkable CI} start l0 V (Q : unit -> lst W -> view -> Prop) :
  code_ok -> l_c l0 = 0%nat -> l_end l0 = false -> h_wait H (h_max H) = true ->
  (forall i, (i < h_max H)%nat -> start (Z.of_nat i) = h_code H i) ->
  (forall l V', all_joined l -> l_end l = false -> l_w l = l_w l0 -> l_out l = l_out l0 ->
     V ⊑v V' -> Q tt l V') ->
  wp 0%nat (ts ← create_threads (Z.of_nat (h_max H)) start; join_threads ts) l0 V Q.
Proof.
  intros Hcode Hc Hend Hwait Hs HQ. apply wp_create_join_more; rewrite ?Hc; [done..|].
  intros l V' Hc' Hj. apply HQ. split; [done|].
  intros u Hu. rewrite Hj, elem_of_app, elem_of_reverse_rev, elem_of_seq. left. lia.
Qed.
End Rules.

(** A row of lines printed by [printf]. *)
Ltac wp_prints :=
  repeat (apply wp_printf; [apply _|apply _|done|first [done|by left|by right]|]).

Lemma hinv_init {W} (H : harness W) CI :
  CI init_world (h_init H) -> hinv H CI init_world (fun u => fresh (h_init H u)).
Proof. intros Hci. split; simpl; try done; [lia|]. intros u Hu. by apply elem_of_nil in Hu. Qed.

(** Only thread 0 and the threads it has created print. *)
Lemma hinv_tids {W} (H : harness W) CI w g e :
  hinv H CI w g -> e ∈ wout w -> (ev_tid e <= h_max H)%nat.
Proof.
  intros Hi He. destruct (decide (wn w <= ev_tid e)%nat) as [Hge|].
  - assert (e ∈ log (ev_tid e) (wout w)) as Hl by (by apply list_elem_of_filter).
    rewrite (hi_log _ _ _ _ Hi), (proj2 (hi_init _ _ _ _ Hi _ Hge)) in Hl. by apply elem_of_nil in Hl.
  - pose proof (hi_n _ _ _ _ Hi). pose proof (hi_max _ _ _ _ Hi). lia.
Qed.

(** A program checked with a harness, in every reachable configuration: no
    data race, no undefined behaviour, no failed assertion, only good lines,
    the client's invariant, and the postcondition of the first thread once it
    has returned. *)
Theorem harness_adequacy {W} (H : harness W) CI `{!Client CI} main Qm :
  CI init_world (h_init H) ->
  wp (hlogic H CI) 0%nat main (fresh (h_init H 0%nat)) vbot Qm ->
  forall C, reachable main C ->
    ~ faulty C /\ Forall (h_good H) (wout (wld C)) /\
    exists g, hinv H CI (wld C) g /\ wf (wld C) /\
      forall v, pool C !! 0%nat = Some (Ret v) -> Qm v (g 0%nat) (wview (wld C) 0%nat).
Proof.
  intros Hci Hm C Hr.
  destruct (adequacy (hlogic H CI) Qm main (fun u => fresh (h_init H u))) with (C := C)
    as (Hf & g & Hi & Hwf); [by apply hinv_init|done|done|].
  split_all; [done|apply Hi|eauto].
Qed.

(** The same for a program that has returned: what it has printed, and how
    the threads it has joined have ended. *)
Corollary harness_result {W} (H : harness W) CI `{!Client CI} main C (Q : Z -> lst W -> Prop) :
  reachable main C -> CI init_world (h_init H) ->
  wp (hlogic H CI) 0%nat main (fresh (h_init H 0%nat)) vbot (fun v l _ => Q v l) ->
  ~ faulty C /\ Forall (h_good H) (wout (wld C)) /\
  forall v, returned C = Some v ->
    exists l, Q v l /\ printed 0 C = rev (l_out l) /\
      forall u, u ∈ l_j l -> exists v' out x, h_final H u v' out x /\ printed u C = rev out.
Proof.
  intros Hr Hi Hw. destruct (harness_adequacy H CI main _ Hi Hw C Hr) as (Hf & Ho & g & Hg & _ & Hv).
  split_all; [done..|]. intros v Hret. exists (g 0%nat). split_all.
  - apply Hv. unfold returned in Hret. by destruct (pool C) as [|[] ?]; simplify_eq.
  - unfold printed. by rewrite (hi_log _ _ _ _ Hg).
  - intros u Hu. destruct (hi_join _ _ _ _ Hg u Hu) as [[v' Hd] _].
    destruct (hi_done _ _ _ _ Hg u v' Hd) as (_ & Hfin & _).
    exists v', (l_out (g u)), (l_w (g u)). unfold printed. by rewrite (hi_log _ _ _ _ Hg).
Qed.

(** *** Progress *)

Lemma done_or_not w n :
  (forall v, (0 < v < n)%nat -> is_Some (wdone w v)) \/
  (exists u, (0 < u < n)%nat /\ wdone w u = None).
Proof.
  induction n as [|n [IH|(u & Hu & Hd)]]; [left; lia| |right; exists u; split; [lia|done]].
  destruct (wdone w n) as [v|] eqn:E.
  - left. intros u Hu. destruct (decide (u = n)) as [->|]; [by eexists|]. apply IH. lia.
  - destruct (decide (n = 0%nat)) as [->|]; [left; lia|]. right. exists n. split; [lia|done].
Qed.

(** Thread 0 can join, or another thread is ready. *)
Lemma join_or_ready {W} (H : harness W) CI `{!Progress H CI} w g u :
  hinv H CI w g -> wf w ->
  can_join H u w g \/
  exists v, (0 < v < wn w)%nat /\ wdone w v = None /\ h_ready H v w (gw g).
Proof.
  intros Hi Hwf. unfold can_join. destruct (h_wait H (l_c (g 0%nat))) eqn:Hw; [|by left; right; right].
  destruct (done_or_not w (wn w)) as [|Hex]; [by left; right; left|]. right. by apply some_ready.
Qed.

(** In every configuration that has not returned, some thread is ready: thread
    0, unless it waits for another, and then one of the others. *)
Lemma harness_ready {W} (H : harness W) CI `{!Progress H CI} Qm C g :
  hinv H CI (wld C) g -> wf (wld C) -> length (pool C) = wn (wld C) -> (0 < length (pool C))%nat ->
  (forall t v, pool C !! t = Some (Ret v) -> post (hlogic H CI) Qm t v (g t) (wview (wld C) t)) ->
  returned C = None ->
  exists t p, pool C !! t = Some p /\ (forall v, p <> Ret v) /\
    forall o k, p = Op o k -> hready H t o (wld C) g.
Proof.
  intros Hi Hwf Hlen Hpos Hpost Hret.
  assert (exists p, pool C !! 0%nat = Some p /\ forall v, p <> Ret v) as (p & Ep & Hp).
  { unfold returned in Hret. destruct (pool C) as [|p ps]; [simpl in Hpos; lia|]. exists p. split; [done|].
    by intros v ->. }
  assert ((forall o k, p = Op o k -> hready H 0%nat o (wld C) g) \/
          exists u, (0 < u < wn (wld C))%nat /\ wdone (wld C) u = None /\ h_ready H u (wld C) (gw g))
    as [H0|(u & Hu & Hnd & Hr)].
  - destruct p as [v|o k|ch k|b s k]; try (by left; intros ? ? [=]).
    destruct o; try (left; intros ? ? [= <- <-]; done).
    destruct (join_or_ready H CI (wld C) g (Z.to_nat t) Hi Hwf) as [Hj|]; [|by right].
    left. by intros ? ? [= <- <-].
  - exists 0%nat, p. by split_all.
  - destruct (lookup_lt_is_Some_2 (pool C) u) as [q Hq]; [lia|]. exists u, q. split_all; [done|..].
    + intros v ->. specialize (Hpost _ _ Hq). destruct u; [lia|]. simpl in Hpost.
      destruct (hi_end _ _ _ _ Hi (S u) ltac:(lia) Hpost). congruence.
    + intros o k ->. split; [by destruct u|]. by destruct u; [lia|].
Qed.

Theorem harness_returns {W} (H : harness W) CI `{!Client CI} `{!Progress H CI} main C Qm :
  reachable main C -> CI init_world (h_init H) ->
  wp (hlogic H CI) 0%nat main (fresh (h_init H 0%nat)) vbot Qm -> can_return C.
Proof.
  intros Hr Hi Hw.
  apply (progress (hlogic H CI) Qm (fun w g Hg => hi_exit _ _ _ _ Hg) (harness_ready H CI Qm) main
    (fun u => fresh (h_init H u))); [by apply hinv_init|exact Hw|done].
Qed.

(** The verdict on a program that is to return: it meets no fault, it can
    always return, and what it has printed when it does. *)
Corollary harness_total {W} (H : harness W) CI `{!Client CI} `{!Progress H CI} main C
    (Q : Z -> lst W -> Prop) :
  reachable main C -> CI init_world (h_init H) ->
  wp (hlogic H CI) 0%nat main (fresh (h_init H 0%nat)) vbot (fun v l _ => Q v l) ->
  ~ faulty C /\ can_return C /\ Forall (h_good H) (wout (wld C)) /\
  forall v, returned C = Some v ->
    exists l, Q v l /\ printed 0 C = rev (l_out l) /\
      forall u, u ∈ l_j l -> exists v' out x, h_final H u v' out x /\ printed u C = rev out.
Proof.
  intros Hr Hi Hw. destruct (harness_result H CI main C Q Hr Hi Hw) as (Hf & Hg & Hq).
  split_all; [done| |done|done]. by eapply harness_returns.
Qed.
