(* ===== verification/Lock.v ===== *)
(** * Mutual exclusion: the lock interface *)

(** A lock is a pair of functions on the address of a lock object. What it
    promises to its client is stated once, as the class [Lock]; the spin
    locks of exercise 05 and the pthread mutex and spin lock discharge it,
    and the programs that use a lock are verified against it. *)

From S2P Require Import Prelude Machine Logic Harness.

(** [S a w o R]: in world [w] the lock at [a] is held by [o]; if it is free,
    whoever takes it will have observed [R]. *)
Abbreviation lock_state := (loc -> world -> option tid -> view -> Prop) (only parsing).

(** The invariant of a program with one lock: the state of the lock, and the
    client's invariant for that state. *)
Definition locked {W} (S : lock_state) (a : loc)
    (Cl : option tid -> view -> world -> (tid -> W) -> Prop) : world -> (tid -> W) -> Prop :=
  fun w x => exists o R, S a w o R /\ Cl o R w x.

(** The client's invariant does not speak of the lock object itself. *)
Class LockClient {W} (a : loc) (Cl : option tid -> view -> world -> (tid -> W) -> Prop) :=
  lc_grows : forall o R w w' x x', grows_off (eq a) w w' -> (forall u, x u = x' u) ->
    Cl o R w x -> Cl o R w' x'.

(** A lock's state depends on the lock object only, and survives the growth
    of what threads have observed. *)
Class StateGrows (S : lock_state) := state_grows :
  forall a w w' o R,
    (forall u, wview w u ⊑v wview w' u) -> whist w' a = whist w a -> wmtx w' a = wmtx w a ->
    S a w o R -> S a w' o R.

Class Lock (lk unlk : loc -> prog unit) := {
  lkst : lock_state;
  lkst_grows :: StateGrows lkst;
  lkst_init : forall a, lkst a init_world None vbot;
  (** Locking: the client's ghost state goes from [l_w l] to [y] at the step
      that takes the lock, which then was free; when the thread is ready, the
      lock is free and can be taken at once. *)
  lk_wp : forall (W A : Type) (H : harness W) a Cl `{!LockClient a Cl} t (k : unit -> prog A) l V y Q,
    l_end l = false ->
    (forall w x o R, hfacts H (locked lkst a Cl) t l (wview w t) w x -> ready_for H t w x ->
       Cl o R w x -> o = None) ->
    (forall w w' x R, hfacts H (locked lkst a Cl) t l (wview w t) w x -> Cl None R w x ->
       grows_off (eq a) w w' -> R ⊑v wview w' t -> Cl (Some t) R w' (<[t := y]> x)) ->
    (forall V', V ⊑v V' -> wp (hlogic H (locked lkst a Cl)) t (k tt) (upd_w l y) V' Q) ->
    wp (hlogic H (locked lkst a Cl)) t (bind (lk a) k) l V Q;
  (** Unlocking, by the thread that holds the lock. *)
  unlk_wp : forall (W A : Type) (H : harness W) a Cl `{!LockClient a Cl} t (k : unit -> prog A) l V y Q,
    l_end l = false ->
    (forall w x o R, hfacts H (locked lkst a Cl) t l V w x -> Cl o R w x -> o = Some t) ->
    (forall w w' x R, hfacts H (locked lkst a Cl) t l V w x -> Cl (Some t) R w x ->
       grows_off (eq a) w w' -> Cl None V w' (<[t := y]> x)) ->
    (forall V', V ⊑v V' -> wp (hlogic H (locked lkst a Cl)) t (k tt) (upd_w l y) V' Q) ->
    wp (hlogic H (locked lkst a Cl)) t (bind (unlk a) k) l V Q
}.
Arguments lkst {lk unlk} _.

(** ** A lock word: a flag in an atomic object *)

(** The modification order of a lock word. [T] is the last unlocking write
    (or the initial value): every other zero was overwritten by the exchange
    that took the lock from it; the lock is free iff the write at [T] has no
    successor, and its holder has observed the write after [T]. *)
Record flag_at (T : ts) (h : ts -> option msg) : Prop := {
  fl_bool : forall i m, h i = Some m -> mval m = 0 \/ mval m = 1;
  fl_zero : exists m, h T = Some m /\ mval m = 0;
  fl_chain : forall i, (T <= i)%nat -> is_Some (h (S i)) -> is_Some (h i);
  fl_used : forall i m, h i = Some m -> mval m = 0 -> i <> T -> is_Some (h (S i))
}.

Definition flag_state : lock_state := fun a w o R =>
  exists T, flag_at T (whist w a) /\
  match o with
  | None => whist w a (S T) = None /\ exists m, whist w a T = Some m /\ R ⊑v mview m
  | Some t => is_Some (whist w a (S T)) /\ (T < wview w t (KL a))%nat
  end.

(** ** The pthread mutex and spin lock *)

Definition mutex_state : lock_state := fun a w o R =>
  mowner (wmtx w a) = o /\ (o = None -> mrel (wmtx w a) = R).

Definition pthread_mutex_lock (m : loc) : prog unit := do_ (MutexLock m).
Definition pthread_mutex_unlock (m : loc) : prog unit := do_ (MutexUnlock m).

(** [pthread_spin_lock] does not suspend the caller: it spins until an attempt
    to take the lock succeeds. *)
Definition pthread_spin_lock (m : loc) : prog unit :=
  while_ (r ← perform (SpinTrylock m); Ret (negb (r =? 0))) (Ret tt).
Definition pthread_spin_unlock (m : loc) : prog unit := do_ (MutexUnlock m).

(** ** Lemmas *)

Lemma grows_locked a w w' : grows w w' -> grows_off (eq a) w w'.
Proof. intros []. split; auto. Qed.

#[export] Instance locked_client {W} S `{!StateGrows S} a
  (Cl : option tid -> view -> world -> (tid -> W) -> Prop) `{!LockClient a Cl} :
  Growing (locked S a Cl).
Proof.
  intros w w' x x' Hg Hx (o & R & Hs & Hc). exists o, R. split.
  - destruct Hg. eapply state_grows; [done|..|exact Hs]; auto.
  - eapply lc_grows; [by apply grows_locked|done|exact Hc].
Qed.

#[export] Instance locked_outfree {W} S `{!StateGrows S} a
  (Cl : option tid -> view -> world -> (tid -> W) -> Prop)
  (Hout : forall o R w e x, Cl o R w x -> Cl o R (add_out e w) x) t :
  OutFree (locked S a Cl) t.
Proof.
  intros w fmt args x (o & R & Hs & Hc). exists o, R. split; [|by apply Hout].
  by eapply (state_grows a w).
Qed.

#[export] Instance flag_state_grows : StateGrows flag_state.
Proof.
  intros a w w' o R Hv Hh _ (T & Hf & Ho). exists T. rewrite Hh. split; [done|].
  destruct o as [t|]; [|done]. destruct Ho as [Hs Ht]. split; [done|].
  specialize (Hv t (KL a)). lia.
Qed.

#[export] Instance mutex_state_grows : StateGrows mutex_state.
Proof. intros a w w' o R _ _ Hm. unfold mutex_state. by rewrite Hm. Qed.

Lemma flag_state_init a : flag_state a init_world None vbot.
Proof.
  exists 0%nat. split; [split|].
  - intros [|i] m; [intros [= <-]; by left|done].
  - by eexists.
  - intros i _ [? ?]. done.
  - intros [|i] m Hi; done.
  - split; [done|]. eexists. split; [done|]. apply vbot_le.
Qed.

(** Filling the slot after an existing write keeps the chain. *)
Lemma chain_insert (h : ts -> option msg) i T m :
  is_Some (h i) -> (forall j, (T <= j)%nat -> is_Some (h (S j)) -> is_Some (h j)) ->
  forall j, (T <= j)%nat -> is_Some (<[S i := Some m]> h (S j)) -> is_Some (<[S i := Some m]> h j).
Proof.
  intros Hi Hc j Hj. destruct (decide (j = S i)) as [->|Hne]; fn_simpl; [by eexists|].
  destruct (decide (j = i)) as [->|Hne']; fn_simpl; [done|by apply Hc].
Qed.

(** An exchange that finds the flag clear takes a free lock. *)
Lemma flag_take a w t i m o own R :
  flag_state a w own R -> whist w a i = Some m -> whist w a (S i) = None ->
  mval m = 0 -> is_acq o = true ->
  own = None /\ R ⊑v rmw_view (wview w t) a i m o /\
  flag_state a (set_hist a (S i) (rmw_msg (wview w t) a i m 1 o)
                 (set_view t (rmw_view (wview w t) a i m o) w)) (Some t) R.
Proof.
  intros (T & [Hb (mT & HT & HT0) Hc Hu] & Ho) Hi Hsi Hm Hacq.
  assert (i = T) as ->.
  { destruct (decide (i = T)) as [|Hne]; [done|]. destruct (Hu _ _ Hi Hm Hne). congruence. }
  destruct own as [u|]; [destruct Ho as [[? ?] _]; congruence|].
  destruct Ho as (_ & m' & Hm' & HR). assert (mT = m) as -> by congruence.
  assert (m' = m) as -> by congruence. split_all; [done| |].
  - unfold rmw_view, read_view. rewrite Hacq. auto with workshop.
  - exists T. simpl. fn_simpl. split_all; [split| |].
    + intros j m'. fn_case; [by intros [= <-]; right|]. by apply Hb.
    + exists m. fn_simpl. done.
    + apply chain_insert; [by eexists|done].
    + intros j m' Hj Hz Hne. fn_cases. by apply (Hu _ _ Hj).
    + by eexists.
    + unfold rmw_view, vjoin. rewrite vsing_key. lia.
Qed.

(** An exchange that finds the flag set changes nothing. *)
Lemma flag_spin a w t i m o own R :
  flag_state a w own R -> whist w a i = Some m -> whist w a (S i) = None -> mval m <> 0 ->
  flag_state a (set_hist a (S i) (rmw_msg (wview w t) a i m 1 o)
                 (set_view t (rmw_view (wview w t) a i m o) w)) own R.
Proof.
  intros (T & [Hb (mT & HT & HT0) Hc Hu] & Ho) Hi Hsi Hm.
  assert (i <> T) by congruence. assert (S i <> T) by congruence.
  exists T. simpl. fn_simpl. split; [split|].
  - intros j m'. fn_case; [by intros [= <-]; right|]. by apply Hb.
  - exists mT. by fn_simpl.
  - apply chain_insert; [by eexists|done].
  - intros j m' Hj Hz Hne. fn_cases. by apply (Hu _ _ Hj).
  - destruct own as [u|]; fn_simpl; [|done]. destruct Ho as [Hs Ht]. split; [done|].
    fn_case; [|done]. pose proof (rmw_view_le (wview w u) a i m o (KL a)). lia.
Qed.

(** The holder's releasing store frees the lock. *)
Lemma flag_release a w t i o R :
  flag_state a w (Some t) R -> whist w a i = None -> (wview w t (KL a) < i)%nat ->
  is_rel o = true ->
  let V' := wview w t ⊔v vsing (KL a) i in
  flag_state a (set_hist a i (Msg 0 (if is_rel o then V' else vsing (KL a) i)) (set_view t V' w))
    None (wview w t).
Proof.
  intros (T & [Hb (mT & HT & HT0) Hc Hu] & [Hs Ht]) Hi Hlt ->. simpl.
  exists i. simpl. fn_simpl. split; [split|split].
  - intros j m'. fn_case; [by intros [= <-]; left|]. by apply Hb.
  - eexists. by fn_simpl.
  - intros j Hj Hsj. destruct (decide (i = j)) as [->|Hne]; fn_simpl; [by eexists|].
    rewrite fn_lookup_insert_ne in Hsj by lia. apply Hc; [lia|done].
  - intros j m' Hj Hz Hne. rewrite fn_lookup_insert_ne in Hj by done.
    assert (is_Some (whist w a (S j))).
    { destruct (decide (j = T)) as [->|Hj']; [done|by apply (Hu _ _ Hj)]. }
    fn_case; [by eexists|done].
  - destruct (whist w a (S i)) eqn:E; [|done]. exfalso.
    destruct (Hc i ltac:(lia)); [by rewrite E|congruence].
  - eexists. fn_simpl. split; [done|]. simpl. auto with workshop.
Qed.

(** A thread can find a free lock free. *)
Lemma flag_free a w t R :
  flag_state a w None R -> wf_hist w ->
  exists i m, whist w a i = Some m /\ mval m = 0 /\ whist w a (S i) = None /\
    (wview w t (KL a) <= i)%nat.
Proof.
  intros (T & [_ (m & Hm & Hm0) Hc _] & Hs & _) Hw. exists T, m. split_all; try done.
  destruct (decide (wview w t (KL a) <= T)%nat) as [|Hgt]; [done|]. exfalso.
  assert (forall n, is_Some (whist w a (S T + n)) -> is_Some (whist w a (S T))) as Hd.
  { induction n as [|n IH]; [by rewrite Nat.add_0_r|]. intros Hn. apply IH, Hc; [lia|].
    by replace (S (S T + n)) with (S T + S n)%nat by lia. }
  destruct (Hd (wview w t (KL a) - S T)%nat) as [m' Hm']; [|congruence].
  replace (S T + _)%nat with (wview w t (KL a)) by lia. apply (wh_view _ Hw).
Qed.

(** ** Operations on a lock word, in the logic *)

Section FlagRules.
Context {W : Type} (H : harness W) (a : loc)
  (Cl : option tid -> view -> world -> (tid -> W) -> Prop) `{!LockClient a Cl}.
Local Abbreviation CI := (locked flag_state a Cl).
Local Abbreviation wp := (wp (hlogic H CI)).

(** The lock is free when thread [t] is ready. *)
Definition gets_lock (t : tid) (l : lst W) : Prop :=
  forall w x o R, hfacts H CI t l (wview w t) w x -> ready_for H t w x -> Cl o R w x -> o = None.

(** The client accepts that thread [t] takes, or gives back, the lock. *)
Definition accepts_lock (t : tid) (l : lst W) (y : W) : Prop :=
  forall w w' x R, hfacts H CI t l (wview w t) w x -> Cl None R w x ->
    grows_off (eq a) w w' -> R ⊑v wview w' t -> Cl (Some t) R w' (<[t := y]> x).

Definition accepts_unlock (t : tid) (l : lst W) (V : view) (y : W) : Prop :=
  (forall w x o R, hfacts H CI t l V w x -> Cl o R w x -> o = Some t) /\
  (forall w w' x R, hfacts H CI t l V w x -> Cl (Some t) R w x ->
     grows_off (eq a) w w' -> Cl None V w' (<[t := y]> x)).

Lemma grows_set_hist t i m V w :
  wview w t ⊑v V -> grows_off (eq a) w (set_hist a i m (set_view t V w)).
Proof.
  intros HV. split; simpl; try done; [|by intros x Hx; fn_simpl|intros; lia].
  intros u. by fn_case.
Qed.

(** A successful exchange of the lock word, from 0 to 1. *)
Lemma flag_take_ci t l V w x i m o y :
  accepts_lock t l y -> hfacts H CI t l V w x ->
  whist w a i = Some m -> whist w a (S i) = None -> mval m = 0 -> is_acq o = true ->
  CI (set_hist a (S i) (rmw_msg (wview w t) a i m 1 o)
       (set_view t (rmw_view (wview w t) a i m o) w)) (<[t := y]> x).
Proof.
  intros Hacc Hf Hi Hsi Hm Hacq. destruct (hf_ci Hf) as (own & R & Hs & Hc).
  destruct (flag_take _ _ t _ _ _ _ _ Hs Hi Hsi Hm Hacq) as (-> & HR & Hs').
  exists (Some t), R. split; [done|]. eapply Hacc; [|exact Hc| |].
  - destruct Hf; by split.
  - apply grows_set_hist. auto with workshop.
  - simpl. by fn_simpl.
Qed.

Lemma flag_spin_ci t l V w x i m o :
  hfacts H CI t l V w x ->
  whist w a i = Some m -> whist w a (S i) = None -> mval m <> 0 ->
  CI (set_hist a (S i) (rmw_msg (wview w t) a i m 1 o)
       (set_view t (rmw_view (wview w t) a i m o) w)) (<[t := l_w l]> x).
Proof.
  intros Hf Hi Hsi Hm. destruct (hf_ci Hf) as (own & R & Hs & Hc).
  exists own, R. split; [by apply flag_spin|]. eapply lc_grows; [| |exact Hc].
  - apply grows_set_hist. auto with workshop.
  - intros u. fn_case; [apply Hf|done].
Qed.

Lemma wp_test_and_set {A} t o (k : Z -> prog A) l V y Q :
  l_end l = false -> is_acq o = true -> accepts_lock t l y ->
  (forall V', V ⊑v V' -> wp t (k 0) (upd_w l y) V' Q) ->
  (forall r V', r <> 0 -> V ⊑v V' -> wp t (k r) l V' Q) ->
  wp t (Op (AtomicFlagTestAndSet a o) k) l V Q.
Proof.
  intros Hend Hacq Hacc Htake Hspin. apply wp_client; [apply _|done..|]. intros w x c Hf. simpl.
  destruct (do_rmw c t a _ _ o w) as [| |r w'] eqn:E; [done|unfold do_rmw in E; by repeat case_match|].
  apply do_rmw_inv in E as (m & Hi & Hsi & _ & -> & ->). simpl. fn_simpl.
  assert (V ⊑v rmw_view (wview w t) a (cts c) m o) by (rewrite <- (hf_view Hf); auto with workshop).
  destruct (decide (mval m = 0)) as [Hm|Hm].
  - exists y. rewrite Hm. split; [by eapply flag_take_ci|auto].
  - exists (l_w l). split; [by eapply flag_spin_ci|]. destruct l. auto.
Qed.

Lemma wp_cas {A} t osucc ofail (k : Z -> prog A) l V y Q :
  l_end l = false -> is_acq osucc = true -> accepts_lock t l y ->
  (forall V', V ⊑v V' -> wp t (k 1) (upd_w l y) V' Q) ->
  (forall V', V ⊑v V' -> wp t (k 0) l V' Q) ->
  wp t (Op (AtomicCasWeak a 0 1 osucc ofail) k) l V Q.
Proof.
  intros Hend Hacq Hacc Htake Hfail. apply wp_client; [apply _|done..|].
  intros w x c Hf. simpl. unfold do_cas_weak.
  destruct (whist w a (cts c)) as [m|] eqn:Hi; [|done].
  destruct ((mval m =? 0) && negb (cspur c)) eqn:Eb.
  - destruct (do_rmw c t a _ _ osucc w) as [| |r w'] eqn:E;
      [done|unfold do_rmw in E; by repeat case_match|].
    apply do_rmw_inv in E as (m' & Hi' & Hsi & _ & -> & ->). simplify_eq/=. fn_simpl.
    exists y. apply andb_prop in Eb as [Em _]. split.
    + eapply flag_take_ci; [done|done|done|done|lia|done].
    + apply Htake. rewrite <- (hf_view Hf). auto with workshop.
  - unfold do_load. rewrite Hi. destruct (wview w t (KL a) <=? cts c)%nat; [|done].
    exists (l_w l). split.
    + eapply client_grow; [apply grows_set_view; auto with workshop| |apply Hf].
      intros u. fn_case; [apply Hf|done].
    + simpl. fn_simpl. destruct l. apply Hfail. rewrite <- (hf_view Hf). auto with workshop.
Qed.

Lemma gets_free t l V w x :
  gets_lock t l -> hfacts H CI t l V w x -> ready_for H t w x ->
  exists i m, whist w a i = Some m /\ mval m = 0 /\ whist w a (S i) = None /\
    (wview w t (KL a) <=? i)%nat = true.
Proof.
  intros Hg Hf Hr. destruct (hf_ci Hf) as (own & R & Hs & Hc).
  assert (own = None) as -> by (eapply Hg; [destruct Hf; by split|done|exact Hc]).
  destruct (flag_free a w t R Hs (wf_seen _ (hf_wf Hf))) as (i & m & ? & ? & ? & Hle).
  exists i, m. split_all; try done. by apply Nat.leb_le.
Qed.

(** When the thread is ready, an exchange can take the lock, and a load can
    find it free. *)
Lemma fin_test_and_set {A} t o (k : Z -> prog A) l V y Q :
  l_end l = false -> is_acq o = true -> gets_lock t l -> accepts_lock t l y ->
  (forall V', V ⊑v V' -> fin (hlogic H CI) t (k 0) (upd_w l y) V' Q) ->
  fin (hlogic H CI) t (Op (AtomicFlagTestAndSet a o) k) l V Q.
Proof.
  intros Hend Hacq Hget Hacc Hk. apply fin_client; [apply _|done..|]. intros w x Hf Hr.
  destruct (gets_free t l V w x Hget Hf Hr) as (i & m & Hi & Hm & Hsi & Hle).
  exists (Choice i false 0). simpl. unfold do_rmw. simpl. rewrite Hi, Hsi, Hle, Hm.
  do 2 eexists. exists y. split_all; [done|done|by eapply flag_take_ci|].
  simpl. fn_simpl. apply Hk. rewrite <- (hf_view Hf). auto with workshop.
Qed.

Lemma fin_cas {A} t osucc ofail (k : Z -> prog A) l V y Q :
  l_end l = false -> is_acq osucc = true -> gets_lock t l -> accepts_lock t l y ->
  (forall V', V ⊑v V' -> fin (hlogic H CI) t (k 1) (upd_w l y) V' Q) ->
  fin (hlogic H CI) t (Op (AtomicCasWeak a 0 1 osucc ofail) k) l V Q.
Proof.
  intros Hend Hacq Hget Hacc Hk. apply fin_client; [apply _|done..|]. intros w x Hf Hr.
  destruct (gets_free t l V w x Hget Hf Hr) as (i & m & Hi & Hm & Hsi & Hle).
  exists (Choice i false 0). simpl. unfold do_cas_weak, do_rmw. simpl. rewrite Hi, Hsi, Hle, Hm. simpl.
  do 2 eexists. exists y. split_all; [done|done|by eapply flag_take_ci|].
  simpl. fn_simpl. apply Hk. rewrite <- (hf_view Hf). auto with workshop.
Qed.

Lemma fin_load_free {A} t o (k : Z -> prog A) l V Q :
  l_end l = false -> gets_lock t l ->
  (forall V', V ⊑v V' -> fin (hlogic H CI) t (k 0) l V' Q) ->
  fin (hlogic H CI) t (Op (AtomicLoad a o) k) l V Q.
Proof.
  intros Hend Hget Hk. apply fin_client; [apply _|done..|]. intros w x Hf Hr.
  destruct (gets_free t l V w x Hget Hf Hr) as (i & m & Hi & Hm & Hsi & Hle).
  exists (Choice i false 0). simpl. unfold do_load. simpl. rewrite Hi, Hle, Hm.
  do 2 eexists. exists (l_w l). rewrite upd_w_id by done. split_all; [done|done| |].
  - eapply client_grow; [apply grows_set_view; auto with workshop| |apply Hf].
    intros u. fn_case; [apply Hf|done].
  - simpl. fn_simpl. apply Hk. rewrite <- (hf_view Hf). auto with workshop.
Qed.

Lemma wp_clear {A} t o (k : Z -> prog A) l V y Q :
  l_end l = false -> is_rel o = true -> accepts_unlock t l V y ->
  (forall V', V ⊑v V' -> wp t (k 0) (upd_w l y) V' Q) ->
  wp t (Op (AtomicStore a 0 o) k) l V Q.
Proof.
  intros Hend Hrel [Hown Hacc] Hk. apply wp_client; [apply _|done..|].
  intros w x c Hf. simpl. unfold do_store.
  destruct (whist w a (cts c)) eqn:Hi; [done|].
  destruct (Nat.ltb_spec (wview w t (KL a)) (cts c)) as [Hlt|]; [|done].
  destruct (hf_ci Hf) as (own & R & Hs & Hc). pose proof (Hown _ _ _ _ Hf Hc) as ->.
  exists y. split.
  - exists None, (wview w t). split; [by eapply flag_release|].
    rewrite (hf_view Hf) at 1. eapply Hacc; [exact Hf|exact Hc|].
    apply grows_set_hist. auto with workshop.
  - simpl. fn_simpl. apply Hk. rewrite <- (hf_view Hf). auto with workshop.
Qed.
End FlagRules.

(** ** The pthread locks discharge the interface *)

Lemma grows_set_mtx a m w : grows_off (eq a) w (set_mtx a m w).
Proof. split; simpl; try done; [by intros x Hx; fn_simpl|intros; lia]. Qed.

Lemma grows_mtx_view a m t V w :
  wview w t ⊑v V -> grows_off (eq a) w (set_mtx a m (set_view t V w)).
Proof.
  intros HV. split; simpl; try done; [|by intros x Hx; fn_simpl|intros; lia].
  intros u. by fn_case.
Qed.

(** Taking a free lock. *)
Lemma mutex_take {W} (H : harness W) a Cl `{!LockClient a Cl} t l V w x y :
  (forall w w' x R, hfacts H (locked mutex_state a Cl) t l (wview w t) w x -> Cl None R w x ->
     grows_off (eq a) w w' -> R ⊑v wview w' t -> Cl (Some t) R w' (<[t := y]> x)) ->
  hfacts H (locked mutex_state a Cl) t l V w x -> mowner (wmtx w a) = None ->
  locked mutex_state a Cl
    (set_mtx a (Mutex (Some t) (mrel (wmtx w a))) (set_view t (wview w t ⊔v mrel (wmtx w a)) w)) (<[t := y]> x).
Proof.
  intros Hacc Hf Em. destruct (hf_ci Hf) as (own & R & [Ho HR] & Hc). rewrite Em in Ho. subst own.
  specialize (HR eq_refl). exists (Some t), R. split; [split; simpl; fn_simpl; done|].
  eapply Hacc; [|exact Hc|apply grows_mtx_view; auto with workshop|].
  - destruct Hf; by split.
  - simpl. fn_simpl. rewrite HR. auto with workshop.
Qed.

#[export] Instance mutex_lock : Lock pthread_mutex_lock pthread_mutex_unlock.
Proof.
  refine {| lkst := mutex_state |}.
  - intros a. by split.
  - intros W A H a Cl HCl t k l V y Q Hend Hget Hacc Hk.
    apply wp_client_wait; [apply _|done..| |].
    2:{ intros w x Hf Hr. exists (Choice 0 false 0). split; [done|]. simpl. unfold do_lock.
        destruct (hf_ci Hf) as (own & R & [Ho HR] & Hc).
        assert (own = None) as -> by (eapply Hget; [destruct Hf; by split|done|exact Hc]). by rewrite Ho. }
    intros w x c Hf. simpl. unfold do_lock. destruct (mowner (wmtx w a)) eqn:Em; [done|].
    exists y. simpl. fn_simpl. split; [by eapply mutex_take|].
    apply Hk. rewrite <- (hf_view Hf). auto with workshop.
  - intros W A H a Cl HCl t k l V y Q Hend Hown Hacc Hk.
    apply wp_client; [apply _|done..|]. intros w x c Hf. simpl. unfold do_unlock.
    destruct (hf_ci Hf) as (own & R & [Ho HR] & Hc).
    pose proof (Hown _ _ _ _ Hf Hc) as ->. case_decide; [|congruence].
    exists y. simpl. split; [|rewrite (hf_view Hf); by apply Hk].
    exists None, V. split; [split; simpl; fn_simpl; [done|by rewrite (hf_view Hf)]|].
    eapply Hacc; [exact Hf|exact Hc|apply grows_set_mtx].
Defined.

#[export] Instance spin_lock : Lock pthread_spin_lock pthread_spin_unlock.
Proof.
  refine {| lkst := mutex_state |}; [intros a; by split| |apply (unlk_wp (Lock := mutex_lock))].
  intros W A H a Cl HCl t k l V y Q Hend Hget Hacc Hk. apply wp_bind.
  eapply wp_while with (P := fun l' V' => l' = l /\ V ⊑v V'); [| |done]; intros l' V' [-> HV].
  2:{ apply fin_while. prog_simpl. apply fin_client; [apply _|done..|]. intros w x Hf Hr.
      destruct (hf_ci Hf) as (own & R & [Ho HR] & Hc).
      assert (own = None) as -> by (eapply Hget; [destruct Hf; by split|done|exact Hc]).
      exists (Choice 0 false 0). simpl. unfold do_trylock, do_lock. rewrite Ho.
      do 2 eexists. exists y. split_all; [done|done|by eapply mutex_take|].
      simpl. fn_simpl. apply fin_ret, Hk. rewrite (hf_view Hf). etrans; [exact HV|auto with workshop]. }
  prog_simpl. apply wp_client; [apply _|done..|]. intros w x c Hf. simpl. unfold do_trylock, do_lock.
  destruct (mowner (wmtx w a)) eqn:Em.
  - exists (l_w l). rewrite upd_w_id, (hf_view Hf) by done. split.
    + eapply client_grow; [apply grows_refl| |apply Hf]. intros u. fn_case; [apply Hf|done].
    + apply wp_ret. simpl. apply wp_ret. by split.
  - exists y. split; [by eapply mutex_take|]. apply wp_ret. simpl. fn_simpl. apply Hk.
    rewrite (hf_view Hf). etrans; [exact HV|auto with workshop].
Defined.
