(* ===== verification/Counter.v ===== *)
(** * Counters shared by several threads *)

From S2P Require Import Prelude Machine Logic Harness Lock.

(** The count of [threads] times [iterations] increments fits a signed
    integer of width [bits]. *)
Definition fits (bits threads iterations : Z) : Prop :=
  0 <= threads /\ 0 <= iterations /\ in_range bits (threads * iterations) = true.

(** ** A plain counter protected by a lock

    The pattern of exercises 00, 05 and 08 (variant A): every worker runs
    [for (i = 0; i < ITERATIONS; i++) { lock; counter++; unlock; }]. *)

Definition locked_worker (lk unlk : loc -> prog unit) (bits ctr a iters : Z) : prog Z :=
  for_ iters (fun _ => lk a;; incr bits ctr;; unlk a);; Ret 0.

(** Ghost state of a worker: increments done, whether it holds the lock, and
    the value it has read but not yet written back. *)
Record cst := Cst { cs_cnt : Z; cs_hold : bool; cs_rd : option Z }.

Definition finished (iters : Z) (s : cst) : Prop := cs_cnt s = iters /\ cs_hold s = false.

(** The increments a thread does at most: thread 0 only starts the others. *)
Definition quota (iters : Z) (u : tid) : Z := match u with O => 0 | S _ => iters end.

(** The counter is the sum of the increments done so far; while a worker may
    still use it, its last accesses happen before whoever holds, or next
    takes, the lock. [B] is what all threads have observed since they
    started. *)
Record counter_inv (N : nat) (ctr iters : Z) (o : option tid) (R : view) (w : world)
    (x : tid -> cst) : Prop := {
  ci_main : o <> Some 0%nat;
  ci_hold : forall u, cs_hold (x u) = true <-> o = Some u;
  ci_rd : forall u v, cs_rd (x u) = Some v -> cs_hold (x u) = true /\ v = nval (wcell w ctr);
  ci_sum : nval (wcell w ctr) = sumn (S N) (fun u => cs_cnt (x u));
  ci_cnt : forall u, 0 <= cs_cnt (x u) <= quota iters u;
  ci_seen : (exists u, (0 < u <= N)%nat /\ ~ finished iters (x u)) ->
    exists B, (forall u, (u < Nat.max 1 (wn w))%nat -> B ⊑v wview w u) /\
    forall e, e ∈ epochs (wcell w ctr) ->
      covers (B ⊔v match o with None => R | Some u => wview w u end) e = true
}.

(** A worker can get on when it holds the lock, or when nobody does. *)
Definition counter_ready (t : tid) (w : world) (x : tid -> cst) : Prop :=
  cs_hold (x t) = true \/ forall u, cs_hold (x u) = false.

(** What the programs of this pattern are checked against. *)
Definition counter_harness (N : nat) (iters : Z) (code : prog Z) (good : event -> Prop) : harness cst :=
  Harness N (fun _ => code) (fun _ => Cst 0 false None) (fun _ _ _ s => finished iters s) good
    counter_ready (fun _ => true).

(** ** Lemmas *)

#[export] Instance counter_lock_client N ctr iters a : LockClient a (counter_inv N ctr iters).
Proof.
  intros o R w w' x x' [Hv _ Hc _ _ _ _ Hn Hnew] Hx [Hz Hh Hr Hs Hb He].
  split; rewrite ?Hc.
  - done.
  - intros u. by rewrite <- Hx.
  - intros u v. rewrite <- Hx. apply Hr.
  - rewrite Hs. apply sumn_ext. intros. by rewrite Hx.
  - intros u. by rewrite <- Hx.
  - intros (u & Hu & Hf). destruct He as (B & HB & He); [exists u; by rewrite Hx|].
    exists B. split.
    + intros u' Hu'. destruct (decide (u' < Nat.max 1 (wn w))%nat) as [Hlt|Hge].
      * etrans; [by apply HB|apply Hv].
      * etrans; [apply (HB 0%nat); lia|apply Hnew; lia].
    + intros e Hin. eapply covers_mono; [|by apply He]. destruct o; [|done].
      apply vjoin_proper; [done|apply Hv].
Qed.

#[export] Instance counter_outfree `{Lock lk unlk} N ctr iters a t :
  OutFree (locked (lkst _) a (counter_inv N ctr iters)) t.
Proof. apply locked_outfree; [apply _|]. intros o R w e x []. by split. Qed.

Lemma quota_pos iters t : (0 < t)%nat -> quota iters t = iters.
Proof. by destruct t; [lia|]. Qed.

Lemma sum_quota N iters (f : tid -> Z) :
  (forall u, 0 <= f u <= quota iters u) -> sumn (S N) f <= Z.of_nat N * iters.
Proof.
  intros Hb. rewrite sumn_first. pose proof (Hb 0%nat) as H0. simpl in H0.
  pose proof (sumn_le N (fun i => f (S i)) iters ltac:(intros i _; apply (Hb (S i)))). lia.
Qed.

Lemma sum_below N iters (f : tid -> Z) t :
  (0 < t < S N)%nat -> (forall u, 0 <= f u <= quota iters u) -> f t < iters ->
  0 <= sumn (S N) f < Z.of_nat N * iters.
Proof.
  intros Ht Hb Hlt. split; [apply sumn_nonneg; intros; apply Hb|].
  pose proof (sumn_upd (S N) f (<[t := f t + 1]> f) t ltac:(lia) ltac:(intros; by fn_simpl)) as Hu.
  rewrite fn_lookup_insert in Hu.
  assert (sumn (S N) (<[t := f t + 1]> f) <= Z.of_nat N * iters); [|lia].
  apply sum_quota. intros u. fn_case; [|apply Hb]. rewrite quota_pos by lia. specialize (Hb u). lia.
Qed.

Lemma fits_nat bits threads iterations :
  fits bits threads iterations ->
  exists N, threads = Z.of_nat N /\ in_range bits (Z.of_nat N * iterations) = true.
Proof.
  intros (Ht & Hi & Hr). exists (Z.to_nat threads). by rewrite Z2Nat.id.
Qed.

Section LockedCounter.
Context (lk unlk : loc -> prog unit) `{!Lock lk unlk}.
Context (N : nat) (bits ctr a iters : Z) (good : event -> Prop) (code : prog Z).
Hypothesis Hrange : in_range bits (Z.of_nat N * iters) = true.
Hypothesis Hiters : 0 <= iters.

Local Abbreviation H := (counter_harness N iters code good).
Local Abbreviation Cl := (counter_inv N ctr iters).
Local Abbreviation CI := (locked (lkst _) a Cl).
Local Abbreviation wp := (wp (hlogic H CI)).

(** The lock's state is not touched by plain accesses. *)
Lemma lkst_cell w o R c t V :
  lkst _ a w o R -> wview w t ⊑v V -> lkst _ a (set_cell ctr c (set_view t V w)) o R.
Proof.
  intros Hs HV. eapply (state_grows a w); [|done..]. intros u. simpl. by fn_case.
Qed.

(** What the lock's holder knows. *)
Lemma holder_facts t l V w x o R :
  hfacts H CI t l V w x -> Cl o R w x -> cs_hold (l_w l) = true -> (0 < t)%nat ->
  o = Some t /\ forall e, e ∈ epochs (wcell w ctr) -> covers V e = true.
Proof.
  intros Hf Hc Hh Ht. assert (o = Some t) as ->.
  { apply (ci_hold _ _ _ _ _ _ _ Hc). by rewrite (hf_me Hf). }
  split; [done|]. intros e He.
  destruct (ci_seen _ _ _ _ _ _ _ Hc) as (B & HB & Hcov).
  - exists t. pose proof (hf_lt Hf). pose proof (hf_max Hf). simpl in *. split; [lia|].
    intros [_ Hbad]. rewrite (hf_me Hf) in Hbad. congruence.
  - eapply covers_mono; [|by apply Hcov]. rewrite <- (hf_view Hf). intros k.
    pose proof (hf_lt Hf). specialize (HB t ltac:(lia) k). unfold vjoin. lia.
Qed.

Lemma wp_read_ctr {A} t c l V (k : Z -> prog A) Q :
  l_end l = false -> l_w l = Cst c true None -> (0 < t)%nat -> c < iters ->
  (forall v V', V ⊑v V' -> in_range bits (v + 1) = true ->
     wp t (k v) (upd_w l (Cst c true (Some v))) V' Q) ->
  wp t (Op (NaRead ctr) k) l V Q.
Proof.
  intros Hend Hl Ht Hc Hk. apply wp_client; [apply _|done..|]. intros w x ch Hf. simpl.
  destruct (hf_ci Hf) as (o & R & Hs & HC).
  destruct (holder_facts _ _ _ _ _ _ _ Hf HC) as [-> Hcov]; [by rewrite Hl|done|].
  rewrite na_read_ok by (rewrite (hf_view Hf); done). rewrite (hf_view Hf).
  pose proof (hf_lt Hf). pose proof (hf_max Hf). simpl in *.
  assert (x t = Cst c true None) as Hx by (by rewrite (hf_me Hf)).
  destruct HC as [Hz Hh Hr Hsum Hb He].
  pose proof (sum_below N iters (fun u => cs_cnt (x u)) t ltac:(lia) Hb ltac:(cbv beta; by rewrite Hx)) as Hbound.
  exists (Cst c true (Some (nval (wcell w ctr)))). split.
  - exists (Some t), R. split; [by apply lkst_cell; [|rewrite (hf_view Hf); auto with workshop]|].
    split; simpl; fn_simpl; simpl.
    + congruence || lia || done.
    + intros u. rewrite <- Hh. fn_case; [by rewrite Hx|done].
    + intros u v. fn_case; [by intros [= <-]|apply Hr].
    + rewrite Hsum. apply sumn_ext. intros u _. fn_case; [by rewrite Hx|done].
    + intros u. fn_case; [|apply Hb]. specialize (Hb u). by rewrite Hx in Hb.
    + intros _. exists vbot. split; [intros; apply vbot_le|].
      fn_simpl. intros e [->|He']%epochs_read.
      * apply covers_tick, vjoin_r.
      * eapply covers_mono; [|by apply Hcov]. etrans; [apply tick_le|apply vjoin_r].
  - simpl. fn_simpl. apply Hk; [auto with workshop|].
    eapply in_range_between; [exact Hrange|]. rewrite Hsum. lia.
Qed.

Lemma wp_write_ctr {A} t c v l V (k : Z -> prog A) Q :
  l_end l = false -> l_w l = Cst c true (Some v) -> (0 < t)%nat -> c < iters ->
  (forall V', V ⊑v V' -> wp t (k 0) (upd_w l (Cst (c + 1) true None)) V' Q) ->
  wp t (Op (NaWrite ctr (v + 1)) k) l V Q.
Proof.
  intros Hend Hl Ht Hc Hk. apply wp_client; [apply _|done..|]. intros w x ch Hf. simpl.
  destruct (hf_ci Hf) as (o & R & Hs & HC).
  destruct (holder_facts _ _ _ _ _ _ _ Hf HC) as [-> Hcov]; [by rewrite Hl|done|].
  rewrite na_write_ok by (rewrite (hf_view Hf); done). rewrite (hf_view Hf).
  pose proof (hf_lt Hf). pose proof (hf_max Hf). simpl in *.
  assert (x t = Cst c true (Some v)) as Hx by (by rewrite (hf_me Hf)).
  destruct HC as [Hz Hh Hr Hsum Hb He].
  destruct (Hr t v) as [_ Hv]; [by rewrite Hx|].
  exists (Cst (c + 1) true None). split.
  - exists (Some t), R. split; [by apply lkst_cell; [|rewrite (hf_view Hf); auto with workshop]|].
    split; simpl; fn_simpl; simpl.
    + congruence || lia || done.
    + intros u. rewrite <- Hh. fn_case; [by rewrite Hx|done].
    + intros u v'. fn_case; [done|]. intros Hu. destruct (Hr _ _ Hu) as [Hu' _].
      apply Hh in Hu'. congruence.
    + rewrite (sumn_upd (S N) (fun u => cs_cnt (x u)) _ t) by (lia || (intros; by fn_simpl)).
      fn_simpl. rewrite Hx. simpl. lia.
    + intros u. fn_case; [|apply Hb]. simpl. specialize (Hb u). rewrite Hx, quota_pos in * by done. simpl in Hb. lia.
    + intros _. exists vbot. split; [intros; apply vbot_le|].
      intros e ->%epochs_write. fn_simpl. apply covers_tick, vjoin_r.
  - simpl. fn_simpl. apply Hk. auto with workshop.
Qed.

(** One turn of a worker: lock, increment, unlock. *)
Lemma wp_locked_incr t c l V (Q : unit -> lst cst -> view -> Prop) :
  l_end l = false -> l_w l = Cst c false None -> (0 < t)%nat -> c < iters ->
  (forall V', V ⊑v V' -> Q tt (upd_w l (Cst (c + 1) false None)) V') ->
  wp t (lk a;; incr bits ctr;; unlk a) l V Q.
Proof.
  intros Hend Hl Ht Hc HQ. eapply lk_wp with (y := Cst c true None); [apply _|done| | |].
  { intros w x o R Hf Hr HC. pose proof (hf_me Hf) as Hx. rewrite Hl in Hx. destruct t; [lia|].
    destruct Hr as [Hbad|Hno]; [by rewrite Hx in Hbad|].
    destruct o as [v|]; [|done]. specialize (Hno v). by rewrite (proj2 (ci_hold _ _ _ _ _ _ _ HC v) eq_refl) in Hno. }
  { intros w w' x R Hf HC Hg HR. pose proof (hf_me Hf) as Hx. rewrite Hl in Hx.
    assert (forall u, cs_hold (x u) = false) as Hno.
    { intros u. destruct (cs_hold (x u)) eqn:E; [|done]. by apply HC in E. }
    assert (Cl None R w' x) as HC' by (eapply lc_grows; [exact Hg|done|exact HC]).
    destruct HC' as [Hz _ Hr Hsum Hb He]. split; [..|intros _].
    - intros [= ->]. lia.
    - intros u. fn_case; [done|]. rewrite Hno. split; congruence.
    - intros u v. fn_case; [done|]. apply Hr.
    - rewrite Hsum. apply sumn_ext. intros u _. fn_case; [by rewrite Hx|done].
    - intros u. fn_case; [|apply Hb]. specialize (Hb u). by rewrite Hx in Hb.
    - destruct He as (B & HB & He).
      { exists t. pose proof (hf_lt Hf). pose proof (hf_max Hf). simpl in *. split; [lia|].
        rewrite Hx. intros [Hbad _]. simpl in Hbad. lia. }
      exists B. split; [done|]. intros e Hin. eapply covers_mono; [|by apply He].
      by apply vjoin_proper. }
  intros V1 HV1. prog_simpl. apply wp_read_ctr with (c := c); [done..|].
  intros v V2 HV2 Hr. rewrite Hr. prog_simpl. apply wp_write_ctr with (c := c); [done..|].
  intros V3 HV3. eapply (wp_peq _ _ (bind (unlk a) Ret)); [apply bind_ret|].
  eapply unlk_wp with (y := Cst (c + 1) false None); [apply _|done|..].
  - intros w x o R Hf HC. by destruct (holder_facts _ _ _ _ _ _ _ Hf HC eq_refl Ht).
  - intros w w' x R Hf HC Hg. pose proof (hf_me Hf) as Hx. simpl in Hx.
    assert (Cl (Some t) R w' x) as HC' by (eapply lc_grows; [exact Hg|done|exact HC]).
    destruct (holder_facts _ _ _ _ _ _ _ Hf HC) as [_ Hcov]; [done..|].
    destruct HC' as [Hz Hh Hr' Hsum Hb He]. split; [..|intros _].
    + done.
    + intros u. fn_case; [done|]. rewrite Hh. split; congruence.
    + intros u v'. fn_case; [done|]. apply Hr'.
    + rewrite Hsum. apply sumn_ext. intros u _. fn_case; [by rewrite Hx|done].
    + intros u. fn_case; [|apply Hb]. specialize (Hb u). by rewrite Hx in Hb.
    + exists vbot. split; [intros; apply vbot_le|]. rewrite (go_cell _ _ _ Hg).
      intros e Hin. eapply covers_mono; [|by apply Hcov]. apply vjoin_r.
  - intros V4 HV4. apply wp_ret. simpl. destruct l; simpl in *. apply HQ.
    do 3 (etrans; [eassumption|]). done.
Qed.

Lemma wp_locked_worker t V :
  (0 < t)%nat ->
  wp t (locked_worker lk unlk bits ctr a iters) (fresh (Cst 0 false None)) V
    (fun v l' _ => l_end l' = false /\ finished iters (l_w l')).
Proof.
  intros Ht. apply wp_bind.
  eapply wp_mono; [apply wp_for with (P := fun c l _ => l = fresh (Cst c false None)); [done| |done]|].
  - intros c l V' Hc ->. apply wp_locked_incr with (c := c); (done || lia).
  - intros u l' V' ->. apply wp_ret. by split.
Qed.

Lemma locked_code_ok :
  code = locked_worker lk unlk bits ctr a iters -> code_ok H CI.
Proof.
  intros Hc i V Hi. pose proof (wp_locked_worker (S i) V ltac:(lia)) as Hw.
  rewrite <- Hc in Hw. exact Hw.
Qed.

(** While thread 0 is alone, it has observed every access. *)
Lemma alone_covers l V w x y e :
  hfacts H CI 0%nat l V w x -> l_c l = 0%nat -> e ∈ epochs (wcell w y) ->
  covers (wview w 0%nat) e = true.
Proof.
  intros Hf Hlc. destruct (hf_main Hf eq_refl) as [Hn _].
  apply covers_alone; [apply Hf|by rewrite Hn, Hlc].
Qed.

(** Thread 0 before it creates the workers: [counter = 0]. *)
Lemma wp_reset_ctr {A} (k : Z -> prog A) l V Q :
  l_end l = false -> l_w l = Cst 0 false None -> l_c l = 0%nat ->
  (forall V', V ⊑v V' -> wp 0%nat (k 0) l V' Q) ->
  wp 0%nat (Op (NaWrite ctr 0) k) l V Q.
Proof.
  intros Hend Hl Hlc Hk. apply wp_client; [apply _|done..|]. intros w x ch Hf. simpl.
  destruct (hf_ci Hf) as (o & R & Hs & HC). destruct (hf_main Hf eq_refl) as [Hn _].
  assert (forall u, x u = Cst 0 false None) as Hx.
  { intros [|u]; [by rewrite (hf_me Hf)|]. rewrite (hf_init Hf) by lia. done. }
  rewrite na_write_ok by (intros e He; by eapply alone_covers).
  exists (l_w l). rewrite Hl. split.
  - exists o, R. split; [apply lkst_cell; auto with workshop|].
    destruct HC as [Hz Hh Hr Hsum Hb He]. split; simpl; fn_simpl; simpl.
    + congruence || lia || done.
    + intros u. rewrite <- Hh, Hx. fn_case; [done|by rewrite Hx].
    + intros u v. fn_case; [done|by rewrite Hx].
    + rewrite (sumn_const _ _ 0); [lia|]. intros u _. fn_case; [done|by rewrite Hx].
    + intros u. fn_case; simpl; [lia|apply Hb].
    + intros _. exists (tick 0 (wview w 0%nat)). split.
      * intros u Hu. rewrite Hn in Hu. replace u with 0%nat by lia. by fn_simpl.
      * intros e ->%epochs_write. apply covers_tick, vjoin_l.
  - rewrite <- Hl. destruct l; simpl in *. fn_simpl. apply Hk.
    rewrite <- (hf_view Hf). auto with workshop.
Qed.

(** Thread 0 after it has joined all workers: the counter is complete. *)
Lemma wp_final_ctr {A} (k : Z -> prog A) l V Q :
  l_end l = false -> l_w l = Cst 0 false None -> l_c l = N ->
  (forall u, (0 < u <= N)%nat -> u ∈ l_j l) ->
  (forall V', V ⊑v V' -> wp 0%nat (k (Z.of_nat N * iters)) l V' Q) ->
  wp 0%nat (Op (NaRead ctr) k) l V Q.
Proof.
  intros Hend Hl Hlc Hj Hk. apply wp_client; [apply _|done..|]. intros w x ch Hf. simpl.
  destruct (hf_ci Hf) as (o & R & Hs & HC). destruct (hf_main Hf eq_refl) as [Hn Hjoin].
  assert (x 0%nat = Cst 0 false None) as Hx0 by (by rewrite (hf_me Hf)).
  assert (forall u, (0 < u <= N)%nat -> finished iters (x u)) as Hfin.
  { intros u Hu. destruct (Hjoin u (Hj u Hu)) as [(v & out & Hv) _]. exact Hv. }
  rewrite na_read_ok.
  2:{ intros e. apply covers_all; [apply Hf|]. intros [|u] Hu; [done|]. apply Hjoin, Hj. lia. }
  destruct HC as [Hz Hh Hr Hsum Hb He].
  assert (nval (wcell w ctr) = Z.of_nat N * iters) as Hval.
  { rewrite Hsum. rewrite sumn_first, Hx0. simpl.
    rewrite (sumn_const N _ iters); [lia|]. intros u Hu. apply Hfin. lia. }
  exists (l_w l). rewrite Hl. split.
  - exists o, R. split; [apply lkst_cell; auto with workshop|].
    assert (forall u, <[0%nat := Cst 0 false None]> x u = x u) as Hupd
      by (intros u; fn_case; done).
    split; simpl; fn_simpl; simpl.
    + congruence || lia || done.
    + intros u. by rewrite Hupd, <- Hh.
    + intros u v. rewrite Hupd. apply Hr.
    + rewrite Hsum. apply sumn_ext. intros u _. by rewrite Hupd.
    + intros u. rewrite Hupd. apply Hb.
    + intros (u & Hu & Hnf). rewrite Hupd in Hnf. by destruct Hnf; apply Hfin.
  - rewrite <- Hl. destruct l; simpl in *. fn_simpl. rewrite Hval. apply Hk.
    rewrite <- (hf_view Hf). auto with workshop.
Qed.

(** The worker that holds the lock has not ended; if there is none, every
    worker is ready. *)
#[export] Instance counter_progress : Progress H CI.
Proof.
  intros w g Hi Hwf _ (u & Hu & Hnd). destruct (hi_ci _ _ _ _ Hi) as ([v|] & R & Hs & HC); simpl.
  - assert (cs_hold (gw g v) = true) as Hv by (by apply HC).
    exists v. split; [|split; [|by left]].
    + destruct (decide (wn w <= v)%nat) as [Hge|].
      { unfold gw in Hv. by rewrite (proj1 (hi_init _ _ _ _ Hi v Hge)) in Hv. }
      destruct v; [by destruct (ci_main _ _ _ _ _ _ _ HC)|lia].
    + destruct (wdone w v) as [r|] eqn:E; [|done].
      destruct (hi_done _ _ _ _ Hi v r E) as (_ & [_ Hbad] & _). unfold gw in Hv. congruence.
  - exists u. split_all; [lia..|done|]. right. intros v.
    destruct (cs_hold (gw g v)) eqn:E; [|done]. by apply HC in E.
Qed.

Lemma counter_init : CI init_world (fun _ => Cst 0 false None).
Proof.
  exists None, vbot. split; [apply lkst_init|]. split; simpl; try done.
  - rewrite (sumn_const _ _ 0); [lia|done].
  - intros [|u]; simpl; lia.
  - intros _. exists vbot. split; [intros; apply vbot_le|].
    intros e He%list_elem_of_singleton. by subst.
Qed.
End LockedCounter.

(** ** Atomic counters

    The pattern of exercises 00, 01, 03 and 08 (variant B): every worker runs
    [for (i = 0; i < n; i++) atomic_fetch_add_explicit(&x, 1, order)], where
    [x] is one counter shared by all or the worker's own. *)

Definition atomic_worker (bits x iters : Z) (o : memory_order) : prog Z :=
  for_ iters (fun _ => do_ (AtomicFetchAdd bits x 1 o));; Ret 0.

Section AtomicCounter.
Context (N : nat) (bits iters : Z) (tgt : tid -> loc) (o : memory_order) (good : event -> Prop).

(** Increments of the counter at [y] done so far; [x u] is the number of
    increments thread [u] has done, on its counter [tgt u]. *)
Definition total (y : loc) (x : tid -> Z) : Z :=
  sumn (S N) (fun u => if decide (tgt u = y) then x u else 0).

(** The modification order of the counter at [y] from its last reset on:
    the values 0, 1, 2, ... without a gap. All threads have observed the
    reset, and one has observed the last increment. *)
Record atomic_at (y : loc) (w : world) (x : tid -> Z) (b n : nat) : Prop := {
  at_dom : forall i, (b <= i)%nat -> is_Some (whist w y i) <-> (i <= b + n)%nat;
  at_val : forall j m, (j <= n)%nat -> whist w y (b + j)%nat = Some m -> mval m = Z.of_nat j;
  at_total : Z.of_nat n = total y x;
  at_base : forall u, (u < Nat.max 1 (wn w))%nat -> (b <= wview w u (KL y))%nat;
  at_last : exists u, (u < Nat.max 1 (wn w))%nat /\ (b + n <= wview w u (KL y))%nat
}.

Definition atomic_inv (w : world) (x : tid -> Z) : Prop :=
  (forall u, 0 <= x u <= iters) /\ x 0%nat = 0 /\
  forall u, (0 < u <= N)%nat -> exists b n, atomic_at (tgt u) w x b n.

(** Thread [S i] runs the worker on its counter. *)
Definition atomic_harness : harness Z :=
  Harness N (fun i => atomic_worker bits (tgt (S i)) iters o) (fun _ => 0)
    (fun _ _ _ s => s = iters) good (fun _ _ _ => True) (fun _ => true).

Lemma total_ext y x x' : (forall u, x u = x' u) -> total y x = total y x'.
Proof. intros Hx. apply sumn_ext. intros u _. by rewrite Hx. Qed.

#[export] Instance atomic_client : Growing atomic_inv.
Proof.
  intros w w' x x' Hg Hx (Hb & H0 & Ha). unfold atomic_inv. split_all; [by intros; rewrite <- Hx|by rewrite <- Hx|].
  intros u Hu. destruct (Ha u Hu) as (b & n & [Hd Hv Ht Hbase (u1 & Hu1 & Hlast)]). exists b, n.
  destruct Hg as [Hvw Hh _ _ _ _ _ Hn Hnew]. split; rewrite ?Hh by tauto; try done.
  - by rewrite <- (total_ext _ x) by done.
  - intros u2 Hu2. destruct (decide (u2 < Nat.max 1 (wn w))%nat) as [Hlt|Hge].
    + specialize (Hbase u2 Hlt). specialize (Hvw u2 (KL (tgt u))). lia.
    + specialize (Hbase 0%nat ltac:(lia)). specialize (Hnew u2 ltac:(lia) (KL (tgt u))). lia.
  - exists u1. specialize (Hvw u1 (KL (tgt u))). lia.
Qed.

#[export] Instance atomic_outfree t : OutFree atomic_inv t.
Proof.
  intros w fmt args x (Hb & H0 & Ha). unfold atomic_inv. split_all; [done..|]. intros u Hu.
  destruct (Ha u Hu) as (b & n & []). exists b, n. by split.
Qed.

Local Abbreviation H := atomic_harness.
Local Abbreviation wp := (wp (hlogic H atomic_inv)).
Hypothesis Hiters : 0 <= iters.
Hypothesis Hbits : 0 < bits.
Hypothesis Hrange : in_range bits (Z.of_nat N * iters) = true.

Lemma total_bound y (x : tid -> Z) t :
  (0 < t < S N)%nat -> tgt t = y -> (forall u, 0 <= x u <= iters) -> x 0%nat = 0 -> x t < iters ->
  0 <= total y x < Z.of_nat N * iters.
Proof.
  intros Ht Hy Hb H0 Hlt. apply (sum_below N iters _ t Ht); [|by rewrite decide_True].
  intros [|u]; simpl; (case_decide; [|lia]); [lia|apply Hb].
Qed.

Lemma total_incr y (x : tid -> Z) t :
  (t < S N)%nat ->
  total y (<[t := x t + 1]> x) = total y x + (if decide (tgt t = y) then 1 else 0).
Proof.
  intros Ht. unfold total. rewrite (sumn_upd _ (fun u => if decide (tgt u = y) then x u else 0) _ t) by
    (done || (intros; by fn_simpl)). fn_simpl. case_decide; lia.
Qed.

(** One atomic increment, whatever its memory order. *)
Lemma wp_atomic_incr {A} t c l V (k : Z -> prog A) Q :
  l_end l = false -> l_w l = c -> (0 < t)%nat -> c < iters ->
  (forall r V', V ⊑v V' -> wp t (k r) (upd_w l (c + 1)) V' Q) ->
  wp t (Op (AtomicFetchAdd bits (tgt t) 1 o) k) l V Q.
Proof.
  intros Hend Hl Ht Hc Hk. apply wp_client; [apply _|done..|]. intros w x ch Hf. simpl.
  destruct (do_rmw ch t (tgt t) _ _ o w) as [| |r w'] eqn:E;
    [done|unfold do_rmw in E; by repeat case_match|].
  apply do_rmw_inv in E as (m & Hi & Hsi & Hle & -> & ->). simpl. fn_simpl.
  exists (c + 1). split; [|apply Hk; rewrite <- (hf_view Hf); auto with workshop].
  pose proof (hf_lt Hf) as Hlt. pose proof (hf_max Hf) as Hmax. simpl in Hmax.
  destruct (hf_ci Hf) as (Hb & H0 & Ha). pose proof (hf_me Hf) as Hx. rewrite Hl in Hx.
  rewrite <- Hx. unfold atomic_inv. split_all.
  { intros u. fn_case; [specialize (Hb u); lia|done]. } { by fn_simpl. }
  intros u Hu. destruct (Ha u Hu) as (b & n & [Hd Hv Htot Hbase (u1 & Hu1 & Hlast)]).
  destruct (decide (tgt u = tgt t)) as [Eq|Hne].
  - rewrite Eq in *. exists b, (S n).
    assert (cts ch = b + n)%nat as Hn.
    { specialize (Hbase t ltac:(lia)).
      pose proof (proj1 (Hd (cts ch) ltac:(lia)) ltac:(by eexists)).
      destruct (decide (cts ch < b + n)%nat); [|lia].
      destruct (proj2 (Hd (S (cts ch)) ltac:(lia)) ltac:(lia)). congruence. }
    rewrite Hn in *. split; simpl; fn_simpl.
    + intros i Hib. fn_case; [split; [lia|by eexists]|]. rewrite Hd by done. lia.
    + intros j m' Hj. fn_case.
      * intros [= <-]. simpl. rewrite (Hv n m) by (done || lia).
        assert (j = S n) as -> by lia.
        pose proof (total_bound (tgt t) x t ltac:(lia) eq_refl Hb H0 ltac:(lia)) as Htb.
        rewrite wrap_in_range; [lia|done|]. eapply in_range_between; [exact Hrange|]. lia.
      * intros Hm'. apply (Hv j); [|done]. assert (j <> S n) by (intros ->; lia). lia.
    + rewrite total_incr, decide_True by (done || lia). lia.
    + intros u2 Hu2. specialize (Hbase u2 Hu2). fn_case; [|done].
      pose proof (rmw_view_le (wview w u2) (tgt u2) (b + n) m o (KL (tgt u2))). lia.
    + exists t. split; [lia|]. fn_simpl. unfold rmw_view, vjoin. rewrite vsing_key. lia.
  - exists b, n. split; simpl; fn_simpl; try done.
    + rewrite total_incr, decide_False by (done || lia). lia.
    + intros u2 Hu2. specialize (Hbase u2 Hu2). fn_case; [|done].
      pose proof (rmw_view_le (wview w u2) (tgt u2) (cts ch) m o (KL (tgt u))). lia.
    + exists u1. split; [done|]. fn_case; [|done].
      pose proof (rmw_view_le (wview w u1) (tgt u1) (cts ch) m o (KL (tgt u))). lia.
Qed.

(** Thread 0 before it creates the workers: [atomic_store(&x, 0)]. *)
Lemma wp_reset_atomic {A} y os l V (k : Z -> prog A) Q :
  l_end l = false -> l_w l = 0 -> l_c l = 0%nat ->
  (forall V', V ⊑v V' -> wp 0%nat (k 0) l V' Q) ->
  wp 0%nat (Op (AtomicStore y 0 os) k) l V Q.
Proof.
  intros Hend Hl Hlc Hk. apply wp_client; [apply _|done..|]. intros w x ch Hf. simpl. unfold do_store.
  destruct (whist w y (cts ch)) eqn:Hi; [done|].
  destruct (Nat.ltb_spec (wview w 0%nat (KL y)) (cts ch)) as [Hlt|]; [|done].
  destruct (hf_main Hf eq_refl) as [Hn _]. rewrite Hlc in Hn.
  assert (forall u, x u = 0) as Hx.
  { intros [|u]; [by rewrite (hf_me Hf)|]. rewrite (hf_init Hf) by lia. done. }
  assert (forall y', total y' x = 0) as Ht0.
  { intros y'. unfold total. rewrite (sumn_const _ _ 0); [lia|].
    intros u _. rewrite Hx. by destruct (decide _). }
  assert (forall u, <[0%nat := l_w l]> x u = x u) as Hupd by (intros u; fn_case; by rewrite Hx).
  exists (l_w l). split.
  - destruct (hf_ci Hf) as (Hb & H0 & Ha). unfold atomic_inv.
    split_all; [intros u; rewrite Hupd; apply Hb|by rewrite Hupd|].
    intros u Hu. destruct (Ha u Hu) as (b & n & [Hd Hv Htot Hbase Hlast]).
    assert (n = 0%nat) as -> by (rewrite Ht0 in Htot; lia).
    specialize (Hbase 0%nat ltac:(lia)). destruct (decide (tgt u = y)) as [Eq|Hne].
    + rewrite Eq in *. exists (cts ch), 0%nat.
      split; simpl; rewrite ?(total_ext _ _ x) by done; rewrite ?Ht0; fn_simpl; try done.
      * intros i Hib. fn_case; [split; [lia|by eexists]|]. rewrite Hd by lia. lia.
      * intros j m Hj. replace (cts ch + j)%nat with (cts ch) by lia. fn_simpl.
        intros [= <-]. simpl. lia.
      * intros u2 Hu2. assert (u2 = 0%nat) as -> by lia. fn_simpl. unfold vjoin.
        rewrite vsing_key. lia.
      * exists 0%nat. split; [lia|]. fn_simpl. unfold vjoin. rewrite vsing_key. lia.
    + exists b, 0%nat. split; simpl; rewrite ?(total_ext _ _ x) by done; fn_simpl; try done.
      * intros u2 Hu2. assert (u2 = 0%nat) as -> by lia. fn_simpl. unfold vjoin. lia.
      * exists 0%nat. split; [lia|]. fn_simpl. unfold vjoin. lia.
  - simpl. fn_simpl. destruct l. apply Hk. rewrite <- (hf_view Hf). auto with workshop.
Qed.

(** The count of a counter when the first [M] workers are done and the
    others have not started. *)
Definition full (M : nat) (y : loc) : Z :=
  total y (fun u => if decide (0 < u <= M)%nat then iters else 0).

(** Thread 0 after it has joined all workers it has created reads the
    complete count, with any memory order. *)
Lemma wp_final_atomic {A} M u ol l V (k : Z -> prog A) Q :
  l_end l = false -> l_w l = 0 -> l_c l = M -> (0 < u <= N)%nat ->
  (forall u, (0 < u <= M)%nat -> u ∈ l_j l) ->
  (forall V', V ⊑v V' -> wp 0%nat (k (full M (tgt u))) l V' Q) ->
  wp 0%nat (Op (AtomicLoad (tgt u) ol) k) l V Q.
Proof.
  intros Hend Hl Hlc Hu Hj Hk. apply wp_grow; [apply _|done..|]. intros w x ch Hf. simpl. unfold do_load.
  destruct (whist w (tgt u) (cts ch)) as [m|] eqn:Hi; [|done].
  destruct (Nat.leb_spec (wview w 0%nat (KL (tgt u))) (cts ch)) as [Hle|]; [|done].
  split; [apply grows_set_view; auto with workshop|].
  destruct (hf_main Hf eq_refl) as [Hn Hjoin]. rewrite Hlc in Hn.
  destruct (hf_ci Hf) as (Hb & H0 & Ha).
  destruct (Ha u Hu) as (b & n & [Hd Hv Htot Hbase (u1 & Hu1 & Hlast)]).
  assert (b + n <= wview w 0%nat (KL (tgt u)))%nat as Hge.
  { destruct (decide (u1 = 0%nat)) as [->|Hne]; [done|].
    destruct (Hjoin u1 (Hj u1 ltac:(lia))) as [_ Hle']. specialize (Hle' (KL (tgt u))). lia. }
  assert (cts ch = b + n)%nat as Hc.
  { pose proof (proj1 (Hd (cts ch) ltac:(lia)) ltac:(by eexists)). lia. }
  rewrite Hc in Hi. rewrite (Hv n m) by done. simpl. fn_simpl.
  replace (Z.of_nat n) with (full M (tgt u)).
  - apply Hk. rewrite <- (hf_view Hf). auto with workshop.
  - rewrite Htot. apply sumn_ext. intros u2 Hu2. destruct (decide (tgt u2 = tgt u)); [|done].
    destruct (decide (0 < u2 <= M)%nat) as [Hin|Hout].
    + destruct (Hjoin u2 (Hj u2 Hin)) as [(v & out & Hfin) _]. by rewrite Hfin.
    + destruct (decide (u2 = 0%nat)) as [->|]; [done|]. by rewrite (hf_init Hf) by lia.
Qed.

#[export] Instance atomic_progress : Progress H atomic_inv.
Proof. intros w g Hi Hwf _ (u & Hu & Hnd). by exists u. Qed.

Lemma atomic_init : atomic_inv init_world (fun _ => 0).
Proof.
  unfold atomic_inv. split_all; [lia|done|]. intros u Hu. exists 0%nat, 0%nat. split; simpl.
  - intros [|i] _; simpl; split; intros Hi; try done; try lia; by destruct Hi.
  - intros [|j] m Hj; [intros [= <-]; done|lia].
  - unfold total. rewrite (sumn_const _ _ 0); [lia|]. intros i _. by destruct (decide _).
  - intros. lia.
  - exists 0%nat. lia.
Qed.

Lemma atomic_code_ok : code_ok H atomic_inv.
Proof.
  intros i V Hi. simpl in *. apply wp_bind.
  eapply wp_mono; [apply wp_for with (P := fun c l _ => l = fresh c); [done| |done]|].
  - intros c l V' Hc ->. prog_simpl. apply (wp_atomic_incr (S i) c); [done..|lia|lia|].
    intros r V'' _. by apply wp_ret.
  - intros u l' V' ->. apply wp_ret. by split.
Qed.
End AtomicCounter.

(** One counter shared by all. *)
Lemma full_shared N iters (tgt : tid -> loc) y :
  (forall u, tgt u = y) -> full N iters tgt N y = Z.of_nat N * iters.
Proof.
  intros Ht. unfold full, total. rewrite sumn_first. rewrite decide_True, decide_False by (done || lia).
  rewrite (sumn_const _ _ iters); [lia|]. intros i Hi. by rewrite !decide_True by (done || lia).
Qed.

(** A counter of one's own. *)
Lemma full_own N iters (tgt : tid -> loc) M u :
  (0 < u <= N)%nat -> (forall u', (0 < u' <= N)%nat -> tgt u' = tgt u -> u' = u) ->
  full N iters tgt M (tgt u) = if decide (u <= M)%nat then iters else 0.
Proof.
  intros Hu Ht. unfold full, total.
  rewrite (sumn_ext _ _ (<[u := if decide (u <= M)%nat then iters else 0]> (fun _ => 0))).
  - rewrite (sumn_upd _ (fun _ => 0) _ u); [|lia|intros; by fn_simpl].
    rewrite (sumn_const _ _ 0) by done. fn_simpl. lia.
  - intros j Hj. destruct (decide (j = u)) as [->|Hne]; fn_simpl.
    + rewrite decide_True by done. repeat case_decide; lia || done.
    + case_decide as E; [|done]. rewrite decide_False; [done|]. intros Hj0. by apply Hne, Ht; [lia|].
Qed.
