(* ===== verification/Bench.v ===== *)
(** * include/benchmark.h: timing, allocation and performance counters

    The timing helpers run on the machine; the calls that go to the kernel or
    the allocator ([posix_memalign], [perf_event_open], [ioctl], [read],
    [close]) are parameters. *)

From S2P Require Import Prelude Machine Logic Harness.

(** [struct timespec] as [clock_gettime(CLOCK_MONOTONIC, .)] fills it in. *)
Record timespec := Timespec { tv_sec : Z; tv_nsec : Z }.

Definition clock_gettime : prog timespec :=
  n ← perform ClockGettime; Ret (Timespec (n / 10 ^ 9) (n mod 10 ^ 9)).

(** [(uint64_t)ts.tv_sec * 1000000000ULL + (uint64_t)ts.tv_nsec] *)
Definition to_nanos (t : timespec) : Z :=
  uwrap 64 (uwrap 64 (uwrap 64 (tv_sec t) * 10 ^ 9) + uwrap 64 (tv_nsec t)).

Definition get_nanos : prog Z := t ← clock_gettime; Ret (to_nanos t).

(** The [%s] of the line is substituted; the elapsed time is recorded in
    nanoseconds, before the division by 1e6. *)
Definition elapsed_fmt (label : string) : string := label ++ ": %.3f ms\n".

(** The loop variable is [_i]; [_start] and [_elapsed] are locals of the
    macro. *)
Definition TIME_BLOCK (label : string) (body : prog unit) : prog unit :=
  _start ← get_nanos;
  loop_ 0 (fun _i =>
    if _i =? 0 then
      body;;
      now ← get_nanos;
      printf (elapsed_fmt label) [uwrap 64 (now - _start)];;
      Ret (inl (_i + 1))
    else Ret (inr 0));;
  Ret tt.

(** Both [for] loops of the macro; [set] is the assignment to [elapsed_var].
    [clock_gettime] on the monotonic clock returns 0. *)
Definition TIME_IT (set : timespec -> timespec -> prog unit) (body : prog unit) : prog unit :=
  _ ← loop_ 0 (fun _ =>
    _ts_start ← clock_gettime;
    let rc := 0 in
    if rc =? 0 then
      loop_ 0 (fun _done =>
        if _done =? 0 then
          body;;
          _ts_end ← clock_gettime;
          set _ts_start _ts_end;;
          Ret (inl 1)
        else Ret (inr 0));;
      Ret (inl 0)
    else Ret (inr 0));
  Ret tt.

(** ** Cache-aligned allocation *)

Definition CACHE_LINE_SIZE : Z := 64.

(** The cache line of an address. *)
Definition cache_line (a : loc) : Z := a / CACHE_LINE_SIZE.

(** [posix_memalign(&ptr, alignment, size)] returns an error number, and
    stores a pointer when it is 0; the null pointer is 0. *)
Section Allocation.
Context (posix_memalign : Z -> Z -> Z * loc).

Definition cache_aligned_alloc (size : Z) : loc :=
  let '(rc, ptr) := posix_memalign CACHE_LINE_SIZE size in
  if rc =? 0 then ptr else 0.
End Allocation.

(** ** Performance counters *)

(** [perf_counter_t]: [int fd] at offset 0 and [uint64_t count] at offset 8. *)
Definition pc_fd (pc : loc) : loc := pc.
Definition pc_count (pc : loc) : loc := pc + 8.

(** The fields of [struct perf_event_attr] that are set; the others are 0. *)
Record perf_event_attr := Attr {
  pe_type : Z; pe_size : Z; pe_config : Z;
  pe_disabled : Z; pe_exclude_kernel : Z; pe_exclude_hv : Z
}.
Definition PERF_ATTR_ZERO : perf_event_attr := Attr 0 0 0 0 0 0.

Definition PERF_TYPE_HARDWARE : Z := 0.
Definition PERF_COUNT_HW_CACHE_MISSES : Z := 3.

Inductive perf_request := PERF_EVENT_IOC_RESET | PERF_EVENT_IOC_ENABLE | PERF_EVENT_IOC_DISABLE.

Section Perf.
Context (sizeof_attr : Z) (perf_event_open : perf_event_attr -> prog Z)
  (ioctl : Z -> perf_request -> prog Z) (read : Z -> loc -> prog Z) (close : Z -> prog Z).

Definition perf_attr (type config : Z) : perf_event_attr :=
  let pe := PERF_ATTR_ZERO in
  let pe := Attr type (pe_size pe) (pe_config pe) (pe_disabled pe) (pe_exclude_kernel pe) (pe_exclude_hv pe) in
  let pe := Attr (pe_type pe) sizeof_attr (pe_config pe) (pe_disabled pe) (pe_exclude_kernel pe) (pe_exclude_hv pe) in
  let pe := Attr (pe_type pe) (pe_size pe) config (pe_disabled pe) (pe_exclude_kernel pe) (pe_exclude_hv pe) in
  let pe := Attr (pe_type pe) (pe_size pe) (pe_config pe) 1 (pe_exclude_kernel pe) (pe_exclude_hv pe) in
  let pe := Attr (pe_type pe) (pe_size pe) (pe_config pe) (pe_disabled pe) 1 (pe_exclude_hv pe) in
  Attr (pe_type pe) (pe_size pe) (pe_config pe) (pe_disabled pe) (pe_exclude_kernel pe) 1.

Definition perf_counter_init (pc : loc) (type config : Z) : prog Z :=
  fd ← perf_event_open (perf_attr type config);
  do_ (NaWrite (pc_fd pc) (wrap INT_BITS fd));;
  perform (NaRead (pc_fd pc)).

Definition perf_counter_start (pc : loc) : prog unit :=
  fd ← perform (NaRead (pc_fd pc));
  ioctl fd PERF_EVENT_IOC_RESET;;
  fd' ← perform (NaRead (pc_fd pc));
  ioctl fd' PERF_EVENT_IOC_ENABLE;;
  Ret tt.

Definition perf_counter_stop (pc : loc) : prog unit :=
  fd ← perform (NaRead (pc_fd pc));
  ioctl fd PERF_EVENT_IOC_DISABLE;;
  fd' ← perform (NaRead (pc_fd pc));
  read fd' (pc_count pc);;
  Ret tt.

Definition perf_counter_close (pc : loc) : prog unit :=
  fd ← perform (NaRead (pc_fd pc));
  close fd;;
  Ret tt.

(** The three nested [for] loops of the macro; [pc] is its local variable,
    [set] the assignment to [miss_var]. *)
Definition MEASURE_CACHE_MISSES (pc : loc) (set : Z -> prog unit) (body : prog unit) : prog unit :=
  _ ← loop_ 0 (fun _ =>
    perf_counter_init pc PERF_TYPE_HARDWARE PERF_COUNT_HW_CACHE_MISSES;;
    loop_ 1 (fun _init =>
      if _init =? 0 then Ret (inr 0) else
      perf_counter_start pc;;
      loop_ 0 (fun _done =>
        if _done =? 0 then
          body;;
          perf_counter_stop pc;;
          n ← perform (NaRead (pc_count pc));
          set n;;
          perf_counter_close pc;;
          Ret (inl 1)
        else Ret (inr 0));;
      Ret (inl 0));;
    Ret (inl 0));
  Ret tt.
End Perf.

(** ** What the macros do *)

Section Timing.
Context {W : Type} (H : harness W) (CI : world -> (tid -> W) -> Prop) `{!Client CI}.
Local Abbreviation wp := (wp (hlogic H CI)).

Lemma wp_get_nanos t l V (Q : Z -> lst W -> view -> Prop) :
  l_end l = false -> (forall n, Q n l V) -> wp t get_nanos l V Q.
Proof.
  intros Hend HQ. unfold get_nanos, clock_gettime. prog_simpl. apply wp_clock; [apply _|done|].
  intros n. by apply wp_ret.
Qed.

(** The body runs, and runs once. *)
Lemma wp_time_block t `{!OutFree CI t} label body l V (Q : unit -> lst W -> view -> Prop) :
  l_end l = false ->
  (forall d, h_good H (Event t (elapsed_fmt label) [d])) ->
  wp t body l V (fun _ l' V' => l_end l' = false /\
    forall d, Q tt (say (Event t (elapsed_fmt label) [d]) l') V') ->
  wp t (TIME_BLOCK label body) l V Q.
Proof.
  intros Hend Hgood Hb. unfold TIME_BLOCK. apply wp_bind, wp_get_nanos; [done|]. intros n0.
  apply wp_bind, wp_loop_turn. simpl Z.eqb. cbv iota. apply wp_bind.
  eapply wp_mono; [exact Hb|]. intros u l1 V1 [Hend1 HQ].
  apply wp_bind, wp_get_nanos; [done|]. intros n1. prog_simpl.
  apply wp_printf; [apply _..|done|done|]. apply wp_ret, wp_loop_turn, wp_ret, wp_ret. apply HQ.
Qed.

End Timing.

(** C30. [get_nanos] is exact: for a clock that shows [n] nanoseconds, below
    2^64, the two fields and the 64-bit arithmetic give back [n]; and the
    elapsed time between two readings is their difference. *)
Theorem nanos_exact n m :
  0 <= n <= m -> m < 2 ^ 64 ->
  to_nanos (Timespec (n / 10 ^ 9) (n mod 10 ^ 9)) = n /\
  uwrap 64 (m - to_nanos (Timespec (n / 10 ^ 9) (n mod 10 ^ 9))) = m - n.
Proof.
  intros Hn Hm.
  assert (to_nanos (Timespec (n / 10 ^ 9) (n mod 10 ^ 9)) = n) as ->.
  { unfold to_nanos, uwrap. cbn [tv_sec tv_nsec].
    pose proof (Z.div_mod n (10 ^ 9) ltac:(lia)). pose proof (Z.mod_pos_bound n (10 ^ 9) ltac:(lia)).
    pose proof (Z.div_pos n (10 ^ 9) ltac:(lia) ltac:(lia)).
    rewrite (Z.mod_small (n / 10 ^ 9)), (Z.mod_small (n / 10 ^ 9 * _)), (Z.mod_small (n mod 10 ^ 9)),
      Z.mod_small; lia. }
  split; [done|]. unfold uwrap. apply Z.mod_small. lia.
Qed.

Lemma nanos_exact_witness :
  to_nanos (Timespec 3 500000000) = 3500000000 /\
  uwrap 64 (3600000000 - to_nanos (Timespec 3 500000000)) = 100000000.
Proof. apply (nanos_exact 3500000000 3600000000); lia. Defined.

(** C20. [TIME_IT] does not end: whatever the block it times does, a program
    that reaches the macro never gets past it, on any execution. *)
Theorem time_it_never_returns set body (k : unit -> prog Z) C :
  reachable (u ← TIME_IT set body; k u) C -> returned C = None.
Proof.
  apply rets_never. unfold TIME_IT. apply (rets_bind (fun _ => False)); [|done].
  apply (rets_bind (fun _ => False)); [|done].
  apply rets_iter with (X := fun _ => False); [|done]. intros _.
  apply rets_seq. intros ts. simpl. apply rets_iter with (X := fun _ => True); [|by constructor].
  intros s. eapply rets_mono; [|apply rets_any]. by intros [].
Qed.

(** After 40 steps an empty block has been timed six times. *)
Lemma time_it_never_returns_witness :
  let C := drive 40 1 (start (u ← TIME_IT (fun _ _ => printf "timed\n" []) (Ret tt); Ret 0)) in
  length (wout (wld C)) = 6%nat /\ returned C = None.
Proof.
  split; [vm_compute; reflexivity|].
  apply (time_it_never_returns (fun _ _ => printf "timed\n" []) (Ret tt) (fun _ => Ret 0)).
  apply drive_steps.
Defined.

(** C21. Nor does [MEASURE_CACHE_MISSES] end, whatever the kernel answers. *)
Theorem measure_never_returns size opn ioctl read close pc set body (k : unit -> prog Z) C :
  reachable (u ← MEASURE_CACHE_MISSES size opn ioctl read close pc set body; k u) C ->
  returned C = None.
Proof.
  apply rets_never. unfold MEASURE_CACHE_MISSES. apply (rets_bind (fun _ => False)); [|done].
  apply (rets_bind (fun _ => False)); [|done].
  apply rets_iter with (X := fun _ => False); [|done]. intros _.
  apply rets_seq. intros fd. apply rets_seq. intros r. by constructor.
Qed.

Lemma measure_never_returns_witness :
  let C := drive 80 1 (start (u ← MEASURE_CACHE_MISSES 136 (fun _ => Ret 3) (fun _ _ => Ret 0)
             (fun _ _ => Ret 8) (fun _ => Ret 0) 8 (fun n => printf "misses: %lu\n" [n]) (Ret tt); Ret 0)) in
  length (wout (wld C)) = 5%nat /\ returned C = None.
Proof.
  split; [vm_compute; reflexivity|].
  apply (measure_never_returns 136 (fun _ => Ret 3) (fun _ _ => Ret 0) (fun _ _ => Ret 8)
    (fun _ => Ret 0) 8 (fun n => printf "misses: %lu\n" [n]) (Ret tt) (fun _ => Ret 0)).
  apply drive_steps.
Defined.
