(* ===== verification/Termination.v ===== *)
(** * Programs all of whose executions return

    The programs of exercises 00, 01, 02, 03 and 08 wait for locks and for
    other threads, but they do not spin. Whatever the scheduler and the memory
    do, such a program takes finitely many steps; together with [can_return],
    which says that it is never stuck, this means that it returns. *)

From S2P Require Import Prelude Machine Logic Harness Bench.

(** ** Programs without unbounded loops *)

(** [ends Q p]: every path through [p], with the loops unrolled, is finite,
    and so are those of the threads it creates; its result is in [Q]. *)
Inductive ends : forall {A : Type}, (A -> Prop) -> prog A -> Prop :=
| ends_ret A (Q : A -> Prop) a : Q a -> ends Q (Ret a)
| ends_op A (Q : A -> Prop) o k : (forall r, ends Q (k r)) -> ends Q (Op o k)
| ends_fork A (Q : A -> Prop) ch k :
    ends (fun _ => True) (thread ch) -> (forall u, ends Q (k u)) -> ends Q (Fork ch k)
| ends_iter A (Q : A -> Prop) b s k : ends Q (unfold_iter b s k) -> ends Q (Iter b s k).

(** A program with no such path that is infinite. *)
Abbreviation bounded p := (ends (fun _ => True) p).

(** ** Every execution returns *)

(** On every path of steps from [C] the program returns: there is a next step
    as long as it has not, and only finitely many. *)
Inductive must_return (C : config) : Prop :=
| must_now : is_Some (returned C) -> must_return C
| must_next : (exists C', step C C') -> (forall C', step C C' -> must_return C') -> must_return C.

(** ** Rules *)

Lemma ends_mono {A} (Q Q' : A -> Prop) p : (forall a, Q a -> Q' a) -> ends Q p -> ends Q' p.
Proof. intros HQ Hp. revert Q' HQ. induction Hp; intros Q' HQ; constructor; auto. Qed.

Lemma ends_bounded {A} (Q : A -> Prop) p : ends Q p -> bounded p.
Proof. by apply ends_mono. Qed.

Lemma ends_peq {A} (Q : A -> Prop) p p' : peq p p' -> ends Q p -> ends Q p'.
Proof.
  intros He Hp. revert p' He.
  induction Hp as [A Q a Ha|A Q o k _ IH|A Q ch k Hc _ _ IH|A Q b s k _ IH]; intros p' He;
    inversion He as [|? ? k' Hk|? ? k' Hk|? ? ? k' Hk]; simplify_eq; constructor; eauto.
  apply IH. by apply unfold_cong.
Qed.

Lemma ends_bind {A B} (P : A -> Prop) (Q : B -> Prop) p f :
  ends P p -> (forall a, P a -> ends Q (f a)) -> ends Q (bind p f).
Proof.
  intros Hp. revert f. induction Hp as [A P a Ha|A P o k _ IH|A P ch k Hc _ _ IH|A P b s k _ IH];
    intros f Hf; simpl; [by apply Hf|constructor; auto..|].
  constructor. eapply ends_peq; [apply unfold_bind|]. by apply IH.
Qed.

Lemma ends_seq {A B} (Q : B -> Prop) (p : prog A) f :
  bounded p -> (forall a, ends Q (f a)) -> ends Q (bind p f).
Proof. intros Hp Hf. eapply ends_bind; [exact Hp|auto]. Qed.

Lemma ends_perform (Q : Z -> Prop) o : (forall r, Q r) -> ends Q (perform o).
Proof. intros HQ. constructor. intros r. by constructor. Qed.

Lemma ends_do o : bounded (do_ o).
Proof. constructor. intros r. by constructor. Qed.

(** One turn of a loop. *)
Lemma ends_loop (Q : Z -> Prop) body s :
  ends (fun r => match r with inl s' => ends Q (loop_ s' body) | inr x => Q x end) (body s) ->
  ends Q (loop_ s body).
Proof.
  intros Hb. constructor. eapply ends_bind; [exact Hb|]. intros [s'|x] Hr; [done|]. by constructor.
Qed.

Create HintDb ends.
#[export] Hint Resolve ends_do : ends.
#[export] Hint Extern 1 (ends _ (printf _ _)) => apply ends_do : ends.
#[export] Hint Extern 1 (ends _ (store _ _ _)) => apply ends_do : ends.
#[export] Hint Extern 1 (ends _ (load _ _)) => apply ends_perform; done : ends.
#[export] Hint Extern 1 (ends _ (pthread_join _)) => apply ends_perform; done : ends.
#[export] Hint Extern 1 (ends _ (perform _)) => apply ends_perform; done : ends.
#[export] Hint Extern 1 (ends _ (Ret _)) => constructor; done : ends.
#[export] Hint Extern 1 (ends _ (Op _ _)) => constructor; intros ? : ends.
#[export] Hint Extern 2 (ends _ (bind _ _)) => apply ends_seq; [|intros ?] : ends.
#[export] Hint Extern 2 (ends _ (if ?b then _ else _)) => destruct b : ends.

Lemma ends_for n body : (forall i, bounded (body i)) -> bounded (for_ n body).
Proof.
  intros Hb. unfold for_. generalize 0 as i. induction (Z.to_nat n) as [|m IH]; intros i; cbn [for_from]; auto with ends.
Qed.

Lemma ends_puts lines : bounded (puts lines).
Proof. induction lines as [|ln lines IH]; cbn [puts]; auto with ends. Qed.

Lemma ends_incr bits x : bounded (incr bits x).
Proof. unfold incr. auto with ends. Qed.

Lemma ends_create (Q : Z -> Prop) st : bounded st -> (forall u, Q u) -> ends Q (pthread_create st).
Proof. intros Hs HQ. constructor; [|by constructor]. apply ends_seq; [done|]. intros v. constructor. auto with ends. Qed.

Lemma ends_create_threads n st : (forall i, bounded (st i)) -> bounded (create_threads n st).
Proof.
  intros Hs. unfold create_threads. generalize 0 as i.
  induction (Z.to_nat n) as [|m IH]; intros i; cbn [create_from]; [auto with ends|].
  apply ends_seq; [by apply ends_create|]. auto with ends.
Qed.

Lemma ends_join_threads us : bounded (join_threads us).
Proof. induction us as [|u us IH]; cbn [join_threads]; auto with ends. Qed.

#[export] Hint Resolve ends_for ends_puts ends_incr ends_create_threads ends_join_threads : ends.
#[export] Hint Extern 1 (ends _ (pthread_create _)) => apply ends_create; [|done] : ends.

Lemma ends_get_nanos : bounded get_nanos.
Proof. unfold get_nanos, clock_gettime. auto with ends. Qed.
#[export] Hint Resolve ends_get_nanos : ends.

(** The block is run once. *)
Lemma ends_time_block label body : bounded body -> bounded (TIME_BLOCK label body).
Proof.
  intros Hb. unfold TIME_BLOCK. apply ends_seq; [auto with ends|]. intros n0.
  apply ends_seq; [|auto with ends]. apply ends_loop. simpl Z.eqb. cbv iota.
  apply ends_seq; [done|]. intros _. apply ends_seq; [auto with ends|]. intros n1.
  apply ends_seq; [apply ends_do|]. intros _. constructor. apply ends_loop. by constructor.
Qed.
#[export] Hint Resolve ends_time_block : ends.

(** ** Strong normalization *)

(** The threads of a configuration, without the world they run in, and their
    steps: an operation may give any result, a new thread any identifier. *)
Abbreviation pmap := (tid -> option (prog Z)) (only parsing).

Definition pmove (T T' : pmap) (t : tid) (p : prog Z) : Prop :=
  match p with
  | Ret _ => False
  | Op _ k => exists r, forall u, T' u = <[t := Some (k r)]> T u
  | Fork ch k => exists v z, T v = None /\
      forall u, T' u = <[v := Some (thread ch)]> (<[t := Some (k z)]> T) u
  | Iter b s k => forall u, T' u = <[t := Some (unfold_iter b s k)]> T u
  end.
Definition pstep (T T' : pmap) : Prop := exists t p, T t = Some p /\ pmove T T' t p.

Lemma pstep_ext T1 T2 T' : (forall u, T1 u = T2 u) -> pstep T1 T' -> pstep T2 T'.
Proof.
  intros HT (t & p & Ht & Hp). exists t, p. rewrite <- HT. split; [done|].
  assert (forall σ u, <[t := σ]> T2 u = <[t := σ]> T1 u) as Hu
    by (intros σ u; unfold insert, fn_insert; by case_decide).
  destruct p as [a|o k|ch k|b s k]; simpl in *; [done|..].
  - destruct Hp as (r & Hr). exists r. intros u. by rewrite Hu.
  - destruct Hp as (v & z & Hv & Hr). exists v, z. rewrite <- HT. split; [done|]. intros u. rewrite Hr.
    unfold insert at 1 3, fn_insert at 1 3. case_decide; [done|]. by rewrite Hu.
  - intros u. by rewrite Hu.
Qed.

Lemma sn_ext T1 T2 : (forall u, T1 u = T2 u) -> sn pstep T1 -> sn pstep T2.
Proof.
  intros HT [H1]. constructor. intros T' Hs. apply H1. eapply pstep_ext; [|exact Hs]. done.
Qed.

(** What another thread does is the same with and without thread [t]. *)
Lemma pmove_other t σ T T' T1' u p :
  T t = None -> (forall u, T' u = <[t := Some σ]> T u) -> u <> t -> pmove T' T1' u p ->
  exists T1, pmove T T1 u p /\ T1 t = None /\ forall v, T1' v = <[t := Some σ]> T1 v.
Proof.
  intros Hn HT' Hne. destruct p as [a|o k|ch k|b s k]; simpl; [done|..].
  - intros (r & Hr). exists (<[u := Some (k r)]> T). split; [by exists r|]. split; [by fn_simpl|].
    intros v. rewrite Hr. unfold insert, fn_insert. repeat case_decide; subst; try done; rewrite HT'; by fn_simpl.
  - intros (v & z & Hv & Hr).
    assert (v <> t) as Hvt by (intros ->; rewrite HT', fn_lookup_insert in Hv; done).
    rewrite HT', fn_lookup_insert_ne in Hv by done.
    exists (<[v := Some (thread ch)]> (<[u := Some (k z)]> T)). split; [by exists v, z|]. split; [by fn_simpl|].
    intros x. rewrite Hr. unfold insert, fn_insert. repeat case_decide; subst; try done; rewrite HT'; by fn_simpl.
  - intros Hr. exists (<[u := Some (unfold_iter b s k)]> T). split; [done|]. split; [by fn_simpl|].
    intros v. rewrite Hr. unfold insert, fn_insert. repeat case_decide; subst; try done; rewrite HT'; by fn_simpl.
Qed.

(** A thread that can be added to any pool without infinite executions. *)
Definition addable (t : tid) (p : prog Z) : Prop :=
  forall T, sn pstep T -> T t = None ->
  forall T', (forall u, T' u = <[t := Some p]> T u) -> sn pstep T'.

Lemma addable_intro t p :
  (forall T T' T1, sn pstep T -> T t = None -> (forall u, T' u = <[t := Some p]> T u) ->
     pmove T' T1 t p -> sn pstep T1) -> addable t p.
Proof.
  intros H T HT. induction HT as [T Hacc IH]. intros Hn T' HT'. constructor. intros T1 (u & q & Hu & Hm).
  destruct (decide (u = t)) as [->|Hne].
  - rewrite HT', fn_lookup_insert in Hu. simplify_eq. by eapply (H T T'); [constructor| | |].
  - rewrite HT', fn_lookup_insert_ne in Hu by done.
    destruct (pmove_other t p T T' T1 u q Hn HT' Hne Hm) as (T2 & Hm2 & Hn2 & HT2).
    apply (IH T2); [by exists u, q|done..].
Qed.

Lemma bounded_addable {A : Type} (Q : A -> Prop) (p : prog A) :
  ends Q p -> forall (e : @eq Type Z A) t, addable t (eq_rect_r prog p e).
Proof.
  induction 1 as [A Q a Ha|A Q o k _ IH|A Q ch k _ IHc _ IH|A Q b s k _ IH]; intros e t; destruct e;
    cbv [eq_rect_r eq_rect eq_sym] in *; apply addable_intro; intros T T' T1 HT Hn HT'; simpl; [done|..].
  - intros (r & Hr). apply (IH r eq_refl t T HT Hn). intros u. rewrite Hr.
    unfold insert, fn_insert. case_decide; [done|]. rewrite HT'. by fn_simpl.
  - intros (v & z & Hv & Hr).
    assert (v <> t) as Hvt by (intros ->; rewrite HT', fn_lookup_insert in Hv; done).
    rewrite HT', fn_lookup_insert_ne in Hv by done.
    eapply (IHc eq_refl v (<[t := Some (k z)]> T)); [|by fn_simpl|].
    + by apply (IH z eq_refl t T HT Hn).
    + intros u. rewrite Hr. unfold insert, fn_insert. repeat case_decide; subst; try done.
      rewrite HT'. by fn_simpl.
  - intros Hr. apply (IH eq_refl t T HT Hn). intros u. rewrite Hr.
    unfold insert, fn_insert. case_decide; [done|]. rewrite HT'. by fn_simpl.
Qed.

Lemma step_pstep C C' : step C C' -> pstep (fun t => pool C !! t) (fun t => pool C' !! t).
Proof.
  intros (t & c & Hs). unfold cstep in Hs. destruct (wexit (wld C)); [done|].
  destruct (pool C !! t) as [p|] eqn:Et; [|done]. pose proof (lookup_lt_Some _ _ _ Et) as Hlt.
  assert (forall q u, <[t := q]> (pool C) !! u = <[t := Some q]> (fun u => pool C !! u) u) as Hu.
  { intros q u. destruct (decide (u = t)) as [->|]; fn_simpl; [by rewrite list_lookup_insert_eq|].
    by rewrite list_lookup_insert_ne. }
  exists t, p. split; [done|]. destruct p as [a|o k|ch k|b s k]; simpl; [done|..].
  - destruct (exec c t o (wld C)) as [| |r w']; simplify_eq/=. exists r. apply Hu.
  - simplify_eq/=. exists (length (pool C)), (Z.of_nat (wn (wld C))).
    split; [by apply lookup_ge_None_2|]. intros u. destruct (decide (u = length (pool C))) as [->|Hne]; fn_simpl.
    + rewrite lookup_app_r, length_insert, Nat.sub_diag by (rewrite length_insert; lia). done.
    + rewrite <- Hu. destruct (decide (u < length (pool C))%nat).
      * by rewrite lookup_app_l by (rewrite length_insert; lia).
      * rewrite !lookup_ge_None_2; [done|rewrite length_insert; lia|rewrite length_app, length_insert; simpl; lia].
  - simplify_eq/=. apply Hu.
Qed.

(** No execution of a bounded program is infinite. *)
Theorem bounded_sn main : bounded main -> sn step (start main).
Proof.
  intros Hm. assert (sn pstep (fun t => pool (start main) !! t)) as Hs.
  { apply (bounded_addable _ main Hm eq_refl 0%nat (fun _ => None)); [|done|].
    - constructor. intros T (t & p & Hbad & _). done.
    - intros [|u]; by fn_simpl. }
  remember (fun t => pool (start main) !! t) as T eqn:ET.
  assert (forall u, T u = pool (start main) !! u) as HT by (by rewrite ET). clear ET Hm.
  generalize dependent (start main). intros C HT. revert C HT.
  induction Hs as [T Hacc IH]. intros C HT. constructor. intros C' Hs.
  apply (IH (fun t => pool C' !! t)); [|done]. eapply pstep_ext; [|by apply step_pstep]. done.
Qed.

Lemma sn_steps C C' : sn step C -> steps C C' -> sn step C'.
Proof. intros Hsn Hs. induction Hs as [|C C1 C' H1 _ IH]; [done|]. apply IH. by apply Hsn. Qed.

(** A bounded program that can always return does. *)
Theorem bounded_returns main C :
  bounded main -> (forall C, reachable main C -> can_return C) -> reachable main C -> must_return C.
Proof.
  intros Hm Hcan Hr. pose proof (sn_steps _ _ (bounded_sn main Hm) Hr) as Hsn.
  induction Hsn as [C _ IH]. destruct (returned C) as [v|] eqn:Er; [left; by eexists|]. right.
  - destruct (Hcan C Hr) as (C' & Hs & Hret). destruct Hs as [|C C1 C' (t & c & _ & Hc) _].
    + rewrite Er in Hret. by destruct Hret.
    + by exists C1, t, c.
  - intros C' Hs. apply IH; [done|]. by eapply rtc_r.
Qed.

(** The verdict on a program without unbounded loops. *)
Corollary harness_always {W} (H : harness W) CI `{!Client CI} `{!Progress H CI} main C
    (Q : Z -> lst W -> Prop) :
  bounded main -> reachable main C -> CI init_world (h_init H) ->
  wp (hlogic H CI) 0%nat main (fresh (h_init H 0%nat)) vbot (fun v l _ => Q v l) ->
  ~ faulty C /\ must_return C /\ Forall (h_good H) (wout (wld C)) /\
  forall v, returned C = Some v ->
    exists l, Q v l /\ printed 0 C = rev (l_out l) /\
      forall u, u ∈ l_j l -> exists v' out x, h_final H u v' out x /\ printed u C = rev out.
Proof.
  intros Hb Hr Hi Hw. destruct (harness_total H CI main C Q Hr Hi Hw) as (Hf & _ & Hg & Hq).
  split_all; [done| |done|done]. apply (bounded_returns main C Hb); [|done].
  intros C' Hr'. by eapply harness_returns.
Qed.
