(* ===== verification/Stats.v ===== *)
(** * include/benchmark.h: running statistics

    [stats_t] and its functions. A [double] is an IEEE 754 binary64 number as
    the Standard Library specifies it, with every operation rounded to nearest
    even (no fused multiply-add); the struct is passed and returned by value. *)

From S2P Require Import Prelude Machine.
From Stdlib Require Import SpecFloat.

(** ** Doubles *)

Abbreviation double := spec_float (only parsing).
Definition dadd : double -> double -> double := SFadd 53 1024.
Definition dsub : double -> double -> double := SFsub 53 1024.
Definition dmul : double -> double -> double := SFmul 53 1024.
Definition ddiv : double -> double -> double := SFdiv 53 1024.
Definition dsqrt : double -> double := SFsqrt 53 1024.

(** The double nearest to an integer: a literal, or a conversion. *)
Definition of_Z (n : Z) : double := binary_normalize 53 1024 n 0 false.

Definition is_nan (x : double) : bool := match x with S754_nan => true | _ => false end.

(** ** The structure and its operations *)

Record stats_t := Stats {
  sum : double; sum_sq : double; count : Z; min : double; max : double
}.

Definition stats_init : stats_t :=
  Stats (of_Z 0) (of_Z 0) 0 (of_Z (10 ^ 300)) (SFopp (of_Z (10 ^ 300))).

Definition stats_add (s : stats_t) (value : double) : stats_t :=
  let s := Stats (dadd (sum s) value) (sum_sq s) (count s) (min s) (max s) in
  let s := Stats (sum s) (dadd (sum_sq s) (dmul value value)) (count s) (min s) (max s) in
  let s := Stats (sum s) (sum_sq s) (uwrap 64 (count s + 1)) (min s) (max s) in
  let s := if SFltb value (min s) then Stats (sum s) (sum_sq s) (count s) value (max s) else s in
  if SFltb (max s) value then Stats (sum s) (sum_sq s) (count s) (min s) value else s.

Definition stats_mean (s : stats_t) : double :=
  if 0 <? count s then ddiv (sum s) (of_Z (count s)) else of_Z 0.

Definition stats_stddev (s : stats_t) : double :=
  if count s <? 2 then of_Z 0 else
  let mean := stats_mean s in
  let variance := dsub (ddiv (sum_sq s) (of_Z (count s))) (dmul mean mean) in
  if SFltb (of_Z 0) variance then dsqrt variance else of_Z 0.

(** The arguments that follow the label in the call of [printf]. *)
Definition stats_print (s : stats_t) : list double * Z :=
  ([dmul (stats_mean s) (of_Z 1000); dmul (stats_stddev s) (of_Z 1000);
    dmul (min s) (of_Z 1000); dmul (max s) (of_Z 1000)], count s).

(** A series of measurements. *)
Definition stats_of (vs : list double) : stats_t := fold_left stats_add vs stats_init.

(** ** The order of doubles *)

(** Doubles other than NaN, as triples in lexicographic order. *)
Definition rank (x : double) : Z * Z * Z :=
  match x with
  | S754_infinity true => (-2, 0, 0)
  | S754_finite true m e => (-1, - e, - Z.pos m)
  | S754_zero _ | S754_nan => (0, 0, 0)
  | S754_finite false m e => (1, e, Z.pos m)
  | S754_infinity false => (2, 0, 0)
  end.

Definition rank_lt (a b : Z * Z * Z) : Prop :=
  let '(a1, a2, a3) := a in let '(b1, b2, b3) := b in
  a1 < b1 \/ a1 = b1 /\ (a2 < b2 \/ a2 = b2 /\ a3 < b3).

Lemma compare_rank x y :
  is_nan x = false -> is_nan y = false ->
  match SFcompare x y with
  | Some Lt => rank_lt (rank x) (rank y)
  | Some Eq => rank x = rank y
  | Some Gt => rank_lt (rank y) (rank x)
  | None => False
  end.
Proof.
  intros Hx Hy.
  destruct x as [[]|[]| |[] m1 e1], y as [[]|[]| |[] m2 e2]; try done; simpl; try lia;
    fold (Pos.compare m1 m2); destruct (Z.compare_spec e1 e2) as [->| |], (Pos.compare_spec m1 m2) as [->| |];
    simpl; solve [done|lia].
Qed.

Lemma ltb_rank x y : is_nan x = false -> is_nan y = false -> SFltb x y = true <-> rank_lt (rank x) (rank y).
Proof.
  intros Hx Hy. pose proof (compare_rank x y Hx Hy) as H. unfold SFltb, rank_lt in *.
  destruct (rank x) as [[a1 a2] a3], (rank y) as [[b1 b2] b3].
  destruct (SFcompare x y) as [[]|]; simplify_eq; split; intros ?; solve [done|lia].
Qed.

Lemma leb_rank x y :
  is_nan x = false -> is_nan y = false -> SFleb x y = true <-> ~ rank_lt (rank y) (rank x).
Proof.
  intros Hx Hy. pose proof (compare_rank x y Hx Hy) as H. unfold SFleb, rank_lt in *.
  destruct (rank x) as [[a1 a2] a3], (rank y) as [[b1 b2] b3].
  destruct (SFcompare x y) as [[]|]; simplify_eq; split; intros ?; solve [done|lia].
Qed.

Lemma rank_trans a b c : ~ rank_lt b a -> ~ rank_lt c b -> ~ rank_lt c a.
Proof. destruct a as [[a1 a2] a3], b as [[b1 b2] b3], c as [[c1 c2] c3]. simpl. lia. Qed.

Lemma rank_irrefl a : ~ rank_lt a a.
Proof. destruct a as [[a1 a2] a3]. simpl. lia. Qed.

Lemma rank_asym a b : rank_lt a b -> ~ rank_lt b a.
Proof. destruct a as [[a1 a2] a3], b as [[b1 b2] b3]. simpl. lia. Qed.

Lemma nan_ltb x y : SFltb x y = true -> is_nan x = false /\ is_nan y = false.
Proof. by destruct x, y. Qed.

(** One comparison of [stats_add], for the minimum and for the maximum. *)
Lemma keep_less x m :
  is_nan m = false ->
  let m' := if SFltb x m then x else m in
  is_nan m' = false /\ (m' = x \/ m' = m) /\ SFleb m' m = true /\
  (is_nan x = false -> SFleb m' x = true).
Proof.
  intros Hm. simpl. destruct (SFltb x m) eqn:E.
  - destruct (nan_ltb _ _ E) as [Hx _]. split_all; [done|by left|..].
    + apply leb_rank; [done..|]. apply rank_asym. by apply ltb_rank.
    + intros _. apply leb_rank; [done..|apply rank_irrefl].
  - split_all; [done|by right|..].
    + apply leb_rank; [done..|apply rank_irrefl].
    + intros Hx. apply leb_rank; [done..|]. rewrite <- ltb_rank by done. by rewrite E.
Qed.

Lemma keep_more x m :
  is_nan m = false ->
  let m' := if SFltb m x then x else m in
  is_nan m' = false /\ (m' = x \/ m' = m) /\ SFleb m m' = true /\
  (is_nan x = false -> SFleb x m' = true).
Proof.
  intros Hm. simpl. destruct (SFltb m x) eqn:E.
  - destruct (nan_ltb _ _ E) as [_ Hx]. split_all; [done|by left|..].
    + apply leb_rank; [done..|]. apply rank_asym. by apply ltb_rank.
    + intros _. apply leb_rank; [done..|apply rank_irrefl].
  - split_all; [done|by right|..].
    + apply leb_rank; [done..|apply rank_irrefl].
    + intros Hx. apply leb_rank; [done..|]. rewrite <- ltb_rank by done. by rewrite E.
Qed.

Lemma leb_trans x y z :
  is_nan y = false -> SFleb x y = true -> SFleb y z = true -> SFleb x z = true.
Proof.
  intros Hy Hxy Hyz. assert (is_nan x = false) as Hx by (by destruct x).
  assert (is_nan z = false) as Hz by (by destruct y, z).
  apply leb_rank in Hxy, Hyz; [|done..]. apply leb_rank; [done..|]. by eapply rank_trans.
Qed.

Lemma stats_add_fields s v :
  count (stats_add s v) = uwrap 64 (count s + 1) /\
  min (stats_add s v) = (if SFltb v (min s) then v else min s) /\
  max (stats_add s v) = (if SFltb (max s) v then v else max s).
Proof.
  unfold stats_add. cbn [sum sum_sq count min max].
  destruct (SFltb v (min s)); cbn [max]; destruct (SFltb (max s) v); done.
Qed.

(** ** Results *)

(** What a series of measurements leaves in the structure. *)
Record summarizes (vs : list double) (s : stats_t) : Prop := {
  su_count : count s = uwrap 64 (Z.of_nat (length vs));
  su_nan : is_nan (min s) = false /\ is_nan (max s) = false;
  su_bound : forall v, v ∈ vs -> is_nan v = false -> SFleb (min s) v = true /\ SFleb v (max s) = true;
  su_min : min s = of_Z (10 ^ 300) \/ min s ∈ vs;
  su_max : max s = SFopp (of_Z (10 ^ 300)) \/ max s ∈ vs
}.

Lemma summarizes_add vs s v : summarizes vs s -> summarizes (vs ++ [v]) (stats_add s v).
Proof.
  intros [Hc [Hn Hx] Hb Hmin Hmax]. destruct (stats_add_fields s v) as (Ec & Emin & Emax).
  pose proof (keep_less v (min s) Hn) as HK. pose proof (keep_more v (max s) Hx) as HM. cbv zeta in HK, HM.
  rewrite <- Emin in HK. rewrite <- Emax in HM. destruct HK as (K1 & K2 & K3 & K4), HM as (M1 & M2 & M3 & M4).
  split; [|done|..].
  - rewrite Ec, Hc, length_app. unfold uwrap. rewrite Zplus_mod_idemp_l. f_equal. simpl. lia.
  - intros v' [Hv'| ->%list_elem_of_singleton]%elem_of_app Hnan; [|split; [by apply K4|by apply M4]].
    destruct (Hb v' Hv' Hnan). split; [by eapply (leb_trans _ (min s))|by eapply (leb_trans _ (max s))].
  - rewrite elem_of_app, list_elem_of_singleton. destruct K2 as [->| ->]; [by right; right|].
    destruct Hmin; [by left|by right; left].
  - rewrite elem_of_app, list_elem_of_singleton. destruct M2 as [->| ->]; [by right; right|].
    destruct Hmax; [by left|by right; left].
Qed.

Lemma stats_of_summarizes vs : summarizes vs (stats_of vs).
Proof.
  unfold stats_of. induction vs as [|v vs IH] using rev_ind.
  - split; try done; try by left. intros v Hv. by apply elem_of_nil in Hv.
  - rewrite fold_left_app. by apply summarizes_add.
Qed.

(** C22. After any series of measurements the count is their number (modulo
    2^64) and the minimum and the maximum bound every measurement that is a
    number; each is itself one of the measurements as soon as one of them is
    below 1e300, or above -1e300 for the maximum. *)
Theorem stats_min_max vs :
  let s := stats_of vs in
  count s = uwrap 64 (Z.of_nat (length vs)) /\
  (forall v, v ∈ vs -> is_nan v = false -> SFleb (min s) v = true /\ SFleb v (max s) = true) /\
  ((exists v, v ∈ vs /\ SFltb v (of_Z (10 ^ 300)) = true) -> min s ∈ vs) /\
  ((exists v, v ∈ vs /\ SFltb (SFopp (of_Z (10 ^ 300))) v = true) -> max s ∈ vs).
Proof.
  intros s. destruct (stats_of_summarizes vs) as [Hc [Hn Hx] Hb Hmin Hmax]. fold s in Hc, Hn, Hx, Hb, Hmin, Hmax.
  clearbody s. generalize dependent (of_Z (10 ^ 300)). intros huge Hmin Hmax. split_all; [done..| |].
  - intros (v & Hv & Hlt). destruct Hmin as [E|]; [|done]. destruct (nan_ltb _ _ Hlt) as [Hvn H3].
    apply ltb_rank in Hlt; [|done..]. destruct (Hb v Hv Hvn) as [Hle _]. rewrite E in Hle.
    by apply leb_rank in Hle.
  - intros (v & Hv & Hlt). destruct Hmax as [E|]; [|done]. destruct (nan_ltb _ _ Hlt) as [H3 Hvn].
    apply ltb_rank in Hlt; [|done..]. destruct (Hb v Hv Hvn) as [_ Hle]. rewrite E in Hle.
    by apply leb_rank in Hle.
Qed.

(** *** Rounding keeps the sign *)

Lemma shr_nonneg m r s p :
  0 <= m -> 0 <= shr_m (iter_pos shr_1 p (Build_shr_record m r s)).
Proof.
  assert (forall x, 0 <= shr_m x -> 0 <= shr_m (shr_1 x)) as H1.
  { intros [[|[]|] ? ?]; simpl; lia. }
  assert (forall x, 0 <= shr_m x -> 0 <= shr_m (iter_pos shr_1 p x)) as Hi.
  { induction p; simpl; auto. }
  intros Hm. by apply Hi.
Qed.

Lemma shr_fexp_nonneg m e l : 0 <= m -> 0 <= shr_m (shr_fexp 53 1024 m e l).1.
Proof.
  intros Hm. unfold shr_fexp, shr. assert (exists r s, shr_record_of_loc m l = Build_shr_record m r s)
    as (r & s & ->) by (destruct l as [|[]]; simpl; eauto).
  destruct (_ - e); simpl; [done|by apply shr_nonneg|done].
Qed.

Lemma round_even_nonneg m l : 0 <= m -> 0 <= round_nearest_even m l.
Proof. intros Hm. destruct l as [|[]]; simpl; try case_match; lia. Qed.

Lemma round_aux_nonneg m e l : 0 <= m -> SFleb (of_Z 0) (binary_round_aux 53 1024 false m e l) = true.
Proof.
  intros Hm. unfold binary_round_aux.
  pose proof (shr_fexp_nonneg m e l Hm) as H1. destruct (shr_fexp 53 1024 m e l) as [mrs1 e1]. simpl in H1.
  pose proof (shr_fexp_nonneg _ e1 loc_Exact (round_even_nonneg _ (loc_of_shr_record mrs1) H1)) as H2.
  destruct (shr_fexp 53 1024 _ e1 loc_Exact) as [mrs2 e2]. simpl in H2.
  destruct (shr_m mrs2); [done|by case_match|lia].
Qed.

Lemma sqrt_core_nonneg m e : 0 <= (SFsqrt_core_binary 53 1024 (Z.pos m) e).1.1.
Proof.
  unfold SFsqrt_core_binary. generalize (e - 2 * Z.min (fexp 53 1024 (Z.div2 (Zdigits2 (Z.pos m) + e + 1))) (Z.div2 e)).
  intros s. set (m' := match s with Z0 => _ | Zpos _ => _ | Zneg _ => _ end).
  assert (0 <= m') as Hm' by (destruct s; unfold m'; [lia|rewrite Z.shiftl_nonneg; lia|lia]).
  clearbody m'. pose proof (Z.sqrtrem_spec m' Hm') as Hs. destruct (Z.sqrtrem m') as [q r]. simpl. lia.
Qed.

Lemma sqrt_nonneg x : SFleb (of_Z 0) x = true -> SFleb (of_Z 0) (dsqrt x) = true.
Proof.
  intros Hx. destruct x as [[]|[]| |[] m e]; try done. unfold dsqrt, SFsqrt.
  pose proof (sqrt_core_nonneg m e) as Hq.
  destruct (SFsqrt_core_binary 53 1024 (Z.pos m) e) as [[mz ez] lz]. by apply round_aux_nonneg.
Qed.

(** C23. The standard deviation is a number and it is not negative, whatever
    the structure holds: rounding may make the variance negative, and sums
    that have overflowed make it NaN, and neither reaches the square root. *)
Theorem stddev_nonneg s : SFleb (of_Z 0) (stats_stddev s) = true.
Proof.
  unfold stats_stddev. destruct (count s <? 2); [done|]. cbv zeta.
  set (variance := dsub _ _). clearbody variance.
  destruct (SFltb (of_Z 0) variance) eqn:E; [|done]. apply sqrt_nonneg.
  unfold SFltb, SFleb in *. by destruct (SFcompare (of_Z 0) variance) as [[]|].
Qed.

(** Three measurements. *)
Example stats_three :
  let s := stats_of [of_Z 2; of_Z 7; of_Z 3] in
  stats_mean s = of_Z 4 /\ min s = of_Z 2 /\ max s = of_Z 7 /\ count s = 3.
Proof. vm_compute. done. Qed.
