(* ===== verification/StatsExact.v ===== *)
(** * include/benchmark.h: the statistics of integers

    Doubles hold the integers below 2^53 exactly. While the sum of the squares
    of integer measurements stays below 2^53, [stats_add] computes with them
    what a reference on integers computes. *)

From S2P Require Import Prelude Machine Stats.
From Stdlib Require Import SpecFloat.

(** ** Rounding an integer that fits *)

(** The number of binary digits. *)
Definition digits (p : positive) : Z := Z.pos (digits2_pos p).

Lemma digits_log2 p : digits p = Z.log2 (Z.pos p) + 1.
Proof.
  unfold digits. induction p as [p IH|p IH|]; [| |done]; simpl digits2_pos; rewrite Pos2Z.inj_succ, IH.
  - rewrite Pos2Z.inj_xI, Z.log2_succ_double by done. lia.
  - rewrite Pos2Z.inj_xO, Z.log2_double by done. lia.
Qed.

Lemma digits_shift p q k : 0 <= k -> Z.pos q = Z.pos p * 2 ^ k -> digits q = digits p + k.
Proof. intros Hk Hq. rewrite !digits_log2, Hq, Z.log2_mul_pow2 by done. lia. Qed.

Lemma digits_mul p q : digits p + digits q - 1 <= digits (p * q) <= digits p + digits q.
Proof.
  rewrite !digits_log2, Pos2Z.inj_mul.
  pose proof (Z.log2_mul_below (Z.pos p) (Z.pos q) ltac:(done) ltac:(done)).
  pose proof (Z.log2_mul_above (Z.pos p) (Z.pos q) ltac:(done) ltac:(done)). lia.
Qed.

Lemma digits_fit p : Z.pos p < 2 ^ 53 -> 1 <= digits p <= 53.
Proof.
  intros Hp. rewrite digits_log2. pose proof (Z.log2_nonneg (Z.pos p)).
  apply Z.log2_lt_pow2 in Hp; [lia|done].
Qed.

(** Shifting out zeros loses nothing. *)
Lemma iter_pos_add {A} (f : A -> A) n x : iter_pos f n x = Nat.iter (Pos.to_nat n) f x.
Proof.
  revert x. induction n as [n IH|n IH|]; intros x; [..|done]; cbn [iter_pos]; rewrite !IH.
  - rewrite Pos2Nat.inj_xI. replace (S (2 * Pos.to_nat n)) with (Pos.to_nat n + S (Pos.to_nat n))%nat by lia.
    by rewrite Nat.iter_add, Nat.iter_succ_r.
  - rewrite Pos2Nat.inj_xO. replace (2 * Pos.to_nat n)%nat with (Pos.to_nat n + Pos.to_nat n)%nat by lia.
    by rewrite Nat.iter_add.
Qed.

Lemma shr_zeros n t :
  iter_pos shr_1 n (Build_shr_record (Z.pos t * 2 ^ Z.pos n) false false) = Build_shr_record (Z.pos t) false false.
Proof.
  rewrite iter_pos_add, <- (positive_nat_Z n). generalize (Pos.to_nat n). intros m. clear n. rename m into n.
  induction n as [|n IH]; [by rewrite Z.mul_1_r|]. rewrite Nat.iter_succ_r. rewrite <- IH. f_equal.
  rewrite Nat2Z.inj_succ, Z.pow_succ_r by lia.
  replace (Z.pos t * (2 * 2 ^ Z.of_nat n)) with (2 * (Z.pos t * 2 ^ Z.of_nat n)) by lia.
  assert (0 < Z.pos t * 2 ^ Z.of_nat n) as Hp by (apply Z.mul_pos_pos; [done|by apply Z.pow_pos_nonneg; lia]).
  by destruct (Z.pos t * 2 ^ Z.of_nat n).
Qed.

Lemma shl_zeros p d : Z.pos (Pos.iter xO p d) = Z.pos p * 2 ^ Z.pos d.
Proof.
  rewrite Pos2Nat.inj_iter, <- (positive_nat_Z d). generalize (Pos.to_nat d). intros m. clear d. rename m into d.
  induction d as [|d IH]; [by rewrite Z.mul_1_r|]. cbn [nat_rect]. rewrite Pos2Z.inj_xO, IH.
  rewrite Nat2Z.inj_succ, Z.pow_succ_r by lia. lia.
Qed.

(** The exponents that do not meet the bounds of the format. *)
Definition normal (e : Z) : Prop := -1074 <= e <= 971.

(** A mantissa of 53 digits, perhaps followed by zeros, is kept. *)
Lemma round_aux_exact s q t n ex :
  0 <= n -> Z.pos q = Z.pos t * 2 ^ n -> digits t = 53 -> normal (ex + n) ->
  binary_round_aux 53 1024 s (Z.pos q) ex loc_Exact = S754_finite s t (ex + n).
Proof.
  intros Hn Hq Ht [Hlo Hhi]. pose proof (digits_shift t q n Hn Hq) as Hd.
  assert (forall p e, digits p + e - 53 >= -1074 -> fexp 53 1024 (Zdigits2 (Z.pos p) + e) = digits p + e - 53) as Hf.
  { intros p e He. unfold fexp, emin. simpl Zdigits2. fold (digits p). lia. }
  assert (shr_fexp 53 1024 (Z.pos q) ex loc_Exact = (Build_shr_record (Z.pos t) false false, ex + n)) as E.
  { unfold shr_fexp. rewrite Hf by lia. replace (digits q + ex - 53 - ex) with n by lia.
    destruct n as [|n|n]; simpl; [|by rewrite Hq, shr_zeros|lia].
    rewrite Z.mul_1_r in Hq. by rewrite Hq, Z.add_0_r. }
  unfold binary_round_aux. rewrite E. simpl. unfold shr_fexp. rewrite Hf by lia.
  replace (digits t + (ex + n) - 53 - (ex + n)) with 0 by lia. simpl.
  by rewrite (proj2 (Z.leb_le _ _)) by lia.
Qed.

(** An integer of at most 53 digits, perhaps followed by zeros: the result has
    the same value and a mantissa of 53 digits. *)
Lemma round_exact s p q k e :
  0 <= k -> Z.pos q = Z.pos p * 2 ^ k -> digits p <= 53 -> normal (digits p + e - 53) ->
  exists t, Z.pos t = Z.pos p * 2 ^ (53 - digits p) /\
    binary_round 53 1024 s q (e - k) = S754_finite s t (digits p + e - 53).
Proof.
  intros Hk Hq Hp He. pose proof (digits_shift p q k Hk Hq) as Hd.
  assert (exists t, Z.pos t = Z.pos p * 2 ^ (53 - digits p)) as (t & Ht).
  { assert (0 < Z.pos p * 2 ^ (53 - digits p)) as H by (apply Z.mul_pos_pos; [done|apply Z.pow_pos_nonneg; lia]).
    destruct (Z.pos p * 2 ^ (53 - digits p)) as [|t|]; [lia|by exists t|lia]. }
  exists t. split; [done|]. pose proof (digits_shift p t (53 - digits p) ltac:(lia) Ht) as Hdt.
  unfold binary_round, shl_align, fexp, emin. fold (digits q). destruct He as [Hlo Hhi].
  replace (Z.max _ _ - (e - k)) with (k - (53 - digits p)) by lia.
  replace (Z.max _ _) with (digits p + e - 53) by lia.
  destruct (k - (53 - digits p)) as [|n|n] eqn:En.
  - rewrite (round_aux_exact s q t 0); [f_equal; lia|done| |lia|split; lia].
    rewrite Hq, Ht, Z.mul_1_r. do 2 f_equal. lia.
  - rewrite (round_aux_exact s q t (Z.pos n)); [f_equal; lia|done| |lia|split; lia].
    rewrite Hq, Ht, <- Z.mul_assoc, <- Z.pow_add_r by lia. do 2 f_equal. lia.
  - rewrite (round_aux_exact s _ t 0); [f_equal; lia|done| |lia|split; lia].
    rewrite shl_zeros, Hq, Ht, <- Z.mul_assoc, <- Z.pow_add_r, Z.mul_1_r by lia. do 2 f_equal. lia.
Qed.

(** ** Integers as doubles *)

Definition fits_double (z : Z) : Prop := Z.abs z < 2 ^ 53.

(** The double of an integer other than 0: its sign, a mantissa of 53 digits
    and the exponent that go with it. *)
Lemma of_Z_form z :
  z <> 0 -> fits_double z ->
  exists p t, z = cond_Zopp (z <? 0) (Z.pos p) /\ 1 <= digits p <= 53 /\ digits t = 53 /\
    Z.pos t = Z.pos p * 2 ^ (53 - digits p) /\ of_Z z = S754_finite (z <? 0) t (digits p - 53).
Proof.
  unfold fits_double. intros Hz Hf.
  assert (exists p, z = cond_Zopp (z <? 0) (Z.pos p) /\ of_Z z = binary_round 53 1024 (z <? 0) p 0 /\ Z.pos p < 2 ^ 53)
    as (p & Hzp & Ho & Hp) by (destruct z as [|p|p]; [done| |]; exists p; split_all; try done; lia).
  pose proof (digits_fit p Hp) as Hd.
  destruct (round_exact (z <? 0) p p 0 0) as (t & Ht & Hr); [done|lia|lia|split; lia|].
  exists p, t. split_all; try done; try lia.
  - rewrite (digits_shift p t (53 - digits p)); lia.
  - rewrite Ho. change 0 with (0 - 0) at 2. rewrite Hr. by rewrite Z.add_0_r.
Qed.

(** Zeros behind the integer do not matter. *)
Lemma normalize_exact z k :
  0 <= k -> fits_double z -> binary_normalize 53 1024 (z * 2 ^ k) (- k) false = of_Z z.
Proof.
  intros Hk Hf. destruct (decide (z = 0)) as [->|Hz]; [done|].
  destruct (of_Z_form z Hz Hf) as (p & t & Hzp & Hd & _ & Ht & ->).
  assert (exists q, Z.pos q = Z.pos p * 2 ^ k) as (q & Hq).
  { assert (0 < Z.pos p * 2 ^ k) as H by (apply Z.mul_pos_pos; [done|apply Z.pow_pos_nonneg; lia]).
    destruct (Z.pos p * 2 ^ k) as [|q|]; [lia|by exists q|lia]. }
  destruct (round_exact (z <? 0) p q k 0) as (t' & Ht' & Hr); [done|done|lia|split; lia|].
  assert (t' = t) as -> by (apply Pos2Z.inj; congruence).
  replace (0 - k) with (- k) in Hr by lia. replace (digits p + 0 - 53) with (digits p - 53) in Hr by lia.
  rewrite Hzp at 1. rewrite <- Hr. destruct (z <? 0); simpl; rewrite <- ?Z.mul_opp_l, ?Z.mul_opp_l, <- ?Hq; done.
Qed.

Lemma round_aux_of_Z s p q k :
  0 <= k -> Z.pos q = Z.pos p * 2 ^ k -> Z.pos p < 2 ^ 53 -> 53 - digits p <= k ->
  binary_round_aux 53 1024 s (Z.pos q) (- k) loc_Exact = of_Z (cond_Zopp s (Z.pos p)).
Proof.
  intros Hk Hq Hp Hle. assert (cond_Zopp s (Z.pos p) <> 0) as Hz by (by destruct s).
  assert ((cond_Zopp s (Z.pos p) <? 0) = s) as Hs by (by destruct s).
  destruct (of_Z_form _ Hz) as (p' & t & Hzp & Hd & Hdt & Ht & ->); [unfold fits_double; destruct s; simpl; lia|].
  rewrite Hs in *. assert (p' = p) as -> by (destruct s; cbn in Hzp; by simplify_eq).
  rewrite (round_aux_exact s q t (k - (53 - digits p))); [f_equal; lia|lia| |done|split; lia].
  rewrite Hq, Ht, <- Z.mul_assoc, <- Z.pow_add_r by lia. do 2 f_equal. lia.
Qed.

(** Aligning a mantissa to a smaller exponent. *)
Lemma shl_align_value t e ez : ez <= e -> Z.pos (shl_align t e ez).1 = Z.pos t * 2 ^ (e - ez).
Proof.
  intros He. unfold shl_align. destruct (ez - e) as [|d|d] eqn:E; [|lia|].
  - replace (e - ez) with 0 by lia. by rewrite Z.mul_1_r.
  - simpl. rewrite shl_zeros. do 2 f_equal. lia.
Qed.

Lemma form_align z p t e ez :
  z = cond_Zopp (z <? 0) (Z.pos p) -> Z.pos t = Z.pos p * 2 ^ (- e) -> ez <= e -> e <= 0 ->
  cond_Zopp (z <? 0) (Z.pos (shl_align t e ez).1) = z * 2 ^ (- ez).
Proof.
  intros Hz Ht He He0. rewrite shl_align_value, Ht, <- Z.mul_assoc, <- Z.pow_add_r by lia.
  replace (- e + (e - ez)) with (- ez) by lia. rewrite Hz at 2. destruct (z <? 0); unfold cond_Zopp; [|done].
  by rewrite Z.mul_opp_l.
Qed.

(** ** Exact operations *)

Lemma dadd_exact a b :
  fits_double a -> fits_double b -> fits_double (a + b) -> dadd (of_Z a) (of_Z b) = of_Z (a + b).
Proof.
  intros Ha Hb Hab. destruct (decide (a = 0)) as [->|Ha0].
  { rewrite Z.add_0_l. destruct (decide (b = 0)) as [->|Hb0]; [done|].
    by destruct (of_Z_form b Hb0 Hb) as (p & t & _ & _ & _ & _ & ->). }
  destruct (decide (b = 0)) as [->|Hb0].
  { rewrite Z.add_0_r. by destruct (of_Z_form a Ha0 Ha) as (p & t & _ & _ & _ & _ & ->). }
  destruct (of_Z_form a Ha0 Ha) as (pa & ta & Hpa & Hda & _ & Hta & ->).
  destruct (of_Z_form b Hb0 Hb) as (pb & tb & Hpb & Hdb & _ & Htb & ->).
  unfold dadd, SFadd. cbv zeta. set (ez := Z.min _ _).
  rewrite (form_align a pa), (form_align b pb); try done; try lia;
    [|rewrite Htb; do 2 f_equal; lia|rewrite Hta; do 2 f_equal; lia].
  rewrite <- Z.mul_add_distr_r. rewrite <- (normalize_exact (a + b) (- ez)) by (done || lia).
  by rewrite Z.opp_involutive.
Qed.

Lemma dmul_square a : fits_double (a * a) -> dmul (of_Z a) (of_Z a) = of_Z (a * a).
Proof.
  intros Hf. destruct (decide (a = 0)) as [->|Ha0]; [done|].
  assert (fits_double a) as Ha by (unfold fits_double in *; nia).
  destruct (of_Z_form a Ha0 Ha) as (p & t & Hp & Hd & _ & Ht & ->).
  unfold dmul, SFmul. rewrite xorb_nilpotent.
  assert (a * a = Z.pos (p * p)) as Haa by (rewrite Hp, Pos2Z.inj_mul; destruct (a <? 0); simpl; lia).
  pose proof (digits_mul p p) as Hm.
  replace (digits p - 53 + (digits p - 53)) with (- (2 * (53 - digits p))) by lia.
  rewrite (round_aux_of_Z false (p * p)); [by rewrite Haa|lia| |unfold fits_double in Hf; lia|lia].
  rewrite !Pos2Z.inj_mul, Ht. replace (2 * (53 - digits p)) with (53 - digits p + (53 - digits p)) by lia.
  rewrite Z.pow_add_r by lia. lia.
Qed.

Lemma dsub_self x : match x with S754_finite _ _ _ | S754_zero false => True | _ => False end ->
  SFltb (of_Z 0) (dsub x x) = false.
Proof.
  destruct x as [[]|[]| |s m e]; try done. intros _. unfold dsub, SFsub. cbv zeta.
  by rewrite Z.sub_diag.
Qed.

(** The quotient of two mantissas of 53 digits. *)
Lemma div_core_exact ms es mn en q k :
  digits ms = 53 -> digits mn = 53 -> -52 <= es <= 0 -> -52 <= en <= 0 ->
  0 <= k -> es - en = 53 - k -> Z.pos ms * 2 ^ 53 = Z.pos mn * q ->
  SFdiv_core_binary 53 1024 (Z.pos ms) es (Z.pos mn) en = (q, - k, loc_Exact).
Proof.
  intros Hs Hn Hes Hen Hk He Hq. unfold SFdiv_core_binary. simpl Zdigits2. fold (digits ms) (digits mn).
  unfold fexp, emin. replace (Z.min _ _) with (es - en - 53) by lia.
  replace (es - en - (es - en - 53)) with 53 by lia. cbv zeta. cbv iota.
  rewrite Z.shiftl_mul_pow2, Hq by done.
  assert (forall a b, Z.div_eucl a b = (a / b, a mod b)) as ->
    by (intros a b; unfold Z.div, Z.modulo; by destruct (Z.div_eucl a b)).
  rewrite (Z.mul_comm _ q), Z.div_mul, Z.mod_mul by done. do 2 f_equal; [f_equal; lia|].
  unfold new_location, new_location_even, new_location_odd. by case_match.
Qed.

Lemma ddiv_exact c n :
  0 < n -> fits_double n -> fits_double (c * n) -> ddiv (of_Z (c * n)) (of_Z n) = of_Z c.
Proof.
  intros Hn Hfn Hf. assert ((n <? 0) = false) as Hsn by lia. destruct (decide (c = 0)) as [->|Hc].
  { destruct (of_Z_form n ltac:(lia) Hfn) as (p & t & _ & _ & _ & _ & ->). by rewrite Hsn. }
  destruct (of_Z_form (c * n) ltac:(lia) Hf) as (ps & ts & Hps & Hds & Hdts & Hts & ->).
  destruct (of_Z_form n ltac:(lia) Hfn) as (pn & tn & Hpn & Hdn & Hdtn & Htn & ->).
  rewrite Hsn in *. simpl in Hpn.
  assert ((c * n <? 0) = (c <? 0)) as Hsc by (destruct (Z.ltb_spec c 0), (Z.ltb_spec (c * n) 0); nia).
  assert (exists pc, c = cond_Zopp (c <? 0) (Z.pos pc)) as (pc & Hpc)
    by (destruct c as [|p|p]; [done|by exists p..]).
  assert (ps = pc * pn)%positive as ->.
  { apply Pos2Z.inj. rewrite Pos2Z.inj_mul. rewrite Hsc in Hps. destruct (c <? 0); simpl in Hps, Hpc; nia. }
  pose proof (digits_mul pc pn) as Hm. set (k := 53 - digits (pc * pn) + digits pn) in *.
  assert (exists q, Z.pos q = Z.pos pc * 2 ^ k) as (q & Hq).
  { assert (0 < Z.pos pc * 2 ^ k) as H by (apply Z.mul_pos_pos; [done|apply Z.pow_pos_nonneg; lia]).
    destruct (Z.pos pc * 2 ^ k) as [|q|]; [lia|by exists q|lia]. }
  unfold ddiv, SFdiv. rewrite (div_core_exact _ _ _ _ (Z.pos q) k) by
    first [lia|rewrite Hts, Htn, Hq, Pos2Z.inj_mul;
      replace (Z.pos pc * Z.pos pn * 2 ^ (53 - digits (pc * pn)) * 2 ^ 53)
        with (Z.pos pc * Z.pos pn * (2 ^ (53 - digits (pc * pn)) * 2 ^ 53)) by lia;
      replace (Z.pos pn * 2 ^ (53 - digits pn) * (Z.pos pc * 2 ^ k))
        with (Z.pos pc * Z.pos pn * (2 ^ (53 - digits pn) * 2 ^ k)) by lia;
      rewrite <- !Z.pow_add_r by lia; do 2 f_equal; lia].
  rewrite xorb_false_r, Hsc, (round_aux_of_Z _ pc); [by rewrite <- Hpc|lia|done| |lia].
  unfold fits_double in Hf. rewrite Hsc in Hps. destruct (c <? 0); simpl in Hpc; nia.
Qed.

(** ** Series of integers *)

(** The reference: a sum of integers. *)
Definition total (f : Z -> Z) (ns : list Z) : Z := foldr (fun n acc => f n + acc) 0 ns.
Definition square (n : Z) : Z := n * n.

Lemma total_app f ns ms : total f (ns ++ ms) = total f ns + total f ms.
Proof. unfold total. induction ns as [|n ns IH]; simpl; [done|]. rewrite IH. lia. Qed.

Lemma total_const f n c : total f (replicate n c) = f c * Z.of_nat n.
Proof. unfold total. induction n as [|n IH]; simpl replicate; [simpl; lia|]. cbn [foldr]. rewrite IH. lia. Qed.

Lemma total_abs ns : Z.abs (total id ns) <= total square ns.
Proof.
  unfold total, square, id. induction ns as [|n ns IH]; simpl; [done|]. nia.
Qed.

Lemma sums_add s v :
  sum (stats_add s v) = dadd (sum s) v /\ sum_sq (stats_add s v) = dadd (sum_sq s) (dmul v v).
Proof.
  unfold stats_add. cbn [sum sum_sq count min max].
  destruct (SFltb v (min s)); cbn [sum sum_sq max]; destruct (SFltb (max s) v); done.
Qed.

Lemma sums_exact ns :
  total square ns < 2 ^ 53 ->
  sum (stats_of (map of_Z ns)) = of_Z (total id ns) /\ sum_sq (stats_of (map of_Z ns)) = of_Z (total square ns).
Proof.
  unfold stats_of. induction ns as [|n ns IH] using rev_ind; intros Hb; [done|].
  pose proof (total_abs ns) as H1. pose proof (total_abs (ns ++ [n])) as H2. pose proof (total_abs [n]) as H3.
  rewrite !total_app in *. rewrite map_app, fold_left_app. cbn [map fold_left].
  assert (total id [n] = n /\ total square [n] = n * n) as [E1 E2] by (unfold total, square, id; simpl; lia).
  rewrite E1, E2 in *. destruct IH as [IH1 IH2]; [lia|]. destruct (sums_add (fold_left stats_add (map of_Z ns) stats_init) (of_Z n)) as [-> ->].
  rewrite IH1, IH2, dmul_square by (unfold fits_double; nia).
  split; apply dadd_exact; unfold fits_double; nia.
Qed.

Lemma mean_exact s c n :
  0 < n < 2 ^ 53 -> count s = n -> sum s = of_Z (c * n) -> fits_double (c * n) -> stats_mean s = of_Z c.
Proof.
  intros Hn Hc Hs Hf. unfold stats_mean. rewrite Hc, Hs. rewrite (proj2 (Z.ltb_lt _ _)) by lia.
  apply ddiv_exact; [lia|unfold fits_double; lia|done].
Qed.

(** C12. On integer measurements the statistics are exact as long as the sum of
    the squares and the number of measurements are below 2^53: the sums that
    [stats_add] accumulates in doubles are those computed on integers; the mean
    is exact when it is an integer; and the standard deviation of equal
    measurements is 0. *)
Theorem stats_integers_exact ns :
  total square ns < 2 ^ 53 -> Z.of_nat (length ns) < 2 ^ 53 ->
  let s := stats_of (map of_Z ns) in
  sum s = of_Z (total id ns) /\ sum_sq s = of_Z (total square ns) /\ count s = Z.of_nat (length ns) /\
  (forall c, ns <> [] -> total id ns = c * Z.of_nat (length ns) -> stats_mean s = of_Z c) /\
  (forall n c, ns = replicate n c -> stats_stddev s = of_Z 0).
Proof.
  intros Hb Hlen s. destruct (sums_exact ns Hb) as [Hs Hq]. pose proof (total_abs ns) as Ha.
  assert (count s = Z.of_nat (length ns)) as Hc.
  { unfold s. rewrite (su_count _ _ (stats_of_summarizes _)), length_map. unfold uwrap. apply Z.mod_small. lia. }
  assert (forall c, ns <> [] -> total id ns = c * Z.of_nat (length ns) -> stats_mean s = of_Z c) as Hm.
  { intros c Hne Hsum. apply (mean_exact s c (Z.of_nat (length ns))); [|done|by rewrite <- Hsum|unfold fits_double; lia].
    destruct ns; [done|simpl in *; lia]. }
  split_all; try done. intros n c ->. unfold stats_stddev. rewrite Hc, length_replicate in *.
  destruct (Z.ltb_spec (Z.of_nat n) 2) as [|Hn]; [done|]. cbv zeta.
  rewrite !total_const in *. unfold square, id in *.
  rewrite (Hm c) by (try done; by destruct n). fold s in Hq. rewrite Hq.
  rewrite (ddiv_exact (c * c)) by (unfold fits_double; nia). rewrite (dmul_square c) by (unfold fits_double; nia).
  rewrite dsub_self; [done|]. destruct (decide (c * c = 0)) as [->|Hcc]; [done|].
  destruct (of_Z_form (c * c) Hcc) as (p & t & _ & _ & _ & _ & ->); [unfold fits_double; nia|done].
Qed.

Lemma stats_integers_exact_witness :
  total square [2; -7; 3; 10] = 162 /\
  stats_mean (stats_of (map of_Z [2; -7; 3; 10])) = of_Z 2 /\
  stats_stddev (stats_of (map of_Z (replicate 3 5))) = of_Z 0.
Proof.
  split; [reflexivity|]. split.
  - apply (stats_integers_exact [2; -7; 3; 10]); [reflexivity|reflexivity|done|reflexivity].
  - apply (stats_integers_exact (replicate 3 5)) with (n := 3%nat) (c := 5); reflexivity.
Defined.
