(* ===== verification/MsgPass.v ===== *)
(** * Message passing through a flag

    The pattern of exercises 00 (part 5), 01 (part 4) and 04: a producer
    writes the payload and then a flag; a consumer waits for the flag and
    then reads the payload. The pattern is repeated any number of times on the
    same flag and payload, with new threads each time. The payload is an atomic
    or a plain object; the pattern is verified once, against the interface
    [Payload]. *)

From S2P Require Import Prelude Machine Logic Harness.

(** ** The pattern *)

(** [while (atomic_load_explicit(&flag, o) == 0) ;] *)
Definition wait_flag (flag : loc) (o : memory_order) : prog unit :=
  while_ (v ← load flag o; Ret (v =? 0)) (Ret tt).

(** ** The payload's interface *)

(** [quiet w V]: a thread that has observed [V] may write the payload.
    [pub w V]: a thread that has observed [V] reads 42. *)
Record payload := PayloadOps {
  p_reset : op; p_write : op; p_read : op;
  p_same : world -> world -> Prop;
  quiet : world -> view -> Prop;
  pub : world -> view -> Prop
}.

(** The operation leaves the flag alone and cannot fail. *)
Definition runs_off (flag : loc) (t : tid) (o : op) (w : world) (Q : Z -> world -> Prop) : Prop :=
  forall c, match exec c t o w with
            | Blocked => True
            | Fault => False
            | Done r w' => whist w' flag = whist w flag /\ Q r w'
            end.

Class Payload (flag : loc) (P : payload) := {
  p_ops : forall o, o ∈ [p_reset P; p_write P; p_read P] -> client_op o = true;
  quiet_mono : forall w V V', V ⊑v V' -> quiet P w V -> quiet P w V';
  pub_mono : forall w V V', V ⊑v V' -> pub P w V -> pub P w V';
  quiet_same : forall w w' V, p_same P w w' -> quiet P w V -> quiet P w' V;
  pub_same : forall w w' V, p_same P w w' -> pub P w V -> pub P w' V;
  same_grows : forall w w', grows_off (eq flag) w w' -> p_same P w w';
  same_out : forall w e, p_same P w (add_out e w);
  quiet_init : quiet P init_world vbot;
  reset_runs : forall t w, quiet P w (wview w t) ->
    runs_off flag t (p_reset P) w (fun _ w' => quiet P w' (wview w' t));
  write_runs : forall t w, quiet P w (wview w t) ->
    runs_off flag t (p_write P) w (fun _ w' => pub P w' (wview w' t) /\ quiet P w' (wview w' t));
  read_runs : forall t w, pub P w (wview w t) ->
    runs_off flag t (p_read P) w (fun r w' => r = 42 /\ (forall V, pub P w V -> pub P w' V) /\
      forall V, quiet P w V -> wview w' t ⊑v V -> quiet P w' V)
}.

(** ** An atomic payload *)

Definition atomic_payload (data : loc) (o : memory_order) : payload :=
  PayloadOps (AtomicStore data 0 memory_order_seq_cst) (AtomicStore data 42 o) (AtomicLoad data o)
    (fun w w' => whist w' data = whist w data)
    (fun w V => forall i m, whist w data i = Some m -> (i <= V (KL data))%nat)
    (fun w V => forall i m, (V (KL data) <= i)%nat -> whist w data i = Some m -> mval m = 42).

(** ** A plain payload *)

Definition plain_payload (data : loc) : payload :=
  PayloadOps (NaWrite data 0) (NaWrite data 42) (NaRead data)
    (fun w w' => wcell w' data = wcell w data)
    (fun w V => forall e, e ∈ epochs (wcell w data) -> covers V e = true)
    (fun w V => covers V (nwr (wcell w data)) = true /\ nval (wcell w data) = 42).

(** ** The invariant *)

(** Round [r] is that of a consumer, thread [cons_of r], and of a producer,
    thread [prod_of r]. Their ghost states: the consumer is waiting (0), has
    seen the flag (1), has read the payload (2); the producer has done nothing
    (0), has written the payload (1), has set the flag (2). That of thread 0 is
    [2 * r] before the flag is reset in round [r], and [2 * r + 1] from then on
    until the payload is reset for the next round. *)
Definition cons_of (r : nat) : tid := S (2 * r).
Definition prod_of (r : nat) : tid := S (S (2 * r)).

Section Invariant.
Context (flag : loc) (P : payload) (r : nat) (w : world) (x : tid -> nat).

(** The threads of earlier rounds have done their work. *)
Definition mp_past : Prop := forall u, (0 < u <= 2 * r)%nat -> x u = 2%nat.

Record mp_idle : Prop := {
  id_n : wn w = S (2 * r);
  id_past : mp_past;
  id_quiet : quiet P w (wview w 0%nat);
  id_seen : forall j m, whist w flag j = Some m -> (j <= wview w 0%nat (KL flag))%nat
}.

(** Thread 0 and the threads of round [r]. *)
Definition active (u : tid) : Prop := u = 0%nat \/ (2 * r < u < wn w)%nat.

Local Abbreviation c := (cons_of r).
Local Abbreviation p := (prod_of r).

Record mp_round : Prop := {
  mp_n : (wn w <= S p)%nat;
  mp_old : mp_past;
  mp_stage : (x p <= 2)%nat;
  mp_zero : (x p < 2)%nat -> forall u i m, active u -> (wview w u (KL flag) <= i)%nat ->
    whist w flag i = Some m -> mval m = 0;
  mp_msg : forall u i m, active u -> (wview w u (KL flag) <= i)%nat -> whist w flag i = Some m ->
    mval m <> 0 -> pub P w (mview m);
  mp_prod : (1 <= x p)%nat -> pub P w (wview w p);
  mp_cons : (1 <= x c)%nat -> x p = 2%nat /\ pub P w (wview w c);
  mp_quiet : x p = 0%nat -> forall u, active u -> quiet P w (wview w u);
  mp_after : (1 <= x p)%nat -> quiet P w (wview w p ⊔v wview w c);
  mp_seen : (x p < 2)%nat -> forall u j m, active u -> whist w flag j = Some m ->
    (j <= wview w u (KL flag))%nat;
  mp_last : x p = 2%nat -> exists i m, whist w flag i = Some m /\ mval m <> 0 /\
    (i <= wview w p (KL flag))%nat /\ forall j m', whist w flag j = Some m' -> (j <= i)%nat
}.
End Invariant.

Definition mp_inv (flag : loc) (P : payload) (w : world) (x : tid -> nat) : Prop :=
  exists r, x 0%nat = (2 * r)%nat /\ mp_idle flag P r w x \/
            x 0%nat = S (2 * r) /\ mp_round flag P r w x.

(** A consumer can get on once its round's flag is set, a producer always. *)
Definition mp_ready (t : tid) (w : world) (x : tid -> nat) : Prop :=
  Nat.odd t = true -> x (S t) = 2%nat.

(** Thread 0 joins when both threads of a round have been created. *)
Definition mp_harness (rounds : nat) (cons prod : prog Z)
    (final : tid -> Z -> list event -> nat -> Prop) (good : event -> Prop) : harness nat :=
  Harness (2 * rounds) (fun i => if Nat.even i then cons else prod) (fun _ => 0%nat)
    final good mp_ready Nat.even.

(** ** Lemmas *)

#[export] Instance atomic_payload_ok data flag o :
  flag <> data -> Payload flag (atomic_payload data o).
Proof.
  intros Hne. split; simpl.
  - intros o'. rewrite !elem_of_cons, elem_of_nil. by intros [->|[->|[->|[]]]].
  - intros w V V' HV Hq i m Hi. specialize (Hq i m Hi). specialize (HV (KL data)). lia.
  - intros w V V' HV Hp i m Hi. apply Hp. specialize (HV (KL data)). lia.
  - intros w w' V ->. done.
  - intros w w' V ->. done.
  - intros w w' Hg. by apply Hg.
  - done.
  - intros [|i] m; [lia|done].
  - intros t w Hq c. simpl. unfold do_store. destruct (whist w data (cts c)) eqn:E; [done|].
    destruct (Nat.ltb_spec (wview w t (KL data)) (cts c)); [|done]. simpl. fn_simpl.
    split; [done|]. intros i m. unfold vjoin. rewrite vsing_key.
    fn_case; [lia|]. intros Hi. specialize (Hq i m Hi). lia.
  - intros t w Hq c. simpl. unfold do_store. destruct (whist w data (cts c)) eqn:E; [done|].
    destruct (Nat.ltb_spec (wview w t (KL data)) (cts c)); [|done]. simpl. fn_simpl.
    split; [done|]. unfold vjoin. rewrite vsing_key. split; intros i m.
    + intros Hi. fn_case; [by intros [= <-]|]. intros Hm. specialize (Hq i m Hm). lia.
    + fn_case; [lia|]. intros Hi. specialize (Hq i m Hi). lia.
  - intros t w Hp c. simpl. unfold do_load. destruct (whist w data (cts c)) as [m|] eqn:E; [|done].
    destruct (Nat.leb_spec (wview w t (KL data)) (cts c)) as [Hle|]; [|done]. simpl.
    split; [done|]. split; [by eapply Hp|]. split; [done|]. by intros V HV _.
Qed.

#[export] Instance plain_payload_ok data flag : Payload flag (plain_payload data).
Proof.
  split; simpl.
  - intros o'. rewrite !elem_of_cons, elem_of_nil. by intros [->|[->|[->|[]]]].
  - intros w V V' HV Hq e He. eapply covers_mono; [exact HV|by apply Hq].
  - intros w V V' HV [Hc Hv]. split; [by eapply covers_mono|done].
  - intros w w' V ->. done.
  - intros w w' V ->. done.
  - intros w w' Hg. by rewrite (go_cell _ _ _ Hg).
  - done.
  - intros e He%list_elem_of_singleton. by subst.
  - intros t w Hq c. simpl. rewrite na_write_ok by done. split; [done|].
    simpl. fn_simpl. intros e ->%epochs_write. by apply covers_tick.
  - intros t w Hq c. simpl. rewrite na_write_ok by done. split; [done|].
    simpl. fn_simpl. split; [split; [by apply covers_tick|done]|].
    intros e ->%epochs_write. by apply covers_tick.
  - intros t w [Hc Hv] c. simpl. unfold do_na_read. rewrite Hc.
    split; [done|]. simpl. fn_simpl. split; [done|]. split; [done|]. intros V HV Hle e He.
    apply epochs_read in He as [->|He]; [by apply covers_tick|by apply HV].
Qed.

Lemma cons_of_odd r : Nat.odd (cons_of r) = true.
Proof. unfold cons_of. by rewrite Nat.odd_succ, Nat.even_even. Qed.

Lemma prod_of_odd r : Nat.odd (prod_of r) = false.
Proof. unfold prod_of. by rewrite Nat.odd_succ, Nat.even_succ, Nat.odd_even. Qed.

Section Stability.
Context (flag : loc) (P : payload) `{!Payload flag P}.

(** The invariant follows the worlds that keep the flag and the payload. *)
Lemma mp_idle_same r w w' x x' :
  p_same P w w' -> whist w' flag = whist w flag -> (forall u, wview w u ⊑v wview w' u) ->
  wn w' = wn w -> (forall u, (0 < u)%nat -> x u = x' u) -> mp_idle flag P r w x -> mp_idle flag P r w' x'.
Proof.
  intros Hs Hh Hv Hn Hx [Hin Hp Hq Hse]. split; rewrite ?Hh, ?Hn; try done.
  - intros u Hu. rewrite <- Hx by lia. by apply Hp.
  - eapply quiet_mono; [apply Hv|]. by eapply quiet_same.
  - intros j m Hj. specialize (Hse j m Hj). specialize (Hv 0%nat (KL flag)). lia.
Qed.

Lemma mp_round_same r w w' x x' :
  p_same P w w' -> whist w' flag = whist w flag -> (forall u, wview w u ⊑v wview w' u) ->
  (wn w' <= S (prod_of r))%nat ->
  (forall u, active r w' u -> active r w u \/ wview w 0%nat ⊑v wview w' u) ->
  (forall u, (0 < u)%nat -> x u = x' u) -> mp_round flag P r w x -> mp_round flag P r w' x'.
Proof.
  intros Hs Hh Hv Hn' Hn Hx [Hmn Ho H2 Hz Hm Hp Hc Hq Ha Hse Hla].
  assert (forall u, active r w' u -> exists v, active r w v /\ wview w v ⊑v wview w' u) as Hact.
  { intros u Hu. destruct (Hn u Hu); [by exists u|]. exists 0%nat. split; [by left|done]. }
  split; rewrite ?Hh, <- ?Hx by (unfold cons_of, prod_of; lia); try done.
  - intros u Hu. rewrite <- Hx by lia. by apply Ho.
  - intros H0 u i m (v & Hv' & Hle)%Hact Hi. apply (Hz H0 v i m Hv'). specialize (Hle (KL flag)). lia.
  - intros u i m (v & Hv' & Hle)%Hact Hi Hm' Hne. eapply pub_same; [exact Hs|].
    apply (Hm v i m Hv'); [|done..]. specialize (Hle (KL flag)). lia.
  - intros ?. eapply pub_mono; [apply Hv|]. eapply pub_same; [exact Hs|auto].
  - intros H1. destruct (Hc H1). split; [done|].
    eapply pub_mono; [apply Hv|]. by eapply pub_same; [exact Hs|].
  - intros H0 u (v & Hv' & Hle)%Hact. eapply quiet_mono; [exact Hle|]. eapply quiet_same; [exact Hs|auto].
  - intros H1. eapply quiet_mono; [apply vjoin_proper; apply Hv|]. eapply quiet_same; [exact Hs|auto].
  - intros H0 u j m (v & Hv' & Hle)%Hact Hj. specialize (Hse H0 v j m Hv' Hj). specialize (Hle (KL flag)). lia.
  - intros H2'. destruct (Hla H2') as (i & m & Hi & Hne & Hle & Hl). exists i, m. split_all; [done..| |done].
    specialize (Hv (prod_of r) (KL flag)). lia.
Qed.

Lemma active_wn r w w' u : wn w' = wn w -> active r w' u -> active r w u.
Proof. unfold active. by intros ->. Qed.

Lemma mp_inv_same w w' x x' :
  p_same P w w' -> whist w' flag = whist w flag -> (forall u, wview w u ⊑v wview w' u) ->
  wn w' = wn w -> (forall u, x u = x' u) -> mp_inv flag P w x -> mp_inv flag P w' x'.
Proof.
  intros Hs Hh Hv Hn Hx (r & [[H0 Hi]|[H0 Hi]]); exists r; rewrite <- Hx; [left|right]; (split; [done|]).
  - by eapply mp_idle_same; eauto.
  - apply (mp_round_same r w w' x x'); auto; [rewrite Hn; apply Hi|left; by eapply active_wn].
Qed.

#[export] Instance mp_client : Client (mp_inv flag P).
Proof.
  intros w w' x x' Hg Hn Hx. apply mp_inv_same; [|apply Hg; tauto|apply Hg|done|done].
  apply same_grows. destruct Hg; split; auto.
Qed.

#[export] Instance mp_outfree t : OutFree (mp_inv flag P) t.
Proof. intros w fmt args x. by apply mp_inv_same; [apply same_out|..]. Qed.

Lemma mp_init : mp_inv flag P init_world (fun _ => 0%nat).
Proof.
  exists 0%nat. left. split; [done|]. split; simpl; [done|intros u; lia|apply quiet_init|].
  intros [|j] m; [lia|done].
Qed.

End Stability.

Section MsgPass.
Context (flag : loc) (P : payload) `{!Payload flag P} (rounds : nat) (cons prod : prog Z)
  (final : tid -> Z -> list event -> nat -> Prop) (good : event -> Prop).
Local Abbreviation H := (mp_harness rounds cons prod final good).
Local Abbreviation CI := (mp_inv flag P).
Local Abbreviation wp := (wp (hlogic H CI)).

(** A thread of round [r] that has work to do: round [r] is under way. *)
Lemma mp_current r t w x :
  t = cons_of r \/ t = prod_of r -> (t < wn w)%nat -> x t <> 2%nat -> CI w x ->
  x 0%nat = S (2 * r) /\ mp_round flag P r w x.
Proof.
  intros Ht Hn Hx (q & [[H0 [Hin Hpast _ _]]|[H0 Hi]]); unfold cons_of, prod_of in Ht.
  - destruct Hx. apply Hpast. lia.
  - pose proof (mp_n _ _ _ _ _ Hi) as Hmn. unfold prod_of in Hmn.
    destruct (decide (t <= 2 * q)%nat) as [Hle|Hgt]; [destruct Hx; apply (mp_old _ _ _ _ _ Hi); lia|].
    assert (q = r) as -> by lia. done.
Qed.

Lemma mp_running r w x : x 0%nat = S (2 * r) -> mp_round flag P r w x -> CI w x.
Proof. intros H0 Hr. exists r. by right. Qed.

(** What a step of thread [t] does to the views of the active threads. *)
Lemma exec_active c t o w r w' q u :
  exec c t o w = Done r w' -> active q w' u -> active q w u /\ wview w u ⊑v wview w' u.
Proof.
  intros He Hu. destruct (exec_view _ _ _ _ _ _ He) as (Hv & Hle & Hn).
  split; [by eapply active_wn|]. destruct (decide (u = t)) as [->|]; [done|by rewrite Hv].
Qed.

(** The producer writes the payload. *)
Lemma wp_mp_write {A} r l V (k : Z -> prog A) Q :
  l_end l = false -> l_w l = 0%nat ->
  (forall v V', wp (prod_of r) (k v) (upd_w l 1%nat) V' Q) ->
  wp (prod_of r) (Op (p_write P) k) l V Q.
Proof.
  intros Hend Hl Hk. apply wp_client; [apply _|apply p_ops; rewrite !elem_of_cons; tauto|done|].
  intros w x c Hf. pose proof (hf_me Hf) as Hx. rewrite Hl in Hx. pose proof (hf_lt Hf) as Hlt.
  destruct (mp_current r (prod_of r) w x) as [H0 [Hmn Ho H2 Hz Hm Hp Hc Hq Ha Hse Hla]];
    [by right|done|by rewrite Hx|apply Hf|].
  assert (active r w (prod_of r)) as Hact by (right; unfold prod_of in *; lia).
  pose proof (write_runs (Payload := Payload0) (prod_of r) w (Hq Hx _ Hact) c) as Hw.
  destruct (exec c (prod_of r) (p_write P) w) as [| |v w'] eqn:E; [done..|].
  destruct Hw as (Hh & Hpub & Hqt). exists 1%nat. split; [|apply Hk].
  destruct (exec_view _ _ _ _ _ _ E) as (_ & _ & Hn).
  assert (x (cons_of r) = 0%nat) as Hxc by (destruct (x (cons_of r)); [done|destruct Hc; lia]).
  apply (mp_running r); [by fn_simpl|]. split; rewrite ?Hh, ?Hn; fn_simpl; rewrite ?Hxc; simpl; try done; try lia.
  - intros u Hu. unfold prod_of. fn_simpl. by apply Ho.
  - intros _ u i m [Hu Hle]%(exec_active _ _ _ _ _ _ _ _ E) Hi.
    apply (Hz ltac:(lia) u); [done|]. specialize (Hle (KL flag)). lia.
  - intros u i m [Hu Hle]%(exec_active _ _ _ _ _ _ _ _ E) Hi Hm' []. apply (Hz ltac:(lia) u i); [done| |done].
    specialize (Hle (KL flag)). lia.
  - intros _. eapply quiet_mono; [|exact Hqt]. auto with workshop.
  - intros _ u j m [Hu Hle]%(exec_active _ _ _ _ _ _ _ _ E) Hj.
    specialize (Hse ltac:(lia) u j m Hu Hj). specialize (Hle (KL flag)). lia.
Qed.

(** What a store to the flag does to the world. *)
Lemma flag_store c t v o w r w' :
  exec c t (AtomicStore flag v o) w = Done r w' ->
  grows_off (eq flag) w w' /\ whist w flag (cts c) = None /\
  (wview w t (KL flag) < cts c <= wview w' t (KL flag))%nat /\
  exists m, mval m = v /\ whist w' flag = <[cts c := Some m]> (whist w flag) /\
            (is_rel o = true -> wview w t ⊑v mview m).
Proof.
  simpl. unfold do_store. destruct (whist w flag (cts c)) eqn:E; [done|].
  destruct (Nat.ltb_spec (wview w t (KL flag)) (cts c)); [|done]. intros [= _ <-]. split; [|split; [|split]].
  - split; simpl; try done; try lia.
    + intros u. fn_case; [auto with workshop|done].
    + intros y Hy. by fn_simpl.
  - done.
  - simpl. fn_simpl. unfold vjoin. rewrite vsing_key. lia.
  - eexists. simpl. fn_simpl. split; [|split; [reflexivity|]]; [done|]. simpl. intros ->. auto with workshop.
Qed.

Lemma flag_store_runs c t v o w : exec c t (AtomicStore flag v o) w <> Fault.
Proof. simpl. unfold do_store. by repeat case_match. Qed.

(** The producer sets the flag, with release order. *)
Lemma wp_mp_set {A} r v o l V (k : Z -> prog A) Q :
  is_rel o = true -> v <> 0 -> l_end l = false -> l_w l = 1%nat ->
  (forall r' V', wp (prod_of r) (k r') (upd_w l 2%nat) V' Q) ->
  wp (prod_of r) (Op (AtomicStore flag v o) k) l V Q.
Proof.
  intros Ho Hv0 Hend Hl Hk. apply wp_client; [apply _|done..|]. intros w x c Hf.
  destruct (exec c (prod_of r) (AtomicStore flag v o) w) as [| |r' w'] eqn:E;
    [done|by eapply flag_store_runs|].
  destruct (flag_store _ _ _ _ _ _ _ E) as (Hg & Hnone & Hci & m & Hv & Hh & Hmv).
  pose proof (hf_me Hf) as Hx. rewrite Hl in Hx. pose proof (hf_lt Hf) as Hlt.
  destruct (mp_current r (prod_of r) w x) as [H0 [Hmn Hol H2 Hz Hm Hp Hc Hq Ha Hse Hla]];
    [by right|done|by rewrite Hx|apply Hf|].
  pose proof (same_grows _ _ Hg) as Hs. exists 2%nat. split; [|apply Hk].
  destruct (exec_view _ _ _ _ _ _ E) as (_ & _ & Hn).
  assert (pub P w' (wview w (prod_of r))) as Hpub by (eapply pub_same; [exact Hs|]; apply Hp; lia).
  assert (x (cons_of r) = 0%nat) as Hxc by (destruct (x (cons_of r)); [done|destruct Hc; lia]).
  apply (mp_running r); [by fn_simpl|].
  split; rewrite ?Hh, ?Hn; fn_simpl; rewrite ?Hxc; try done; try lia.
  - intros u Hu. unfold prod_of. fn_simpl. by apply Hol.
  - intros u i m' [Hu Hle]%(exec_active _ _ _ _ _ _ _ _ E) Hi. fn_case.
    + intros [= <-] _. eapply pub_mono; [by apply Hmv|done].
    + intros Hi' []. apply (Hz ltac:(lia) u i); [done| |done]. specialize (Hle (KL flag)). lia.
  - intros _. eapply pub_mono; [apply Hg|done].
  - intros _. eapply quiet_mono; [apply vjoin_proper; apply Hg|]. eapply quiet_same; [exact Hs|]. apply Ha. lia.
  - intros _. exists (cts c), m. fn_simpl. split_all; [done|congruence|lia|]. intros j m'.
    fn_case; [done|]. intros Hj.
    specialize (Hse ltac:(lia) (prod_of r) j m' ltac:(right; unfold prod_of in *; lia) Hj). lia.
Qed.

(** The consumer loads the flag; [y] is 1 if it finds the flag set. *)
Lemma mp_load_flag r w x i m o y :
  is_acq o = true -> x 0%nat = S (2 * r) -> mp_round flag P r w x -> (cons_of r < wn w)%nat ->
  (wview w (cons_of r) (KL flag) <= i)%nat -> whist w flag i = Some m ->
  x (cons_of r) = 0%nat -> (y <= 1)%nat -> (y = 1%nat -> mval m <> 0) ->
  CI (set_view (cons_of r) (read_view (wview w (cons_of r)) flag i m o) w) (<[cons_of r := y]> x).
Proof.
  intros Ho H0 Hr Hlt Hle Hi Hxc Hy1 Hy. set (w' := set_view _ _ _).
  assert (grows_off (eq flag) w w') as Hg by (apply grows_set_view; auto with workshop).
  assert (active r w (cons_of r)) as Hact by (right; unfold cons_of in *; lia).
  pose proof (mp_msg _ _ _ _ _ Hr _ i m Hact Hle Hi) as Hpub.
  pose proof (fun H => mp_zero _ _ _ _ _ Hr H _ i m Hact Hle Hi) as Hzero.
  destruct (mp_round_same flag P r w w' x x (same_grows _ _ Hg) eq_refl (go_view _ _ _ Hg)
    (mp_n _ _ _ _ _ Hr) (fun u Hu => or_introl Hu) (fun u _ => eq_refl) Hr)
    as [Hmn Hol H2 Hz' Hm' Hp' Hc' Hq' Ha' Hse' Hla'].
  apply (mp_running r); [unfold cons_of; by fn_simpl|].
  assert (prod_of r <> cons_of r) by (unfold prod_of, cons_of; lia).
  split; fn_simpl; try done.
  - intros u Hu. unfold cons_of. fn_simpl. by apply Hol.
  - intros E. specialize (Hpub (Hy ltac:(lia))). split.
    + destruct (decide (x (prod_of r) < 2)%nat) as [Hp|Hp]; [|lia]. destruct (Hy ltac:(lia)). by apply Hzero.
    + eapply pub_mono; [|eapply pub_same; [by apply same_grows|exact Hpub]].
      simpl. fn_simpl. unfold read_view. rewrite Ho. auto with workshop.
Qed.

(** A consumer at work, and its round. *)
Lemma cons_facts r l V w x :
  hfacts H CI (cons_of r) l V w x -> l_w l <> 2%nat ->
  x 0%nat = S (2 * r) /\ mp_round flag P r w x /\ (cons_of r < wn w)%nat /\ x (cons_of r) = l_w l.
Proof.
  intros Hf Hl. rewrite <- (hf_me Hf) in Hl |- *.
  destruct (mp_current r (cons_of r) w x) as [H0 Hr]; [by left|apply Hf|done|apply Hf|].
  by split_all; [..|apply Hf|].
Qed.

(** Once the flag is set, the consumer can find it set. *)
Lemma fin_mp_wait r o l V (Q : unit -> lst nat -> view -> Prop) :
  is_acq o = true -> l_end l = false -> l_w l = 0%nat -> (forall V', Q tt (upd_w l 1%nat) V') ->
  fin (hlogic H CI) (cons_of r) (wait_flag flag o) l V Q.
Proof.
  intros Ho Hend Hl HQ. apply fin_while. prog_simpl. apply fin_client; [apply _|done..|]. intros w x Hf Hrd.
  destruct (cons_facts r l V w x Hf) as (H0 & Hr & Hlt & Hx); [by rewrite Hl|].
  assert (x (prod_of r) = 2%nat) as Hset.
  { apply Hrd, cons_of_odd. }
  destruct (mp_last _ _ _ _ _ Hr Hset) as (i & m & Hi & Hm & _ & Hlast).
  destruct (wh_view _ (wf_seen _ (hf_wf Hf)) (cons_of r) flag) as [m' Hm'].
  exists (Choice i false 0). simpl. unfold do_load. simpl. rewrite Hi.
  rewrite (proj2 (Nat.leb_le _ _) (Hlast _ _ Hm')). do 2 eexists. exists 1%nat. split_all; [done|done| |].
  - apply (mp_load_flag r); try done; [by eapply Hlast|congruence].
  - apply fin_ret. rewrite (proj2 (Z.eqb_neq _ _) Hm). apply HQ.
Qed.

(** The consumer waits for the flag, with acquire order. *)
Lemma wp_mp_wait {A} r o l V (k : unit -> prog A) Q :
  is_acq o = true -> l_end l = false -> l_w l = 0%nat ->
  (forall V', wp (cons_of r) (k tt) (upd_w l 1%nat) V' Q) ->
  wp (cons_of r) (bind (wait_flag flag o) k) l V Q.
Proof.
  intros Ho Hend Hl Hk. apply wp_bind.
  eapply wp_while with (P := fun l' _ => l' = l); [| |done]; clear V; intros l' V ->.
  2:{ by apply fin_mp_wait. }
  prog_simpl. apply wp_client; [apply _|done..|]. intros w x c Hf. simpl. unfold do_load.
  destruct (whist w flag (cts c)) as [m|] eqn:Hi; [|done].
  destruct (Nat.leb_spec (wview w (cons_of r) (KL flag)) (cts c)) as [Hle|]; [|done].
  destruct (cons_facts r l V w x Hf) as (H0 & Hr & Hlt & Hx); [by rewrite Hl|].
  destruct (Z.eqb_spec (mval m) 0) as [E|E].
  - exists 0%nat. split; [apply (mp_load_flag r); try done; lia|]. apply wp_ret. simpl. apply wp_ret.
    rewrite <- Hl. by destruct l.
  - exists 1%nat. split; [apply (mp_load_flag r); try done; congruence|]. apply wp_ret. simpl. apply Hk.
Qed.

(** The consumer reads the payload. *)
Lemma wp_mp_read {A} r l V (k : Z -> prog A) Q :
  l_end l = false -> l_w l = 1%nat -> (forall V', wp (cons_of r) (k 42) (upd_w l 2%nat) V' Q) ->
  wp (cons_of r) (Op (p_read P) k) l V Q.
Proof.
  intros Hend Hl Hk. apply wp_client; [apply _|apply p_ops; rewrite !elem_of_cons; tauto|done|].
  intros w x c Hf. destruct (cons_facts r l V w x Hf) as (H0 & [Hmn Hol H2 Hz Hm Hp Hc Hq Ha Hse Hla] & Hlt & Hx);
    [by rewrite Hl|]. rewrite Hl in Hx. destruct (Hc ltac:(lia)) as [Hx2 Hpub].
  pose proof (read_runs (Payload := Payload0) (cons_of r) w Hpub c) as Hr.
  destruct (exec c (cons_of r) (p_read P) w) as [| |v w'] eqn:E; [done..|].
  destruct Hr as (Hh & -> & Hpw & Hqw). destruct (exec_view _ _ _ _ _ _ E) as (Hv & Hle & Hn).
  exists 2%nat. split; [|apply Hk].
  assert (forall u, wview w u ⊑v wview w' u) as Hvle.
  { intros u. destruct (decide (u = cons_of r)) as [->|]; [done|by rewrite Hv]. }
  assert (prod_of r <> cons_of r) by (unfold prod_of, cons_of; lia).
  apply (mp_running r); [unfold cons_of; by fn_simpl|].
  split; rewrite ?Hh, ?Hn; fn_simpl; try done; try lia.
  - intros u Hu. unfold cons_of. fn_simpl. by apply Hol.
  - intros u i m [Hu _]%(exec_active _ _ _ _ _ _ _ _ E) Hi Him Hne. apply Hpw, (Hm u i m Hu); [|done..].
    specialize (Hvle u (KL flag)). lia.
  - intros ?. eapply pub_mono; [apply Hvle|auto].
  - intros ?. split; [done|]. eapply pub_mono; [apply Hvle|auto].
  - intros _. apply Hqw; [|auto with workshop]. eapply quiet_mono; [apply vjoin_proper; apply Hvle|]. apply Ha. lia.
  - intros _. destruct (Hla Hx2) as (i & m & Hi & Hm' & Hle' & Hl'). exists i, m. split_all; [done..| |done].
    specialize (Hvle (prod_of r) (KL flag)). lia.
Qed.

(** Thread 0 between two rounds: before the first, when it has reset the
    payload, or when it has joined both threads of the last one. *)
Definition mp_between (r : nat) (l : lst nat) : Prop :=
  l_end l = false /\ l_c l = (2 * r)%nat /\
  (l_w l = (2 * r)%nat \/
   exists q, r = S q /\ l_w l = S (2 * q) /\ cons_of q ∈ l_j l /\ prod_of q ∈ l_j l).

Lemma mp_before r l :
  l_end l = false -> l_w l = (2 * r)%nat -> l_c l = (2 * r)%nat -> mp_between r l.
Proof. intros He Hw Hc. split; [done|]. split; [done|by left]. Qed.

Section Main.
Hypothesis Hfinal : forall u v out x, final u v out x -> x = 2%nat.

Lemma mp_over r l V w x :
  hfacts H CI 0%nat l V w x -> mp_between r l -> mp_idle flag P r w x.
Proof.
  intros Hf (_ & Hc & Hl). destruct (hf_main Hf eq_refl) as [Hn Hj]. rewrite Hc in Hn.
  pose proof (hf_me Hf) as H0. destruct (hf_ci Hf) as (q0 & Hci).
  destruct Hl as [Hl|(q & -> & Hl & Hjc & Hjp)]; rewrite Hl in H0.
  { destruct Hci as [[H0' Hi]|[H0' Hi]]; [by replace r with q0 by lia|lia]. }
  destruct Hci as [[H0' Hi]|[H0' Hi]]; [lia|]. replace q0 with q in Hi by lia.
  destruct (Hj _ Hjc) as [(v & out & Hfc) Hvc]. destruct (Hj _ Hjp) as [(v' & out' & Hfp) Hvp].
  apply Hfinal in Hfc, Hfp. split; [done|..].
  - intros u Hu. destruct (decide (u = cons_of q)) as [->|]; [done|].
    destruct (decide (u = prod_of q)) as [->|]; [done|]. apply (mp_old _ _ _ _ _ Hi).
    unfold cons_of, prod_of in *. lia.
  - eapply quiet_mono; [|apply (mp_after _ _ _ _ _ Hi); lia]. intros k'. unfold vjoin.
    specialize (Hvc k'). specialize (Hvp k'). lia.
  - intros j m Hm. destruct (mp_last _ _ _ _ _ Hi Hfp) as (i & _ & _ & _ & Hle & Hlast).
    specialize (Hlast _ _ Hm). specialize (Hvp (KL flag)). lia.
Qed.

(** Between rounds, an operation of thread 0 that leaves the flag alone. *)
Lemma wp_mp_idle {A} r o l V (k : Z -> prog A) Q :
  client_op o = true -> mp_between r l ->
  (forall w x, hfacts H CI 0%nat l V w x -> quiet P w (wview w 0%nat) ->
     runs_off flag 0%nat o w (fun _ w' => quiet P w' (wview w' 0%nat))) ->
  (forall v V', wp 0%nat (k v) (upd_w l (2 * r)%nat) V' Q) -> wp 0%nat (Op o k) l V Q.
Proof.
  intros Ho Hb He Hk. apply wp_client; [apply _|done|apply Hb|]. intros w x c Hf.
  destruct (mp_over _ _ _ _ _ Hf Hb) as [Hn Hp Hq Hse]. specialize (He w x Hf Hq c).
  destruct (exec c 0%nat o w) as [| |v w'] eqn:E; [done..|]. destruct He as [Hh Hq'].
  destruct (exec_view _ _ _ _ _ _ E) as (_ & Hle & Hn').
  exists (2 * r)%nat. split; [|apply Hk]. exists r. left. split; [by fn_simpl|]. split; rewrite ?Hh; [congruence|..].
  - intros u Hu. fn_simpl. by apply Hp.
  - done.
  - intros j m Hj. specialize (Hse j m Hj). specialize (Hle (KL flag)). lia.
Qed.

Lemma wp_mp_reset {A} r l V (k : Z -> prog A) Q :
  mp_between r l -> (forall v V', wp 0%nat (k v) (upd_w l (2 * r)%nat) V' Q) ->
  wp 0%nat (Op (p_reset P) k) l V Q.
Proof.
  intros Hb Hk. apply (wp_mp_idle r); [apply p_ops; rewrite !elem_of_cons; tauto|done| |done].
  intros w x _ Hq. by apply reset_runs.
Qed.

(** Before the first round thread 0 is alone, and may write any plain object
    that is not the payload. *)
Lemma wp_mp_cell {A} y v l V (k : Z -> prog A) Q :
  (forall w c, p_same P w (set_cell y c w)) ->
  l_end l = false -> l_w l = 0%nat -> l_c l = 0%nat ->
  (forall r V', wp 0%nat (k r) l V' Q) -> wp 0%nat (Op (NaWrite y v) k) l V Q.
Proof.
  intros Hs Hend Hl Hlc Hk. apply (wp_mp_idle 0); [done|by apply mp_before| |].
  - intros w x Hf Hq c. simpl. destruct (hf_main Hf eq_refl) as [Hn _]. rewrite Hlc in Hn.
    rewrite na_write_ok by (intros e He; by eapply covers_alone; [apply Hf|..]).
    split; [done|]. eapply quiet_same; [apply Hs|]. simpl. fn_simpl.
    eapply quiet_mono; [apply tick_le|]. eapply quiet_same; [|exact Hq].
    apply same_grows, grows_set_view. apply tick_le.
  - intros r V'. by rewrite upd_w_id.
Qed.

(** Resetting the flag starts the round. *)
Lemma wp_mp_reset_flag {A} r o l V (k : Z -> prog A) Q :
  l_end l = false -> l_w l = (2 * r)%nat -> l_c l = (2 * r)%nat ->
  (forall v V', wp 0%nat (k v) (upd_w l (S (2 * r))) V' Q) ->
  wp 0%nat (Op (AtomicStore flag 0 o) k) l V Q.
Proof.
  intros Hend Hl Hlc Hk. apply wp_client; [apply _|done..|]. intros w x c Hf.
  destruct (mp_over r _ _ _ _ Hf) as [Hn Hp Hq Hse]; [by apply mp_before|].
  destruct (exec c 0%nat (AtomicStore flag 0 o) w) as [| |v w'] eqn:E; [done|by eapply flag_store_runs|].
  destruct (flag_store _ _ _ _ _ _ _ E) as (Hg & _ & Hle & m & Hv & Hh & _).
  destruct (exec_view _ _ _ _ _ _ E) as (_ & _ & Hn').
  exists (S (2 * r)). split; [|apply Hk]. apply (mp_running r); [by fn_simpl|].
  assert (forall u, active r w' u -> u = 0%nat) as Hact.
  { intros u [?|Hu]; [done|]. rewrite Hn', Hn in Hu. lia. }
  assert (forall j m', whist w' flag j = Some m' -> j = cts c /\ mval m' = 0 \/ (j < cts c)%nat) as Hlast.
  { intros j m'. rewrite Hh. fn_case; [intros [= <-]; by left|]. intros Hj. specialize (Hse j m' Hj). lia. }
  assert (x (cons_of r) = 0%nat /\ x (prod_of r) = 0%nat) as [Hxc Hxp].
  { by split; apply (hf_init Hf); unfold cons_of, prod_of; lia. }
  split; rewrite ?Hn'; fn_simpl; rewrite ?Hxc, ?Hxp; try done; try lia.
  - rewrite Hn. unfold prod_of. lia.
  - intros u Hu. fn_simpl. by apply Hp.
  - intros _ u i m' ->%Hact Hi Hm. destruct (Hlast _ _ Hm) as [[]|]; [done|lia].
  - intros u i m' ->%Hact Hi Hm []. destruct (Hlast _ _ Hm) as [[]|]; [done|lia].
  - intros _ u ->%Hact. eapply quiet_mono; [apply Hg|]. eapply quiet_same; [by apply same_grows|done].
  - intros _ u j m' ->%Hact Hm. destruct (Hlast _ _ Hm) as [[]|]; lia.
Qed.

(** The first round. *)
Lemma wp_mp_first {A} o l V (k : prog A) Q :
  l_end l = false -> l_w l = 0%nat -> l_c l = 0%nat ->
  (forall V', wp 0%nat k (upd_w l 1%nat) V' Q) ->
  wp 0%nat (Op (p_reset P) (fun _ => Op (AtomicStore flag 0 o) (fun _ => k))) l V Q.
Proof.
  intros Hend Hl Hc Hk. apply (wp_mp_reset 0); [by apply mp_before|]. intros _ V1.
  apply (wp_mp_reset_flag 0); [done..|]. by intros _ V2.
Qed.

(** Creating a thread of the round. *)
Lemma wp_mp_create {A} r n code (k : Z -> prog A) l V Q :
  code_ok H CI -> l_end l = false -> l_w l = S (2 * r) -> l_c l = n ->
  (2 * r <= n < prod_of r)%nat -> (r < rounds)%nat -> code = (if Nat.even n then cons else prod) ->
  wp 0%nat (k (Z.of_nat (S n))) (Lst (S n) (l_j l) (l_end l) (l_out l) (l_w l)) V Q ->
  wp 0%nat (Fork code k) l V Q.
Proof.
  intros Hcode Hend Hl Hc Hn Hr Hcd Hk. unfold prod_of in Hn.
  eapply (wp_create_gen H CI n (l_w l)); [done|done|done|simpl; lia|done| |done].
  intros w x Hf. destruct (hf_main Hf eq_refl) as [Hwn _]. rewrite Hc in Hwn.
  pose proof (hf_me Hf) as H0. rewrite Hl in *. destruct (hf_ci Hf) as (q & [[H0' _]|[H0' Hi]]); [lia|].
  replace q with r in Hi by lia. pose proof (grows_fork (eq flag) w (hf_wf Hf)) as Hg.
  apply (mp_running r); [by fn_simpl|]. apply (mp_round_same flag P r w _ x); [by apply same_grows|done|apply Hg|..].
  - simpl. unfold prod_of. lia.
  - intros u [->|Hu]; [by left; left|]. simpl in Hu.
    destruct (decide (u = wn w)) as [->|]; [right; simpl; by fn_simpl|left; right; lia].
  - intros u Hu. by fn_simpl.
  - done.
Qed.
End Main.

(** Both threads, given what the consumer does with the payload. *)
Lemma mp_code_ok orl oa (kc : Z -> prog Z) :
  is_rel orl = true -> is_acq oa = true ->
  cons = (wait_flag flag oa;; v ← perform (p_read P); kc v) ->
  prod = (do_ (p_write P);; store flag 1 orl;; Ret 0) ->
  (forall r, (r < rounds)%nat -> final (prod_of r) 0 [] 2%nat) ->
  (forall r V, (r < rounds)%nat -> wp (cons_of r) (kc 42) (fresh 2%nat) V
     (fun v l' _ => l_end l' = false /\ final (cons_of r) v (l_out l') (l_w l'))) ->
  code_ok H CI.
Proof.
  intros Hrel Hacq Hcons Hprod Hfin Hkc i V Hi. simpl in Hi |- *.
  destruct (Nat.even i) eqn:Ei.
  - apply Nat.even_spec in Ei as [r ->]. fold (cons_of r).
    rewrite Hcons at 2. apply wp_mp_wait; [done..|]. intros V1. prog_simpl.
    apply wp_mp_read; [done..|]. intros V2. apply Hkc. lia.
  - assert (Nat.odd i = true) as [r ->]%Nat.odd_spec by (by rewrite <- Nat.negb_even, Ei).
    rewrite Nat.add_1_r. fold (prod_of r).
    rewrite Hprod at 2. prog_simpl. apply wp_mp_write; [done..|]. intros v V1.
    apply wp_mp_set; [done|lia|done..|]. intros r' V2. apply wp_ret. split; [done|]. apply Hfin. lia.
Qed.

(** Thread 0 creates the consumer, perhaps sleeps, creates the producer,
    and joins the producer and the consumer. *)
Lemma wp_mp_run {A} r (nap : prog unit) (k : prog A) l V Q :
  code_ok H CI -> (r < rounds)%nat ->
  l_end l = false -> l_w l = S (2 * r) -> l_c l = (2 * r)%nat ->
  (forall l' V', l_end l' = false -> wp 0%nat nap l' V' (fun _ l'' _ => l'' = l')) ->
  (forall l' V', mp_between (S r) l' -> l_j l' = [cons_of r; prod_of r] ++ l_j l -> l_out l' = l_out l ->
     wp 0%nat k l' V' Q) ->
  wp 0%nat (c ← pthread_create cons; nap;; p ← pthread_create prod;
            pthread_join p;; pthread_join c;; k) l V Q.
Proof.
  intros Hcode Hr Hend Hl Hc Hnap Hk. prog_simpl.
  assert (Nat.even (2 * r) = true /\ Nat.even (S (S (2 * r))) = true) as [He1 He2]
    by (split; apply (Nat.even_even r)).
  apply (wp_mp_create r (2 * r)); [done..|unfold prod_of; lia|done|by rewrite He1|].
  apply wp_bind. eapply wp_mono; [by apply Hnap|]. intros u l1 V1 ->.
  apply (wp_mp_create r (S (2 * r))); [done..|unfold prod_of; lia|done|by rewrite Nat.even_succ, Nat.odd_even|].
  apply (wp_join H CI (prod_of r)); [done|exact He2|unfold prod_of; simpl; lia|]. intros v out x V2 _ _.
  apply (wp_join H CI (cons_of r)); [done|exact He2|unfold cons_of; simpl; lia|]. intros v' out' x' V3 _ _.
  apply Hk; [|done..]. split; [done|]. split; [simpl; lia|]. right. exists r. split_all; [done..| |].
  - apply list_elem_of_here.
  - apply list_elem_of_further, list_elem_of_here.
Qed.

(** While a producer is at work it is ready; when it has ended it has set
    the flag. *)
#[export] Instance mp_progress :
  (forall u v out x, final u v out x -> x = 2%nat) -> Progress H CI.
Proof.
  intros Hfin w g Hi Hwf Hc (u & Hu & Hnd). simpl in Hc.
  pose proof (hi_n _ _ _ _ Hi) as Hn. destruct (hi_ci _ _ _ _ Hi) as (r & [[H0 Hid]|[H0 Hr]]).
  - exists u. split_all; [lia..|done|]. intros Ho%Nat.odd_spec. destruct Ho as [q ->].
    apply (id_past _ _ _ _ _ Hid). rewrite (id_n _ _ _ _ _ Hid) in Hu. lia.
  - pose proof (mp_n _ _ _ _ _ Hr) as Hmn. unfold prod_of in Hmn. apply Nat.even_spec in Hc as [n Hc].
    destruct (decide ((prod_of r < wn w)%nat /\ wdone w (prod_of r) = None)) as [[Hlt Hp]|Hp].
    + exists (prod_of r). split_all; [unfold prod_of; lia|done|done|]. intros Ho.
      by rewrite prod_of_odd in Ho.
    + exists u. split_all; [lia..|done|]. intros [q ->]%Nat.odd_spec.
      destruct (decide (S (2 * q + 1) <= 2 * r)%nat) as [Hle|Hgt].
      * apply (mp_old _ _ _ _ _ Hr). lia.
      * replace (S (2 * q + 1)) with (prod_of r) by (unfold prod_of; lia).
        destruct (wdone w (prod_of r)) as [v|] eqn:E; [eapply Hfin, (hi_done _ _ _ _ Hi), E|].
        destruct Hp. split; [unfold prod_of; lia|done].
Qed.
End MsgPass.

(** The lines of a message-passing test: no number, or a consumer's line
    with the payload 42. *)
Definition mp_line (rounds : nat) (fmt : string) (e : event) : Prop :=
  ev_args e = [] \/ exists r, (r < rounds)%nat /\ e = Event (cons_of r) fmt [42].

(** When such a test has returned, every consumer has printed its line. *)
Definition mp_delivered (rounds : nat) (fmt : string) (C : config) : Prop :=
  forall v, returned C = Some v ->
    forall r, (r < rounds)%nat -> printed (cons_of r) C = [Event (cons_of r) fmt [42]].

Definition mp_final (fmt : string) (u : tid) (v : Z) (out : list event) (x : nat) : Prop :=
  x = 2%nat /\ (Nat.odd u = true -> out = [Event u fmt [42]]).

Lemma mp_final_two fmt u v out x : mp_final fmt u v out x -> x = 2%nat.
Proof. by intros []. Qed.

Lemma mp_final_prod rounds fmt r : (r < rounds)%nat -> mp_final fmt (prod_of r) 0 [] 2%nat.
Proof. intros _. split; [done|]. by rewrite prod_of_odd. Qed.

Lemma mp_final_cons fmt r v : mp_final fmt (cons_of r) v [Event (cons_of r) fmt [42]] 2%nat.
Proof. done. Qed.

(** The consumer's last steps, where it only prints. *)
Lemma wp_mp_line flag P `{!Payload flag P} rounds cons prod fmt r V :
  (r < rounds)%nat ->
  wp (hlogic (mp_harness rounds cons prod (mp_final fmt) (mp_line rounds fmt)) (mp_inv flag P))
    (cons_of r) (printf fmt [42];; Ret 0) (fresh 2%nat) V
    (fun v l' _ => l_end l' = false /\ mp_final fmt (cons_of r) v (l_out l') (l_w l')).
Proof.
  intros Hr. prog_simpl. apply wp_printf; [apply _..|done|right; by exists r|]. apply wp_ret.
  by split; [|apply mp_final_cons].
Qed.

(** The verdict on such a test. *)
Lemma mp_result rounds flag P `{!Payload flag P} cons prod fmt main C :
  reachable main C ->
  wp (hlogic (mp_harness rounds cons prod (mp_final fmt) (mp_line rounds fmt)) (mp_inv flag P)) 0%nat main
    (fresh 0%nat) vbot (fun _ l _ => forall r, (r < rounds)%nat -> cons_of r ∈ l_j l) ->
  ~ faulty C /\ can_return C /\ Forall (mp_line rounds fmt) (wout (wld C)) /\ mp_delivered rounds fmt C.
Proof.
  intros Hr Hw. set (H := mp_harness _ _ _ _ _) in Hw.
  assert (Progress H (mp_inv flag P)) by apply mp_progress, mp_final_two.
  destruct (harness_total H (mp_inv flag P) main C (fun _ l => forall r, (r < rounds)%nat -> cons_of r ∈ l_j l) Hr)
    as (Hf & Hret & Hg & Hq); [by apply mp_init|exact Hw|]. split_all; [done..|].
  intros v Hv r Hlt. destruct (Hq v Hv) as (l & Hl & _ & Hfin).
  destruct (Hfin _ (Hl _ Hlt)) as (v' & out & x & [_ Hx] & ->). by rewrite (Hx (cons_of_odd r)).
Qed.
