(* ===== verification/Spinlock.v ===== *)
(** * Exercise 05: spin locks

    src/exercises/05_spinlock_internals/05_spinlock_internals.c *)

From S2P Require Import Prelude Machine Logic Harness Race Lock Counter Bench.

(** [#define NUM_THREADS 4], [#define ITERATIONS 100000] *)
Definition NUM_THREADS : Z := 4.
Definition ITERATIONS : Z := 100000.
Definition BACKOFF_MIN : Z := 4.
Definition BACKOFF_MAX : Z := 1024.

(** [false] and [true] of an [atomic_bool]. *)
Abbreviation cfalse := 0.
Abbreviation ctrue := 1.

(** The globals and the lock object of [main]. *)
Definition shared_counter : loc := 8.
Definition the_lock : loc := 64.

(** A hint to the processor. *)
Definition cpu_relax : prog unit := do_ Pause.

(** ** The locks *)

Definition tas_lock (lock : loc) : prog unit :=
  while_ (r ← perform (AtomicFlagTestAndSet lock memory_order_acquire); Ret (negb (r =? 0)))
    (Ret tt).

(** [atomic_flag_clear_explicit] stores the clear state. *)
Definition tas_unlock (lock : loc) : prog unit := store lock cfalse memory_order_release.

(** The test and the compare-and-swap of one turn: whether the lock was got. *)
Definition test_and_cas (lock : loc) : prog bool :=
  locked ← load lock memory_order_relaxed;
  if locked =? 0 then
    r ← perform (AtomicCasWeak lock cfalse ctrue memory_order_acquire memory_order_relaxed);
    Ret (negb (r =? 0))
  else Ret false.

Definition ttas_lock (lock : loc) : prog unit :=
  loop_ 0 (fun s =>
    got ← test_and_cas lock;
    if got : bool then Ret (inr 0) else cpu_relax;; Ret (inl s));;
  Ret tt.

Definition ttas_unlock (lock : loc) : prog unit := store lock cfalse memory_order_release.

Definition ttas_pause_lock (lock : loc) : prog unit :=
  loop_ 0 (fun s =>
    got ← test_and_cas lock;
    if got : bool then Ret (inr 0) else cpu_relax;; Ret (inl s));;
  Ret tt.

Definition ttas_pause_unlock (lock : loc) : prog unit := store lock cfalse memory_order_release.

(** [backoff = (backoff * 2 > BACKOFF_MAX) ? BACKOFF_MAX : backoff * 2] *)
Definition next_backoff (backoff : Z) : Z :=
  if backoff * 2 >? BACKOFF_MAX then BACKOFF_MAX else backoff * 2.

Definition backoff_lock (lock : loc) : prog unit :=
  loop_ BACKOFF_MIN (fun backoff =>
    got ← test_and_cas lock;
    if got : bool then Ret (inr 0)
    else for_ backoff (fun _ => cpu_relax);; Ret (inl (next_backoff backoff)));;
  Ret tt.

Definition backoff_unlock (lock : loc) : prog unit := store lock cfalse memory_order_release.

(** ** The workers *)

Section Workers.
Context (iterations : Z).

Definition tas_worker (lock : loc) : prog Z :=
  for_ iterations (fun _ =>
    tas_lock lock;; incr LONG_BITS shared_counter;; tas_unlock lock);;
  Ret 0.

Definition ttas_worker (lock : loc) : prog Z :=
  for_ iterations (fun _ =>
    ttas_lock lock;; incr LONG_BITS shared_counter;; ttas_unlock lock);;
  Ret 0.

Definition pthread_spin_worker (lock : loc) : prog Z :=
  for_ iterations (fun _ =>
    pthread_spin_lock lock;; incr LONG_BITS shared_counter;; pthread_spin_unlock lock);;
  Ret 0.

Definition ttas_pause_worker (lock : loc) : prog Z :=
  for_ iterations (fun _ =>
    ttas_pause_lock lock;; incr LONG_BITS shared_counter;; ttas_pause_unlock lock);;
  Ret 0.

Definition backoff_worker (lock : loc) : prog Z :=
  for_ iterations (fun _ =>
    backoff_lock lock;; incr LONG_BITS shared_counter;; backoff_unlock lock);;
  Ret 0.
End Workers.

(** One test of [main]: reset the counter, create the workers on a fresh
    lock, join them, print the counter. [main] runs it on the pthread spin
    lock, after [pthread_spin_init] and without the line of the count; the tests
    of the other four locks have this text too, commented out. *)
Definition spin_test (threads : Z) (label : string) (worker : prog Z) : prog Z :=
  do_ (NaWrite shared_counter 0);;
  TIME_BLOCK label (
    ts ← create_threads threads (fun _ => worker);
    join_threads ts);;
  n ← perform (NaRead shared_counter);
  printf "   Counter: %ld ✓\n" [n];;
  Ret 0.

Definition main (threads iterations : Z) : prog Z :=
  puts ["═══════════════════════════════════════════════════════════\n";
        "  Exercise 05: Spinlock Internals & CPU Instructions\n"];;
  printf "  Threads: %d, Iterations: %d\n" [threads; iterations];;
  puts ["═══════════════════════════════════════════════════════════\n\n"];;
  printf "5. pthread_spinlock_t (libc implementation)\n" [];;
  do_ (MutexInit the_lock);;
  do_ (NaWrite shared_counter 0);;
  TIME_BLOCK "   pthread_spinlock" (
    ts ← create_threads threads (fun _ => pthread_spin_worker iterations the_lock);
    join_threads ts);;
  Ret 0.

(** The lines a test may print: the elapsed time, and the complete count. *)
Definition spin_line (label : string) (total : Z) (e : event) : Prop :=
  ev_args e = [] \/ (exists d, e = Event 0 (elapsed_fmt label) [d]) \/
  e = Event 0 "   Counter: %ld ✓\n" [total].

(** What a test has printed when it returns. *)
Definition spin_report (label : string) (total : Z) (C : config) : Prop :=
  forall v, returned C = Some v ->
    v = 0 /\ exists d, printed 0 C =
      [Event 0 (elapsed_fmt label) [d]; Event 0 "   Counter: %ld ✓\n" [total]].

(** ** The spin locks discharge the lock interface *)

Section FlagLock.
Context {W : Type} (H : harness W) (a : loc)
  (Cl : option tid -> view -> world -> (tid -> W) -> Prop) `{!LockClient a Cl}.
Local Abbreviation CI := (locked flag_state a Cl).
Local Abbreviation wp := (wp (hlogic H CI)).

(** One turn: the lock is got, or nothing happened. *)
Lemma wp_test_and_cas t l V y (Q : bool -> lst W -> view -> Prop) :
  l_end l = false -> accepts_lock H a Cl t l y ->
  (forall V', V ⊑v V' -> Q true (upd_w l y) V') ->
  (forall V', V ⊑v V' -> Q false l V') ->
  wp t (test_and_cas a) l V Q.
Proof.
  intros Hend Hacc Ht Hf. unfold test_and_cas. prog_simpl.
  apply wp_load_any; [apply _|done|]. intros v V1 HV1. destruct (v =? 0).
  - prog_simpl. eapply wp_cas; [apply _|done|done|exact Hacc|..]; intros V2 HV2; apply wp_ret.
    + apply Ht. by etrans.
    + apply Hf. by etrans.
  - apply wp_ret. by apply Hf.
Qed.

(** A ready thread gets the lock in one turn. *)
Lemma fin_test_and_cas t l V y (Q : bool -> lst W -> view -> Prop) :
  l_end l = false -> gets_lock H a Cl t l -> accepts_lock H a Cl t l y ->
  (forall V', V ⊑v V' -> Q true (upd_w l y) V') ->
  fin (hlogic H CI) t (test_and_cas a) l V Q.
Proof.
  intros Hend Hget Hacc Ht. unfold test_and_cas. prog_simpl.
  eapply fin_load_free; [apply _|done|done|]. intros V1 HV1. simpl Z.eqb. cbv iota. prog_simpl.
  eapply fin_cas; [apply _|done|done|done|exact Hacc|]. intros V2 HV2. apply fin_ret, Ht. by etrans.
Qed.

Lemma wp_relax t n l V :
  l_end l = false -> wp t (for_ n (fun _ => cpu_relax)) l V (fun _ l' V' => l' = l /\ V' = V).
Proof.
  intros Hend. unfold for_. eapply wp_mono;
    [apply (wp_for_from _ _ _ _ _ _ _ (fun _ l' V' => l' = l /\ V' = V)); [|done]|by intros].
  intros j l' V' _ [-> ->]. apply wp_pause; [apply _|done|]. by apply wp_ret.
Qed.

Lemma wp_unlock {A} t l V y (k : unit -> prog A) Q :
  l_end l = false -> accepts_unlock H a Cl t l V y ->
  (forall V', V ⊑v V' -> wp t (k tt) (upd_w l y) V' Q) ->
  wp t (bind (store a cfalse memory_order_release) k) l V Q.
Proof. intros Hend Hacc Hk. prog_simpl. eapply wp_clear; [apply _|done|done|exact Hacc|done]. Qed.
End FlagLock.

#[export] Instance tas_is_lock : Lock tas_lock tas_unlock.
Proof.
  refine {| lkst := flag_state |}; [apply flag_state_init| |].
  - intros W A H a Cl HCl t k l V y Q Hend Hget Hacc Hk. apply wp_bind.
    eapply wp_while with (P := fun l' V' => l' = l /\ V ⊑v V'); [| |done]; intros l' V' [-> HV].
    2:{ apply fin_while. prog_simpl. eapply fin_test_and_set; [apply _|done|done|exact Hget|exact Hacc|].
        intros V1 HV1. apply fin_ret, Hk. by etrans. }
    prog_simpl. eapply wp_test_and_set; [apply _|done|done|exact Hacc|..].
    + intros V1 HV1. apply wp_ret. simpl. apply Hk. by etrans.
    + intros r V1 Hr HV1. apply wp_ret. destruct (Z.eqb_spec r 0); [done|]. simpl.
      apply wp_ret. split; [done|]. by etrans.
  - intros W A H a Cl HCl t k l V y Q Hend Hown Hacc Hk.
    eapply wp_unlock; [apply _|done|by split|done].
Defined.

(** The three test-and-test-and-set locks differ only in how they wait. *)
Lemma wp_ttas_loop {W A} (H : harness W) a Cl `{!LockClient a Cl} (relax : Z -> prog unit)
    (next : Z -> Z) s t (k : unit -> prog A) l V y Q :
  l_end l = false -> gets_lock H a Cl t l -> accepts_lock H a Cl t l y ->
  (forall s V, wp (hlogic H (locked flag_state a Cl)) t (relax s) l V (fun _ l' V' => l' = l /\ V' = V)) ->
  (forall V', V ⊑v V' -> wp (hlogic H (locked flag_state a Cl)) t (k tt) (upd_w l y) V' Q) ->
  wp (hlogic H (locked flag_state a Cl)) t
    (bind (loop_ s (fun s =>
       got ← test_and_cas a;
       if got : bool then Ret (inr 0) else relax s;; Ret (inl (next s)));; Ret tt) k) l V Q.
Proof.
  intros Hend Hget Hacc Hrel Hk. apply wp_bind, wp_bind.
  eapply wp_loop with (P := fun _ l' V' => l' = l /\ V ⊑v V'); [| |done]; intros s' l' V' [-> HV].
  2:{ apply fin_loop, fin_bind. eapply fin_test_and_cas; [apply _|done|exact Hget|exact Hacc|].
      intros V1 HV1. apply fin_ret, wp_ret, Hk. by etrans. }
  apply wp_bind. eapply wp_test_and_cas; [apply _|done|exact Hacc|..].
  - intros V1 HV1. apply wp_ret, wp_ret, Hk. by etrans.
  - intros V1 HV1. apply wp_bind. eapply wp_mono; [apply Hrel|].
    intros u l2 V2 [-> ->]. apply wp_ret. split; [done|]. by etrans.
Qed.

#[export] Instance ttas_is_lock : Lock ttas_lock ttas_unlock.
Proof.
  refine {| lkst := flag_state |}; [apply flag_state_init| |].
  - intros W A H a Cl HCl t k l V y Q Hend Hget Hacc Hk.
    eapply (wp_ttas_loop H a Cl (fun _ => cpu_relax) (fun s => s)); [done|exact Hget|exact Hacc| |done].
    intros s V'. apply wp_pause; [apply _|done|]. by apply wp_ret.
  - intros W A H a Cl HCl t k l V y Q Hend Hown Hacc Hk.
    eapply wp_unlock; [apply _|done|by split|done].
Defined.

#[export] Instance ttas_pause_is_lock : Lock ttas_pause_lock ttas_pause_unlock := ttas_is_lock.

#[export] Instance backoff_is_lock : Lock backoff_lock backoff_unlock.
Proof.
  refine {| lkst := flag_state |}; [apply flag_state_init| |].
  - intros W A H a Cl HCl t k l V y Q Hend Hget Hacc Hk.
    eapply (wp_ttas_loop H a Cl (fun s => for_ s (fun _ => cpu_relax)) next_backoff);
      [done|exact Hget|exact Hacc| |done].
    intros s V'. by apply wp_relax.
  - intros W A H a Cl HCl t k l V y Q Hend Hown Hacc Hk.
    eapply wp_unlock; [apply _|done|by split|done].
Defined.

(** ** Correctness *)

Section SpinTest.
Context (lk unlk : loc -> prog unit) `{!Lock lk unlk} (N : nat) (iters : Z).
Hypothesis Hiters : 0 <= iters.
Hypothesis Hrange : in_range LONG_BITS (Z.of_nat N * iters) = true.

Local Abbreviation code := (locked_worker lk unlk LONG_BITS shared_counter the_lock iters).
Local Abbreviation H label := (counter_harness N iters code (spin_line label (Z.of_nat N * iters))).
Local Abbreviation CI := (locked (lkst Lock0) the_lock (counter_inv N shared_counter iters)).

Lemma spin_test_wp label :
  wp (hlogic (H label) CI) 0%nat (spin_test (Z.of_nat N) label code) (fresh (Cst 0 false None)) vbot
    (fun v l _ => v = 0 /\ exists d, l_out l =
       [Event 0 "   Counter: %ld ✓\n" [Z.of_nat N * iters]; Event 0 (elapsed_fmt label) [d]]).
Proof.
  unfold spin_test. prog_simpl. apply wp_reset_ctr; [done..|]. intros V1 _.
  apply wp_bind. apply wp_time_block; [apply _..|done|by intros d; right; left; exists d|].
  apply (wp_create_join (H label) CI (fun _ => code)); [by apply locked_code_ok with (bits := LONG_BITS)|done..|].
  intros l V2 [Hc Hj] Hend Hl Ho HV. split; [done|]. intros d. prog_simpl.
  apply wp_final_ctr with (bits := LONG_BITS); [done..|]. intros V3 HV3. apply wp_printf; [apply _..|done|by right; right|].
  apply wp_ret. split; [done|]. exists d. simpl. by rewrite Ho.
Qed.

Lemma spin_test_safe label C :
  reachable (spin_test (Z.of_nat N) label code) C ->
  ~ faulty C /\ can_return C /\ Forall (spin_line label (Z.of_nat N * iters)) (wout (wld C)) /\
  spin_report label (Z.of_nat N * iters) C.
Proof.
  intros Hr. destruct (harness_total (H label) CI _ C (fun v l => v = 0 /\ exists d, l_out l =
    [Event 0 "   Counter: %ld ✓\n" [Z.of_nat N * iters]; Event 0 (elapsed_fmt label) [d]]) Hr)
    as (Hf & Hret & Hg & Hq); [by apply counter_init|apply spin_test_wp|].
  split_all; [done..|]. intros v Hv. destruct (Hq v Hv) as (l & [-> [d Hd]] & Ho & _).
  split; [done|]. exists d. by rewrite Ho, Hd.
Qed.

Lemma spin_test_excl label C :
  reachable (spin_test (Z.of_nat N) label code) C -> ~ conflict shared_counter C.
Proof.
  apply race_free_excl. intros C' Hr.
  destruct (harness_adequacy (H label) CI _ _ ltac:(by apply counter_init) (spin_test_wp label) C' Hr)
    as (Hf & _ & g & Hi & _). split; [done|apply (hi_exit _ _ _ _ Hi)].
Qed.
End SpinTest.

(** [pthread_spin_init] while thread 0 is alone. *)
Lemma wp_spin_init {A} N ctr a iters good code (k : Z -> prog A) l V Q
  (H := counter_harness N iters code good)
  (CI := locked (lkst spin_lock) a (counter_inv N ctr iters)) :
  l_end l = false -> l_w l = Cst 0 false None -> l_c l = 0%nat ->
  wp (hlogic H CI) 0%nat (k 0) l V Q -> wp (hlogic H CI) 0%nat (Op (MutexInit a) k) l V Q.
Proof.
  intros Hend Hl Hlc Hk. apply wp_client; [apply _|done..|]. intros w x c Hf. simpl.
  exists (l_w l). split; [|destruct l; simpl in *; by rewrite (hf_view Hf)].
  destruct (hf_ci Hf) as (o & R & [Ho _] & HC). destruct (hf_main Hf eq_refl) as [Hn _].
  assert (forall u, x u = Cst 0 false None) as Hx.
  { intros [|u]; [by rewrite (hf_me Hf)|]. rewrite (hf_init Hf) by lia. done. }
  exists None, vbot. split; [split; simpl; by fn_simpl|].
  assert (forall u, <[0%nat := l_w l]> x u = x u) as Hupd by (intros u; fn_case; by rewrite Hx).
  destruct HC as [Hz Hh Hr Hsum Hb He]. split; simpl.
  - done.
  - intros u. rewrite Hupd, Hx. done.
  - intros u v. rewrite Hupd. apply Hr.
  - rewrite Hsum. apply sumn_ext. intros u _. by rewrite Hupd.
  - intros u. by rewrite Hupd.
  - intros _. exists (wview w 0%nat). split.
    + intros u Hu. by replace u with 0%nat by lia.
    + intros e Hin. eapply covers_mono; [apply vjoin_l|]. by eapply (alone_covers pthread_spin_lock).
Qed.


(** C1. Each of the five spin locks of exercise 05 protects the counter: for
    any number of threads and iterations whose product fits a [long], on
    every execution of the test the machine admits (relaxed loads may be
    stale, a weak compare-and-swap may fail spuriously) there is no data race
    on the plain [shared_counter] and no other undefined behaviour, a count
    that is printed is exactly threads times iterations, and a test that
    returns has printed it; and from every configuration the test can still
    return, so that no lock deadlocks or makes its threads spin for ever. *)
Theorem spin_locks_protect_counter threads iterations label worker C :
  fits LONG_BITS threads iterations ->
  worker ∈ [tas_worker; ttas_worker; ttas_pause_worker; backoff_worker; pthread_spin_worker] ->
  reachable (spin_test threads label (worker iterations the_lock)) C ->
  ~ faulty C /\ can_return C /\ Forall (spin_line label (threads * iterations)) (wout (wld C)) /\
  spin_report label (threads * iterations) C.
Proof.
  intros Hfit Hw Hr. destruct (fits_nat _ _ _ Hfit) as (N & -> & Hrange).
  destruct Hfit as (_ & Hi & _). rewrite !elem_of_cons, elem_of_nil in Hw.
  destruct_or? Hw; try done; subst worker.
  - by eapply (spin_test_safe tas_lock tas_unlock).
  - by eapply (spin_test_safe ttas_lock ttas_unlock).
  - by eapply (spin_test_safe ttas_pause_lock ttas_pause_unlock).
  - by eapply (spin_test_safe backoff_lock backoff_unlock).
  - by eapply (spin_test_safe pthread_spin_lock pthread_spin_unlock).
Qed.

(** At the constants of the source, and on a complete run of three threads
    that each add two. *)
Lemma spin_locks_protect_counter_witness :
  (forall C, reachable (spin_test NUM_THREADS "x" (tas_worker ITERATIONS the_lock)) C ->
     ~ faulty C /\ can_return C /\ Forall (spin_line "x" 400000) (wout (wld C)) /\ spin_report "x" 400000 C) /\
  let C := drive 2000 40 (start (spin_test 3 "x" (backoff_worker 2 the_lock))) in
  returned C = Some 0 /\ hd_error (wout (wld C)) = Some (Event 0 "   Counter: %ld ✓\n" [6]) /\
  ~ faulty C /\ can_return C /\ Forall (spin_line "x" 6) (wout (wld C)) /\ spin_report "x" 6 C.
Proof.
  split; [|split; [vm_compute; reflexivity|split; [vm_compute; reflexivity|]]].
  - intros C. apply (spin_locks_protect_counter NUM_THREADS ITERATIONS "x" tas_worker C).
    + split; [done|split; [done|vm_compute; reflexivity]].
    + apply list_elem_of_here.
  - apply (spin_locks_protect_counter 3 2 "x" backoff_worker).
    + split; [done|split; [done|vm_compute; reflexivity]].
    + do 3 apply list_elem_of_further. apply list_elem_of_here.
    + apply drive_steps.
Defined.

(** C29. Mutual exclusion: with each of the five locks, for any number of
    threads and iterations whose product fits a [long], no execution of the
    test reaches a configuration in which a thread is about to write the
    counter and another thread is about to read or write it. In particular no
    thread gets between the read and the write of another's increment. *)
Theorem spin_locks_exclude threads iterations label worker C :
  fits LONG_BITS threads iterations ->
  worker ∈ [tas_worker; ttas_worker; ttas_pause_worker; backoff_worker; pthread_spin_worker] ->
  reachable (spin_test threads label (worker iterations the_lock)) C ->
  ~ conflict shared_counter C.
Proof.
  intros Hfit Hw Hr. destruct (fits_nat _ _ _ Hfit) as (N & -> & Hrange).
  destruct Hfit as (_ & Hi & _). rewrite !elem_of_cons, elem_of_nil in Hw.
  destruct_or? Hw; try done; subst worker.
  - by eapply (spin_test_excl tas_lock tas_unlock).
  - by eapply (spin_test_excl ttas_lock ttas_unlock).
  - by eapply (spin_test_excl ttas_pause_lock ttas_pause_unlock).
  - by eapply (spin_test_excl backoff_lock backoff_unlock).
  - by eapply (spin_test_excl pthread_spin_lock pthread_spin_unlock).
Qed.

(** A thread inside its increment, the other two kept out. *)
Lemma spin_locks_exclude_witness :
  exists C, reachable (spin_test 3 "x" (tas_worker 2 the_lock)) C /\
    (exists t, about_to shared_counter true t C) /\ ~ conflict shared_counter C.
Proof.
  exists (drive 10 40 (start (spin_test 3 "x" (tas_worker 2 the_lock)))). split; [apply drive_steps|]. split.
  - exists 1%nat. vm_compute. reflexivity.
  - apply (spin_locks_exclude 3 2 "x" tas_worker).
    + split; [done|split; [done|vm_compute; reflexivity]].
    + apply list_elem_of_here.
    + apply drive_steps.
Defined.

(** C18. The program of exercise 05 as it is compiled (only the pthread spin
    lock's test is not commented out) has no data race and no undefined
    behaviour on any execution; from every configuration it can still return,
    and it returns 0. As the lock spins, an unfair scheduler can keep a thread
    spinning, so that not every execution returns. *)
Theorem spinlock_main_safe threads iterations C :
  fits LONG_BITS threads iterations -> reachable (main threads iterations) C ->
  ~ faulty C /\ can_return C /\ forall v, returned C = Some v -> v = 0.
Proof.
  intros Hfit Hr. destruct (fits_nat _ _ _ Hfit) as (N & -> & Hrange).
  destruct Hfit as (_ & Hi & _). set (code := pthread_spin_worker iterations the_lock).
  set (H := counter_harness N iterations code (fun _ => True)).
  set (CI := locked (lkst spin_lock) the_lock (counter_inv N shared_counter iterations)).
  destruct (harness_total H CI (main (Z.of_nat N) iterations) C (fun v _ => v = 0) Hr) as (? & ? & _ & Hq);
    [by apply (counter_init pthread_spin_lock)| |split_all; [done..|]; by intros v Hv; destruct (Hq v Hv) as (l & -> & _)].
  unfold main. apply wp_bind, wp_puts; [apply _..|done|done|]. prog_simpl.
  apply wp_printf; [apply _..|done|done|]. apply wp_printf; [apply _..|done|done|].
  apply wp_printf; [apply _..|done|done|]. apply (wp_spin_init N shared_counter the_lock iterations (fun _ => True) code); [done..|].
  apply (wp_reset_ctr pthread_spin_lock pthread_spin_unlock); [done..|]. intros V1 _.
  apply wp_bind, wp_time_block; [apply _..|done|done|].
  apply (wp_create_join H CI (fun _ => code));
    [by apply (locked_code_ok pthread_spin_lock pthread_spin_unlock) with (bits := LONG_BITS)|done..|].
  intros l V2 Hj Hend Hl Ho HV. split; [done|]. intros d. by apply wp_ret.
Qed.

Lemma spinlock_main_safe_witness :
  (forall C, reachable (main NUM_THREADS ITERATIONS) C ->
     ~ faulty C /\ can_return C /\ forall v, returned C = Some v -> v = 0) /\
  returned (drive 2000 40 (start (main 3 2))) = Some 0.
Proof.
  split; [|vm_compute; reflexivity].
  intros C. apply (spinlock_main_safe NUM_THREADS ITERATIONS C).
  split; [done|split; [done|vm_compute; reflexivity]].
Defined.

(** *** The operations of the backoff lock *)

(** The test of the lock word and the attempt to take it. *)
Definition test_op (lock : loc) : op := AtomicLoad lock memory_order_relaxed.
Definition cas_op (lock : loc) : op :=
  AtomicCasWeak lock cfalse ctrue memory_order_acquire memory_order_relaxed.

(** The pauses after the failed turn number [i]: 4, 8, 16, ... up to 1024. *)
Definition pauses (i : nat) : Z := Z.min (4 * 2 ^ Z.of_nat i) 1024.

(** The operations of a row of failed turns, the first of them number [i]. A
    turn is [false] if the test found the lock held, [true] if it found it free
    and the attempt failed. *)
Fixpoint failed_turns (lock : loc) (i : nat) (turns : list bool) : list op :=
  match turns with
  | [] => []
  | tried :: turns =>
      test_op lock :: (if tried : bool then [cas_op lock] else []) ++
      replicate (Z.to_nat (pauses i)) Pause ++ failed_turns lock (S i) turns
  end.

Lemma next_pauses i : next_backoff (pauses i) = pauses (S i).
Proof.
  unfold next_backoff, pauses, BACKOFF_MAX. rewrite Nat2Z.inj_succ, Z.pow_succ_r by lia.
  pose proof (Z.pow_pos_nonneg 2 (Z.of_nat i)). case_match; lia.
Qed.

Lemma performs_op_inv {A} o (k : Z -> prog A) l a :
  performs (Op o k) l (Ret a) -> exists r l', l = o :: l' /\ performs (k r) l' (Ret a).
Proof. intros Hp. inversion Hp; subst. by do 2 eexists. Qed.

Lemma performs_ret_inv {A} (a : A) l q : performs (Ret a) l q -> l = [] /\ q = Ret a.
Proof. intros Hp. by inversion Hp. Qed.

Lemma performs_iter_inv {A} b s (k : Z -> prog A) l a :
  performs (Iter b s k) l (Ret a) -> performs (unfold_iter b s k) l (Ret a).
Proof. intros Hp. by inversion Hp; subst. Qed.

(** The row of pauses. *)
Lemma performs_pauses {A B} n i (g : unit -> prog A) (h : A -> prog B) l b :
  performs (bind (bind (for_from n i (fun _ => cpu_relax)) g) h) l (Ret b) <->
  exists l', l = replicate n Pause ++ l' /\ performs (bind (g tt) h) l' (Ret b).
Proof.
  revert i l. induction n as [|n IH]; intros i l; simpl; split.
  - intros Hp. by exists l.
  - by intros (l' & -> & Hp).
  - intros (r & l' & -> & Hp)%performs_op_inv. apply IH in Hp as (l'' & -> & Hp). by exists l''.
  - intros (l' & -> & Hp). apply (performs_op _ _ 0), IH. by exists l'.
Qed.

Section BackoffRun.
Context (lock : loc).

Let turn (backoff : Z) : prog (Z + Z) :=
  got ← test_and_cas lock;
  if got : bool then Ret (inr 0)
  else for_ backoff (fun _ => cpu_relax);; Ret (inl (next_backoff backoff)).
Local Abbreviation at_turn i := (Iter turn (pauses i) (fun _ => Ret tt)).

(** One turn of the loop. *)
Lemma performs_turn i l :
  performs (at_turn i) l (Ret tt) <->
  l = [test_op lock; cas_op lock] \/
  exists (tried : bool) l', performs (at_turn (S i)) l' (Ret tt) /\
    l = test_op lock :: (if tried then [cas_op lock] else []) ++ replicate (Z.to_nat (pauses i)) Pause ++ l'.
Proof.
  assert (forall l, performs (bind (bind (for_ (pauses i) (fun _ => cpu_relax)) (fun _ => Ret (inl (next_backoff (pauses i)) : Z + Z)))
      (fun r => match r with inl s' => Iter turn s' (fun _ => Ret tt) | inr _ => Ret tt end)) l (Ret tt) <->
    exists l', l = replicate (Z.to_nat (pauses i)) Pause ++ l' /\ performs (at_turn (S i)) l' (Ret tt)) as Hrow.
  { intros l0. unfold for_. rewrite performs_pauses. cbn [bind]. by rewrite next_pauses. }
  split.
  - intros (locked & l1 & -> & Hp)%performs_iter_inv%performs_op_inv.
    cbn [bind] in Hp. destruct (locked =? 0).
    + apply performs_op_inv in Hp as (r & l2 & -> & Hp). destruct (r =? 0); cbn [bind negb] in Hp.
      * apply Hrow in Hp as (l' & -> & Hp). right. by exists true, l'.
      * apply performs_ret_inv in Hp as [-> _]. by left.
    + apply Hrow in Hp as (l' & -> & Hp). right. by exists false, l'.
  - intros [->|(tried & l' & Hp & ->)]; apply performs_iter.
    + apply (performs_op _ _ 0), (performs_op _ _ 1), performs_nil.
    + destruct tried.
      * apply (performs_op _ _ 0), (performs_op _ _ 0), Hrow. by exists l'.
      * apply (performs_op _ _ 1), Hrow. by exists l'.
Qed.

Lemma performs_turns i l :
  performs (at_turn i) l (Ret tt) <->
  exists turns, l = failed_turns lock i turns ++ [test_op lock; cas_op lock].
Proof.
  split.
  - remember (length l) as n eqn:Hn. revert i l Hn. induction n as [n IH] using lt_wf_ind. intros i l ->.
    intros [->|(tried & l' & Hp & ->)]%performs_turn; [by exists []|].
    destruct (IH (length l')) with (i := S i) (l := l') as (turns & ->); [|done|done|].
    { simpl. rewrite !length_app. lia. }
    exists (tried :: turns). simpl. by rewrite <- !app_assoc.
  - intros (turns & ->). revert i. induction turns as [|tried turns IH]; intros i; apply performs_turn; [by left|].
    right. exists tried. eexists. split; [apply IH|]. simpl. by rewrite <- !app_assoc.
Qed.
End BackoffRun.


(** Three failed turns. *)
Example backoff_run :
  performs (backoff_lock 8)
    ([test_op 8] ++ replicate 4 Pause ++ [test_op 8; cas_op 8] ++ replicate 8 Pause ++
     [test_op 8] ++ replicate 16 Pause ++ [test_op 8; cas_op 8]) (Ret tt).
Proof. apply (performs_turns 8 0). by exists [false; true; false]. Qed.
