(* ===== verification/MemoryOrdering.v ===== *)
(** * Exercise 04: memory ordering

    src/exercises/04_memory_ordering/04_memory_ordering.c: the same message
    passing with plain objects (broken), with sequentially consistent atomics
    and with a release/acquire pair. *)

From S2P Require Import Prelude Machine Logic Harness MsgPass.

(** The globals. *)
Definition data : loc := 8.
Definition flag : loc := 16.
Definition data_broken : loc := 24.
Definition flag_broken : loc := 32.

(** ** Version 1: plain objects *)

Definition producer_broken : prog Z :=
  do_ (NaWrite data_broken 42);;
  do_ (NaWrite flag_broken 1);;
  Ret 0.

Definition consumer_broken : prog Z :=
  while_ (v ← perform (NaRead flag_broken); Ret (v =? 0)) (Ret tt);;
  v ← perform (NaRead data_broken);
  printf "Broken version - data=%d (may be 0 or 42)\n" [v];;
  Ret 0.

(** ** Version 2: sequential consistency *)

Definition producer_seqcst : prog Z :=
  store data 42 memory_order_seq_cst;;
  store flag 1 memory_order_seq_cst;;
  Ret 0.

Definition consumer_seqcst : prog Z :=
  while_ (v ← load flag memory_order_seq_cst; Ret (v =? 0)) (Ret tt);;
  value ← load data memory_order_seq_cst;
  printf "Seq_cst version - data=%d (always 42)\n" [value];;
  assert_ (value =? 42);;
  Ret 0.

(** ** Version 3: acquire-release *)

Definition producer_acqrel : prog Z :=
  store data 42 memory_order_relaxed;;
  store flag 1 memory_order_release;;
  Ret 0.

Definition consumer_acqrel : prog Z :=
  while_ (v ← load flag memory_order_acquire; Ret (v =? 0)) (Ret tt);;
  value ← load data memory_order_relaxed;
  printf "Acquire-release version - data=%d (always 42)\n" [value];;
  assert_ (value =? 42);;
  Ret 0.

(** ** The tests *)

(** The [%s] of the title is substituted in the format. *)
Definition test_version (name : string) (producer consumer : prog Z) : prog unit :=
  printf ("\n=== " ++ name ++ " ===\n") [];;
  do_ (NaWrite data_broken 0);;
  do_ (NaWrite flag_broken 0);;
  store data 0 memory_order_seq_cst;;
  store flag 0 memory_order_seq_cst;;
  cons ← pthread_create consumer;
  prod ← pthread_create producer;
  pthread_join prod;;
  pthread_join cons;;
  Ret tt.

Definition main : prog Z :=
  puts ["═══════════════════════════════════════════════════════════\n";
        "  Exercise 04: Memory Ordering & CPU Memory Models\n";
        "═══════════════════════════════════════════════════════════\n\n";
        "⚠️  IMPORTANT: x86 Memory Model Caveat\n";
        "╔═══════════════════════════════════════════════════════╗\n";
        "║  The 'broken' version will likely WORK on x86!       ║\n";
        "║  x86 has TSO (Total Store Order) - strong model      ║\n";
        "║  ARM/RISC-V would fail reliably                      ║\n";
        "║                                                        ║\n";
        "║  To catch the bug: make tsan-04                      ║\n";
        "╚═══════════════════════════════════════════════════════╝\n\n";
        "x86-64 Ordering Rules (TSO):\n";
        "  ✓ Store-Store: NO reordering (data=42, flag=1 stays ordered)\n";
        "  ✓ Load-Load:   NO reordering\n";
        "  ✓ Load-Store:  NO reordering\n";
        "  ✗ Store-Load:  MAY reorder (the weak point)\n\n";
        "Testing BROKEN version (no atomics):\n";
        "  On x86: Usually works (luck + TSO)\n";
        "  On ARM: Would fail spectacularly\n";
        "  Compiler: Can still reorder if optimized!\n\n"];;
  for_ 3 (fun _ => test_version "  Broken" producer_broken consumer_broken);;
  puts ["\nTesting seq_cst version:\n"];;
  test_version "  Seq_cst" producer_seqcst consumer_seqcst;;
  puts ["\nTesting acquire-release version:\n"];;
  test_version "  Acquire-release" producer_acqrel consumer_acqrel;;
  puts ["\n═══════════════════════════════════════════════════════════\n";
        "  KEY INSIGHTS:\n";
        "  • x86 TSO masks many bugs (false sense of security)\n";
        "  • ARM/RISC-V weak ordering exposes them immediately\n";
        "  • Compiler can reorder even on x86 (use -O2)\n";
        "  • seq_cst: Full fence, expensive (MFENCE on x86)\n";
        "  • acquire-release: Efficient one-way barriers\n";
        "\n";
        "  ANALYSIS:\n";
        "  make asm-04     - See fence instructions\n";
        "  make tsan-04    - Catch the race (ESSENTIAL!)\n";
        "  make objdump-04 - Full disassembly\n";
        "\n";
        "  ASSEMBLY ON x86:\n";
        "  • Broken:         Plain 'mov' instructions\n";
        "  • seq_cst store:  'mfence; mov' or 'lock mov'\n";
        "  • release store:  Plain 'mov' (x86 TSO is enough)\n";
        "  • acquire load:   Plain 'mov' (x86 TSO is enough)\n";
        "\n";
        "  ASSEMBLY ON ARM:\n";
        "  • release: 'stlr' (store-release) or 'str; dmb ish'\n";
        "  • acquire: 'ldar' (load-acquire) or 'dmb ish; ldr'\n";
        "═══════════════════════════════════════════════════════════\n"];;
  Ret 0.

Definition seqcst_line : string := "Seq_cst version - data=%d (always 42)\n".
Definition acqrel_line : string := "Acquire-release version - data=%d (always 42)\n".

(** ** Correctness *)

(** A consumer that waits, reads the atomic payload, prints it and asserts it;
    a producer that stores the payload and sets the flag: whatever the order
    of the accesses to the payload, and with any release and acquire orders on
    the flag. *)
Section AtomicTest.
Context (o orl oa : memory_order) (fmt : string).
Hypothesis (Hrel : is_rel orl = true) (Hacq : is_acq oa = true).

Let cons : prog Z :=
  wait_flag flag oa;; value ← load data o; printf fmt [value];; assert_ (value =? 42);; Ret 0.
Let prod : prog Z := store data 42 o;; store flag 1 orl;; Ret 0.

Lemma atomic_test_ok name C :
  reachable (test_version name prod cons;; Ret 0) C ->
  ~ faulty C /\ can_return C /\ Forall (mp_line 1 fmt) (wout (wld C)) /\ mp_delivered 1 fmt C.
Proof.
  set (P := atomic_payload data o). assert (Payload flag P) by (by apply atomic_payload_ok).
  intros Hr. apply (mp_result 1 flag P cons prod fmt _ _ Hr). unfold test_version. prog_simpl.
  pose proof (mp_final_two fmt) as Hfin. apply wp_printf; [apply _..|done|by left|].
  apply wp_mp_cell; [done..|]. intros _ V1. apply wp_mp_cell; [done..|]. intros _ V2.
  apply (wp_mp_first flag P); [done..|]. intros V3.
  refine (wp_mp_run flag P 1 cons prod _ _ 0 (Ret tt) _ _ _ _ _ _ _ _ _ _ _); [|lia|done..| |].
  - apply (mp_code_ok flag P 1 cons prod _ _ orl oa
      (fun v => printf fmt [v];; assert_ (v =? 42);; Ret 0)); [done..|apply mp_final_prod|].
    intros r V5 Hlt. prog_simpl. apply wp_printf; [apply _..|done|right; by exists r|]. simpl.
    apply wp_ret. by split; [|apply mp_final_cons].
  - intros l V' _. by apply wp_ret.
  - intros l V' _ Hj _. apply wp_ret. intros [|r] Hlt; [|lia]. rewrite Hj. apply list_elem_of_here.
Qed.
End AtomicTest.

(** C4. The sequentially consistent and the acquire-release versions of
    exercise 04 deliver the message: on every execution there is no data race
    and the assertion does not fail, the consumer prints 42 or nothing yet,
    when the test has returned it has printed 42, and the test can always
    return: the consumer does not wait for ever. *)
Theorem ordered_versions_deliver name producer consumer fmt C :
  (producer, consumer, fmt) ∈ [(producer_seqcst, consumer_seqcst, seqcst_line);
                               (producer_acqrel, consumer_acqrel, acqrel_line)] ->
  reachable (test_version name producer consumer;; Ret 0) C ->
  ~ faulty C /\ can_return C /\ Forall (mp_line 1 fmt) (wout (wld C)) /\ mp_delivered 1 fmt C.
Proof.
  rewrite !elem_of_cons, elem_of_nil. intros [[= -> -> ->]|[[= -> -> ->]|[]]] Hr.
  - by eapply (atomic_test_ok memory_order_seq_cst memory_order_seq_cst memory_order_seq_cst seqcst_line).
  - by eapply (atomic_test_ok memory_order_relaxed memory_order_release memory_order_acquire acqrel_line).
Qed.

Lemma ordered_versions_deliver_witness :
  let C := drive 100 8 (start (test_version "x" producer_acqrel consumer_acqrel;; Ret 0)) in
  returned C = Some 0 /\ ~ faulty C /\ can_return C /\ Forall (mp_line 1 acqrel_line) (wout (wld C)) /\
  mp_delivered 1 acqrel_line C.
Proof.
  split; [vm_compute; reflexivity|].
  apply (ordered_versions_deliver "x" producer_acqrel consumer_acqrel acqrel_line).
  - apply list_elem_of_further, list_elem_of_here.
  - apply drive_steps.
Defined.

(** C24. The broken version of exercise 04 has a data race on [flag_broken]: a
    test of it, under any title, reaches a configuration in which a plain
    access to [flag_broken] is not ordered with the other thread's; and so does
    [main], whose only threads that access [flag_broken] are those of the
    broken version. *)
Theorem broken_version_races :
  (forall name, exists C,
     reachable (test_version name producer_broken consumer_broken;; Ret 0) C /\ races flag_broken C) /\
  exists C, reachable main C /\ races flag_broken C.
Proof.
  set (c := Choice 1 false 0). split.
  - intros name. apply (run_race (replicate 7 (0%nat, c) ++ [(2%nat, c); (2%nat, c); (1%nat, c)]) 1 c). reflexivity.
  - apply (run_race (replicate 27 (0%nat, c) ++ [(2%nat, c); (2%nat, c); (1%nat, c)]) 1 c).
    vm_compute. reflexivity.
Qed.
