(* ===== verification/Review.v ===== *)
(** * Exercise 00: quick review

    src/exercises/00_quick_review/00_quick_review.c: thread creation and
    return values, a race, its mutex and atomic repairs, message passing. *)

From S2P Require Import Prelude Machine Logic Harness Lock Counter Termination MsgPass.

(** [#define THREADS 4], [#define ITERATIONS 100000] *)
Definition THREADS : Z := 4.
Definition ITERATIONS : Z := 100000.

(** The globals. *)
Definition shared_counter : loc := 8.
Definition mutex_counter : loc := 12.
Definition mutex : loc := 16.
Definition atomic_counter : loc := 56.
Definition data : loc := 60.
Definition ready : loc := 64.

(** ** Part 1: thread creation *)

(** [tid * 2] on a [long]. *)
Definition simple_thread (tid : Z) : prog Z :=
  cpu ← perform SchedGetcpu;
  printf "Thread %ld running on CPU %d\n" [tid; cpu];;
  if in_range LONG_BITS (tid * 2) then Ret (tid * 2) else do_ Undefined;; Ret 0.

Fixpoint join_and_print (i : Z) (threads : list Z) : prog unit :=
  match threads with
  | [] => Ret tt
  | t :: threads =>
      result ← pthread_join t;
      printf "Thread %d returned: %ld\n" [i; result];;
      join_and_print (i + 1) threads
  end.

Section Demos.
Context (threads iterations : Z).

Definition demo_thread_creation : prog unit :=
  printf "\n=== Thread Creation ===\n" [];;
  ts ← create_threads threads simple_thread;
  join_and_print 0 ts;;
  puts ["Key: pthread_create() -> clone(CLONE_VM|CLONE_THREAD)\n";
        "     Shared: address space, file descriptors, signal handlers\n";
        "     Unique: stack, TLS, thread ID\n"].

(** ** Part 2: a race *)

Definition race_increment : prog Z :=
  for_ iterations (fun _ => incr INT_BITS shared_counter);;
  Ret 0.

Definition demo_race : prog unit :=
  printf "\n=== Race Condition (BROKEN) ===\n" [];;
  do_ (NaWrite shared_counter 0);;
  ts ← create_threads threads (fun _ => race_increment);
  join_threads ts;;
  n ← perform (NaRead shared_counter);
  printf "Expected: %d, Got: %d " [threads * iterations; n];;
  n ← perform (NaRead shared_counter);
  (if negb (n =? threads * iterations) then puts ["← RACE!\n"] else puts ["(got lucky)\n"]);;
  puts ["Assembly: movl (%%rax), %%edx; incl %%edx; movl %%edx, (%%rax)\n";
        "          ^^^ Not atomic, can interleave\n"].

(** ** Part 3: the mutex *)

Definition mutex_increment : prog Z :=
  for_ iterations (fun _ =>
    pthread_mutex_lock mutex;; incr INT_BITS mutex_counter;; pthread_mutex_unlock mutex);;
  Ret 0.

Definition demo_mutex : prog unit :=
  printf "\n=== Mutex (Correct) ===\n" [];;
  do_ (NaWrite mutex_counter 0);;
  (ts ← create_threads threads (fun _ => mutex_increment);
   join_threads ts);;
  n ← perform (NaRead mutex_counter);
  printf "Expected: %d, Got: %d ✓\n" [threads * iterations; n];;
  puts ["How it works:\n";
        "  Fast path: atomic CAS on futex word (~10ns)\n";
        "  Slow path: futex(FUTEX_WAIT) syscall, sleep (~1µs)\n";
        "  Unlock: atomic store, futex(FUTEX_WAKE) if waiters\n"].

(** ** Part 4: atomics *)

Definition atomic_increment : prog Z :=
  for_ iterations (fun _ =>
    do_ (AtomicFetchAdd INT_BITS atomic_counter 1 memory_order_seq_cst));;
  Ret 0.

Definition demo_atomic : prog unit :=
  printf "\n=== Atomics (Correct + Fast) ===\n" [];;
  store atomic_counter 0 memory_order_seq_cst;;
  (ts ← create_threads threads (fun _ => atomic_increment);
   join_threads ts);;
  n ← load atomic_counter memory_order_seq_cst;
  printf "Expected: %d, Got: %d ✓\n" [threads * iterations; n];;
  puts ["Assembly: lock incl (%%rax)  \u2190 LOCK prefix ensures atomicity\n";
        "No syscall, but LOCK causes cache coherency traffic\n"].
End Demos.

(** ** Part 5: memory ordering *)

Definition producer : prog Z :=
  store data 42 memory_order_relaxed;;
  store ready 1 memory_order_release;;
  Ret 0.

Definition consumer : prog Z :=
  while_ (v ← load ready memory_order_acquire; Ret (v =? 0)) (Ret tt);;
  value ← load data memory_order_relaxed;
  printf "Consumer saw data=%d\n" [value];;
  Ret 0.

Definition demo_memory_ordering : prog unit :=
  printf "\n=== Memory Ordering (Acquire-Release) ===\n" [];;
  store data 0 memory_order_seq_cst;;
  store ready 0 memory_order_seq_cst;;
  cons ← pthread_create consumer;
  do_ Pause;;                                   (* usleep(1000) *)
  prod ← pthread_create producer;
  pthread_join prod;;
  pthread_join cons;;
  puts ["Release barrier: prevents earlier ops from moving after\n";
        "Acquire barrier: prevents later ops from moving before\n";
        "Happens-before: data=42 guaranteed visible after ready=1\n"].

(** ** Part 6 and main *)

Definition print_reference : prog unit :=
  puts ["\n=== Quick Reference ===\n";
        "Mutex:        Fast path ~10ns, slow path ~1µs (futex syscall)\n";
        "Atomic:       ~10-50ns (LOCK prefix, cache coherency)\n";
        "Context sw:   ~1-3µs (save/restore regs, TLB flush)\n";
        "Cache line:   64 bytes (false sharing threshold)\n";
        "L1 hit:       ~4 cycles (~1ns)\n";
        "L3 hit:       ~40 cycles (~10ns)\n";
        "RAM:          ~200 cycles (~60ns)\n";
        "\nMemory orders:\n";
        "  relaxed:    No sync, just atomicity\n";
        "  acquire:    Load barrier (prevents reorder forward)\n";
        "  release:    Store barrier (prevents reorder backward)\n";
        "  seq_cst:    Total order (slowest, default)\n";
        "\nTools:\n";
        "  make asm-XX      View assembly\n";
        "  make tsan-XX     Detect races (ThreadSanitizer)\n";
        "  make perf-XX     Cache misses, context switches\n";
        "  objdump -d       Disassemble binary\n"].

Definition main (threads iterations : Z) : prog Z :=
  puts ["╔═══════════════════════════════════════════════════════════╗\n";
        "║   Exercise 00: Quick Review - Core Multithreading       ║\n";
        "║   Run this daily for fast knowledge reinforcement       ║\n";
        "╚═══════════════════════════════════════════════════════════╝\n"];;
  demo_thread_creation threads;;
  demo_race threads iterations;;
  demo_mutex threads iterations;;
  demo_atomic threads iterations;;
  demo_memory_ordering;;
  print_reference;;
  puts ["\n✓ Review complete. Now dive into exercises 01-06!\n\n"];;
  Ret 0.

(** ** Correctness *)

(** *** Thread creation *)

Definition started (i cpu : Z) : event :=
  Event (S (Z.to_nat i)) "Thread %ld running on CPU %d\n" [i; cpu].
Definition returned_line (i : Z) : event :=
  Event 0 "Thread %d returned: %ld\n" [i; i * 2].

Section ThreadCreation.
Context (N : nat).
Hypothesis Hrange : in_range LONG_BITS (Z.of_nat N * 2) = true.

Definition creation_final (u : tid) (v : Z) (out : list event) (_ : unit) : Prop :=
  exists i cpu, u = S i /\ v = Z.of_nat i * 2 /\ out = [started (Z.of_nat i) cpu].

Definition creation_harness : harness unit :=
  Harness N (fun i => simple_thread (Z.of_nat i)) (fun _ => tt) creation_final (fun _ => True)
    (fun _ _ _ => True) (fun _ => true).
Definition no_inv (w : world) (x : tid -> unit) : Prop := True.

#[export] Instance no_inv_client : Growing no_inv.
Proof. done. Qed.
#[export] Instance no_inv_outfree t : OutFree no_inv t.
Proof. done. Qed.
#[export] Instance creation_progress : Progress creation_harness no_inv.
Proof. intros w g Hi Hwf _ (u & Hu & Hnd). by exists u. Qed.

Local Abbreviation wp := (wp (hlogic creation_harness no_inv)).

Lemma creation_code_ok : code_ok creation_harness no_inv.
Proof.
  intros i V Hi. simpl in *. unfold simple_thread. prog_simpl.
  apply wp_grow; [apply _|done..|]. intros w x c Hf. simpl. split; [apply grows_refl|].
  apply wp_printf; [apply _..|done|done|].
  rewrite (in_range_between _ _ _ Hrange) by lia. apply wp_ret. split; [done|].
  exists i, (cval c). split_all; [done..|]. unfold started. by rewrite Nat2Z.id.
Qed.

Lemma wp_join_and_print a n l V (Q : unit -> lst unit -> view -> Prop) :
  l_end l = false -> (a + n <= l_c l)%nat ->
  (forall l' V', l_end l' = false -> l_j l' = rev (seq (S a) n) ++ l_j l ->
     l_out l' = rev (map returned_line (map Z.of_nat (seq a n))) ++ l_out l -> Q tt l' V') ->
  wp 0%nat (join_and_print (Z.of_nat a) (map Z.of_nat (seq (S a) n))) l V Q.
Proof.
  revert a l V. induction n as [|n IH]; intros a l V Hend Hle HQ; [apply wp_ret; by apply HQ|].
  cbn [seq map join_and_print]. prog_simpl. apply wp_join; [apply _|done|done|lia|].
  intros v out x V1 (i & cpu & [= <-] & -> & _) HV. apply wp_printf; [apply _..|done|done|].
  replace (Z.of_nat a + 1) with (Z.of_nat (S a)) by lia. apply IH; [done|simpl; lia|].
  intros l' V' Hend' Hj Ho. apply HQ; [done|..].
  - rewrite Hj. cbn [seq rev]. by rewrite <- app_assoc.
  - rewrite Ho. cbn [seq map rev]. by rewrite <- app_assoc.
Qed.
End ThreadCreation.

Lemma creation_bounded threads : bounded (demo_thread_creation threads;; Ret 0).
Proof.
  assert (forall i us, bounded (join_and_print i us)) as Hj.
  { intros i us. revert i. induction us as [|u us IH]; intros i; cbn [join_and_print]; auto with ends. }
  unfold demo_thread_creation, simple_thread. auto 20 with ends.
Qed.

Definition creation_log (threads : Z) : list event :=
  [Event 0 "\n=== Thread Creation ===\n" []] ++ map returned_line (seqZ 0 threads) ++
  [Event 0 "Key: pthread_create() -> clone(CLONE_VM|CLONE_THREAD)\n" [];
   Event 0 "     Shared: address space, file descriptors, signal handlers\n" [];
   Event 0 "     Unique: stack, TLS, thread ID\n" []].

Definition creation_report (threads : Z) (C : config) : Prop :=
  printed 0 C = creation_log threads /\
  forall i, 0 <= i < threads -> exists cpu, printed (S (Z.to_nat i)) C = [started i cpu].

(** C17. Thread creation: [pthread_join] hands back what each thread has
    returned. On every execution, when the demo has returned, thread [i] has
    printed its own line once, and the main thread has printed, in the order
    of creation, that thread [i] returned [2 * i]; and every
    execution of the demo returns. *)
Theorem thread_creation_returns threads C :
  0 <= threads -> in_range LONG_BITS (threads * 2) = true ->
  reachable (demo_thread_creation threads;; Ret 0) C ->
  ~ faulty C /\ must_return C /\ forall v, returned C = Some v -> creation_report threads C.
Proof.
  intros Ht Hrange Hr. rewrite <- (Z2Nat.id threads) in Hrange by done.
  set (N := Z.to_nat threads) in *.
  destruct (harness_always (creation_harness N) no_inv _ C (fun _ l =>
      (forall u, (0 < u <= N)%nat -> u ∈ l_j l) /\ rev (l_out l) = creation_log threads) (creation_bounded threads) Hr) as (Hf & Hret & _ & Hq); [done| |].
  - unfold demo_thread_creation. prog_simpl. apply wp_printf; [apply _..|done|done|].
    apply wp_bind, wp_bind. unfold create_threads. fold N.
    apply (wp_create_from _ _ N 0 simple_thread (say _ (fresh tt))); [by apply creation_code_ok|done..|].
    apply wp_bind. apply (wp_join_and_print N 0%nat N); [done|simpl; lia|]. simpl. intros l V Hend Hj Ho.
    wp_prints. apply wp_ret, wp_ret. simpl. split.
    + intros u Hu. rewrite Hj, elem_of_app, elem_of_reverse_rev, elem_of_seq. left. lia.
    + rewrite Ho, rev_app_distr, rev_involutive. simpl. rewrite <- !app_assoc.
      unfold creation_log, seqZ. do 3 f_equal. apply list_fmap_ext. intros. lia.
  - split_all; [done..|]. intros v Hv. destruct (Hq v Hv) as (l & [Hj Ho] & Hp & Hfin). split.
    + by rewrite Hp.
    + intros i Hi. destruct (Hfin (S (Z.to_nat i))) as (v' & out & [] & (j & cpu & [= E] & _ & ->) & Hi');
        [apply Hj; lia|]. exists cpu. rewrite Hi', <- E, Z2Nat.id by lia. done.
Qed.

Lemma thread_creation_returns_witness :
  (forall C v, reachable (demo_thread_creation THREADS;; Ret 0) C -> returned C = Some v ->
     creation_report 4 C) /\
  returned (drive 100 2 (start (demo_thread_creation THREADS;; Ret 0))) = Some 0.
Proof.
  split; [|vm_compute; reflexivity]. intros C v Hr Hv.
  refine (proj2 (proj2 (thread_creation_returns 4 C _ _ Hr)) v Hv); [lia|vm_compute; reflexivity].
Defined.

(** *** The race *)

(** C27. The unprotected increments race: with at least two threads that each
    increment at least once, some execution of the demo reaches a data race on
    [shared_counter]. *)
Theorem race_demo_races threads iterations :
  2 <= threads -> 1 <= iterations ->
  exists C, reachable (demo_race threads iterations;; Ret 0) C /\ races shared_counter C.
Proof.
  intros Ht Hi. set (c := Choice 1 false 0).
  apply (run_race ([(0%nat, c); (0%nat, c); (0%nat, c); (0%nat, c); (1%nat, c); (1%nat, c)]) 2 c).
  unfold demo_race, create_threads, race_increment, for_.
  replace (Z.to_nat threads) with (S (S (Z.to_nat (threads - 2)))) by lia.
  replace (Z.to_nat iterations) with (S (Z.to_nat (iterations - 1))) by lia.
  reflexivity.
Qed.

Lemma race_demo_races_witness :
  exists C, reachable (demo_race THREADS ITERATIONS;; Ret 0) C /\ races shared_counter C.
Proof. apply (race_demo_races THREADS ITERATIONS); done. Defined.

(** *** The mutex and the atomic counter *)

Definition count_line (total : Z) (e : event) : Prop :=
  ev_args e = [] \/ e = Event 0 "Expected: %d, Got: %d ✓\n" [total; total].

(** When a counting demo has returned, it has printed the complete count. *)
Definition counted (total : Z) (C : config) : Prop :=
  forall v, returned C = Some v -> Event 0 "Expected: %d, Got: %d ✓\n" [total; total] ∈ printed 0 C.

Lemma counted_result {W} (H : harness W) CI `{!Client CI} `{!Progress H CI} main total C :
  h_good H = count_line total -> bounded main -> reachable main C -> CI init_world (h_init H) ->
  wp (hlogic H CI) 0%nat main (fresh (h_init H 0%nat)) vbot
    (fun _ l _ => Event 0 "Expected: %d, Got: %d ✓\n" [total; total] ∈ l_out l) ->
  ~ faulty C /\ must_return C /\ Forall (count_line total) (wout (wld C)) /\ counted total C.
Proof.
  intros Hg Hb Hr Hi Hw.
  destruct (harness_always H CI main C _ Hb Hr Hi Hw) as (Hf & Hret & Ho & Hq). rewrite Hg in Ho.
  split_all; [done..|]. intros v Hv. destruct (Hq v Hv) as (l & Hl & -> & _).
  by rewrite elem_of_reverse_rev.
Qed.

(** C13. The mutex repairs the race: for any number of threads and iterations
    whose product fits an [int], on every execution of the demo there is no
    data race on [mutex_counter] and no other undefined behaviour, the count
    that is printed is exact, a demo that returns has printed it, and
    every execution returns. *)
Theorem mutex_demo_counts threads iterations C :
  fits INT_BITS threads iterations ->
  reachable (demo_mutex threads iterations;; Ret 0) C ->
  ~ faulty C /\ must_return C /\ Forall (count_line (threads * iterations)) (wout (wld C)) /\
  counted (threads * iterations) C.
Proof.
  intros Hfit Hr. destruct (fits_nat _ _ _ Hfit) as (N & -> & Hrange). destruct Hfit as (_ & Hi & _).
  set (code := mutex_increment iterations). set (total := Z.of_nat N * iterations).
  set (H := counter_harness N iterations code (count_line total)).
  set (CI := locked (lkst mutex_lock) mutex (counter_inv N mutex_counter iterations)).
  eapply (counted_result H CI _ total C); [done| |exact Hr|by apply (counter_init pthread_mutex_lock)|].
  { unfold demo_mutex, mutex_increment, pthread_mutex_lock, pthread_mutex_unlock. auto 20 with ends. }
  unfold demo_mutex. prog_simpl. wp_prints.
  apply (wp_reset_ctr pthread_mutex_lock pthread_mutex_unlock); [done..|]. intros V1 _.
  apply wp_bind, wp_bind. apply (wp_create_join H CI (fun _ => code));
    [by apply (locked_code_ok pthread_mutex_lock pthread_mutex_unlock) with (bits := INT_BITS)|done..|].
  intros l V2 [Hc Hj] Hend Hl Ho HV. prog_simpl.
  apply (wp_final_ctr pthread_mutex_lock pthread_mutex_unlock) with (bits := INT_BITS); [done..|].
  intros V3 HV3. wp_prints. apply wp_ret, wp_ret. simpl. do 4 apply list_elem_of_further. apply list_elem_of_here.
Qed.

Lemma mutex_demo_counts_witness :
  (forall C, reachable (demo_mutex THREADS ITERATIONS;; Ret 0) C ->
     ~ faulty C /\ must_return C /\ Forall (count_line 400000) (wout (wld C)) /\ counted 400000 C) /\
  returned (drive 500 2 (start (demo_mutex 3 2;; Ret 0))) = Some 0.
Proof.
  split; [|vm_compute; reflexivity].
  intros C. apply (mutex_demo_counts THREADS ITERATIONS C).
  split; [done|split; [done|vm_compute; reflexivity]].
Defined.

(** C15. The atomic counter repairs the race too: with atomic increments no
    increment is lost, so the count that is printed is exact, a demo that
    returns has printed it, and every execution returns. *)
Theorem atomic_demo_counts threads iterations C :
  0 < threads -> fits INT_BITS threads iterations ->
  reachable (demo_atomic threads iterations;; Ret 0) C ->
  ~ faulty C /\ must_return C /\ Forall (count_line (threads * iterations)) (wout (wld C)) /\
  counted (threads * iterations) C.
Proof.
  intros Hpos Hfit Hr. destruct (fits_nat _ _ _ Hfit) as (N & -> & Hrange). destruct Hfit as (_ & Hi & _).
  set (tgt := fun _ : nat => atomic_counter). set (total := Z.of_nat N * iterations).
  set (H := atomic_harness N INT_BITS iterations tgt memory_order_seq_cst (count_line total)).
  set (CI := atomic_inv N iterations tgt).
  eapply (counted_result H CI _ total C); [done| |exact Hr|by apply atomic_init|].
  { unfold demo_atomic, atomic_increment. auto 20 with ends. }
  unfold demo_atomic. prog_simpl. wp_prints.
  apply wp_reset_atomic; [done..|]. intros V1 _.
  apply wp_bind, wp_bind. apply (wp_create_join H CI (fun _ => atomic_increment iterations));
    [by apply atomic_code_ok|done..|].
  intros l V2 [Hc Hj] Hend Hl Ho HV. prog_simpl.
  apply (wp_final_atomic N INT_BITS iterations tgt memory_order_seq_cst _ N 1%nat); [done..|simpl; lia|done|].
  intros V3 HV3. rewrite full_shared by done. wp_prints. apply wp_ret, wp_ret. simpl.
  do 2 apply list_elem_of_further. apply list_elem_of_here.
Qed.

Lemma atomic_demo_counts_witness :
  (forall C, reachable (demo_atomic THREADS ITERATIONS;; Ret 0) C ->
     ~ faulty C /\ must_return C /\ Forall (count_line 400000) (wout (wld C)) /\ counted 400000 C) /\
  returned (drive 500 20 (start (demo_atomic 3 2;; Ret 0))) = Some 0.
Proof.
  split; [|vm_compute; reflexivity].
  intros C. apply (atomic_demo_counts THREADS ITERATIONS C); [done|].
  split; [done|split; [done|vm_compute; reflexivity]].
Defined.

(** *** Message passing *)

(** C16. The release store of [ready] publishes the relaxed store of [data]:
    on every execution of the demo the consumer prints 42, it has printed
    it when the demo has returned, and the demo can always return. *)
Theorem memory_ordering_demo_delivers C :
  reachable (demo_memory_ordering;; Ret 0) C ->
  ~ faulty C /\ can_return C /\ Forall (mp_line 1 "Consumer saw data=%d\n") (wout (wld C)) /\
  mp_delivered 1 "Consumer saw data=%d\n" C.
Proof.
  set (P := atomic_payload data memory_order_relaxed).
  assert (Payload ready P) by (by apply atomic_payload_ok).
  intros Hr. apply (mp_result 1 ready P consumer producer _ _ _ Hr).
  unfold demo_memory_ordering. prog_simpl. wp_prints.
  apply (wp_mp_first ready P); [apply mp_final_two|done..|]. intros V3.
  refine (wp_mp_run ready P 1 consumer producer _ _ 0 (do_ Pause) _ _ _ _ _ _ _ _ _ _ _); [|lia|done..| |].
  - apply (mp_code_ok ready P 1 consumer producer _ _ memory_order_release memory_order_acquire
      (fun v => printf "Consumer saw data=%d\n" [v];; Ret 0)); [done..|apply mp_final_prod|].
    intros r V5 Hlt. by apply wp_mp_line.
  - intros l V' Hend. apply wp_pause; [apply _|done|]. by apply wp_ret.
  - intros l V' (Hend & _) Hj _. wp_prints. apply wp_ret. intros [|r] Hlt; [|lia]. simpl. rewrite Hj.
    apply list_elem_of_here.
Qed.

Lemma memory_ordering_demo_delivers_witness :
  let C := drive 100 8 (start (demo_memory_ordering;; Ret 0)) in
  returned C = Some 0 /\ ~ faulty C /\ can_return C /\ Forall (mp_line 1 "Consumer saw data=%d\n") (wout (wld C)) /\
  mp_delivered 1 "Consumer saw data=%d\n" C.
Proof.
  split; [vm_compute; reflexivity|].
  apply memory_ordering_demo_delivers. apply drive_steps.
Defined.
