(* ===== verification/Atomics.v ===== *)
(** * Exercise 01: atomic operations

    src/exercises/01_atomics/01_atomics.c (solution.c is in AtomicsSolution.v): a racy counter, atomic counters with two memory orders, and
    message passing with and without release/acquire. *)

From S2P Require Import Prelude Machine Logic Harness Counter Bench Termination MsgPass.

(** [#define NUM_THREADS 8], [#define INCREMENTS 5000000] *)
Definition NUM_THREADS : Z := 8.
Definition INCREMENTS : Z := 5000000.

(** The globals. *)
Definition broken_counter : loc := 8.
Definition seqcst_counter : loc := 16.
Definition relaxed_counter : loc := 24.
Definition message_ready : loc := 32.
Definition message_data : loc := 36.

(** ** Counters *)

Section Workers.
Context (increments : Z).

Definition broken_increment : prog Z :=
  for_ increments (fun _ => incr LONG_BITS broken_counter);;
  Ret 0.

Definition seqcst_increment : prog Z :=
  for_ increments (fun _ =>
    do_ (AtomicFetchAdd LONG_BITS seqcst_counter 1 memory_order_seq_cst));;
  Ret 0.

Definition relaxed_increment : prog Z :=
  for_ increments (fun _ =>
    do_ (AtomicFetchAdd LONG_BITS relaxed_counter 1 memory_order_relaxed));;
  Ret 0.
End Workers.

(** ** Message passing *)

Definition message_producer_broken : prog Z :=
  do_ (NaWrite message_data 42);;
  store message_ready 1 memory_order_relaxed;;
  Ret 0.

Definition message_producer_correct : prog Z :=
  do_ (NaWrite message_data 42);;
  store message_ready 1 memory_order_release;;
  Ret 0.

Definition message_consumer_broken : prog Z :=
  while_ (v ← load message_ready memory_order_relaxed; Ret (v =? 0)) (Ret tt);;
  value ← perform (NaRead message_data);
  printf "Consumer saw (broken): %d\n" [value];;
  Ret 0.

Definition message_consumer_correct : prog Z :=
  while_ (v ← load message_ready memory_order_acquire; Ret (v =? 0)) (Ret tt);;
  value ← perform (NaRead message_data);
  printf "Consumer saw (correct): %d\n" [value];;
  Ret 0.

(** ** Measurement *)

(** The elapsed time, in nanoseconds: the value returned is this number over
    1e9, as a double. *)
Definition measure_time (threads : Z) (func : prog Z) : prog Z :=
  start ← clock_gettime;
  (ts ← create_threads threads (fun _ => func);
   join_threads ts);;
  end_ ← clock_gettime;
  Ret ((tv_sec end_ - tv_sec start) * 10 ^ 9 + (tv_nsec end_ - tv_nsec start)).

(** ** The tests of main *)

Section Tests.
Context (threads increments : Z).
Let expected : Z := threads * increments.

Definition broken_test : prog unit :=
  puts ["1. BROKEN COUNTER (race condition)\n"];;
  do_ (NaWrite broken_counter 0);;
  broken_time ← measure_time threads (broken_increment increments);
  printf "   Time: %.3f s\n" [broken_time];;
  printf "   Expected: %ld\n" [expected];;
  n ← perform (NaRead broken_counter);
  printf "   Got:      %ld" [n];;
  n ← perform (NaRead broken_counter);
  (if negb (n =? expected) then
     n ← perform (NaRead broken_counter);
     printf " ← RACE! Lost %ld increments\n" [expected - n];;
     puts ["   Why: mov/inc/mov is 3 instructions, can interleave\n";
           "   Run 'make asm-01' and search for 'broken_increment'\n"]
   else puts [" (got lucky - run again or increase INCREMENTS)\n"]);;
  puts ["\n"].

Definition seqcst_test : prog Z :=
  puts ["2. TODO: SEQUENTIAL CONSISTENCY (memory_order_seq_cst)\n";
        "   Implement seqcst_increment() first!\n"];;
  store seqcst_counter 0 memory_order_seq_cst;;
  seqcst_time ← measure_time threads (seqcst_increment increments);
  printf "   Time: %.3f s\n" [seqcst_time];;
  n ← load seqcst_counter memory_order_seq_cst;
  printf "   Got: %ld ✓\n" [n];;
  puts ["   Cost: Full memory barrier (expensive)\n"; "\n"];;
  Ret seqcst_time.

(** The last argument of [printf] is the ratio of the two times, printed
    here as the pair. *)
Definition relaxed_test (seqcst_time : Z) : prog Z :=
  puts ["3. TODO: RELAXED ORDERING (memory_order_relaxed)\n";
        "   Implement relaxed_increment() second!\n"];;
  store relaxed_counter 0 memory_order_seq_cst;;
  relaxed_time ← measure_time threads (relaxed_increment increments);
  printf "   Time: %.3f s\n" [relaxed_time];;
  n ← load relaxed_counter memory_order_seq_cst;
  printf "   Got: %ld ✓\n" [n];;
  printf "   Speedup: %.2fx faster than seq_cst\n" [seqcst_time; relaxed_time];;
  puts ["   Why safe: Independent increments, no synchronization needed\n"; "\n"];;
  Ret relaxed_time.
End Tests.

(** One turn of the two message loops. *)
Definition message_round (consumer producer : prog Z) : prog unit :=
  do_ (NaWrite message_data 0);;
  store message_ready 0 memory_order_seq_cst;;
  cons ← pthread_create consumer;
  do_ Pause;;                                     (* usleep(1000) *)
  prod ← pthread_create producer;
  pthread_join prod;;
  pthread_join cons;;
  Ret tt.

Definition main (threads increments : Z) : prog Z :=
  puts ["═══════════════════════════════════════════════════════════\n";
        "  Exercise 01: Atomic Operations & Memory Ordering\n"];;
  printf "  Threads: %d, Increments per thread: %d\n" [threads; increments];;
  puts ["═══════════════════════════════════════════════════════════\n\n"];;
  broken_test threads increments;;
  seqcst_time ← seqcst_test threads increments;
  relaxed_test threads increments seqcst_time;;
  puts ["4. TODO: MESSAGE PASSING PATTERN\n";
        "   This shows where memory ordering REALLY matters!\n";
        "   Implement the producer/consumer functions.\n";
        "\n";
        "   Testing BROKEN version (relaxed):\n"];;
  for_ 5 (fun _ => message_round message_consumer_broken message_producer_broken);;
  puts ["\n   Testing CORRECT version (acquire/release):\n"];;
  for_ 5 (fun _ => message_round message_consumer_correct message_producer_correct);;
  puts ["\n";
        "═══════════════════════════════════════════════════════════\n";
        "  NEXT STEPS:\n";
        "  1. Complete all TODOs above\n";
        "  2. Run: make asm-01\n";
        "     Look for 'lock add' vs plain 'add' instructions\n";
        "  3. Run: make tsan-01\n";
        "     ThreadSanitizer will catch the broken_counter race\n";
        "  4. Compare assembly for seq_cst vs relaxed\n";
        "     On x86: Might be same (strong memory model)\n";
        "     On ARM: Relaxed omits DMB barriers\n";
        "═══════════════════════════════════════════════════════════\n"];;
  Ret 0.

(** The lines of a counter test: the only counts among them are exact. *)
Definition got_line (total : Z) (e : event) : Prop :=
  ev_fmt e = "   Got: %ld ✓\n" -> e = Event 0 "   Got: %ld ✓\n" [total].

Definition got (total : Z) (C : config) : Prop :=
  forall v, returned C = Some v -> Event 0 "   Got: %ld ✓\n" [total] ∈ printed 0 C.

(** ** Correctness *)

Section CounterTest.
Context (N : nat) (iters : Z) (ctr : loc) (o : memory_order).
Hypothesis Hiters : 0 <= iters.
Hypothesis Hpos : (0 < N)%nat.
Hypothesis Hrange : in_range LONG_BITS (Z.of_nat N * iters) = true.

Let tgt : tid -> loc := fun _ => ctr.
Let H := atomic_harness N LONG_BITS iters tgt o (got_line (Z.of_nat N * iters)).
Let CI := atomic_inv N iters tgt.
Local Abbreviation wp := (wp (hlogic H CI)).

(** The body of a counter test: reset, run the workers, read. *)
Lemma wp_counter_test {A} l V (k : Z -> Z -> prog A) (Q : A -> lst Z -> view -> Prop) :
  l_end l = false -> l_w l = 0 -> l_c l = 0%nat ->
  (forall d l' V', l_end l' = false -> wp 0%nat (k d (Z.of_nat N * iters)) l' V' Q) ->
  wp 0%nat (store ctr 0 memory_order_seq_cst;;
            d ← measure_time (Z.of_nat N) (atomic_worker LONG_BITS ctr iters o);
            printf "   Time: %.3f s\n" [d];;
            n ← load ctr memory_order_seq_cst; k d n) l V Q.
Proof.
  intros Hend Hl Hc Hk. prog_simpl. apply wp_reset_atomic; [done..|]. intros V1 _.
  unfold measure_time, clock_gettime. prog_simpl. apply wp_clock; [apply _|done|]. intros t0.
  apply wp_bind, wp_bind. apply (wp_create_join H CI (fun _ => atomic_worker LONG_BITS ctr iters o));
    [by apply atomic_code_ok|done..|].
  intros l' V2 [Hc' Hj] Hend' Hl' _ _. prog_simpl. apply wp_clock; [apply _|done|]. intros t1.
  apply wp_ret. apply wp_printf; [apply _..|done|done|].
  apply (wp_final_atomic N LONG_BITS iters tgt o _ N 1%nat); [done|by rewrite <- Hl|done|simpl; lia|done|].
  intros V3 _. rewrite full_shared by done. by apply Hk.
Qed.
End CounterTest.

(** The verdict on a counter test. *)
Lemma counter_test_ok N increments test C :
  0 <= increments -> bounded test -> reachable test C ->
  (exists ctr o,
     wp (hlogic (atomic_harness N LONG_BITS increments (fun _ => ctr) o (got_line (Z.of_nat N * increments)))
           (atomic_inv N increments (fun _ => ctr))) 0%nat test (fresh 0) vbot
       (fun _ l _ => Event 0 "   Got: %ld ✓\n" [Z.of_nat N * increments] ∈ l_out l)) ->
  ~ faulty C /\ must_return C /\ Forall (got_line (Z.of_nat N * increments)) (wout (wld C)) /\
  got (Z.of_nat N * increments) C.
Proof.
  intros Hi Hb Hr (ctr & o & Hw).
  destruct (harness_always (atomic_harness N LONG_BITS increments (fun _ => ctr) o (got_line (Z.of_nat N * increments)))
    _ _ C _ Hb Hr (atomic_init _ _ _ Hi) Hw) as (Hf & Hret & Ho & Hq).
  split_all; [done..|]. intros v Hv. destruct (Hq v Hv) as (l & Hl & -> & _).
  by rewrite elem_of_reverse_rev.
Qed.

Lemma counter_tests_bounded threads increments test :
  test = seqcst_test threads increments \/
    (exists seqcst_time, test = relaxed_test threads increments seqcst_time) -> bounded test.
Proof.
  intros [->|[ts ->]]; [unfold seqcst_test, seqcst_increment|unfold relaxed_test, relaxed_increment];
    unfold measure_time, clock_gettime; auto 20 with ends.
Qed.

(** C8. The atomic counters lose no increment, with sequential consistency
    and with relaxed order alike: for any positive number of threads and any
    number of increments whose product fits a [long], on every execution of
    the test there is no data race, the count that is printed is exact, a
    test that returns has printed it, and every execution of a test returns. *)
Theorem atomic_counters_exact threads increments test C :
  0 < threads -> fits LONG_BITS threads increments ->
  test = seqcst_test threads increments \/
    (exists seqcst_time, test = relaxed_test threads increments seqcst_time) ->
  reachable test C ->
  ~ faulty C /\ must_return C /\ Forall (got_line (threads * increments)) (wout (wld C)) /\
  got (threads * increments) C.
Proof.
  intros Hpos Hfit Htest Hr. destruct (fits_nat _ _ _ Hfit) as (N & -> & Hrange).
  destruct Hfit as (_ & Hi & _). set (total := Z.of_nat N * increments) in *.
  apply (counter_test_ok N increments _ _ Hi (counter_tests_bounded _ _ _ Htest) Hr).
  destruct Htest as [->|[ts ->]];
    [exists seqcst_counter, memory_order_seq_cst|exists relaxed_counter, memory_order_relaxed].
  - unfold seqcst_test. cbn [puts]. prog_simpl. wp_prints.
    apply (wp_counter_test N increments seqcst_counter); [done|lia|done..|].
    intros d l V Hend. prog_simpl. wp_prints. apply wp_ret. simpl.
    do 2 apply list_elem_of_further. apply list_elem_of_here.
  - unfold relaxed_test. cbn [puts]. prog_simpl. wp_prints.
    apply (wp_counter_test N increments relaxed_counter); [done|lia|done..|].
    intros d l V Hend. prog_simpl. wp_prints. apply wp_ret. simpl.
    do 3 apply list_elem_of_further. apply list_elem_of_here.
Qed.

Lemma atomic_counters_exact_witness :
  (forall C, reachable (relaxed_test NUM_THREADS INCREMENTS 1) C ->
     ~ faulty C /\ must_return C /\ Forall (got_line 40000000) (wout (wld C)) /\ got 40000000 C) /\
  returned (drive 500 20 (start (relaxed_test 3 2 1))) = Some 0.
Proof.
  split; [|vm_compute; reflexivity].
  intros C. apply (atomic_counters_exact NUM_THREADS INCREMENTS); [done| |right; by exists 1].
  split; [done|split; [done|vm_compute; reflexivity]].
Defined.

(** C25. The plain counter races: with at least two threads that each
    increment at least once, some execution of [main] reaches a data race on
    [broken_counter]. *)
Theorem broken_counter_races threads increments :
  2 <= threads -> 1 <= increments ->
  exists C, reachable (main threads increments) C /\ races broken_counter C.
Proof.
  intros Ht Hi. set (c := Choice 1 false 0).
  apply (run_race (replicate 9 (0%nat, c) ++ [(1%nat, c); (1%nat, c)]) 2 c).
  unfold main, broken_test, measure_time, create_threads, broken_increment, for_.
  replace (Z.to_nat threads) with (S (S (Z.to_nat (threads - 2)))) by lia.
  replace (Z.to_nat increments) with (S (Z.to_nat (increments - 1))) by lia.
  reflexivity.
Qed.

Lemma broken_counter_races_witness :
  exists C, reachable (main NUM_THREADS INCREMENTS) C /\ races broken_counter C.
Proof. apply (broken_counter_races NUM_THREADS INCREMENTS); done. Defined.

Lemma message_loop_ok rounds C :
  0 <= rounds ->
  reachable (for_ rounds (fun _ => message_round message_consumer_correct message_producer_correct);; Ret 0) C ->
  let n := Z.to_nat rounds in
  ~ faulty C /\ can_return C /\ Forall (mp_line n "Consumer saw (correct): %d\n") (wout (wld C)) /\
  mp_delivered n "Consumer saw (correct): %d\n" C.
Proof.
  set (P := plain_payload message_data). set (cons := message_consumer_correct).
  set (prod := message_producer_correct). assert (Payload message_ready P) as HP by apply plain_payload_ok.
  intros Hn Hr n. apply (mp_result n message_ready P cons prod _ _ _ Hr). apply wp_bind.
  set (H := mp_harness _ _ _ _ _). assert (code_ok H (mp_inv message_ready P)) as Hcode.
  { apply (mp_code_ok message_ready P n cons prod _ _ memory_order_release memory_order_acquire
      (fun v => printf "Consumer saw (correct): %d\n" [v];; Ret 0)); [done..|apply mp_final_prod|].
    intros r V Hlt. by apply wp_mp_line. }
  eapply wp_mono; [eapply wp_for with (P := fun i l _ => mp_between (Z.to_nat i) l /\
    forall r, (r < Z.to_nat i)%nat -> cons_of r ∈ l_j l); [done|..]|].
  - intros j l V Hj [Hb Hc]. unfold message_round. prog_simpl. pose proof Hb as (Hend & Hlc & _).
    set (r := Z.to_nat j) in *.
    apply (wp_mp_reset message_ready P n cons prod _ _ (mp_final_two _) r); [done|]. intros _ V1.
    apply (wp_mp_reset_flag message_ready P n cons prod _ _ (mp_final_two _) r); [done..|]. intros _ V2.
    refine (wp_mp_run message_ready P n cons prod _ _ r (do_ Pause) _ _ _ _ Hcode _ _ _ _ _ _); [lia|done..| |].
    + intros l' V' Hend'. apply wp_pause; [apply _|done|]. by apply wp_ret.
    + intros l' V' Hb' Hj' _. apply wp_ret. replace (Z.to_nat (j + 1)) with (S r) by lia.
      split; [done|]. intros q Hq. rewrite Hj'. destruct (decide (q = r)) as [->|]; [apply list_elem_of_here|].
      do 2 apply list_elem_of_further. apply Hc. lia.
  - split; [by apply mp_before|]. intros r; lia.
  - intros _ l V [_ Hc]. by apply wp_ret.
Qed.

(** C9. The release store of [message_ready] orders the plain accesses to
    [message_data]: on every execution of the loop with the correct producer
    and consumer, for any number of rounds on the same two variables, there is
    no data race; every consumer prints 42, none an old or a reset value; when
    the loop has returned each has printed it; and the loop can always return. *)
Theorem message_correct_delivers rounds C :
  0 <= rounds ->
  reachable (for_ rounds (fun _ => message_round message_consumer_correct message_producer_correct);; Ret 0) C ->
  let n := Z.to_nat rounds in
  ~ faulty C /\ can_return C /\ Forall (mp_line n "Consumer saw (correct): %d\n") (wout (wld C)) /\
  mp_delivered n "Consumer saw (correct): %d\n" C.
Proof. apply message_loop_ok. Qed.

Lemma message_correct_delivers_witness :
  let C := drive 300 12 (start (for_ 5 (fun _ =>
    message_round message_consumer_correct message_producer_correct);; Ret 0)) in
  returned C = Some 0 /\ ~ faulty C /\ can_return C /\ Forall (mp_line 5 "Consumer saw (correct): %d\n") (wout (wld C)) /\
  mp_delivered 5 "Consumer saw (correct): %d\n" C.
Proof.
  split; [vm_compute; reflexivity|]. apply (message_correct_delivers 5); [done|apply drive_steps].
Defined.

(** C26. With relaxed order on [message_ready] the same round has a data race:
    the consumer can read the flag's 1 and still not be ordered after the
    write of [message_data]. *)
Theorem message_relaxed_races :
  exists C, reachable (message_round message_consumer_broken message_producer_broken;; Ret 0) C
            /\ races message_data C.
Proof.
  set (c := Choice 1 false 0). set (c2 := Choice 2 false 0).
  apply (run_race (replicate 5 (0%nat, c) ++ [(2%nat, c); (2%nat, c2); (1%nat, c); (1%nat, c2)]) 1 c).
  vm_compute. reflexivity.
Qed.
