(* ===== verification/AtomicsSolution.v ===== *)
(** * Exercise 01: the solution

    src/exercises/01_atomics/solution.c, a program of its own that does not
    include the exercise. Its thread functions are those of the exercise; its
    texts, and so its [main], are not. The lemmas on counter tests and on
    message passing are the exercise's. *)

From S2P Require Import Prelude Machine Logic Harness Counter Bench Termination MsgPass Atomics.

(** [#define NUM_THREADS 8], [#define INCREMENTS 5000000] *)
Definition NUM_THREADS : Z := 8.
Definition INCREMENTS : Z := 5000000.

(** The globals. *)
Definition broken_counter : loc := 8.
Definition seqcst_counter : loc := 16.
Definition relaxed_counter : loc := 24.
Definition message_ready : loc := 32.
Definition message_data : loc := 36.

(** ** Counters *)

Section Workers.
Context (increments : Z).

Definition broken_increment : prog Z :=
  for_ increments (fun _ => incr LONG_BITS broken_counter);;
  Ret 0.

Definition seqcst_increment : prog Z :=
  for_ increments (fun _ =>
    do_ (AtomicFetchAdd LONG_BITS seqcst_counter 1 memory_order_seq_cst));;
  Ret 0.

Definition relaxed_increment : prog Z :=
  for_ increments (fun _ =>
    do_ (AtomicFetchAdd LONG_BITS relaxed_counter 1 memory_order_relaxed));;
  Ret 0.
End Workers.

(** ** Message passing *)

Definition message_producer_broken : prog Z :=
  do_ (NaWrite message_data 42);;
  store message_ready 1 memory_order_relaxed;;
  Ret 0.

Definition message_producer_correct : prog Z :=
  do_ (NaWrite message_data 42);;
  store message_ready 1 memory_order_release;;
  Ret 0.

Definition message_consumer_broken : prog Z :=
  while_ (v ← load message_ready memory_order_relaxed; Ret (v =? 0)) (Ret tt);;
  value ← perform (NaRead message_data);
  printf "Consumer saw (broken): %d\n" [value];;
  Ret 0.

Definition message_consumer_correct : prog Z :=
  while_ (v ← load message_ready memory_order_acquire; Ret (v =? 0)) (Ret tt);;
  value ← perform (NaRead message_data);
  printf "Consumer saw (correct): %d\n" [value];;
  Ret 0.

(** ** Measurement *)

(** The elapsed time, in nanoseconds: the value returned is this number over
    1e9, as a double. *)
Definition measure_time (threads : Z) (func : prog Z) : prog Z :=
  start ← clock_gettime;
  (ts ← create_threads threads (fun _ => func);
   join_threads ts);;
  end_ ← clock_gettime;
  Ret ((tv_sec end_ - tv_sec start) * 10 ^ 9 + (tv_nsec end_ - tv_nsec start)).

(** ** The tests of main *)

Section Tests.
Context (threads increments : Z).
Let expected : Z := threads * increments.

Definition broken_test : prog unit :=
  puts ["1. BROKEN COUNTER (race condition)\n"];;
  do_ (NaWrite broken_counter 0);;
  broken_time ← measure_time threads (broken_increment increments);
  printf "   Time: %.3f s\n" [broken_time];;
  printf "   Expected: %ld\n" [expected];;
  n ← perform (NaRead broken_counter);
  printf "   Got:      %ld" [n];;
  n ← perform (NaRead broken_counter);
  (if negb (n =? expected) then
     n ← perform (NaRead broken_counter);
     printf " ← RACE! Lost %ld increments\n" [expected - n];;
     puts ["   Why: mov/inc/mov is 3 instructions, can interleave\n";
           "   Run 'make asm-01' and search for 'broken_increment'\n"]
   else puts [" (got lucky - run again or increase INCREMENTS)\n"]);;
  puts ["\n"].

Definition seqcst_test : prog Z :=
  puts ["2. SEQUENTIAL CONSISTENCY (memory_order_seq_cst)\n"];;
  store seqcst_counter 0 memory_order_seq_cst;;
  seqcst_time ← measure_time threads (seqcst_increment increments);
  printf "   Time: %.3f s\n" [seqcst_time];;
  n ← load seqcst_counter memory_order_seq_cst;
  printf "   Got: %ld ✓\n" [n];;
  puts ["   Cost: Full memory barrier (expensive)\n"; "\n"];;
  Ret seqcst_time.

(** The last argument of [printf] is the ratio of the two times, printed
    here as the pair. *)
Definition relaxed_test (seqcst_time : Z) : prog Z :=
  puts ["3. RELAXED ORDERING (memory_order_relaxed)\n"];;
  store relaxed_counter 0 memory_order_seq_cst;;
  relaxed_time ← measure_time threads (relaxed_increment increments);
  printf "   Time: %.3f s\n" [relaxed_time];;
  n ← load relaxed_counter memory_order_seq_cst;
  printf "   Got: %ld ✓\n" [n];;
  printf "   Speedup: %.2fx faster than seq_cst\n" [seqcst_time; relaxed_time];;
  puts ["   Why safe: Independent increments, no synchronization needed\n"; "\n"];;
  Ret relaxed_time.
End Tests.

(** One turn of the two message loops. *)
Definition message_round (consumer producer : prog Z) : prog unit :=
  do_ (NaWrite message_data 0);;
  store message_ready 0 memory_order_seq_cst;;
  cons ← pthread_create consumer;
  do_ Pause;;                                     (* usleep(1000) *)
  prod ← pthread_create producer;
  pthread_join prod;;
  pthread_join cons;;
  Ret tt.

Definition main (threads increments : Z) : prog Z :=
  puts ["═══════════════════════════════════════════════════════════\n";
        "  Exercise 01: Atomic Operations & Memory Ordering\n"];;
  printf "  Threads: %d, Increments per thread: %d\n" [threads; increments];;
  puts ["═══════════════════════════════════════════════════════════\n\n"];;
  broken_test threads increments;;
  seqcst_time ← seqcst_test threads increments;
  relaxed_test threads increments seqcst_time;;
  puts ["4. MESSAGE PASSING PATTERN\n";
        "   Testing BROKEN version (relaxed):\n"];;
  for_ 5 (fun _ => message_round message_consumer_broken message_producer_broken);;
  puts ["\n   Testing CORRECT version (acquire/release):\n"];;
  for_ 5 (fun _ => message_round message_consumer_correct message_producer_correct);;
  puts ["\n";
        "═══════════════════════════════════════════════════════════\n";
        "  KEY INSIGHTS:\n";
        "  • Race condition visible in assembly (non-atomic RMW)\n";
        "  • seq_cst: Full barrier, total order, slow\n";
        "  • relaxed: Fast, but needs careful reasoning\n";
        "  • acquire/release: Perfect for message passing\n";
        "\n";
        "  ANALYSIS:\n";
        "  make asm-01     - See 'lock add' instruction\n";
        "  make tsan-01    - Detect the race condition\n";
        "  make objdump-01 - Full disassembly\n";
        "═══════════════════════════════════════════════════════════\n"];;
  Ret 0.

(** ** Correctness *)

Lemma solution_tests_bounded threads increments test :
  test = seqcst_test threads increments \/
    (exists seqcst_time, test = relaxed_test threads increments seqcst_time) -> bounded test.
Proof.
  intros [->|[ts ->]]; [unfold seqcst_test, seqcst_increment|unfold relaxed_test, relaxed_increment];
    unfold measure_time, clock_gettime; auto 20 with ends.
Qed.

(** C37. The solution's atomic counters are exact: for any positive number of
    threads and any number of increments whose product fits a [long], on every
    execution of either test there is no data race, the count that is printed
    is the product, and every execution returns. *)
Theorem solution_counters_exact threads increments test C :
  0 < threads -> fits LONG_BITS threads increments ->
  test = seqcst_test threads increments \/
    (exists seqcst_time, test = relaxed_test threads increments seqcst_time) ->
  reachable test C ->
  ~ faulty C /\ must_return C /\ Forall (got_line (threads * increments)) (wout (wld C)) /\
  got (threads * increments) C.
Proof.
  intros Hpos Hfit Htest Hr. destruct (fits_nat _ _ _ Hfit) as (N & -> & Hrange).
  destruct Hfit as (_ & Hi & _).
  apply (counter_test_ok N increments _ _ Hi (solution_tests_bounded _ _ _ Htest) Hr).
  destruct Htest as [->|[ts ->]];
    [exists seqcst_counter, memory_order_seq_cst|exists relaxed_counter, memory_order_relaxed].
  - unfold seqcst_test. cbn [puts]. prog_simpl. wp_prints.
    apply (wp_counter_test N increments seqcst_counter); [done|lia|done..|].
    intros d l V Hend. prog_simpl. wp_prints. apply wp_ret. simpl.
    do 2 apply list_elem_of_further. apply list_elem_of_here.
  - unfold relaxed_test. cbn [puts]. prog_simpl. wp_prints.
    apply (wp_counter_test N increments relaxed_counter); [done|lia|done..|].
    intros d l V Hend. prog_simpl. wp_prints. apply wp_ret. simpl.
    do 3 apply list_elem_of_further. apply list_elem_of_here.
Qed.

Lemma solution_counters_exact_witness :
  (forall C, reachable (seqcst_test NUM_THREADS INCREMENTS) C ->
     ~ faulty C /\ must_return C /\ Forall (got_line 40000000) (wout (wld C)) /\ got 40000000 C) /\
  map (fun e => ev_args e) (rev (wout (wld (drive 500 20 (start (seqcst_test 3 2)))))) =
    [[]; [0]; [6]; []; []].
Proof.
  split; [|vm_compute; reflexivity].
  intros C. apply (solution_counters_exact NUM_THREADS INCREMENTS); [done| |by left].
  split; [done|split; [done|vm_compute; reflexivity]].
Defined.

(** C38. The solution's message passing is correct: on every execution of its
    second message loop, for any number of rounds, there is no data race, every
    consumer prints 42, each has printed it when the loop has returned, and the
    loop can always return. *)
Theorem solution_messages_deliver rounds C :
  0 <= rounds ->
  reachable (for_ rounds (fun _ => message_round message_consumer_correct message_producer_correct);; Ret 0) C ->
  let n := Z.to_nat rounds in
  ~ faulty C /\ can_return C /\ Forall (mp_line n "Consumer saw (correct): %d\n") (wout (wld C)) /\
  mp_delivered n "Consumer saw (correct): %d\n" C.
Proof. intros Hn Hr. exact (message_loop_ok rounds C Hn Hr). Qed.

Lemma solution_messages_deliver_witness :
  let C := drive 300 12 (start (for_ 5 (fun _ =>
    message_round message_consumer_correct message_producer_correct);; Ret 0)) in
  returned C = Some 0 /\ printed 7 C = [Event 7 "Consumer saw (correct): %d\n" [42]].
Proof.
  assert (returned (drive 300 12 (start (for_ 5 (fun _ =>
    message_round message_consumer_correct message_producer_correct);; Ret 0))) = Some 0) as Hret
    by (vm_compute; reflexivity).
  split; [exact Hret|].
  apply (solution_messages_deliver 5 (drive 300 12 (start (for_ 5 (fun _ =>
    message_round message_consumer_correct message_producer_correct);; Ret 0))) ltac:(lia)
    ltac:(apply drive_steps)) with (v := 0) (r := 3%nat); [exact Hret|simpl; lia].
Defined.

(** C39. The solution keeps the two races it demonstrates: some execution of
    its [main] reaches a data race on the plain counter, and so does a round of
    the relaxed producer and consumer on [message_data]. *)
Theorem solution_demonstrates_races threads increments :
  2 <= threads -> 1 <= increments ->
  (exists C, reachable (main threads increments) C /\ races broken_counter C) /\
  (exists C, reachable (message_round message_consumer_broken message_producer_broken;; Ret 0) C /\ races message_data C).
Proof.
  intros Ht Hi. set (c := Choice 1 false 0). set (c2 := Choice 2 false 0). split.
  - apply (run_race (replicate 9 (0%nat, c) ++ [(1%nat, c); (1%nat, c)]) 2 c).
    unfold main, broken_test, measure_time, create_threads, broken_increment, for_.
    replace (Z.to_nat threads) with (S (S (Z.to_nat (threads - 2)))) by lia.
    replace (Z.to_nat increments) with (S (Z.to_nat (increments - 1))) by lia.
    reflexivity.
  - apply (run_race (replicate 5 (0%nat, c) ++ [(2%nat, c); (2%nat, c2); (1%nat, c); (1%nat, c2)]) 1 c).
    vm_compute. reflexivity.
Qed.

Lemma solution_demonstrates_races_witness :
  exists C, reachable (main NUM_THREADS INCREMENTS) C /\ races broken_counter C.
Proof. apply (solution_demonstrates_races NUM_THREADS INCREMENTS); done. Defined.
