(* ===== verification/CacheEffects.v ===== *)
(** * Exercise 03: false sharing

    src/exercises/03_cache_effects/03_cache_effects.c: per-thread atomic
    counters, packed and one per cache line. *)

From S2P Require Import Prelude Machine Logic Harness Counter Bench Termination.

(** [#define NUM_THREADS 4], [#define ITERATIONS 10000000] *)
Definition NUM_THREADS : Z := 4.
Definition ITERATIONS : Z := 10000000.

(** ** Layout *)

(** [packed_counter_t] is one [atomic_long]; [aligned_counter_t] has its
    counter aligned to 64, so its size is rounded up to 64. *)
Definition sizeof_atomic_long : Z := 8.
Definition round_up (n a : Z) : Z := (n + a - 1) / a * a.
Definition sizeof_packed_counter_t : Z := sizeof_atomic_long.
Definition sizeof_aligned_counter_t : Z := round_up sizeof_atomic_long 64.

(** [&packed_counters[i].counter] and [&aligned_counters[i].counter], for
    the arrays at [packed_counters] and [aligned_counters]. *)
Definition packed_counter (packed_counters i : Z) : loc :=
  packed_counters + sizeof_packed_counter_t * i.
Definition aligned_counter (aligned_counters i : Z) : loc :=
  aligned_counters + sizeof_aligned_counter_t * i.

(** ** The workers *)

Definition packed_worker (packed_counters iterations tid : Z) : prog Z :=
  for_ iterations (fun _ =>
    do_ (AtomicFetchAdd LONG_BITS (packed_counter packed_counters tid) 1 memory_order_relaxed));;
  Ret 0.

Definition aligned_worker (aligned_counters iterations tid : Z) : prog Z :=
  for_ iterations (fun _ =>
    do_ (AtomicFetchAdd LONG_BITS (aligned_counter aligned_counters tid) 1 memory_order_relaxed));;
  Ret 0.

(** [for (i = ...; ...) total += atomic_load(&counters[i].counter)] *)
Fixpoint sum_from (n : nat) (counter : Z -> loc) (i total : Z) : prog Z :=
  match n with
  | O => Ret total
  | S n =>
      v ← load (counter i) memory_order_seq_cst;
      if in_range LONG_BITS (total + v) then sum_from n counter (i + 1) (total + v)
      else do_ Undefined;; Ret 0
  end.

(** ** main *)

(** [packed] and [aligned] are what the two calls of [calloc] return: zeroed,
    disjoint arrays. The final calls of [free] have no effect that is
    modelled: nothing uses the arrays after them. *)
Definition main (packed aligned threads iterations : Z) : prog Z :=
  puts ["=== Cache Effects: False Sharing Demo ===\n"];;
  printf "Threads: %d, Iterations per thread: %d\n\n" [threads; iterations];;
  puts ["Packed counters (false sharing):\n"];;
  printf "  Counter size: %zu bytes\n" [sizeof_packed_counter_t];;
  printf "  Array addresses: %p to %p\n"
    [packed_counter packed 0; packed_counter packed (threads - 1)];;
  TIME_BLOCK "Packed (with false sharing)" (
    ts ← create_threads threads (packed_worker packed iterations);
    join_threads ts);;
  packed_total ← sum_from (Z.to_nat threads) (packed_counter packed) 0 0;
  printf "  Total: %ld\n\n" [packed_total];;
  puts ["Cache-aligned counters (no false sharing):\n"];;
  printf "  Counter size: %zu bytes (padded to cache line)\n" [sizeof_aligned_counter_t];;
  printf "  Array addresses: %p to %p\n"
    [aligned_counter aligned 0; aligned_counter aligned (threads - 1)];;
  TIME_BLOCK "Aligned (no false sharing)" (
    ts ← create_threads threads (aligned_worker aligned iterations);
    join_threads ts);;
  aligned_total ← sum_from (Z.to_nat threads) (aligned_counter aligned) 0 0;
  printf "  Total: %ld\n\n" [aligned_total];;
  printf "Expected: %d total increments\n" [threads * iterations];;
  puts ["\nRun with: make perf-03\n";
        "Look for cache-misses and LLC-load-misses\n"];;
  Ret 0.

(** The totals a run has printed, in order. *)
Definition totals (C : config) : list (list Z) :=
  map ev_args (filter (fun e => ev_fmt e = "  Total: %ld\n\n") (printed 0 C)).

(** The two arrays do not overlap. *)
Definition disjoint_arrays (packed aligned threads : Z) : Prop :=
  packed + sizeof_packed_counter_t * threads <= aligned \/
  aligned + sizeof_aligned_counter_t * threads <= packed.

(** ** Correctness *)

Section Totals.
Context (packed aligned : Z) (N : nat) (iters : Z).
Hypothesis Hiters : 0 <= iters.
Hypothesis Hdisj : disjoint_arrays packed aligned (Z.of_nat N).
Hypothesis Hrange : in_range INT_BITS (Z.of_nat N * iters) = true.

(** Threads 1 to N work on the packed array, the next N on the aligned one. *)
Let tgt (u : tid) : loc :=
  if decide (u <= N)%nat then packed_counter packed (Z.of_nat u - 1)
  else aligned_counter aligned (Z.of_nat u - Z.of_nat N - 1).
Let H := atomic_harness (2 * N) LONG_BITS iters tgt memory_order_relaxed (fun _ => True).
Let CI := atomic_inv (2 * N) iters tgt.
Local Abbreviation wp := (wp (hlogic H CI)).

Lemma long_range v : 0 <= v <= Z.of_nat (2 * N) * iters -> in_range LONG_BITS v = true.
Proof.
  intros Hv. apply in_range_intro. unfold in_range in Hrange.
  apply andb_prop in Hrange as [_ Hr%Z.ltb_lt]. unfold LONG_BITS, INT_BITS in *.
  change (2 ^ (32 - 1)) with 2147483648 in Hr. change (2 ^ (64 - 1)) with 9223372036854775808. lia.
Qed.

Lemma tgt_inj u u' : (0 < u <= 2 * N)%nat -> (0 < u' <= 2 * N)%nat -> tgt u' = tgt u -> u' = u.
Proof.
  intros Hu Hu'. unfold tgt, packed_counter, aligned_counter.
  change sizeof_packed_counter_t with 8. change sizeof_aligned_counter_t with 64.
  unfold disjoint_arrays in Hdisj. change sizeof_packed_counter_t with 8 in Hdisj.
  change sizeof_aligned_counter_t with 64 in Hdisj. repeat case_decide; lia.
Qed.

(** Summing the counters of the workers [off+1 .. off+N], all joined. *)
Lemma wp_sum off M n i l V (counter : Z -> loc) (Q : Z -> lst Z -> view -> Prop) :
  l_end l = false -> l_w l = 0 -> l_c l = M -> (forall u, (0 < u <= M)%nat -> u ∈ l_j l) ->
  (off + N <= M <= 2 * N)%nat -> (i + n = N)%nat ->
  (forall j, (j < N)%nat -> counter (Z.of_nat j) = tgt (off + S j)) ->
  (forall V', Q (Z.of_nat N * iters) l V') ->
  wp 0%nat (sum_from n counter (Z.of_nat i) (Z.of_nat i * iters)) l V Q.
Proof.
  intros Hend Hl Hc Hj Hoff Hi Hcnt HQ. revert i V Hi.
  induction n as [|n IH]; intros i V Hi; cbn [sum_from].
  { apply wp_ret. replace (Z.of_nat i) with (Z.of_nat N) by lia. apply HQ. }
  rewrite Hcnt by lia. prog_simpl.
  apply (wp_final_atomic (2 * N) LONG_BITS iters tgt memory_order_relaxed _ M); [done..|lia|done|].
  intros V1 _. rewrite full_own, decide_True; [|lia|lia|intros; apply tgt_inj; [lia|done..]].
  rewrite long_range by nia.
  replace (Z.of_nat i + 1) with (Z.of_nat (S i)) by lia.
  replace (Z.of_nat i * iters + iters) with (Z.of_nat (S i) * iters) by lia. apply IH. lia.
Qed.

Lemma main_wp :
  wp 0%nat (main packed aligned (Z.of_nat N) iters) (fresh 0) vbot (fun v l _ =>
    map ev_args (filter (fun e => ev_fmt e = "  Total: %ld\n\n") (rev (l_out l))) =
      [[Z.of_nat N * iters]; [Z.of_nat N * iters]]).
Proof.
  assert (code_ok H CI) as Hcode by (apply atomic_code_ok; [done..|apply long_range; lia]).
  unfold main. rewrite Nat2Z.id. prog_simpl. wp_prints.
  apply wp_bind, wp_time_block; [apply _..|done|done|].
  apply (wp_create_join_more H CI N); [done|simpl; lia|done|done|..].
  { intros i Hi. simpl. unfold packed_worker, atomic_worker, tgt.
    rewrite decide_True by lia. by replace (Z.of_nat (S i) - 1) with (Z.of_nat i) by lia. }
  intros l1 V1 Hc1 Hj1 Hend1 Hl1 Ho1 _. simpl in Hc1, Hj1, Hl1, Ho1. split; [done|]. intros d1.
  apply wp_bind. apply (wp_sum 0%nat N N 0%nat); [done..| |lia|done| |].
  { intros u Hu. simpl. rewrite Hj1, elem_of_app, elem_of_reverse_rev, elem_of_seq. left. lia. }
  { intros j Hj. unfold tgt. rewrite decide_True by lia. f_equal. lia. }
  intros V2. prog_simpl. wp_prints.
  apply wp_bind, wp_time_block; [apply _..|done|done|].
  apply (wp_create_join_more H CI N); [done|simpl; lia|done|done|..].
  { intros i Hi. simpl. unfold aligned_worker, atomic_worker, tgt. rewrite Hc1, decide_False by lia.
    by replace (Z.of_nat (S (N + i)) - Z.of_nat N - 1) with (Z.of_nat i) by lia. }
  intros l3 V3 Hc3 Hj3 Hend3 Hl3 Ho3 _. simpl in Hc3, Hj3, Hl3, Ho3. split; [done|]. intros d2.
  apply wp_bind. apply (wp_sum N (N + N)%nat N 0%nat); [done|by rewrite <- Hl1|simpl; lia| |lia|done| |].
  { intros u Hu. simpl. rewrite Hj3, Hj1, Hc1, !elem_of_app, !elem_of_reverse_rev, !elem_of_seq. lia. }
  { intros j Hj. unfold tgt. rewrite decide_False by lia. f_equal. lia. }
  intros V4. prog_simpl. wp_prints. apply wp_ret. simpl. by rewrite Ho3, Ho1.
Qed.
End Totals.

Lemma cache_main_bounded packed aligned threads iterations :
  bounded (main packed aligned threads iterations).
Proof.
  assert (forall n counter i s, bounded (sum_from n counter i s)) as Hs.
  { induction n as [|n IH]; intros counter i s; cbn [sum_from]; auto 10 with ends. }
  unfold main, packed_worker, aligned_worker. auto 40 with ends.
Qed.

(** C14. No increment is lost, packed or aligned: on every execution of the
    program there is no data race and no undefined behaviour, every
    execution returns, and a run that returns has printed the two totals, each equal to threads times
    iterations. *)
Theorem cache_totals_exact packed aligned threads iterations C :
  fits INT_BITS threads iterations -> disjoint_arrays packed aligned threads ->
  reachable (main packed aligned threads iterations) C ->
  ~ faulty C /\ must_return C /\ forall v, returned C = Some v ->
    totals C = [[threads * iterations]; [threads * iterations]].
Proof.
  intros Hfit Hd Hr. destruct (fits_nat _ _ _ Hfit) as (N & -> & Hrange). destruct Hfit as (_ & Hi & _).
  destruct (harness_always _ _ _ C _ (cache_main_bounded packed aligned (Z.of_nat N) iterations) Hr (atomic_init _ _ _ Hi) (main_wp packed aligned N iterations Hi Hd Hrange))
    as (Hf & Hret & _ & Hq).
  split_all; [done..|]. intros v Hv. destruct (Hq v Hv) as (l & Hl & Hp & _). unfold totals. by rewrite Hp.
Qed.

Lemma cache_totals_exact_witness :
  (forall C v, reachable (main 4096 8192 NUM_THREADS ITERATIONS) C -> returned C = Some v ->
     totals C = [[40000000]; [40000000]]) /\
  let C := drive 1000 10 (start (main 4096 8192 3 2)) in
  returned C = Some 0 /\ totals C = [[6]; [6]].
Proof.
  split; [|split; vm_compute; reflexivity]. intros C v Hr.
  refine (proj2 (proj2 (cache_totals_exact 4096 8192 NUM_THREADS ITERATIONS C _ _ Hr)) v).
  - split; [done|split; [done|vm_compute; reflexivity]].
  - left. vm_compute. discriminate.
Defined.

(** C31. The layouts: two different aligned counters are never on the same
    cache line, wherever the array starts, so [calloc]'s weaker alignment does
    not bring false sharing back; the first two packed counters always share a
    line, as [calloc] aligns to 16. *)
Theorem cache_lines packed aligned i j :
  (i <> j -> cache_line (aligned_counter aligned i) <> cache_line (aligned_counter aligned j)) /\
  (packed mod 16 = 0 ->
     cache_line (packed_counter packed 0) = cache_line (packed_counter packed 1)).
Proof.
  unfold cache_line, aligned_counter, packed_counter, CACHE_LINE_SIZE.
  change sizeof_packed_counter_t with 8. change sizeof_aligned_counter_t with 64.
  split; intros Hne; Z.to_euclidean_division_equations; nia.
Qed.

Lemma cache_lines_witness :
  cache_line (aligned_counter 8208 0) <> cache_line (aligned_counter 8208 3) /\
  cache_line (packed_counter 4112 0) = cache_line (packed_counter 4112 1).
Proof.
  split; [apply (cache_lines 0 8208 0 3); lia|apply (cache_lines 4112 0 0 0); reflexivity].
Defined.
