(* ===== verification/Barrier.v ===== *)
(** * Exercise 06: a reusable barrier

    src/exercises/06_barriers/06_barriers.c: a barrier made of a mutex, a
    condition variable and a generation number, and a program whose threads
    meet at it in every phase. *)

From S2P Require Import Prelude Machine Logic Harness Lock Bench.

(** [#define NUM_THREADS 4], [#define NUM_PHASES 3] *)
Definition NUM_THREADS : Z := 4.
Definition NUM_PHASES : Z := 3.

(** ** The barrier *)

(** The fields of a [barrier_t]. *)
Definition b_mutex (barrier : loc) : loc := barrier.
Definition b_cond (barrier : loc) : loc := barrier + 40.
Definition b_count (barrier : loc) : loc := barrier + 88.
Definition b_threshold (barrier : loc) : loc := barrier + 92.
Definition b_serial (barrier : loc) : loc := barrier + 96.

Definition barrier_init (barrier : loc) (threshold : Z) : prog unit :=
  do_ (MutexInit (b_mutex barrier));;
  do_ (CondInit (b_cond barrier));;
  do_ (NaWrite (b_count barrier) 0);;
  do_ (NaWrite (b_threshold barrier) threshold);;
  do_ (NaWrite (b_serial barrier) 0).

Definition barrier_destroy (barrier : loc) : prog unit :=
  do_ (MutexDestroy (b_mutex barrier));;
  do_ (CondDestroy (b_cond barrier)).

(** Waiting unlocks the mutex and blocks in one step; the thread goes on when
    it has been woken (or spuriously) and has got the mutex again. *)
Definition pthread_cond_wait (cond mutex : loc) : prog unit :=
  do_ (CondEnter cond mutex);;
  do_ (CondWake cond mutex).

Definition barrier_wait (barrier : loc) : prog unit :=
  pthread_mutex_lock (b_mutex barrier);;
  my_serial ← perform (NaRead (b_serial barrier));
  incr INT_BITS (b_count barrier);;
  count ← perform (NaRead (b_count barrier));
  threshold ← perform (NaRead (b_threshold barrier));
  (if count =? threshold then
     do_ (NaWrite (b_count barrier) 0);;
     incr INT_BITS (b_serial barrier);;
     do_ (CondBroadcast (b_cond barrier))
   else
     while_ (serial ← perform (NaRead (b_serial barrier)); Ret (my_serial =? serial))
       (pthread_cond_wait (b_cond barrier) (b_mutex barrier)));;
  pthread_mutex_unlock (b_mutex barrier).

(** ** The program *)

(** The fields of a [thread_arg_t]. *)
Definition arg_id (targ : loc) : loc := targ.
Definition arg_barrier (targ : loc) : loc := targ + 8.

Definition starting : string := "Thread %d: starting phase %d\n".
Definition waiting : string := "Thread %d: waiting at barrier (phase %d)\n".
Definition passed : string := "Thread %d: passed barrier (phase %d)\n".

(** [usleep(100000 * (targ->id + 1))] *)
Definition nap (id : Z) : prog unit :=
  if in_range INT_BITS (id + 1) && in_range INT_BITS (100000 * (id + 1))
  then do_ Pause else do_ Undefined.

Definition worker (phases : Z) (targ : loc) : prog Z :=
  for_ phases (fun phase =>
    id ← perform (NaRead (arg_id targ));
    printf starting [id; phase];;
    id ← perform (NaRead (arg_id targ));
    nap id;;
    id ← perform (NaRead (arg_id targ));
    printf waiting [id; phase];;
    barrier ← perform (NaRead (arg_barrier targ));
    barrier_wait barrier;;
    id ← perform (NaRead (arg_id targ));
    printf passed [id; phase]);;
  Ret 0.

(** The locals of [main]: the barrier and the array of arguments. *)
Definition the_barrier : loc := 1024.
Definition args (i : Z) : loc := 2048 + 16 * i.

Fixpoint create_workers (phases : Z) (n : nat) (i : Z) : prog (list Z) :=
  match n with
  | O => Ret []
  | S n =>
      do_ (NaWrite (arg_id (args i)) i);;
      do_ (NaWrite (arg_barrier (args i)) the_barrier);;
      t ← pthread_create (worker phases (args i));
      ts ← create_workers phases n (i + 1);
      Ret (t :: ts)
  end.

Definition main (threads phases : Z) : prog Z :=
  puts ["=== Barrier Synchronization ===\n"];;
  printf "Threads: %d, Phases: %d\n\n" [threads; phases];;
  barrier_init the_barrier threads;;
  TIME_BLOCK "Multi-phase execution with barriers" (
    ts ← create_workers phases (Z.to_nat threads) 0;
    join_threads ts);;
  barrier_destroy the_barrier;;
  puts ["\nKey insights:\n";
        "1. Barriers synchronize threads at phase boundaries\n";
        "2. Serial number (epoch) allows barrier reuse\n";
        "3. Last thread wakes all others with broadcast\n";
        "4. pthread_barrier_t uses similar implementation\n"];;
  Ret 0.

(** ** Specification *)

(** Thread [i] of the program is thread [S i] of the machine. *)
Definition says (fmt : string) (i phase : nat) : event :=
  Event (S i) fmt [Z.of_nat i; Z.of_nat phase].

(** The barrier's contract, on the output (latest line first): below every
    line by which a thread says that it has passed a phase are the lines by
    which all [N] threads have said that they wait at that phase. *)
Definition synchronized (N : nat) (out : list event) : Prop :=
  forall l1 l2 i p, out = l1 ++ says passed i p :: l2 ->
    forall j, (j < N)%nat -> says waiting j p ∈ l2.

(** The lines of one thread in one phase, and in all of them. *)
Definition phase_log (i p : nat) : list event :=
  [says starting i p; says waiting i p; says passed i p].
Definition worker_log (phases i : nat) : list event := flat_map (phase_log i) (seq 0 phases).

(** ** The invariant *)

(** Where a thread is with respect to the mutex: it does not hold it; it is
    between the two halves of [pthread_cond_wait]; it holds it and fewer than
    [N] threads have arrived; it also has read in [serial] that its generation
    is not over; it has read [count]; it has incremented [count] to a value;
    it is the last and has reset [count]; it has also incremented [serial],
    but not yet woken the others. *)
Inductive stage :=
  Out | Waiting | Held | Staying (s : Z) | Counting (v : Z) | Counted (v : Z) | Reset | Waking.
#[export] Instance stage_eq_dec : EqDecision stage.
Proof. solve_decision. Defined.

(** Ghost state. Of a worker: how often it has said that it waits, how often
    it has arrived (incremented [count]), whether it has not yet left since it
    arrived, and its stage. Of thread 0: whether it has set the threshold, how
    many threads it has created, and how many fields of the next thread's
    arguments it has written. *)
Record bst := Bst {
  g_said : nat; g_arr : nat; g_in : bool; g_st : stage;
  g_thr : bool; g_made : nat; g_prep : nat
}.

Definition bst_init : bst := Bst 0 0 false Out false 0 0.

Definition holding (s : stage) : bool := match s with Out | Waiting => false | _ => true end.

(** The number of threads that have arrived in the current generation. *)
Definition arrived (N : nat) (serial : Z) (x : tid -> bst) : Z :=
  sumn N (fun i => if Z.of_nat (g_arr (x (S i))) =? serial + 1 then 1 else 0).

(** [count], given [serial] and how many have arrived, by the holder's stage. *)
Definition stage_ok (N : nat) (s : stage) (count serial arr : Z) : Prop :=
  match s with
  | Out | Waiting => False
  | Held | Waking => count = arr /\ arr < Z.of_nat N
  | Staying v => (count = arr /\ arr < Z.of_nat N) /\ serial = v
  | Counting v => count = v /\ count = arr /\ arr < Z.of_nat N
  | Counted v => count = v /\ count = arr
  | Reset => count = 0 /\ arr = Z.of_nat N
  end.

Inductive field := Count | Threshold | Serial.
#[export] Instance field_eq_dec : EqDecision field.
Proof. solve_decision. Defined.

Definition addr (f : field) : loc :=
  match f with
  | Count => b_count the_barrier
  | Threshold => b_threshold the_barrier
  | Serial => b_serial the_barrier
  end.

(** The mutex and the condition variable; the accesses to the fields happen
    before whoever holds, or next takes, the mutex. *)
Record bar_lock (w : world) (x : tid -> bst) : Prop := {
  bl_hold : forall u, holding (g_st (x u)) = true <-> mowner (wmtx w (b_mutex the_barrier)) = Some u;
  bl_wait : forall u, u ∈ wcond w (b_cond the_barrier) -> g_st (x u) = Waiting;
  bl_seen : exists B, (forall u, (u < wn w)%nat -> B ⊑v wview w u) /\
    forall f e, e ∈ epochs (wcell w (addr f)) ->
      covers (B ⊔v match mowner (wmtx w (b_mutex the_barrier)) with
                   | None => mrel (wmtx w (b_mutex the_barrier))
                   | Some u => wview w u
                   end) e = true
}.

(** The stage of the holder of the mutex, or of the next one. *)
Definition holder_stage (o : option tid) (x : tid -> bst) : stage :=
  match o with None => Held | Some u => g_st (x u) end.

(** The generations, given the values of [count], [threshold] and [serial],
    the holder of the mutex and the threads [ws] that wait on the condition
    variable, which do so in the current generation, but between the last
    two steps of the thread that ends it. *)
Record bar_gen (N : nat) (count threshold serial : Z) (o : option tid) (ws : list tid)
    (x : tid -> bst) : Prop := {
  bg_thr : g_thr (x 0%nat) = true -> threshold = Z.of_nat N;
  bg_arr : forall i, (i < N)%nat -> 0 <= serial /\ serial <= Z.of_nat (g_arr (x (S i))) <= serial + 1;
  bg_left : forall i, (i < N)%nat -> g_in (x (S i)) = false -> Z.of_nat (g_arr (x (S i))) <= serial;
  bg_count : stage_ok N (holder_stage o x) count serial (arrived N serial x);
  bg_wake : forall u, u ∈ ws ->
    Z.of_nat (g_arr (x u)) = serial + 1 \/ holder_stage o x = Waking
}.

Definition gen (N : nat) (vals : field -> Z) (o : option tid) (ws : list tid) (x : tid -> bst) : Prop :=
  bar_gen N (vals Count) (vals Threshold) (vals Serial) o ws x.

(** The output. *)
Record bar_out (N phases : nat) (out : list event) (x : tid -> bst) : Prop := {
  bo_said : forall i, (i < N)%nat -> (g_arr (x (S i)) <= g_said (x (S i)) <= phases)%nat;
  bo_lines : forall i p, (i < N)%nat -> (p < g_said (x (S i)))%nat -> says waiting i p ∈ out;
  bo_sync : synchronized N out
}.

(** Thread 0 and the arguments it prepares. *)
Record bar_args (w : world) (x : tid -> bst) : Prop := {
  ba_main : g_st (x 0%nat) = Out;
  ba_made : (wn w <= S (g_made (x 0%nat)))%nat;
  ba_ready : (0 < g_made (x 0%nat))%nat -> g_thr (x 0%nat) = true;
  ba_args : forall i, (i < g_made (x 0%nat))%nat ->
    (nval (wcell w (arg_id (args (Z.of_nat i)))) = Z.of_nat i /\
     covers (wview w (S i)) (nwr (wcell w (arg_id (args (Z.of_nat i))))) = true) /\
    (nval (wcell w (arg_barrier (args (Z.of_nat i)))) = the_barrier /\
     covers (wview w (S i)) (nwr (wcell w (arg_barrier (args (Z.of_nat i))))) = true);
  ba_prep : ((0 < g_prep (x 0%nat))%nat ->
      nval (wcell w (arg_id (args (Z.of_nat (g_made (x 0%nat)))))) = Z.of_nat (g_made (x 0%nat))) /\
    ((1 < g_prep (x 0%nat))%nat ->
      nval (wcell w (arg_barrier (args (Z.of_nat (g_made (x 0%nat)))))) = the_barrier);
  ba_own : forall i e, (g_made (x 0%nat) <= i)%nat ->
    e ∈ epochs (wcell w (arg_id (args (Z.of_nat i)))) \/
    e ∈ epochs (wcell w (arg_barrier (args (Z.of_nat i)))) -> e.1 = 0%nat
}.

Record bar_inv (N phases : nat) (w : world) (x : tid -> bst) : Prop := {
  bi_lock : bar_lock w x;
  bi_gen : gen N (fun f => nval (wcell w (addr f))) (mowner (wmtx w (b_mutex the_barrier)))
    (wcond w (b_cond the_barrier)) x;
  bi_out : bar_out N phases (wout w) x;
  bi_args : bar_args w x
}.

(** ** Generations *)

(** Changes of a thread's ghost state. *)
Definition set_st (s : stage) (b : bst) : bst :=
  Bst (g_said b) (g_arr b) (g_in b) s (g_thr b) (g_made b) (g_prep b).
Definition arrive (s : stage) (b : bst) : bst :=
  Bst (g_said b) (S (g_arr b)) true s (g_thr b) (g_made b) (g_prep b).
Definition leave (s : stage) (b : bst) : bst :=
  Bst (g_said b) (g_arr b) false s (g_thr b) (g_made b) (g_prep b).
Definition speak (b : bst) : bst :=
  Bst (S (g_said b)) (g_arr b) (g_in b) (g_st b) (g_thr b) (g_made b) (g_prep b).

Lemma sumn_full n (f : nat -> Z) :
  (forall i, (i < n)%nat -> f i <= 1) -> sumn n f = Z.of_nat n -> forall i, (i < n)%nat -> f i = 1.
Proof.
  intros Hle Hs i Hi. pose proof (sumn_upd n f (<[i := 1]> f) i Hi ltac:(intros; by fn_simpl)) as Hu.
  rewrite fn_lookup_insert in Hu.
  assert (sumn n (<[i := 1]> f) <= Z.of_nat n * 1).
  { apply sumn_le. intros j Hj. specialize (Hle j Hj). fn_case; lia. }
  specialize (Hle i Hi). lia.
Qed.

Lemma arrived_ext N s x x' :
  (forall u, g_arr (x' u) = g_arr (x u)) -> arrived N s x' = arrived N s x.
Proof. intros Hx. apply sumn_ext. intros i _. by rewrite Hx. Qed.

Lemma arrived_bound N s x : 0 <= arrived N s x <= Z.of_nat N.
Proof.
  unfold arrived. split; [apply sumn_nonneg; intros; by case_match|].
  pose proof (sumn_le N (fun i => if Z.of_nat (g_arr (x (S i))) =? s + 1 then 1 else 0) 1
    ltac:(intros; cbv beta; case_match; lia)). lia.
Qed.

Lemma arrived_all N s x i :
  arrived N s x = Z.of_nat N -> (i < N)%nat -> Z.of_nat (g_arr (x (S i))) = s + 1.
Proof.
  intros Ha Hi. apply sumn_full with (i := i) in Ha; [|intros j _; cbv beta; case_match; lia|done].
  cbv beta in Ha. case_match; lia.
Qed.

Section Generations.
Context (N : nat) (c th s : Z) (x : tid -> bst) (i : nat).
Hypothesis Hi : (i < N)%nat.
Local Abbreviation t := (S i).

(** A change of a thread's ghost state that keeps what has arrived. *)
Lemma gen_keep c' o o' ws ws' y :
  bar_gen N c th s o ws x -> g_arr y = g_arr (x t) ->
  (g_in y = false -> g_in (x t) = false \/ Z.of_nat (g_arr y) <= s) ->
  stage_ok N (holder_stage o' (<[t := y]> x)) c' s (arrived N s x) ->
  (forall u, u ∈ ws' -> u ∈ ws /\ holder_stage o x <> Waking \/
     u = t /\ Z.of_nat (g_arr y) = s + 1) ->
  bar_gen N c' th s o' ws' (<[t := y]> x).
Proof.
  intros [Ht Ha Hl _ Hw] Hy Hin Hst Hw'.
  assert (forall u, g_arr (<[t := y]> x u) = g_arr (x u)) as Harr by (intros u; by fn_case).
  split; [by fn_simpl|intros j Hj; rewrite Harr; by apply Ha| |by rewrite (arrived_ext _ _ x)|].
  - intros j Hj. rewrite Harr. destruct (decide (j = i)) as [->|]; fn_simpl; [|by apply Hl].
    intros Hf. destruct (Hin Hf) as [|Hle]; [by apply Hl|by rewrite Hy in Hle].
  - intros u Hu. left. rewrite Harr. destruct (Hw' u Hu) as [[Hu' Hne]|[-> E]]; [|by rewrite <- Hy].
    by destruct (Hw u Hu').
Qed.

(** Outside the barrier, a thread has arrived as often as generations have
    ended; inside, once more. *)
Lemma gen_serial_out o ws : bar_gen N c th s o ws x -> g_in (x t) = false -> s = Z.of_nat (g_arr (x t)).
Proof. intros [_ Ha Hl _ _] Hin. specialize (Ha i Hi). specialize (Hl i Hi Hin). lia. Qed.

Lemma gen_arrive v ws :
  bar_gen N c th s (Some t) ws x -> g_in (x t) = false -> g_st (x t) = Counting v ->
  bar_gen N (v + 1) th s (Some t) ws (<[t := arrive (Counted (v + 1)) (x t)]> x).
Proof.
  intros Hg Hin Hst. pose proof (gen_serial_out _ _ Hg Hin) as Hs. destruct Hg as [Ht Ha Hl Hc Hw].
  simpl in Hc, Hw. rewrite Hst in Hc, Hw. destruct Hc as (-> & Hc & Hlt). split; [by fn_simpl|..].
  - intros j Hj. destruct (decide (j = i)) as [->|]; fn_simpl; [simpl; lia|by apply Ha].
  - intros j Hj. destruct (decide (j = i)) as [->|]; fn_simpl; [done|by apply Hl].
  - simpl. fn_simpl. simpl. split; [done|]. unfold arrived.
    rewrite (sumn_upd N (fun j => if Z.of_nat (g_arr (x (S j))) =? s + 1 then 1 else 0) _ i);
      [|done|intros j Hj; by fn_simpl]. fn_simpl. unfold arrived in Hc. rewrite Hc. cbn [arrive g_arr].
    rewrite (proj2 (Z.eqb_eq _ _)) by lia. rewrite (proj2 (Z.eqb_neq _ _)) by lia. lia.
  - intros u Hu. left. destruct (Hw u Hu) as [E|]; [|done]. fn_case; [lia|done].
Qed.

(** The last thread starts the next generation. *)
Lemma gen_next ws :
  bar_gen N c th s (Some t) ws x -> g_st (x t) = Reset ->
  s + 1 = Z.of_nat (g_arr (x t)) /\
  bar_gen N c th (s + 1) (Some t) ws (<[t := leave Waking (x t)]> x).
Proof.
  intros [Ht Ha Hl Hc _] Hst. simpl in Hc. rewrite Hst in Hc. destruct Hc as [-> Hall].
  pose proof (fun j => arrived_all N s x j Hall) as Heq.
  assert (forall u, g_arr (<[t := leave Waking (x t)]> x u) = g_arr (x u)) as Harr by (intros u; by fn_case).
  split; [by rewrite Heq|]. split; [by fn_simpl|intros j Hj; specialize (Ha j Hj); rewrite Harr, Heq by done; lia..| |].
  2:{ intros u _. right. simpl. by fn_simpl. }
  simpl. fn_simpl. simpl. rewrite (arrived_ext _ _ x) by done.
  assert (arrived N (s + 1) x = 0) as ->; [|lia]. unfold arrived. rewrite (sumn_const _ _ 0); [lia|].
  intros j Hj. rewrite (proj2 (Z.eqb_neq _ _)); [done|]. rewrite Heq by done. lia.
Qed.
End Generations.

(** ** Frames *)

Lemma args_frame w w' x x' :
  wn w' = wn w -> (forall u, wview w u ⊑v wview w' u) ->
  (forall i, wcell w' (arg_id (args (Z.of_nat i))) = wcell w (arg_id (args (Z.of_nat i)))) ->
  (forall i, wcell w' (arg_barrier (args (Z.of_nat i))) = wcell w (arg_barrier (args (Z.of_nat i)))) ->
  x' 0%nat = x 0%nat -> bar_args w x -> bar_args w' x'.
Proof.
  intros Hn Hv Hi Hb Hx [H0 Hm Hr Ha Hp Ho].
  split; rewrite ?Hx, ?Hn; try done; [|by rewrite Hi, Hb|intros i e; rewrite Hi, Hb; apply Ho].
  intros i Hlt. rewrite Hi, Hb. destruct (Ha i Hlt) as [[H1 H2] [H3 H4]].
  split; (split; [done|]); by eapply covers_mono; [apply Hv|].
Qed.

Lemma addr_arg f i : addr f <> arg_id (args i) /\ addr f <> arg_barrier (args i) \/ i < 0.
Proof.
  unfold addr, arg_id, arg_barrier, args, b_count, b_threshold, b_serial, the_barrier. destruct f; lia.
Qed.

Lemma out_frame N phases out x x' :
  (forall u, g_said (x' u) = g_said (x u)) -> (forall u, (g_arr (x' u) <= g_said (x' u))%nat \/ g_arr (x' u) = g_arr (x u)) ->
  bar_out N phases out x -> bar_out N phases out x'.
Proof.
  intros Hs Ha [H1 H2 H3]. split; [|by intros i p; rewrite Hs; apply H2|done].
  intros i Hi. specialize (H1 i Hi). destruct (Ha (S i)) as [|E]; rewrite Hs in *; rewrite ?E; lia.
Qed.

Lemma addr_inj f f' : addr f = addr f' -> f = f'.
Proof. destruct f, f'; try done; intros E; exfalso; compute in E; lia. Qed.

Lemma gen_ext N vals vals' o ws x :
  (forall f, vals f = vals' f) -> gen N vals o ws x -> gen N vals' o ws x.
Proof. intros Hv. unfold gen. by rewrite !Hv. Qed.

Lemma gen_same N vals o ws x x' : (forall u, x u = x' u) -> gen N vals o ws x -> gen N vals o ws x'.
Proof.
  intros Hx [G1 G2 G3 G4 G5]. assert (holder_stage o x' = holder_stage o x) as Hst
    by (destruct o; simpl; [by rewrite Hx|done]).
  split; rewrite ?Hst.
  - rewrite <- Hx. done.
  - intros i. rewrite <- Hx. apply G2.
  - intros i. rewrite <- Hx. apply G3.
  - by rewrite (arrived_ext _ _ x) by (intros; by rewrite Hx).
  - intros u. rewrite <- Hx. apply G5.
Qed.

Lemma gen_holder N vals t ws x b :
  gen N vals (Some t) ws x -> x t = b ->
  stage_ok N (g_st b) (vals Count) (vals Serial) (arrived N (vals Serial) x).
Proof. intros [_ _ _ Hc _] <-. exact Hc. Qed.

Definition bar_final (phases : nat) (u : tid) (v : Z) (out : list event) (y : bst) : Prop :=
  exists i, u = S i /\ rev out = worker_log phases i /\ g_st y = Out /\
    g_arr y = phases /\ g_in y = false.

(** A thread can get on when it holds the mutex, or when the mutex is free
    and, if the thread waits, its generation has ended. *)
Definition bar_ready (t : tid) (w : world) (x : tid -> bst) : Prop :=
  mowner (wmtx w (b_mutex the_barrier)) = Some t \/
  mowner (wmtx w (b_mutex the_barrier)) = None /\
  (g_st (x t) = Waiting -> Z.of_nat (g_arr (x t)) <= nval (wcell w (addr Serial))).

Definition bar_harness (N phases : nat) : harness bst :=
  Harness N (fun i => worker (Z.of_nat phases) (args (Z.of_nat i))) (fun _ => bst_init)
    (bar_final phases) (fun _ => True) bar_ready (fun n => n =? N)%nat.

Section BarrierRules.
Context (N phases : nat).
Local Abbreviation H := (bar_harness N phases).
Local Abbreviation CI := (bar_inv N phases).
Local Abbreviation wp := (wp (hlogic H CI)).
Local Abbreviation M := (b_mutex the_barrier).

#[export] Instance bar_client : Client CI.
Proof.
  intros w w' x x' Hg Hn Hx [Hl Hge Ho Ha]. destruct Hg as [Hv Hh Hc Hm Hcv Hrw Hout _ _].
  assert (wmtx w' M = wmtx w M) as HM by (apply Hm; tauto). split.
  - destruct Hl as [H1 H2 (B & HB & Hcov)]. split; rewrite ?HM, ?Hcv, ?Hc.
    + intros u. rewrite <- Hx. apply H1.
    + intros u. rewrite <- Hx. apply H2.
    + exists B. split; [intros u Hu; rewrite Hn in Hu; etrans; [by apply HB|apply Hv]|].
      intros f e He. eapply covers_mono; [|by eapply Hcov]. apply vjoin_proper; [done|].
      destruct (mowner (wmtx w M)); [apply Hv|done].
  - rewrite HM, Hc, Hcv. by eapply gen_same.
  - rewrite Hout. eapply out_frame; [..|exact Ho]; intros u; rewrite <- Hx; [done|by right].
  - eapply args_frame; [done|done| | |by rewrite Hx|exact Ha]; intros; by rewrite Hc.
Qed.

(** The holder of the mutex has observed all accesses to the fields. *)
Lemma holder_sees t w x f e :
  bar_lock w x -> holding (g_st (x t)) = true -> (t < wn w)%nat ->
  e ∈ epochs (wcell w (addr f)) -> covers (wview w t) e = true.
Proof.
  intros [Hh _ (B & HB & Hc)] Ht Hlt He. apply Hh in Ht.
  eapply covers_mono; [|by eapply Hc]. rewrite Ht. intros k. specialize (HB t Hlt k). unfold vjoin. lia.
Qed.

(** The holder accesses a field. *)
Lemma lock_access t w x f c V y :
  bar_lock w x -> holding (g_st (x t)) = true -> holding (g_st y) = true -> (t < wn w)%nat ->
  wview w t ⊑v V -> (forall e, e ∈ epochs c -> covers V e = true) ->
  bar_lock (set_cell (addr f) c (set_view t V w)) (<[t := y]> x).
Proof.
  intros Hl Ht Hy Hlt HV Hc. pose proof (fun f e => holder_sees t w x f e Hl Ht Hlt) as Hsee.
  destruct Hl as [Hh Hw (B & HB & _)]. pose proof Ht as Ho. apply Hh in Ho. split; simpl.
  - intros u. rewrite <- Hh. fn_case; [|done]. by rewrite Ht, Hy.
  - intros u Hu. specialize (Hw u Hu). fn_case; [|done]. by rewrite Hw in Ht.
  - exists B. split; [intros u Hu; specialize (HB u Hu); fn_case; [by etrans|done]|].
    rewrite Ho. fn_simpl. intros f' e. fn_case; intros He; (eapply covers_mono; [apply vjoin_r|]).
    + by apply Hc.
    + eapply covers_mono; [exact HV|by eapply Hsee].
Qed.

(** The ghost state a worker may go to while it holds the mutex. *)
Definition may_go (b b' : bst) : Prop :=
  holding (g_st b') = true /\ g_said b' = g_said b /\
  ((g_arr b' <= g_said b')%nat \/ g_arr b' = g_arr b).

Lemma field_step i w x f c V b' :
  CI w x -> holding (g_st (x (S i))) = true -> (S i < wn w)%nat -> may_go (x (S i)) b' ->
  wview w (S i) ⊑v V -> (forall e, e ∈ epochs c -> covers V e = true) ->
  gen N (<[f := nval c]> (fun f => nval (wcell w (addr f)))) (Some (S i))
    (wcond w (b_cond the_barrier)) (<[S i := b']> x) ->
  CI (set_cell (addr f) c (set_view (S i) V w)) (<[S i := b']> x).
Proof.
  intros [Hl _ Ho Ha] Hh Hlt (Hh' & Hs & Harr) HV Hc Hg. split.
  - by apply lock_access.
  - simpl. rewrite (proj1 (bl_hold _ _ Hl (S i)) Hh). eapply gen_ext; [|exact Hg]. intros f'. simpl.
    destruct (decide (f = f')) as [->|Hne]; [by fn_simpl|].
    rewrite !fn_lookup_insert_ne by (done || (intros E; by apply Hne, addr_inj)). done.
  - eapply out_frame; [..|exact Ho]; intros u; fn_case; auto.
  - eapply args_frame; [..|exact Ha]; simpl; try done.
    + intros u. by fn_case.
    + intros j. destruct (addr_arg f (Z.of_nat j)) as [[H1 H2]|]; [by fn_simpl|lia].
    + intros j. destruct (addr_arg f (Z.of_nat j)) as [[H1 H2]|]; [by fn_simpl|lia].
Qed.

Lemma worker_thr i l V w x : hfacts H CI (S i) l V w x -> g_thr (x 0%nat) = true.
Proof.
  intros Hf. destruct (bi_args _ _ _ _ (hf_ci Hf)) as [_ Hm Hr _ _ _]. apply Hr.
  pose proof (hf_lt Hf). lia.
Qed.

Lemma worker_lt i l V w x : hfacts H CI (S i) l V w x -> (i < N)%nat.
Proof. intros Hf. pose proof (hf_lt Hf). pose proof (hf_max Hf). simpl in *. lia. Qed.

Lemma wp_hold_read {A} i f l V (k : Z -> prog A) Q :
  l_end l = false -> holding (g_st (l_w l)) = true ->
  (forall vals ws x, (i < N)%nat -> gen N vals (Some (S i)) ws x -> x (S i) = l_w l -> g_thr (x 0%nat) = true ->
     exists b', may_go (l_w l) b' /\ gen N vals (Some (S i)) ws (<[S i := b']> x) /\
       forall V', wp (S i) (k (vals f)) (upd_w l b') V' Q) ->
  wp (S i) (Op (NaRead (addr f)) k) l V Q.
Proof.
  intros Hend Hh Hk. apply wp_client; [apply _|done..|]. intros w x c Hf. simpl.
  pose proof (hf_ci Hf) as Hci. destruct Hci as [Hl Hg Ho Ha]. pose proof (hf_lt Hf) as Hlt.
  assert (holding (g_st (x (S i))) = true) as Hhx by (by rewrite (hf_me Hf)).
  rewrite na_read_ok by (intros e; by eapply holder_sees).
  rewrite (proj1 (bl_hold _ _ Hl (S i)) Hhx) in Hg.
  destruct (Hk _ _ _ (worker_lt _ _ _ _ _ Hf) Hg (hf_me Hf) (worker_thr _ _ _ _ _ Hf)) as (b' & Hb & Hg' & Hw).
  exists b'. split; [|simpl; fn_simpl; apply Hw].
  apply field_step; [apply Hf|done|done|by rewrite (hf_me Hf)|auto with workshop|..].
  - intros e [->|He]%epochs_read; [by apply covers_tick|].
    eapply covers_mono; [apply tick_le|by eapply holder_sees].
  - eapply gen_ext; [|exact Hg']. intros f'. simpl. by fn_case.
Qed.

Lemma wp_hold_write {A} i f v l V (k : Z -> prog A) Q :
  l_end l = false -> holding (g_st (l_w l)) = true ->
  (forall vals ws x, (i < N)%nat -> gen N vals (Some (S i)) ws x -> x (S i) = l_w l ->
     exists b', may_go (l_w l) b' /\ gen N (<[f := v]> vals) (Some (S i)) ws (<[S i := b']> x) /\
       forall V', wp (S i) (k 0) (upd_w l b') V' Q) ->
  wp (S i) (Op (NaWrite (addr f) v) k) l V Q.
Proof.
  intros Hend Hh Hk. apply wp_client; [apply _|done..|]. intros w x c Hf. simpl.
  pose proof (hf_ci Hf) as Hci. destruct Hci as [Hl Hg Ho Ha]. pose proof (hf_lt Hf) as Hlt.
  assert (holding (g_st (x (S i))) = true) as Hhx by (by rewrite (hf_me Hf)).
  rewrite na_write_ok by (intros e; by eapply holder_sees).
  rewrite (proj1 (bl_hold _ _ Hl (S i)) Hhx) in Hg.
  destruct (Hk _ _ _ (worker_lt _ _ _ _ _ Hf) Hg (hf_me Hf)) as (b' & Hb & Hg' & Hw).
  exists b'. split; [|simpl; fn_simpl; apply Hw].
  apply field_step; [apply Hf|done|done|by rewrite (hf_me Hf)|auto with workshop| |done].
  intros e ->%epochs_write. by apply covers_tick.
Qed.

(** What the next holder of the mutex will have observed. *)
Definition handed (w : world) : view :=
  match mowner (wmtx w M) with None => mrel (wmtx w M) | Some u => wview w u end.

(** A step on the mutex or on the condition variable. *)
Lemma mutex_step i w w' x y :
  CI w x -> wcell w' = wcell w -> wn w' = wn w -> wout w' = wout w ->
  (forall u, wview w u ⊑v wview w' u) -> handed w ⊑v handed w' ->
  (forall u, u ∈ wcond w' (b_cond the_barrier) -> g_st (<[S i := y]> x u) = Waiting) ->
  (forall u, holding (g_st (<[S i := y]> x u)) = true <-> mowner (wmtx w' M) = Some u) ->
  g_said y = g_said (x (S i)) -> g_arr y = g_arr (x (S i)) ->
  gen N (fun f => nval (wcell w (addr f))) (mowner (wmtx w' M)) (wcond w' (b_cond the_barrier))
    (<[S i := y]> x) ->
  CI w' (<[S i := y]> x).
Proof.
  intros [[Hh Hw (B & HB & Hc)] _ Ho Ha] Ecell En Eout Hv Hhand Hw' Hh' Hs Harr Hg. split.
  - split; [done|done|]. exists B. split; [intros u Hu; rewrite En in Hu; etrans; [by apply HB|apply Hv]|].
    intros f e He. rewrite Ecell in He. eapply covers_mono; [|by eapply Hc].
    by apply vjoin_proper.
  - by rewrite Ecell.
  - rewrite Eout. eapply out_frame; [..|exact Ho]; intros u; fn_case; auto.
  - eapply args_frame; [done|done| | | |exact Ha]; [by intros; rewrite Ecell..|done].
Qed.

(** The ghost state of a thread that gets the mutex: as before, or, if its
    generation has ended, with the note that it leaves. *)
Definition takes (serial : Z) (b b' : bst) : Prop :=
  b' = set_st Held b \/ b' = leave Held b /\ Z.of_nat (g_arr b) <= serial.

Lemma takes_keeps s b b' :
  takes s b b' -> g_said b' = g_said b /\ g_arr b' = g_arr b /\ g_st b' = Held /\
    (g_in b' = false -> g_in b = false \/ Z.of_nat (g_arr b) <= s).
Proof. intros [->|[-> Hle]]; split_all; try done; [by left|by right]. Qed.

Lemma gen_take i vals ws ws' x b' :
  (i < N)%nat -> gen N vals None ws x -> (forall u, u ∈ ws' -> u ∈ ws) ->
  takes (vals Serial) (x (S i)) b' -> gen N vals (Some (S i)) ws' (<[S i := b']> x).
Proof.
  intros Hi Hg Hw (_ & Ha & Hs & Hin)%takes_keeps. eapply gen_keep; [done|exact Hg|done|by rewrite Ha| |].
  - simpl. fn_simpl. rewrite Hs. apply Hg.
  - intros u Hu. left. split; [by apply Hw|done].
Qed.

Lemma gen_release i vals ws ws' x s :
  (i < N)%nat -> gen N vals (Some (S i)) ws x ->
  g_st (x (S i)) = Held \/ g_st (x (S i)) = Staying (Z.of_nat (g_arr (x (S i))) - 1) ->
  (forall u, u ∈ ws' -> u ∈ ws \/ u = S i /\ g_st (x (S i)) <> Held) ->
  gen N vals None ws' (<[S i := set_st s (x (S i))]> x).
Proof.
  intros Hi Hg Hst Hw. pose proof Hg as [_ _ _ Hc _]. simpl in Hc.
  eapply gen_keep; [done|exact Hg|done|by left| |].
  - simpl. destruct Hst as [E|E]; rewrite E in Hc; [done|by destruct Hc].
  - intros u Hu. destruct (Hw u Hu) as [Hu'|[-> Hne]].
    + left. split; [done|]. simpl. by destruct Hst as [E|E]; rewrite E.
    + right. split; [done|]. destruct Hst as [|E]; [done|]. rewrite E in Hc. simpl in *. lia.
Qed.

(** Taking the mutex, from a world in which it is free. *)
Lemma take_ok i w w' x l V b' :
  hfacts H CI (S i) l V w x -> mowner (wmtx w M) = None ->
  takes (nval (wcell w (addr Serial))) (l_w l) b' ->
  wcell w' = wcell w -> wn w' = wn w -> wout w' = wout w ->
  wview w' = <[S i := wview w (S i) ⊔v mrel (wmtx w M)]> (wview w) ->
  wmtx w' M = Mutex (Some (S i)) (mrel (wmtx w M)) ->
  (forall u, u ∈ wcond w' (b_cond the_barrier) -> u <> S i /\ u ∈ wcond w (b_cond the_barrier)) ->
  CI w' (<[S i := b']> x).
Proof.
  intros Hf Hfree Htk Ec En Eo Ev Em Ew. rewrite <- (hf_me Hf) in Htk.
  pose proof (takes_keeps _ _ _ Htk) as (Hsaid & Harr & Hst & _). pose proof (hf_ci Hf) as Hci.
  destruct Hci as [[Hh Hw _] Hg _ _].
  assert (forall u, holding (g_st (x u)) = false) as Hno.
  { intros u. destruct (holding (g_st (x u))) eqn:E; [|done]. apply Hh in E. congruence. }
  eapply mutex_step; [apply Hf|done..| | | | |done|done|].
  - intros u. rewrite Ev. fn_case; [auto with workshop|done].
  - unfold handed. rewrite Hfree, Em, Ev. simpl. fn_simpl. auto with workshop.
  - intros u [Hne Hu]%Ew. fn_simpl. by apply Hw.
  - intros u. rewrite Em. simpl. fn_case; [by rewrite Hst|]. rewrite Hno. split; congruence.
  - rewrite Em, Hfree in *. eapply gen_take; [by eapply worker_lt|exact Hg| |done]. intros u Hu. by apply Ew.
Qed.

(** Giving the mutex back. *)
Lemma release_ok i w w' x l V s :
  hfacts H CI (S i) l V w x ->
  g_st (l_w l) = Held /\ s = Out \/
    g_st (l_w l) = Staying (Z.of_nat (g_arr (l_w l)) - 1) /\ s = Waiting ->
  wcell w' = wcell w -> wn w' = wn w -> wout w' = wout w -> wview w' = wview w ->
  wmtx w' M = Mutex None (wview w (S i)) ->
  (forall u, u ∈ wcond w' (b_cond the_barrier) ->
     u = S i /\ s = Waiting \/ u ∈ wcond w (b_cond the_barrier)) ->
  CI w' (<[S i := set_st s (l_w l)]> x).
Proof.
  intros Hf Hst Ec En Eo Ev Em Ew. rewrite <- (hf_me Hf). rewrite <- (hf_me Hf) in Hst.
  pose proof (hf_ci Hf) as Hci. destruct Hci as [[Hh Hw _] Hg _ _].
  assert (holding (g_st (x (S i))) = true) as Hhold by (by destruct Hst as [[-> _]|[-> _]]).
  assert (holding s = false) as Hs by (by destruct Hst as [[_ ->]|[_ ->]]).
  assert (mowner (wmtx w M) = Some (S i)) as Hown by (by apply Hh).
  eapply mutex_step; [apply Hf|done..| | | | |done|done|].
  - intros u. by rewrite Ev.
  - unfold handed. by rewrite Hown, Em.
  - intros u Hu. destruct (Ew u Hu) as [[-> ->]|Hu']; [by fn_simpl|]. specialize (Hw u Hu').
    fn_case; [by rewrite Hw in Hhold|done].
  - intros u. rewrite Em. simpl. fn_case; [simpl; rewrite Hs; split; congruence|]. rewrite Hh, Hown.
    split; congruence.
  - rewrite Em, Hown in *. eapply gen_release; [by eapply worker_lt|exact Hg|destruct Hst as [[]|[]]; auto|].
    intros u Hu. destruct (Ew u Hu) as [[-> ->]|]; [right|by left]. split; [done|].
    destruct Hst as [[_ ?]|[-> _]]; done.
Qed.

(** A ready thread that does not hold the mutex finds it free. *)
Lemma ready_free i l V w x :
  hfacts H CI (S i) l V w x -> ready_for H (S i) w x -> holding (g_st (l_w l)) = false ->
  mowner (wmtx w M) = None.
Proof.
  intros Hf [Ho|[]] Hh; [|done]. apply (bi_lock _ _ _ _ (hf_ci Hf)) in Ho. rewrite (hf_me Hf) in Ho. congruence.
Qed.

Lemma wp_bar_lock {A} i l V (k : Z -> prog A) Q :
  l_end l = false -> g_st (l_w l) = Out ->
  (forall V', wp (S i) (k 0) (upd_w l (set_st Held (l_w l))) V' Q) ->
  wp (S i) (Op (MutexLock M) k) l V Q.
Proof.
  intros Hend Hst Hk. apply wp_client_wait; [apply _|done..| |].
  2:{ intros w x Hf Hr. exists (Choice 0 false 0). split; [done|]. simpl. unfold do_lock.
      by rewrite (ready_free _ _ _ _ _ Hf Hr) by (by rewrite Hst). }
  intros w x c Hf. simpl. unfold do_lock.
  destruct (mowner (wmtx w M)) eqn:E; [done|]. eexists. split; [|apply Hk].
  eapply take_ok; [exact Hf|done|by left|done..|by simpl; fn_simpl|]. simpl. intros u Hu. split; [|done]. intros ->.
  pose proof (bl_wait _ _ (bi_lock _ _ _ _ (hf_ci Hf)) _ Hu) as Hw. rewrite (hf_me Hf) in Hw. congruence.
Qed.

Lemma wp_bar_unlock {A} i l V (k : Z -> prog A) Q :
  l_end l = false -> g_st (l_w l) = Held ->
  (forall V', wp (S i) (k 0) (upd_w l (set_st Out (l_w l))) V' Q) ->
  wp (S i) (Op (MutexUnlock M) k) l V Q.
Proof.
  intros Hend Hst Hk. apply wp_client; [apply _|done..|]. intros w x c Hf. simpl. unfold do_unlock.
  assert (mowner (wmtx w M) = Some (S i)) as Hown.
  { apply (bi_lock _ _ _ _ (hf_ci Hf)). by rewrite (hf_me Hf), Hst. }
  rewrite decide_True by done. eexists. split; [|apply Hk].
  eapply release_ok; [exact Hf|by left|done..|by simpl; fn_simpl|]. by right.
Qed.

(** The first half of waiting on the condition variable. *)
Lemma wp_cond_enter {A} i l V (k : Z -> prog A) Q :
  l_end l = false -> g_st (l_w l) = Staying (Z.of_nat (g_arr (l_w l)) - 1) ->
  (forall V', wp (S i) (k 0) (upd_w l (set_st Waiting (l_w l))) V' Q) ->
  wp (S i) (Op (CondEnter (b_cond the_barrier) M) k) l V Q.
Proof.
  intros Hend Hst Hk. apply wp_client; [apply _|done..|]. intros w x c Hf. simpl.
  unfold do_cond_enter, do_unlock.
  assert (mowner (wmtx w M) = Some (S i)) as Hown.
  { apply (bi_lock _ _ _ _ (hf_ci Hf)). by rewrite (hf_me Hf), Hst. }
  rewrite decide_True by done. exists (set_st Waiting (l_w l)). split; [|apply Hk].
  eapply release_ok; [exact Hf|by right|done..|by simpl; fn_simpl|]. simpl. fn_simpl.
  intros u [->|Hu]%elem_of_cons; [by left|by right].
Qed.

(** A waiting thread that is ready has been woken. *)
Lemma ready_woken i l V w x :
  hfacts H CI (S i) l V w x -> ready_for H (S i) w x -> g_st (l_w l) = Waiting ->
  (S i ∉ wcond w (b_cond the_barrier)) /\ Z.of_nat (g_arr (l_w l)) <= nval (wcell w (addr Serial)).
Proof.
  intros Hf Hr Hst. pose proof (ready_free _ _ _ _ _ Hf Hr ltac:(by rewrite Hst)) as Ho.
  assert (Z.of_nat (g_arr (l_w l)) <= nval (wcell w (addr Serial))) as Hle.
  { destruct Hr as [|[_ Hr]]; [congruence|]. rewrite (hf_me Hf) in Hr. by apply Hr. }
  split; [|done]. intros Hin. pose proof (bi_gen _ _ _ _ (hf_ci Hf)) as Hg. rewrite Ho in Hg.
  destruct (bg_wake _ _ _ _ _ _ _ Hg _ Hin) as [E|]; [|done]. rewrite (hf_me Hf) in E. cbv beta in E. lia.
Qed.

(** The second half: the thread takes the mutex again. *)
Lemma wake_ok i l V w x c r w' b' :
  hfacts H CI (S i) l V w x -> takes (nval (wcell w (addr Serial))) (l_w l) b' ->
  exec c (S i) (CondWake (b_cond the_barrier) M) w = Done r w' ->
  r = 0 /\ CI w' (<[S i := b']> x).
Proof.
  intros Hf Htk. simpl. unfold do_cond_wake, do_lock. destruct (cspur c || _); [|done].
  destruct (mowner (wmtx w M)) eqn:Ho; [done|]. intros [= <- <-]. split; [done|].
  eapply take_ok; [exact Hf|done|done..|by simpl; fn_simpl|]. simpl. fn_simpl.
  intros u [Hne Hu]%list_elem_of_filter. by split.
Qed.

Lemma wp_cond_wake {A} i l V (k : Z -> prog A) Q :
  l_end l = false -> g_st (l_w l) = Waiting ->
  (forall V', wp (S i) (k 0) (upd_w l (set_st Held (l_w l))) V' Q) ->
  wp (S i) (Op (CondWake (b_cond the_barrier) M) k) l V Q.
Proof.
  intros Hend Hst Hk. apply wp_client_wait; [apply _|done..| |].
  - intros w x c Hf. destruct (exec c (S i) _ w) as [| |r w'] eqn:E; [done| |].
    + simpl in E. unfold do_cond_wake, do_lock in E. by repeat case_match.
    + destruct (wake_ok _ _ _ _ _ _ _ _ (set_st Held (l_w l)) Hf ltac:(by left) E) as [-> Hci].
      eexists. split; [exact Hci|apply Hk].
  - intros w x Hf Hr. exists (Choice 0 false 0). split; [done|]. simpl. unfold do_cond_wake, do_lock.
    destruct (ready_woken _ _ _ _ _ Hf Hr Hst) as [Hin _].
    rewrite (bool_decide_eq_false_2 _ Hin), (ready_free _ _ _ _ _ Hf Hr) by (by rewrite Hst). done.
Qed.

Lemma wp_bar_broadcast {A} i l V (k : Z -> prog A) Q :
  l_end l = false -> g_st (l_w l) = Waking ->
  (forall V', wp (S i) (k 0) (upd_w l (set_st Held (l_w l))) V' Q) ->
  wp (S i) (Op (CondBroadcast (b_cond the_barrier)) k) l V Q.
Proof.
  intros Hend Hst Hk. apply wp_client; [apply _|done..|]. intros w x c Hf. simpl.
  eexists. split; [|apply Hk]. rewrite <- (hf_me Hf) in *.
  pose proof (hf_ci Hf) as Hci. destruct Hci as [[Hh _ _] Hg _ _].
  assert (mowner (wmtx w M) = Some (S i)) as Hown by (apply Hh; by rewrite Hst).
  eapply mutex_step; [apply Hf|done..| | | |done|done|]; simpl.
  - done.
  - fn_simpl. intros u Hu. by apply elem_of_nil in Hu.
  - intros u. rewrite <- Hh. fn_case; [by rewrite Hst|done].
  - fn_simpl. rewrite Hown in *. eapply gen_keep; [by eapply worker_lt|exact Hg|done|by left| |].
    + simpl. fn_simpl. pose proof (bg_count _ _ _ _ _ _ _ Hg) as Hc. simpl in Hc. by rewrite Hst in Hc.
    + intros u Hu. by apply elem_of_nil in Hu.
Qed.

(** A thread that has not ended and does not wait in the current generation:
    if there is none, all have arrived, and the last does not wait. *)
Lemma some_moves w x :
  CI w x -> mowner (wmtx w M) = None -> wn w = S N ->
  (forall u v, wdone w u = Some v -> g_arr (x u) = phases /\ g_in (x u) = false) ->
  (exists i, (i < N)%nat /\ wdone w (S i) = None) ->
  exists i, (i < N)%nat /\ wdone w (S i) = None /\ bar_ready (S i) w x.
Proof.
  intros [_ Hg Ho _] Hfree Hn Hdone (i & Hi & Hnd). rewrite Hfree in Hg.
  destruct Hg as [_ Ha Hl Hc _]. simpl in Hc. set (serial := nval (wcell w (addr Serial))) in *.
  pose (moves := fun i => wdone w (S i) = None /\
    (g_st (x (S i)) <> Waiting \/ Z.of_nat (g_arr (x (S i))) <= serial)).
  destruct (decide (Exists moves (seq 0 N))) as [Hex|Hno].
  { apply Exists_exists in Hex as (j & Hj%elem_of_seq & Hd & Hm). exists j. split_all; [lia|done|].
    right. split; [done|]. intros E. by destruct Hm. }
  exfalso. assert (forall j, (j < N)%nat -> wdone w (S j) = None -> Z.of_nat (g_arr (x (S j))) = serial + 1) as Hall.
  { intros j Hj Hd. specialize (Ha j Hj). destruct (decide (Z.of_nat (g_arr (x (S j))) <= serial)) as [Hle|]; [|lia].
    destruct Hno. apply Exists_exists. exists j. rewrite elem_of_seq. split; [lia|]. split; [done|by right]. }
  assert (forall j, (j < N)%nat -> Z.of_nat (g_arr (x (S j))) = serial + 1) as Hev.
  { intros j Hj. destruct (wdone w (S j)) as [v|] eqn:E; [|by apply Hall]. exfalso.
    destruct (Hdone _ _ E) as [Hp Hin]. specialize (Hl j Hj Hin). specialize (Hall i Hi Hnd).
    pose proof (bo_said _ _ _ _ Ho i Hi). lia. }
  destruct Hc as [_ Hlt]. unfold arrived in Hlt. rewrite (sumn_const _ _ 1) in Hlt; [lia|].
  intros j Hj. rewrite (proj2 (Z.eqb_eq _ _)); [done|]. by apply Hev.
Qed.

#[export] Instance bar_progress : Progress H CI.
Proof.
  intros w g Hi Hwf Hc (u & Hu & Hnd). simpl in Hc. apply Nat.eqb_eq in Hc.
  pose proof (hi_n _ _ _ _ Hi) as Hn. rewrite Hc in Hn. pose proof (hi_ci _ _ _ _ Hi) as Hci.
  assert (forall u v, wdone w u = Some v -> g_st (gw g u) = Out /\ g_arr (gw g u) = phases /\ g_in (gw g u) = false) as Hd.
  { intros u' v Hv. destruct (hi_done _ _ _ _ Hi _ _ Hv) as (_ & (j & _ & _ & Hfin) & _). exact Hfin. }
  destruct (mowner (wmtx w M)) as [v|] eqn:Ho.
  - assert (holding (g_st (gw g v)) = true) as Hv by (by apply (bi_lock _ _ _ _ Hci)).
    exists v. split; [split|split; [|by left]].
    + destruct v; [|lia]. by rewrite (ba_main _ _ (bi_args _ _ _ _ Hci)) in Hv.
    + destruct (decide (wn w <= v)%nat) as [Hge|]; [|lia]. unfold gw in Hv.
      by rewrite (proj1 (hi_init _ _ _ _ Hi v Hge)) in Hv.
    + destruct (wdone w v) as [r|] eqn:E; [|done]. destruct (Hd _ _ E) as [Hst _]. by rewrite Hst in Hv.
  - destruct (some_moves w (gw g) Hci Ho Hn) as (i & Hlt & Hnd' & Hr).
    + intros u' v Hv. by destruct (Hd _ _ Hv).
    + exists (u - 1)%nat. replace (S (u - 1)) with u by lia. split; [lia|done].
    + exists (S i). split; [lia|done].
Qed.

Hypothesis Hphases : in_range INT_BITS (Z.of_nat phases) = true.
Hypothesis HN : in_range INT_BITS (Z.of_nat N) = true.

(** [count++]: the thread arrives. *)
Lemma wp_arrive {A} i l V (k : unit -> prog A) Q :
  l_end l = false -> g_st (l_w l) = Held -> g_in (l_w l) = false ->
  (g_arr (l_w l) < g_said (l_w l))%nat ->
  (forall v V', wp (S i) (k tt) (upd_w l (arrive (Counted v) (l_w l))) V' Q) ->
  wp (S i) (bind (incr INT_BITS (b_count the_barrier)) k) l V Q.
Proof.
  intros Hend Hst Hin Hlt Hk. prog_simpl. apply (wp_hold_read i Count); [done|by rewrite Hst|].
  intros vals ws x Hi Hg Hx _. exists (set_st (Counting (vals Count)) (l_w l)).
  pose proof (gen_holder _ _ _ _ _ _ Hg Hx) as Hc. rewrite Hst in Hc. destruct Hc as [Hc Ha].
  pose proof (arrived_bound N (vals Serial) x). split_all.
  - split; [done|]. split; [done|by right].
  - rewrite <- Hx. eapply gen_keep; [done|exact Hg|done|by left| |].
    + simpl. by fn_simpl.
    + intros u Hu. left. split; [done|]. simpl. by rewrite Hx, Hst.
  - intros V1. rewrite (in_range_between _ _ _ HN) by lia. prog_simpl.
    apply (wp_hold_write i Count); [done..|]. intros vals' ws' x' _ Hg' Hx'.
    exists (arrive (Counted (vals Count + 1)) (l_w l)). split_all; [| |intros V2; apply Hk].
    + split; [done|]. split; [done|left; simpl; lia].
    + pose proof (gen_arrive N _ _ _ x' i Hi (vals Count) _ Hg' ltac:(by rewrite Hx') ltac:(by rewrite Hx')) as Hn.
      rewrite Hx' in Hn. exact Hn.
Qed.

(** The last thread's branch. *)
Lemma wp_last {A} i v l V (k : unit -> prog A) Q :
  l_end l = false -> g_st (l_w l) = Counted v -> v = Z.of_nat N ->
  (g_arr (l_w l) <= phases)%nat ->
  (forall V', wp (S i) (k tt) (upd_w l (leave Held (l_w l))) V' Q) ->
  wp (S i) (bind (do_ (NaWrite (b_count the_barrier) 0);; incr INT_BITS (b_serial the_barrier);;
                  do_ (CondBroadcast (b_cond the_barrier))) k) l V Q.
Proof.
  intros Hend Hst -> Hle Hk. prog_simpl. apply (wp_hold_write i Count); [done|by rewrite Hst|].
  intros vals ws x Hi Hg Hx. exists (set_st Reset (l_w l)).
  pose proof (gen_holder _ _ _ _ _ _ Hg Hx) as Hc. rewrite Hst in Hc. destruct Hc as [Hc Ha]. split_all.
  { split; [done|]. split; [done|by right]. }
  { unfold gen. fn_simpl. rewrite <- Hx. eapply gen_keep; [done|exact Hg|done|by left| |].
    - simpl. fn_simpl. simpl. by rewrite <- Ha, Hc.
    - intros u Hu. left. split; [done|]. simpl. by rewrite Hx, Hst. }
  clear vals ws x Hg Hx Hc Ha. intros V1. apply (wp_hold_read i Serial); [done..|].
  intros vals ws x _ Hg Hx _. exists (set_st Reset (l_w l)). split_all.
  { split; [done|]. split; [done|by right]. }
  { eapply gen_same; [|exact Hg]. intros u. by fn_case. }
  destruct (gen_next _ _ _ _ x i Hi _ Hg ltac:(by rewrite Hx)) as [Hs _]. rewrite Hx in Hs. simpl in Hs.
  clear Hg. intros V2. rewrite (in_range_between _ _ _ Hphases) by lia. prog_simpl.
  apply (wp_hold_write i Serial); [done..|]. intros vals' ws' x' _ Hg Hx'.
  destruct (gen_next _ _ _ _ x' i Hi _ Hg ltac:(by rewrite Hx')) as [Hs' Hg']. rewrite Hx' in *. simpl in Hs'.
  exists (leave Waking (l_w l)). split_all.
  - split; [done|]. split; [done|by right].
  - unfold gen. fn_simpl. replace (vals Serial + 1) with (vals' Serial + 1) by lia. exact Hg'.
  - intros V3. apply wp_bar_broadcast; [done..|]. intros V4. apply Hk.
Qed.

(** The waiting branch: the loop is left when the generation has ended. *)
Section WaitLoop.
Context (i : nat) (my_serial : Z) (l : lst bst).
Hypothesis (Hend : l_end l = false) (Hst : g_st (l_w l) = Held)
  (Hmy : my_serial + 1 = Z.of_nat (g_arr (l_w l))).
Local Abbreviation loop :=
  (while_ (serial ← perform (NaRead (b_serial the_barrier)); Ret (my_serial =? serial))
     (pthread_cond_wait (b_cond the_barrier) M)).
Local Abbreviation stays := (upd_w l (set_st (Staying my_serial) (l_w l))).

(** The test of the loop. *)
Lemma wp_serial_test V (Q : bool -> lst bst -> view -> Prop) :
  (forall V', g_in (l_w l) = true -> Q true stays V') ->
  (forall V', Q false (upd_w l (leave Held (l_w l))) V') ->
  wp (S i) (serial ← perform (NaRead (b_serial the_barrier)); Ret (my_serial =? serial)) l V Q.
Proof.
  intros Ht Hf. prog_simpl. apply (wp_hold_read i Serial); [done|by rewrite Hst|].
  intros vals ws x Hi Hg Hx _. pose proof (bg_arr _ _ _ _ _ _ _ Hg i Hi) as Ha. rewrite Hx in Ha.
  pose proof (gen_holder _ _ _ _ _ _ Hg Hx) as Hc. rewrite Hst in Hc.
  assert (forall u, u ∈ ws -> u ∈ ws /\ holder_stage (Some (S i)) x <> Waking) as Hws
    by (intros u Hu; split; [done|]; simpl; by rewrite Hx, Hst).
  destruct (Z.eqb_spec my_serial (vals Serial)) as [E|E].
  - exists (set_st (Staying my_serial) (l_w l)). split_all; [by split; [|split; [|right]]| |].
    + rewrite <- Hx. eapply gen_keep; [done|exact Hg|done|by left| |by left; apply Hws].
      simpl. fn_simpl. by split.
    + intros V1. apply wp_ret, Ht. destruct (g_in (l_w l)) eqn:Hin; [done|].
      pose proof (bg_left _ _ _ _ _ _ _ Hg i Hi) as Hl. rewrite Hx in Hl. specialize (Hl Hin). lia.
  - exists (leave Held (l_w l)). split_all; [by split; [|split; [|right]]| |intros V1; apply wp_ret, Hf].
    rewrite <- Hx. eapply gen_keep; [done|exact Hg|done| | |by left; apply Hws].
    + intros _. right. rewrite Hx. simpl. lia.
    + simpl. by fn_simpl.
Qed.
End WaitLoop.

(** A thread that was woken because its generation has ended leaves the loop
    at the next test. *)
Lemma wp_wait_left i my_serial l V (Q : unit -> lst bst -> view -> Prop) :
  l_end l = false -> g_st (l_w l) = Held -> my_serial + 1 = Z.of_nat (g_arr (l_w l)) ->
  g_in (l_w l) = false -> (forall V', Q tt (upd_w l (leave Held (l_w l))) V') ->
  wp (S i) (while_ (serial ← perform (NaRead (b_serial the_barrier)); Ret (my_serial =? serial))
     (pthread_cond_wait (b_cond the_barrier) M)) l V Q.
Proof.
  intros Hend Hst Hmy Hin HQ. apply wp_while_turn, wp_serial_test; [done..| |done]. congruence.
Qed.

(** A ready thread that waits can leave the loop. *)
Lemma fin_cond_wake {A} i l V (k : Z -> prog A) Q :
  l_end l = false -> g_st (l_w l) = Waiting ->
  (forall V', fin (hlogic H CI) (S i) (k 0) (upd_w l (leave Held (l_w l))) V' Q) ->
  fin (hlogic H CI) (S i) (Op (CondWake (b_cond the_barrier) M) k) l V Q.
Proof.
  intros Hend Hst Hk. apply fin_client; [apply _|done..|]. intros w x Hf Hr.
  destruct (ready_woken _ _ _ _ _ Hf Hr Hst) as [Hin Hle].
  pose proof (ready_free _ _ _ _ _ Hf Hr ltac:(by rewrite Hst)) as Ho.
  exists (Choice 0 false 0). destruct (exec (Choice 0 false 0) (S i) (CondWake (b_cond the_barrier) M) w) as [| |r w'] eqn:E.
  - simpl in E. unfold do_cond_wake, do_lock in E. by rewrite (bool_decide_eq_false_2 _ Hin), Ho in E.
  - simpl in E. unfold do_cond_wake, do_lock in E. by rewrite (bool_decide_eq_false_2 _ Hin), Ho in E.
  - destruct (wake_ok _ _ _ _ _ _ _ _ (leave Held (l_w l)) Hf ltac:(by right) E) as [-> Hci].
    exists 0, w', (leave Held (l_w l)). by split_all.
Qed.

Lemma wp_wait {A} i my_serial l V (k : unit -> prog A) Q :
  l_end l = false -> g_st (l_w l) = Held -> my_serial + 1 = Z.of_nat (g_arr (l_w l)) ->
  (forall V', wp (S i) (k tt) (upd_w l (leave Held (l_w l))) V' Q) ->
  wp (S i) (bind (while_ (serial ← perform (NaRead (b_serial the_barrier)); Ret (my_serial =? serial))
              (pthread_cond_wait (b_cond the_barrier) M)) k) l V Q.
Proof.
  intros Hend Hst Hmy Hk. apply wp_bind.
  assert (forall b, set_st Held (set_st Waiting (set_st (Staying my_serial) b)) = set_st Held b) as Hset by done.
  eapply wp_while with (P := fun l' _ => l' = l); [| |done]; clear V; intros l' V ->.
  - apply wp_serial_test; [done..| |intros V1; apply Hk]. intros V1 _.
    apply wp_cond_enter; [done|simpl; f_equal; lia|]. intros V2. apply wp_cond_wake; [done..|].
    intros V3. apply wp_ret. destruct l as [? ? ? ? []]. simpl in *. by subst.
  - apply fin_while. apply wp_fin, wp_serial_test; [done..| |intros V1; apply Hk]. intros V1 Hin.
    apply fin_bind, wp_fin, wp_cond_enter; [done|simpl; f_equal; lia|]. intros V2.
    apply wp_ret, fin_cond_wake; [done..|]. intros V3. apply fin_ret, wp_fin.
    apply wp_wait_left; [done..|]. intros V4. apply Hk.
Qed.

(** The barrier: a thread that leaves it has arrived once more, and so has
    every other. *)
Lemma wp_barrier_wait {A} i l V (k : unit -> prog A) Q :
  l_end l = false -> g_st (l_w l) = Out -> g_in (l_w l) = false ->
  (g_arr (l_w l) < g_said (l_w l) <= phases)%nat ->
  (forall V', wp (S i) (k tt) (upd_w l (leave Out (arrive Out (l_w l)))) V' Q) ->
  wp (S i) (bind (barrier_wait the_barrier) k) l V Q.
Proof.
  intros Hend Hst Hin Hlt Hk. apply wp_bind. unfold barrier_wait, pthread_mutex_lock.
  cbn [bind perform do_]. apply wp_bar_lock; [done..|]. intros V1. apply (wp_hold_read i Serial); [done..|].
  intros vals ws x Hi Hg Hx _. exists (set_st Held (l_w l)). split_all; [by split; [|split; [|right]]| |].
  { eapply gen_same; [|exact Hg]. intros u. by fn_case. }
  pose proof (gen_serial_out _ _ _ _ x i Hi _ _ Hg ltac:(by rewrite Hx)) as Hs. rewrite Hx in Hs. simpl in Hs.
  clear Hg Hx ws x. intros V2. apply wp_arrive; [done..|simpl; lia|]. intros v V3.
  apply (wp_hold_read i Count); [done..|]. intros vals1 ws x _ Hg Hx _.
  pose proof (gen_holder _ _ _ _ _ _ Hg Hx) as Hc. destruct Hc as [Hc _].
  exists (l_w (upd_w (upd_w l (set_st Held (l_w l))) (arrive (Counted v) (set_st Held (l_w l))))).
  split_all; [by split; [|split; [|right]]|eapply gen_same; [|exact Hg]; intros u; by fn_case|].
  rewrite Hc. clear Hg Hx Hc vals1 ws x. intros V4.
  apply (wp_hold_read i Threshold); [done..|]. intros vals1 ws x _ Hg Hx Hthr.
  pose proof (gen_holder _ _ _ _ _ _ Hg Hx) as Hc. destruct Hc as [Hc Ha].
  rewrite (bg_thr _ _ _ _ _ _ _ Hg Hthr). destruct (Z.eqb_spec v (Z.of_nat N)) as [E|E].
  - exists (arrive (Counted v) (l_w l)).
    split_all; [by split; [|split; [|right]]|eapply gen_same; [|exact Hg]; intros u; by fn_case|].
    intros V5. apply (wp_last i v); [done..|simpl; lia|]. intros V6.
    apply wp_bar_unlock; [done..|]. intros V7. apply wp_ret, Hk.
  - exists (arrive Held (l_w l)). split_all; [by split; [|split; [|right]]| |].
    + pose proof (arrived_bound N (vals1 Serial) x).
      eapply gen_keep; [done|exact Hg|by rewrite Hx|done|simpl; fn_simpl; simpl; lia|].
      intros u Hu. left. split; [done|]. simpl. by rewrite Hx.
    + intros V5. apply wp_wait; [done..|simpl; lia|]. intros V6.
      apply wp_bar_unlock; [done..|]. intros V7. apply wp_ret, Hk.
Qed.

(** Ghost states that differ in the bookkeeping of arguments only. *)
Definition same_work (b b' : bst) : Prop :=
  g_said b' = g_said b /\ g_arr b' = g_arr b /\ g_in b' = g_in b /\ g_st b' = g_st b /\
  g_thr b' = g_thr b.

Lemma same_work_inv w x x' :
  (forall u, same_work (x u) (x' u)) ->
  bar_lock w x /\ gen N (fun f => nval (wcell w (addr f))) (mowner (wmtx w M)) (wcond w (b_cond the_barrier)) x /\
    bar_out N phases (wout w) x ->
  bar_lock w x' /\ gen N (fun f => nval (wcell w (addr f))) (mowner (wmtx w M)) (wcond w (b_cond the_barrier)) x' /\
    bar_out N phases (wout w) x'.
Proof.
  intros Hs ([Hh Hw Hc] & [G1 G2 G3 G4 G5] & Ho).
  assert (holder_stage (mowner (wmtx w M)) x' = holder_stage (mowner (wmtx w M)) x) as Hst
    by (destruct (mowner (wmtx w M)); simpl; [apply Hs|done]).
  split_all.
  - split; [| |done]; intros u; destruct (Hs u) as (_ & _ & _ & -> & _); [apply Hh|apply Hw].
  - split; rewrite ?Hst.
    + destruct (Hs 0%nat) as (_ & _ & _ & _ & ->). done.
    + intros i. destruct (Hs (S i)) as (_ & -> & _). apply G2.
    + intros i. destruct (Hs (S i)) as (_ & -> & -> & _). apply G3.
    + by rewrite (arrived_ext _ _ x) by (intros u; apply Hs).
    + intros u. destruct (Hs u) as (_ & -> & _). apply G5.
  - eapply out_frame; [intros u; apply Hs|intros u; right; apply Hs|exact Ho].
Qed.

(** An access to a plain object that is not a field of the barrier. *)
Lemma other_cell t w x x' y c V :
  CI w x -> (forall f, addr f <> y) -> wview w t ⊑v V -> (forall u, same_work (x u) (x' u)) ->
  bar_args (set_cell y c (set_view t V w)) x' -> CI (set_cell y c (set_view t V w)) x'.
Proof.
  intros [[Hh Hw (B & HB & Hc)] Hg Ho _] Hy HV Hs Ha.
  destruct (same_work_inv (set_cell y c (set_view t V w)) x x' Hs) as (? & ? & ?); [|by split].
  split_all; [| |done].
  - split; [done|done|]. exists B. split; [intros u Hu; etrans; [by apply HB|]; simpl; by fn_case|].
    simpl. intros f e. rewrite fn_lookup_insert_ne by (specialize (Hy f); congruence). intros He.
    eapply covers_mono; [|by eapply Hc]. apply vjoin_proper; [done|].
    destruct (mowner (wmtx w M)); [simpl; by fn_case|done].
  - eapply gen_ext; [|exact Hg]. intros f. simpl.
    by rewrite fn_lookup_insert_ne by (specialize (Hy f); congruence).
Qed.

(** The two fields of the arguments of thread [S i]. *)
Definition arg_field (i : nat) (y : loc) (v : Z) : Prop :=
  y = arg_id (args (Z.of_nat i)) /\ v = Z.of_nat i \/
  y = arg_barrier (args (Z.of_nat i)) /\ v = the_barrier.

Lemma arg_addr i y v f : arg_field i y v -> addr f <> y.
Proof.
  intros Hy. destruct (addr_arg f (Z.of_nat i)) as [[H1 H2]|]; [|lia]. destruct Hy as [[-> _]|[-> _]]; done.
Qed.

(** A worker reads its arguments. *)
Lemma wp_arg_read {A} i y v l V (k : Z -> prog A) Q :
  arg_field i y v -> l_end l = false -> (forall V', wp (S i) (k v) l V' Q) ->
  wp (S i) (Op (NaRead y) k) l V Q.
Proof.
  intros Hy Hend Hk. apply wp_client; [apply _|done..|]. intros w x c Hf. simpl. unfold do_na_read.
  pose proof (hf_ci Hf) as Hci. destruct Hci as [_ _ _ [H0 Hm Hr Ha Hp Ho]]. pose proof (hf_lt Hf) as Hlt.
  destruct (Ha i ltac:(lia)) as [[H1 H2] [H3 H4]].
  assert (nval (wcell w y) = v /\ covers (wview w (S i)) (nwr (wcell w y)) = true) as [Hv Hcov]
    by (destruct Hy as [[-> ->]|[-> ->]]; done).
  rewrite Hcov. exists (l_w l). split; [|rewrite upd_w_id, Hv by done; apply Hk].
  eapply (client_grows _ _ x); [apply grows_refl|done|intros u; fn_case; [apply Hf|done]|].
  apply (other_cell _ _ x); [apply Hf|intros f; by eapply arg_addr|auto with workshop|done|].
  set (c' := Cell _ _ _).
  assert (forall y', nval (<[y := c']> (wcell w) y') = nval (wcell w y')
    /\ nwr (<[y := c']> (wcell w) y') = nwr (wcell w y')) as Hc by (intros y'; by destruct (decide (y = y')) as [<-|]; fn_simpl).
  split; simpl; [done|done|done| | |].
  - intros j Hj. destruct (Ha j Hj) as [[G1 G2] [G3 G4]].
    rewrite !(proj1 (Hc _)), !(proj2 (Hc _)).
    split; (split; [done|]); (eapply covers_mono; [|done]); fn_case; auto with workshop; done.
  - by rewrite !(proj1 (Hc _)).
  - intros j e Hj. rewrite !fn_lookup_insert_ne; [by apply Ho|..]; intros E;
      destruct Hy as [[-> _]|[-> _]]; unfold arg_id, arg_barrier, args in E; lia.
Qed.

Lemma sync_cons e out :
  synchronized N out ->
  (forall i p, e = says passed i p -> forall j, (j < N)%nat -> says waiting j p ∈ out) ->
  synchronized N (e :: out).
Proof.
  intros Hs He [|e' l1] l2 i p Heq; simplify_eq/=; [by eapply He|by eapply Hs].
Qed.

(** Printing a line leaves everything but the output alone. *)
Lemma print_ok w x x' e :
  CI w x -> (forall u, g_st (x' u) = g_st (x u)) -> (forall u, g_arr (x' u) = g_arr (x u)) ->
  (forall u, g_in (x' u) = g_in (x u)) -> x' 0%nat = x 0%nat ->
  bar_out N phases (e :: wout w) x' -> CI (add_out e w) x'.
Proof.
  intros [[Hh Hw Hc] [G1 G2 G3 G4 G5] _ Ha] Hst Harr Hin H0 Ho. split; [| |done|].
  - split; simpl; [intros u; rewrite Hst; apply Hh|intros u; rewrite Hst; apply Hw|done].
  - split; simpl; [by rewrite H0|intros i; rewrite Harr; apply G2|intros i; rewrite Hin, Harr; apply G3|..].
    + rewrite (arrived_ext _ _ x) by done. by destruct (mowner (wmtx w M)); simpl; rewrite ?Hst.
    + intros u. rewrite Harr. destruct (mowner (wmtx w M)); simpl; rewrite ?Hst; apply G5.
  - by eapply args_frame; [..|exact Ha].
Qed.

Lemma wp_say {A} i fmt p b' l V (k : Z -> prog A) Q :
  l_end l = false -> g_st b' = g_st (l_w l) -> g_arr b' = g_arr (l_w l) -> g_in b' = g_in (l_w l) ->
  (forall w x, hfacts H CI (S i) l V w x ->
     bar_out N phases (says fmt i p :: wout w) (<[S i := b']> x)) ->
  wp (S i) (k 0) (upd_w (say (says fmt i p) l) b') V Q ->
  wp (S i) (Op (Printf fmt [Z.of_nat i; Z.of_nat p]) k) l V Q.
Proof.
  intros Hend H1 H2 H3 Ho Hk. apply wp_print_gen; [apply _|done|done|]. intros w x Hf.
  exists b'. split; [|exact Hk].
  apply (print_ok w x); [apply Hf|..|done|by apply Ho]; intros u; fn_case; try done;
    by rewrite (hf_me Hf).
Qed.

(** The three lines of a phase. *)
Lemma wp_say_starting {A} i p l V (k : Z -> prog A) Q :
  l_end l = false -> wp (S i) (k 0) (say (says starting i p) l) V Q ->
  wp (S i) (Op (Printf starting [Z.of_nat i; Z.of_nat p]) k) l V Q.
Proof.
  intros Hend Hk. apply (wp_say i starting p (l_w l)); [done..| |by destruct l].
  intros w x Hf. destruct (bi_out _ _ _ _ (hf_ci Hf)) as [H1 H2 H3].
  assert (forall u, <[S i := l_w l]> x u = x u) as Hid by (intros u; fn_case; [by rewrite (hf_me Hf)|done]).
  split; [intros j; rewrite Hid; apply H1|intros j q; rewrite Hid; intros; right; by apply H2|].
  apply sync_cons; [done|]. intros j q [=].
Qed.

Lemma wp_say_waiting {A} i p l V (k : Z -> prog A) Q :
  l_end l = false -> g_said (l_w l) = p -> (p < phases)%nat ->
  wp (S i) (k 0) (upd_w (say (says waiting i p) l) (speak (l_w l))) V Q ->
  wp (S i) (Op (Printf waiting [Z.of_nat i; Z.of_nat p]) k) l V Q.
Proof.
  intros Hend Hp Hlt Hk. apply (wp_say i waiting p (speak (l_w l))); [done..| |done].
  intros w x Hf. destruct (bi_out _ _ _ _ (hf_ci Hf)) as [H1 H2 H3]. rewrite <- (hf_me Hf) in Hp |- *.
  split; [| |apply sync_cons; [done|by intros j q [=]]].
  - intros j Hj. specialize (H1 j Hj). destruct (decide (j = i)) as [->|]; fn_simpl; [simpl; lia|done].
  - intros j q Hj Hq. destruct (decide (j = i)) as [->|]; fn_simpl; [|right; apply H2; [done|by rewrite fn_lookup_insert_ne in Hq by congruence]].
    rewrite fn_lookup_insert in Hq. simpl in Hq. destruct (decide (q = p)) as [->|]; [left|right].
    apply H2; [done|lia].
Qed.

Lemma wp_say_passed {A} i p l V (k : Z -> prog A) Q :
  l_end l = false -> g_arr (l_w l) = S p -> g_in (l_w l) = false ->
  wp (S i) (k 0) (say (says passed i p) l) V Q ->
  wp (S i) (Op (Printf passed [Z.of_nat i; Z.of_nat p]) k) l V Q.
Proof.
  intros Hend Hp Hin Hk. apply (wp_say i passed p (l_w l)); [done..| |by destruct l].
  intros w x Hf. destruct (bi_out _ _ _ _ (hf_ci Hf)) as [H1 H2 H3].
  destruct (bi_gen _ _ _ _ (hf_ci Hf)) as [_ Ha Hl _ _]. pose proof (worker_lt _ _ _ _ _ Hf) as Hi.
  specialize (Hl i Hi). rewrite (hf_me Hf), Hp in Hl. specialize (Hl Hin).
  assert (forall u, <[S i := l_w l]> x u = x u) as Hid by (intros u; fn_case; [by rewrite (hf_me Hf)|done]).
  split; [intros j; rewrite Hid; apply H1|intros j q; rewrite Hid; intros; right; by apply H2|].
  apply sync_cons; [done|]. intros i' q [= E1 E2 E3] j Hj. apply H2; [done|].
  specialize (Ha j Hj). specialize (H1 j Hj). lia.
Qed.

Hypothesis Hnap : in_range INT_BITS (100000 * Z.of_nat N) = true.

Lemma wp_nap {A} i l V (k : unit -> prog A) Q :
  (i < N)%nat -> l_end l = false -> wp (S i) (k tt) l V Q ->
  wp (S i) (bind (nap (Z.of_nat i)) k) l V Q.
Proof.
  intros Hi Hend Hk. unfold nap. rewrite (in_range_between _ _ _ HN) by lia.
  rewrite (in_range_between _ _ _ Hnap) by lia. simpl andb. cbv iota. prog_simpl.
  by apply wp_pause; [apply _|done|].
Qed.

Lemma worker_log_S p i : worker_log (S p) i = worker_log p i ++ phase_log i p.
Proof. unfold worker_log. rewrite seq_S, flat_map_app. done. Qed.

(** One phase of a worker. *)
Definition after (i p : nat) : lst bst :=
  Lst 0 [] false (rev (worker_log p i)) (Bst p p false Out false 0 0).

Lemma wp_worker i V :
  (i < N)%nat ->
  wp (S i) (worker (Z.of_nat phases) (args (Z.of_nat i))) (fresh bst_init) V
    (fun v l' _ => l_end l' = false /\ bar_final phases (S i) v (l_out l') (l_w l')).
Proof.
  intros Hi. assert (arg_field i (arg_id (args (Z.of_nat i))) (Z.of_nat i)) as Hid by (by left).
  assert (arg_field i (arg_barrier (args (Z.of_nat i))) the_barrier) as Hbar by (by right).
  apply wp_bind. eapply wp_mono.
  { apply wp_for with (P := fun c l _ => l = after i (Z.to_nat c)); [lia| |done].
    intros c l V1 Hc ->. assert (exists p, c = Z.of_nat p) as [p ->] by (exists (Z.to_nat c); lia).
    rewrite Nat2Z.id. assert (p < phases)%nat by lia. cbn [bind perform do_ printf].
    eapply wp_arg_read; [exact Hid|done|]. intros V2. apply wp_say_starting; [done|].
    eapply wp_arg_read; [exact Hid|done|]. intros V3. apply wp_nap; [done..|].
    eapply wp_arg_read; [exact Hid|done|]. intros V4. apply wp_say_waiting; [done..|].
    eapply wp_arg_read; [exact Hbar|done|]. intros V5. apply wp_barrier_wait; [done..|simpl; lia|].
    intros V6. cbn [bind perform do_ printf].
    eapply wp_arg_read; [exact Hid|done|]. intros V7. apply wp_say_passed; [done..|].
    apply wp_ret. replace (Z.to_nat (Z.of_nat p + 1)) with (S p) by lia. unfold after.
    by rewrite worker_log_S, rev_app_distr. }
  intros u l V1 ->. apply wp_ret. split; [done|]. exists i. rewrite Nat2Z.id. simpl.
  by rewrite rev_involutive.
Qed.

Lemma bar_code_ok : code_ok H CI.
Proof. intros i V Hi. by apply wp_worker. Qed.

Hypothesis Hpos : (0 < N)%nat.

(** The ghost state of thread 0. *)
Definition boss (thr : bool) (made prep : nat) : bst := Bst 0 0 false Out thr made prep.

(** The barrier of a world in which thread 0 is alone. *)
Record idle (w : world) (x : tid -> bst) : Prop := {
  id_cells : nval (wcell w (addr Count)) = 0 /\ nval (wcell w (addr Serial)) = 0;
  id_thr : g_thr (x 0%nat) = true -> nval (wcell w (addr Threshold)) = Z.of_nat N;
  id_mtx : mowner (wmtx w M) = None;
  id_cond : wcond w (b_cond the_barrier) = []
}.

Lemma idle_inv w x thr :
  wf w -> wn w = 1%nat -> (forall i, x (S i) = bst_init) -> x 0%nat = boss thr 0 0 ->
  idle w x -> synchronized N (wout w) ->
  (forall i e, e ∈ epochs (wcell w (arg_id (args (Z.of_nat i)))) \/
     e ∈ epochs (wcell w (arg_barrier (args (Z.of_nat i)))) -> e.1 = 0%nat) ->
  CI w x.
Proof.
  intros Hwf Hn Hx Hx0 [[Hc Hs] Hthr Hm Hcv] Hsync Hown.
  assert (forall u, g_st (x u) = Out /\ g_arr (x u) = 0%nat) as Hst
    by (intros [|u]; [by rewrite Hx0|by rewrite Hx]).
  split.
  - split; rewrite ?Hm, ?Hcv.
    + intros u. by rewrite (proj1 (Hst u)).
    + intros u Hu. by apply elem_of_nil in Hu.
    + exists (wview w 0%nat). split; [intros u Hu; by replace u with 0%nat by lia|].
      intros f e He. eapply covers_mono; [apply vjoin_l|]. by eapply covers_alone.
  - rewrite Hm. split; rewrite ?Hc, ?Hs; [done|intros i _; rewrite Hx; simpl; lia..| |].
    { simpl. unfold arrived. rewrite (sumn_const _ _ 0); [lia|]. intros i _. by rewrite Hx. }
    rewrite Hcv. intros u Hu. by apply elem_of_nil in Hu.
  - split; [intros i _; rewrite Hx; simpl; lia|intros i p _; rewrite Hx; simpl; lia|done].
  - split; rewrite ?Hx0; simpl; try lia; [done|]. intros i e _. apply Hown.
Qed.

Lemma alone_idle w x l V thr :
  hfacts H CI 0%nat l V w x -> l_c l = 0%nat -> l_w l = boss thr 0 0 ->
  wn w = 1%nat /\ (forall i, x (S i) = bst_init) /\ x 0%nat = boss thr 0 0 /\ idle w x.
Proof.
  intros Hf Hc Hl. destruct (hf_main Hf eq_refl) as [Hn _]. rewrite Hc in Hn.
  assert (forall i, x (S i) = bst_init) as Hx by (intros i; by rewrite (hf_init Hf) by lia).
  assert (x 0%nat = boss thr 0 0) as Hx0 by (by rewrite (hf_me Hf)).
  split_all; [done..|]. destruct (hf_ci Hf) as [[Hh Hw _] Hg _ _].
  assert (mowner (wmtx w M) = None) as Hm.
  { destruct (mowner (wmtx w M)) as [u|] eqn:E; [|done].
    assert (holding (g_st (x u)) = true) as Hu by (by apply Hh).
    destruct u; [by rewrite Hx0 in Hu|by rewrite Hx in Hu]. }
  rewrite Hm in Hg. destruct Hg as [Ht Ha Hl' Hcnt _].
  specialize (Ha 0%nat Hpos). specialize (Hl' 0%nat Hpos). rewrite Hx in *. simpl in *.
  specialize (Hl' eq_refl). split; simpl; try done; [split; [|lia]|].
  - destruct Hcnt as [-> _]. unfold arrived. rewrite (sumn_const _ _ 0); [lia|]. intros i _. rewrite Hx.
    cbn [bst_init g_arr addr]. rewrite (proj2 (Z.eqb_neq _ _)); [done|lia].
  - destruct (wcond w (b_cond the_barrier)) as [|u us] eqn:E; [done|].
    assert (g_st (x u) = Waiting) as Hbad by (apply Hw; by left).
    destruct u; [by rewrite Hx0 in Hbad|by rewrite Hx in Hbad].
Qed.

(** A step of thread 0 while it is alone. *)
Lemma wp_bar_alone {A} o thr thr' l V (k : Z -> prog A) Q :
  client_op o = true -> l_end l = false -> l_c l = 0%nat -> l_w l = boss thr 0 0 ->
  (forall w x c, hfacts H CI 0%nat l V w x -> idle w x ->
     match exec c 0%nat o w with
     | Blocked => True
     | Fault => False
     | Done r w' => idle w' (<[0%nat := boss thr' 0 0]> x) /\
         forall i, wcell w' (arg_id (args (Z.of_nat i))) = wcell w (arg_id (args (Z.of_nat i))) /\
           wcell w' (arg_barrier (args (Z.of_nat i))) = wcell w (arg_barrier (args (Z.of_nat i)))
     end) ->
  (forall r V', wp 0%nat (k r) (upd_w l (boss thr' 0 0)) V' Q) -> wp 0%nat (Op o k) l V Q.
Proof.
  intros Ho Hend Hc Hl He Hk. apply wp_client; [apply _|done..|]. intros w x c Hf.
  destruct (alone_idle _ _ _ _ _ Hf Hc Hl) as (Hn & Hx & Hx0 & Hid). specialize (He w x c Hf Hid).
  destruct (exec c 0%nat o w) as [| |r w'] eqn:E; [done..|]. destruct He as [Hid' Harg].
  exists (boss thr' 0 0). split; [|apply Hk].
  destruct (exec_view _ _ _ _ _ _ E) as (_ & _ & Hn').
  destruct (client_op_frame _ _ _ _ _ _ (proj1 (andb_prop _ _ Ho)) E) as (_ & Ho' & _).
  eapply (idle_inv w' _ thr'); [eapply exec_wf; [exact E|apply Hf|apply Hf]|congruence|intros i; by fn_simpl|by fn_simpl|done|..].
  - rewrite Ho'. apply (hf_ci Hf).
  - intros i e. destruct (Harg i) as [-> ->]. destruct (hf_ci Hf) as [_ _ _ [_ _ _ _ _ Hown]].
    apply Hown. rewrite Hx0. simpl. lia.
Qed.

(** Thread 0's own lines. *)
#[export] Instance bar_outfree : OutFree CI 0%nat.
Proof.
  intros w fmt ar x Hci. apply (print_ok w x); [done..|]. destruct (bi_out _ _ _ _ Hci) as [H1 H2 H3].
  split; [done|intros i p Hi Hp; right; by apply H2|]. by apply sync_cons.
Qed.

Lemma addr_upd f f' (c : cell) (m : loc -> cell) :
  <[addr f := c]> m (addr f') = if decide (f = f') then c else m (addr f').
Proof.
  case_decide; [subst; by fn_simpl|]. rewrite fn_lookup_insert_ne; [done|].
  intros E. by apply addr_inj in E.
Qed.

Lemma wp_alone_field {A} f v thr l V (k : Z -> prog A) Q :
  l_end l = false -> l_c l = 0%nat -> l_w l = boss thr 0 0 ->
  v = match f with Threshold => Z.of_nat N | _ => 0 end ->
  (forall r V', wp 0%nat (k r) (upd_w l (boss (if decide (f = Threshold) then true else thr) 0 0)) V' Q) ->
  wp 0%nat (Op (NaWrite (addr f) v) k) l V Q.
Proof.
  intros Hend Hc Hl Hv Hk. eapply wp_bar_alone; [done..| |exact Hk].
  intros w x c Hf [[Hid1 Hid2] Hid3 Hid4 Hid5]. simpl. destruct (hf_main Hf eq_refl) as [Hn _].
  rewrite na_write_ok by (intros e; apply covers_alone; [apply Hf|by rewrite Hn, Hc]). split.
  - rewrite (hf_me Hf), Hl in Hid3. split; cbn [set_cell set_view wcell wmtx wcond]; [| |done|done].
    + rewrite !addr_upd, Hv. by destruct f.
    + rewrite addr_upd, fn_lookup_insert, Hv. destruct f; [by apply Hid3|done|by apply Hid3].
  - intros i. simpl. destruct (addr_arg f (Z.of_nat i)) as [[H1 H2]|]; [by fn_simpl|lia].
Qed.

Lemma wp_barrier_init {A} l V (k : unit -> prog A) Q :
  l_end l = false -> l_c l = 0%nat -> l_w l = bst_init ->
  (forall V', wp 0%nat (k tt) (upd_w l (boss true 0 0)) V' Q) ->
  wp 0%nat (bind (barrier_init the_barrier (Z.of_nat N)) k) l V Q.
Proof.
  intros Hend Hc Hl Hk. unfold barrier_init. cbn [bind do_].
  apply (wp_bar_alone _ false false); [done..| |].
  { intros w x c Hf [H1 H2 H3 H4]. simpl. split; [|done]. split; simpl; fn_simpl; done. }
  intros _ V1. apply (wp_bar_alone _ false false); [done..| |].
  { intros w x c Hf [H1 H2 H3 H4]. simpl. split; [|done]. split; simpl; fn_simpl; done. }
  intros _ V2. apply (wp_alone_field Count 0 false); [done..|]. intros _ V3.
  apply (wp_alone_field Threshold (Z.of_nat N) false); [done..|]. intros _ V4.
  apply (wp_alone_field Serial 0 true); [done..|]. intros _ V5. apply Hk.
Qed.

(** Thread 0 prepares the arguments of the next thread. *)
Lemma wp_prepare {A} c y v p l V (k : Z -> prog A) Q :
  arg_field c y v -> (y = arg_id (args (Z.of_nat c)) <-> p = 0%nat) -> (p < 2)%nat ->
  l_end l = false -> l_c l = c -> l_w l = boss true c p ->
  (forall V', wp 0%nat (k 0) (upd_w l (boss true c (S p))) V' Q) ->
  wp 0%nat (Op (NaWrite y v) k) l V Q.
Proof.
  intros Hy Hyp Hp2 Hend Hc Hl Hk. apply wp_client; [apply _|done..|]. intros w x ch Hf. simpl.
  pose proof (hf_ci Hf) as Hci. destruct (bi_args _ _ _ _ Hci) as [H0 Hm Hr Ha Hp Ho].
  pose proof (hf_me Hf) as Hx. rewrite Hl in Hx. rewrite Hx in *. simpl in *.
  rewrite na_write_ok.
  2:{ intros e He. assert (e.1 = 0%nat) as E.
      { apply (Ho c); [done|]. destruct Hy as [[-> _]|[-> _]]; [by left|by right]. }
      pose proof (wf_epoch _ (hf_wf Hf) _ _ He) as Hle. unfold covers. apply Nat.leb_le. by rewrite E in *. }
  exists (boss true c (S p)). split; [|apply Hk].
  apply (other_cell _ _ x); [done|intros f; by eapply arg_addr|auto with workshop|..].
  { intros u. fn_case; [by rewrite Hx|done]. }
  assert (forall i, i <> c -> y <> arg_id (args (Z.of_nat i)) /\ y <> arg_barrier (args (Z.of_nat i))) as Hne.
  { intros i Hi. destruct Hy as [[-> _]|[-> _]]; unfold arg_id, arg_barrier, args; lia. }
  split; simpl; fn_simpl; simpl; try done.
  - intros i Hi. destruct (Hne i ltac:(lia)) as [H1 H2]. fn_simpl. by apply Ha.
  - destruct Hy as [[-> ->]|[-> ->]].
    + assert (p = 0%nat) as -> by (by apply Hyp). fn_simpl. split; [done|lia].
    + assert (p = 1%nat) as -> by (assert (p <> 0%nat) by (rewrite <- Hyp; unfold arg_id, arg_barrier; lia); lia).
      fn_simpl. split; [|done]. intros _. apply Hp. lia.
  - intros i e Hi He. destruct (decide (i = c)) as [->|Hic].
    + revert He. unfold insert, fn_insert. repeat case_decide; intros [He|He];
        try (apply epochs_write in He; by subst e); apply (Ho c); auto.
    + destruct (Hne i Hic) as [H1 H2]. rewrite !fn_lookup_insert_ne in He by done. by eapply Ho.
Qed.

Lemma fork_ok c l V w x :
  hfacts H CI 0%nat l V w x -> l_c l = c -> l_w l = boss true c 2 ->
  CI (fork_world 0%nat w) (<[0%nat := boss true (S c) 0]> x).
Proof.
  intros Hf Hc Hl. pose proof (hf_ci Hf) as Hci. destruct Hci as [[Hh Hw (B & HB & Hcov)] Hg Ho [H0 Hm Hr Ha Hp Hown]].
  destruct (hf_main Hf eq_refl) as [Hn _]. rewrite Hc in Hn.
  pose proof (hf_me Hf) as Hx. rewrite Hl in Hx. rewrite Hx in *. simpl in *.
  assert (forall u, u <> wn w -> wview (fork_world 0%nat w) u = wview w u) as Hv
    by (intros u Hu; simpl; by fn_simpl).
  destruct (same_work_inv (fork_world 0%nat w) x (<[0%nat := boss true (S c) 0]> x)) as (? & ? & ?).
  { intros u. fn_case; [by rewrite Hx|done]. }
  { split_all; [|done|done]. split; [done|done|]. exists B. split.
    - simpl. intros u Hu. fn_case; apply HB; lia.
    - intros f e He. specialize (Hcov f e He). cbn [fork_world set_n set_view wmtx].
      destruct (mowner (wmtx w M)) as [u|] eqn:E; [|done]. rewrite Hv; [done|]. intros ->.
      assert (holding (g_st (x (wn w))) = true) as Hu by (by apply Hh).
      by rewrite (hf_init Hf) in Hu by lia. }
  split; [done..|]. split; simpl; fn_simpl; simpl; try lia; [done|..].
  - intros i Hi. destruct (decide (i = c)) as [->|Hne].
    + rewrite Hn. fn_simpl. destruct Hp as [Hp1 Hp2].
      assert (forall y, y = arg_id (args (Z.of_nat c)) \/ y = arg_barrier (args (Z.of_nat c)) ->
        covers (wview w 0%nat) (nwr (wcell w y)) = true) as Hcv.
      { intros y Hy. assert (nwr (wcell w y) ∈ epochs (wcell w y)) as Hin by apply list_elem_of_here.
        pose proof (wf_epoch _ (hf_wf Hf) _ _ Hin) as Hle. unfold covers. apply Nat.leb_le.
        assert ((nwr (wcell w y)).1 = 0%nat) as E by (apply (Hown c); [done|destruct Hy as [->| ->]; auto]).
        by rewrite E in *. }
      split; (split; [auto with lia|apply Hcv; auto]).
    + rewrite fn_lookup_insert_ne by lia. apply Ha. lia.
  - intros i e Hi. apply Hown. lia.
Qed.

(** The loop that creates the workers. *)
Lemma wp_create_workers n c l V (Q : list Z -> lst bst -> view -> Prop) :
  l_end l = false -> l_c l = c -> (c + n = N)%nat -> l_w l = boss true c 0 ->
  (forall l' V', l_end l' = false -> l_c l' = N -> l_w l' = boss true N 0 -> l_j l' = l_j l ->
     l_out l' = l_out l -> Q (map Z.of_nat (seq (S c) n)) l' V') ->
  wp 0%nat (create_workers (Z.of_nat phases) n (Z.of_nat c)) l V Q.
Proof.
  revert c l V Q. induction n as [|n IH]; intros c l V Q Hend Hc Hn Hl HQ; cbn [create_workers].
  { apply wp_ret. by apply HQ; [|rewrite Hc; lia|rewrite Hl; f_equal; lia|..]. }
  cbn [bind do_ pthread_create].
  apply (wp_prepare c (arg_id (args (Z.of_nat c))) (Z.of_nat c) 0); [by left|done|lia|done..|]. intros V1.
  apply (wp_prepare c (arg_barrier (args (Z.of_nat c))) the_barrier 1); [by right| |lia|done..|].
  { split; [|done]. unfold arg_id, arg_barrier. lia. }
  intros V2. eapply (wp_create_gen H CI c (boss true (S c) 0)); [apply bar_code_ok|done|done|simpl; lia|done|..].
  { intros w x Hf. by eapply fork_ok; [exact Hf|..]. }
  apply wp_bind. replace (Z.of_nat c + 1) with (Z.of_nat (S c)) by lia.
  apply IH; [done|done|lia|done|]. intros l' V' Hend' Hc' Hl' Hj Ho. apply wp_ret. by apply HQ.
Qed.

Lemma wp_barrier_destroy {A} l V (k : unit -> prog A) Q :
  l_end l = false -> l_c l = N -> l_w l = boss true N 0 -> (forall u, (0 < u <= N)%nat -> u ∈ l_j l) ->
  (forall V', wp 0%nat (k tt) l V' Q) -> wp 0%nat (bind (barrier_destroy the_barrier) k) l V Q.
Proof.
  intros Hend Hc Hl Hj Hk. unfold barrier_destroy. cbn [bind do_].
  assert (forall w x V, hfacts H CI 0%nat l V w x -> forall u, g_st (x u) = Out) as Hout.
  { intros w x V' Hf [|u]; [by rewrite (hf_me Hf), Hl|]. destruct (hf_main Hf eq_refl) as [Hn Hjo].
    destruct (decide (u < N)%nat) as [Hlt|Hge]; [|by rewrite (hf_init Hf) by lia].
    destruct (Hjo (S u) (Hj (S u) ltac:(lia))) as [(v & out & i & _ & _ & Hst & _) _]. done. }
  apply wp_grow; [apply _|done..|]. intros w x c Hf. simpl. specialize (Hout _ _ _ Hf) as Ho.
  destruct (bi_lock _ _ _ _ (hf_ci Hf)) as [Hh Hw _]. unfold is_free.
  destruct (mowner (wmtx w M)) as [u|] eqn:E.
  { assert (holding (g_st (x u)) = true) as Hu by (by apply Hh). by rewrite Ho in Hu. }
  split; [apply grows_refl|]. rewrite (hf_view Hf). clear w x c Hf Ho Hh Hw E.
  apply wp_grow; [apply _|done..|]. intros w x c Hf. simpl. specialize (Hout _ _ _ Hf) as Ho.
  destruct (bi_lock _ _ _ _ (hf_ci Hf)) as [Hh Hw _].
  destruct (wcond w (b_cond the_barrier)) as [|u us] eqn:E.
  - split; [apply grows_refl|apply Hk].
  - assert (g_st (x u) = Waiting) as Hu by (apply Hw; by left). by rewrite Ho in Hu.
Qed.

Lemma bar_init : CI init_world (fun _ => bst_init).
Proof.
  apply (idle_inv _ _ false); [apply init_wf|done..| | |].
  - by split.
  - intros [|] l2 i p E; done.
  - intros i e [He|He]; apply list_elem_of_singleton in He; by subst.
Qed.

Lemma wp_barrier_main :
  wp 0%nat (main (Z.of_nat N) (Z.of_nat phases)) (fresh bst_init) vbot
    (fun v l _ => v = 0 /\ forall u, (0 < u <= N)%nat -> u ∈ l_j l).
Proof.
  unfold main. rewrite Nat2Z.id. cbn [puts printf bind do_]. wp_prints.
  apply wp_barrier_init; [done..|]. intros V1.
  apply wp_bind, wp_time_block; [apply _..|done|done|]. apply wp_bind.
  apply (wp_create_workers N 0); [done..|]. intros l V2 Hend Hc Hl Hj Ho.
  apply wp_join_threads; [apply _|done|simpl; by rewrite Hc, Nat.eqb_refl|..].
  { intros u. rewrite elem_of_seq, Hc. lia. }
  intros V3 _. split; [done|]. intros d.
  assert (forall u, (0 < u <= N)%nat -> u ∈ rev (seq 1 N) ++ l_j l) as Hall.
  { intros u Hu. rewrite elem_of_app, elem_of_reverse_rev, elem_of_seq. left. lia. }
  apply wp_barrier_destroy; [done..|]. intros V4. cbn [puts printf bind do_]. wp_prints.
  by apply wp_ret.
Qed.
End BarrierRules.

(** What is asked of the two constants of the program: the phases, and the
    longest sleep in microseconds, fit an [int]. *)
Definition sizes_ok (threads phases : Z) : Prop :=
  0 < threads /\ 0 <= phases /\ in_range INT_BITS phases = true /\
  in_range INT_BITS (100000 * threads) = true.

Section Verdict.
Context (threads phases : Z) (C : config).
Hypothesis (Hs : sizes_ok threads phases) (HC : reachable (main threads phases) C).
Local Abbreviation N := (Z.to_nat threads).
Local Abbreviation P := (Z.to_nat phases).
Local Abbreviation H := (bar_harness N P).
Local Abbreviation CI := (bar_inv N P).

Lemma bar_main_init : CI init_world (h_init H).
Proof. destruct Hs. apply bar_init. lia. Qed.

Lemma bar_main_wp :
  wp (hlogic H CI) 0%nat (main threads phases) (fresh bst_init) vbot
    (fun v l _ => v = 0 /\ forall u, (0 < u <= N)%nat -> u ∈ l_j l).
Proof.
  destruct Hs as (Ht & Hp & Hrp & Hrt).
  assert (in_range INT_BITS threads = true) as Hrn by (eapply in_range_between; [exact Hrt|lia]).
  assert (threads = Z.of_nat N) as Et by lia. assert (phases = Z.of_nat P) as Ep by lia.
  rewrite Et in Hrt, Hrn. rewrite Ep in Hrp.
  assert (main threads phases = main (Z.of_nat N) (Z.of_nat P)) as -> by (f_equal; done).
  apply wp_barrier_main; [done..|lia].
Qed.

Lemma bar_main_inv : ~ faulty C /\ exists g, hinv H CI (wld C) g.
Proof.
  destruct (harness_adequacy H CI _ _ bar_main_init bar_main_wp C HC) as (Hf & _ & g & Hi & _).
  split; [done|by exists g].
Qed.

Lemma barrier_main_ok :
  ~ faulty C /\ can_return C /\ synchronized N (wout (wld C)) /\
  (forall e, e ∈ wout (wld C) -> (ev_tid e <= N)%nat) /\
  forall v, returned C = Some v ->
    forall i, 0 <= i < threads -> printed (S (Z.to_nat i)) C = worker_log P (Z.to_nat i).
Proof.
  destruct bar_main_inv as [Hf [g Hi]].
  destruct (harness_total H CI _ C _ HC bar_main_init bar_main_wp) as (_ & Hret & _ & Hq).
  split_all; [done|done|apply (hi_ci _ _ _ _ Hi)|intros e; by apply (hinv_tids _ _ _ _ _ Hi)|].
  intros v Hv i Hii. destruct (Hq v Hv) as (l & [_ Hl] & _ & Hfin).
  destruct (Hfin (S (Z.to_nat i))) as (v' & out & y & (j & [= <-] & Hlog & _) & ->); [apply Hl; lia|]. done.
Qed.
End Verdict.

(** C2. The barrier synchronizes, and it can be reused: for any number of
    threads and phases, on every execution (spurious wake-ups included) there
    is no data race on the barrier or on the threads' arguments and no other
    undefined behaviour, and no thread says that it has passed the barrier of
    a phase unless every thread has said before that it waits at it. *)
Theorem barrier_synchronizes threads phases C :
  sizes_ok threads phases -> reachable (main threads phases) C ->
  ~ faulty C /\ synchronized (Z.to_nat threads) (wout (wld C)).
Proof. intros Hs Hr. by destruct (barrier_main_ok threads phases C Hs Hr) as (? & _ & ? & _). Qed.

Lemma barrier_synchronizes_witness :
  (forall C, reachable (main NUM_THREADS NUM_PHASES) C ->
     ~ faulty C /\ synchronized 4 (wout (wld C))) /\
  returned (drive 600 2 (start (main 3 2))) = Some 0.
Proof.
  split; [|vm_compute; reflexivity].
  intros C. apply (barrier_synchronizes NUM_THREADS NUM_PHASES C).
  split; [done|split; [done|split; reflexivity]].
Defined.

(** C6. The barrier never deadlocks and every thread goes through all phases:
    from every configuration the program can reach it can still return,
    without the help of a spurious wake-up; and when it has returned, each
    thread has printed, for every phase in order, that it starts, that it
    waits and that it has passed, and nothing else. *)
Theorem barrier_phases_complete threads phases C :
  sizes_ok threads phases -> reachable (main threads phases) C ->
  can_return C /\
  forall v i, returned C = Some v -> 0 <= i < threads ->
    printed (S (Z.to_nat i)) C = worker_log (Z.to_nat phases) (Z.to_nat i).
Proof.
  intros Hs Hr. destruct (barrier_main_ok threads phases C Hs Hr) as (_ & Hret & _ & _ & H).
  split; [done|]. intros v i Hv. by apply (H v).
Qed.

Lemma barrier_phases_complete_witness :
  (forall C, reachable (main NUM_THREADS NUM_PHASES) C -> can_return C) /\
  let C := drive 600 2 (start (main 3 2)) in
  printed 2 C = [says starting 1 0; says waiting 1 0; says passed 1 0;
                 says starting 1 1; says waiting 1 1; says passed 1 1].
Proof.
  split.
  - intros C Hr. apply (barrier_phases_complete NUM_THREADS NUM_PHASES C); [|done].
    split; [done|split; [done|split; reflexivity]].
  - apply (proj2 (barrier_phases_complete 3 2 (drive 600 2 (start (main 3 2)))
      ltac:(split; [lia|split; [lia|split; reflexivity]]) ltac:(apply drive_steps)) 0 1).
    + vm_compute. reflexivity.
    + lia.
Defined.

(** C11. The state of the barrier: in every configuration the program reaches,
    [count] is at most the number of threads, and below it whenever the mutex
    is free; [serial] is between 0 and the number of phases, and it has not run
    ahead of the threads: each of them has said that it waits at every phase
    below [serial]; and once there are workers, [threshold] is their number. *)
Theorem barrier_state threads phases C :
  sizes_ok threads phases -> reachable (main threads phases) C ->
  let field f := nval (wcell (wld C) (f the_barrier)) in
  (0 <= field b_count <= threads /\
   (mowner (wmtx (wld C) (b_mutex the_barrier)) = None -> field b_count < threads)) /\
  (0 <= field b_serial <= phases /\
   forall i p, 0 <= i < threads -> Z.of_nat p < field b_serial ->
     says waiting (Z.to_nat i) p ∈ wout (wld C)) /\
  ((2 <= wn (wld C))%nat -> field b_threshold = threads).
Proof.
  intros Hs Hr field. destruct (bar_main_inv threads phases C Hs Hr) as [_ [g Hi]].
  destruct Hs as (Ht & Hp & _). destruct (hi_ci _ _ _ _ Hi) as [Hl Hg Ho Ha].
  set (N := Z.to_nat threads) in *. assert (threads = Z.of_nat N) as Et by lia.
  change (field b_count) with (nval (wcell (wld C) (addr Count))).
  change (field b_serial) with (nval (wcell (wld C) (addr Serial))).
  change (field b_threshold) with (nval (wcell (wld C) (addr Threshold))). clear field.
  destruct Hg as [G1 G2 _ G4 _]. cbv beta in *. set (count := nval (wcell (wld C) (addr Count))) in *. set (serial := nval (wcell (wld C) (addr Serial))) in *.
  pose proof (arrived_bound N serial (gw g)) as Hb. split; [|split].
  - split; [destruct (holder_stage _ (gw g)); unfold stage_ok in G4; lia|].
    intros Ho'. rewrite Ho' in G4. simpl in G4. lia.
  - assert (forall i, (i < N)%nat -> serial <= Z.of_nat (g_said (gw g (S i))) <= phases) as Hsaid.
    { intros i Hi'. specialize (G2 i Hi'). pose proof (bo_said _ _ _ _ Ho i Hi'). lia. }
    split; [specialize (Hsaid 0%nat); specialize (G2 0%nat); lia|]. intros i p Hi' Hp'.
    apply (bo_lines _ _ _ _ Ho); [lia|]. specialize (Hsaid (Z.to_nat i)). lia.
  - intros Hn. rewrite Et. apply G1. destruct Ha as [_ Hm Hrd _ _ _]. apply Hrd. lia.
Qed.

Lemma barrier_state_witness :
  let C := drive 60 2 (start (main 3 2)) in
  let field f := nval (wcell (wld C) (f the_barrier)) in
  0 <= field b_count <= 3 /\ 0 <= field b_serial <= 2 /\ field b_threshold = 3.
Proof.
  intros C field.
  destruct (barrier_state 3 2 C) as ([Hc _] & [Hs _] & Ht);
    [split; [lia|split; [lia|split; reflexivity]]|apply drive_steps|].
  split; [exact Hc|]. split; [exact Hs|]. apply Ht. vm_compute. lia.
Defined.
