(* ===== verification/BarrierSpec.v ===== *)
(** * Exercise 06: the barrier refines an abstract one

    The abstract barrier is an automaton on the lines the threads print: a
    thread starts a phase, reaches the barrier, and passes it when all threads
    have reached it. Every execution of the program prints a run of it. *)

From S2P Require Import Prelude Machine Logic Harness Barrier.

(** ** The specification *)

(** Where a thread is in its phase: not yet begun, working, at the barrier. *)
Inductive place := Before | Working | AtBarrier.

(** The phase and the place of every thread. *)
Abbreviation astate := (nat -> nat * place) (only parsing).

(** [bar_spec N phases s e s']: in state [s] the barrier of [N] threads may
    print [e], and is then in state [s']. *)
Inductive bar_spec (N phases : nat) : astate -> event -> astate -> Prop :=
| spec_start s s' i p :
    (i < N)%nat -> (p < phases)%nat -> s i = (p, Before) ->
    (forall j, s' j = <[i := (p, Working)]> s j) -> bar_spec N phases s (says starting i p) s'
| spec_wait s s' i p :
    (i < N)%nat -> s i = (p, Working) ->
    (forall j, s' j = <[i := (p, AtBarrier)]> s j) -> bar_spec N phases s (says waiting i p) s'
| spec_pass s s' i p :
    (i < N)%nat -> s i = (p, AtBarrier) ->
    (forall j, (j < N)%nat -> s j = (p, AtBarrier) \/ (p < (s j).1)%nat) ->
    (forall j, s' j = <[i := (S p, Before)]> s j) -> bar_spec N phases s (says passed i p) s'.

(** The runs of the automaton, latest line first. *)
Inductive spec_run (N phases : nat) : list event -> astate -> Prop :=
| run_init s : (forall i, s i = (0%nat, Before)) -> spec_run N phases [] s
| run_step out s e s' :
    spec_run N phases out s -> bar_spec N phases s e s' -> spec_run N phases (e :: out) s'.

(** The lines of the threads that thread 0 has created. *)
Definition workers_out (out : list event) : list event := filter (fun e => ev_tid e <> 0%nat) out.

(** ** The lines of one thread *)

(** The state of a thread that has printed [k] lines, and its next line. *)
Definition after_lines (k : nat) : nat * place :=
  ((k / 3)%nat, match (k mod 3)%nat with 0%nat => Before | 1%nat => Working | _ => AtBarrier end).
Definition next_line (i k : nat) : event :=
  says (match (k mod 3)%nat with 0%nat => starting | 1%nat => waiting | _ => passed end) i (k / 3).

Lemma lines_of_phase k p r :
  (k = 3 * p + r)%nat -> (r < 3)%nat -> (k / 3)%nat = p /\ (k mod 3)%nat = r.
Proof.
  intros -> Hr. split; [rewrite Nat.mul_comm, Nat.div_add_l, Nat.div_small; lia|].
  rewrite Nat.add_comm, Nat.mul_comm, Nat.Div0.mod_add. by apply Nat.mod_small.
Qed.

Lemma worker_log_lines phases i : worker_log phases i = map (next_line i) (seq 0 (3 * phases)).
Proof.
  induction phases as [|p IH]; [done|]. rewrite worker_log_S, IH.
  replace (3 * S p)%nat with (3 * p + 3)%nat by lia. rewrite seq_app, map_app, Nat.add_0_l. f_equal.
  assert (exists k, k = 3 * p)%nat as [k Hk] by eauto. rewrite <- Hk. cbn [seq map].
  unfold next_line, phase_log.
  destruct (lines_of_phase k p 0) as [-> ->]; [lia|lia|].
  destruct (lines_of_phase (S k) p 1) as [-> ->]; [lia|lia|].
  destruct (lines_of_phase (S (S k)) p 2) as [-> ->]; [lia|lia|]. done.
Qed.

(** The log of a thread, latest line first, after [k] lines. *)
Definition lines (i k : nat) : list event := rev (map (next_line i) (seq 0 k)).

Lemma lines_S i k : lines i (S k) = next_line i k :: lines i k.
Proof. unfold lines. by rewrite seq_S, map_app, rev_app_distr. Qed.

Lemma lines_length i k : length (lines i k) = k.
Proof. unfold lines. by rewrite length_rev, length_map, length_seq. Qed.

Lemma waiting_in_lines i k p : says waiting i p ∈ lines i k -> (3 * p + 2 <= k)%nat.
Proof.
  unfold lines. rewrite elem_of_reverse_rev, list_elem_of_fmap. intros (j & Hj & Hin%elem_of_seq).
  unfold next_line in Hj. pose proof (Nat.div_mod_eq j 3) as Hdiv.
  revert Hj Hdiv. generalize (j / 3)%nat, (j mod 3)%nat. intros q r Hj Hdiv.
  destruct r as [|[|r]]; [discriminate Hj| |discriminate Hj]. injection Hj as Hp. lia.
Qed.

(** ** The refinement *)

(** The state of a thread that is to print its [k]-th line. *)
Lemma next_line_cases k :
  exists p, (k = 3 * p)%nat /\ after_lines k = (p, Before) /\ after_lines (S k) = (p, Working) /\
            (forall i, next_line i k = says starting i p)
         \/ (k = 3 * p + 1)%nat /\ after_lines k = (p, Working) /\ after_lines (S k) = (p, AtBarrier) /\
            (forall i, next_line i k = says waiting i p)
         \/ (k = 3 * p + 2)%nat /\ after_lines k = (p, AtBarrier) /\ after_lines (S k) = (S p, Before) /\
            (forall i, next_line i k = says passed i p).
Proof.
  unfold after_lines, next_line. pose proof (Nat.div_mod_eq k 3) as Hk.
  pose proof (Nat.mod_upper_bound k 3 ltac:(lia)) as Hr. exists (k / 3)%nat.
  destruct (k mod 3)%nat as [|[|[|]]] eqn:E; [left|right; left|right; right|lia].
  - destruct (lines_of_phase (S k) (k / 3) 1) as [-> ->]; [lia|lia|]. split_all; try done; lia.
  - destruct (lines_of_phase (S k) (k / 3) 2) as [-> ->]; [lia|lia|]. split_all; try done; lia.
  - destruct (lines_of_phase (S k) (S (k / 3)) 0) as [-> ->]; [lia|lia|]. split_all; try done; lia.
Qed.

(** A thread past [3 * p + 2] lines has reached the barrier of phase [p]. *)
Lemma after_waiting k p :
  (3 * p + 2 <= k)%nat -> after_lines k = (p, AtBarrier) \/ (p < (after_lines k).1)%nat.
Proof.
  intros Hk. destruct (decide (k = 3 * p + 2)%nat) as [->|Hne].
  - left. unfold after_lines. by destruct (lines_of_phase (3 * p + 2) p 2) as [-> ->]; [lia..|].
  - right. unfold after_lines. cbn [fst]. apply Nat.div_le_lower_bound; lia.
Qed.

(** The next line of thread [i] is one the automaton may print. *)
Lemma spec_next N phases out (k : nat -> nat) i ki :
  (i < N)%nat -> (S ki <= 3 * phases)%nat -> k i = S ki -> synchronized N (next_line i ki :: out) ->
  (forall j, (j < N)%nat -> log (S j) out = lines j (<[i := ki]> k j)) ->
  bar_spec N phases (fun j => after_lines (<[i := ki]> k j)) (next_line i ki) (fun j => after_lines (k j)).
Proof.
  intros Hi Hk Eki Hs Hl.
  assert (forall x, after_lines (S ki) = x ->
    forall j, after_lines (k j) = <[i := x]> (fun j => after_lines (<[i := ki]> k j)) j) as Hupd.
  { intros x <- j. destruct (decide (j = i)) as [->|]; fn_simpl; [by rewrite Eki|done]. }
  destruct (next_line_cases ki) as [p [(Ek & Ha & Hb & Hn)|[(Ek & Ha & Hb & Hn)|(Ek & Ha & Hb & Hn)]]];
    rewrite Hn in *.
  - apply spec_start; [done|lia|by fn_simpl|by apply Hupd].
  - apply spec_wait; [done|by fn_simpl|by apply Hupd].
  - apply spec_pass; [done|by fn_simpl| |by apply Hupd]. intros j Hj.
    apply after_waiting, (waiting_in_lines j). rewrite <- Hl by done.
    apply list_elem_of_filter. split; [done|]. by apply (Hs [] out i p).
Qed.

(** An output whose lines are, thread by thread, the first ones of the thread's
    log, and which is synchronized, is a run of the automaton. *)
Lemma lines_refine N phases out (k : nat -> nat) :
  synchronized N out -> (forall e, e ∈ out -> (ev_tid e <= N)%nat) ->
  (forall i, (i < N)%nat -> log (S i) out = lines i (k i) /\ (k i <= 3 * phases)%nat) ->
  (forall i, (N <= i)%nat -> k i = 0%nat) ->
  spec_run N phases (workers_out out) (fun i => after_lines (k i)).
Proof.
  revert k. induction out as [|e out IH]; intros k Hs Ht Hl H0.
  { constructor. intros i. assert (k i = 0%nat) as ->; [|done].
    destruct (decide (i < N)%nat) as [Hi|]; [|apply H0; lia]. destruct (Hl i Hi) as [Hi' _].
    rewrite <- (lines_length i (k i)), <- Hi'. done. }
  assert (synchronized N out) as Hs' by (intros l1 l2 i p E; apply (Hs (e :: l1) l2 i p); by rewrite E).
  assert (forall e, e ∈ out -> (ev_tid e <= N)%nat) as Ht' by (intros e' He'; apply Ht; by right).
  unfold workers_out, log in *. rewrite filter_cons. case_decide as Htid.
  - destruct (ev_tid e) as [|i] eqn:Ei; [done|]. assert (i < N)%nat as Hi by (pose proof (Ht e ltac:(by left)); lia).
    destruct (Hl i Hi) as [Hli Hk]. rewrite filter_cons, decide_True in Hli by done.
    destruct (k i) as [|ki] eqn:Eki; [done|]. rewrite lines_S in Hli. injection Hli as He Hli.
    apply (run_step _ _ _ (fun j => after_lines (<[i := ki]> k j))).
    { apply IH; [done..| |]; intros j Hj.
      - destruct (decide (j = i)) as [->|Hne]; fn_simpl; [split; [done|lia]|].
        destruct (Hl j Hj) as [Hlj Hkj]. rewrite filter_cons, decide_False in Hlj by congruence. done.
      - fn_simpl. by apply H0. }
    rewrite He in *. apply (spec_next N phases out k i ki); [done..|].
    intros j Hj. destruct (Hl j Hj) as [Hlj Hkj]. destruct (decide (j = i)) as [->|Hne]; fn_simpl; [done|].
    rewrite filter_cons, decide_False in Hlj by congruence. done.
  - apply IH; [done..| |done]. intros i Hi. destruct (Hl i Hi) as [Hli Hk].
    rewrite filter_cons, decide_False in Hli by lia. done.
Qed.

(** ** The program *)

(** At every moment a thread has printed the first lines of its log: the
    program can still return, and its output only grows. *)
Lemma worker_prefix threads phases C i :
  sizes_ok threads phases -> reachable (main threads phases) C -> (i < Z.to_nat threads)%nat ->
  exists k, log (S i) (wout (wld C)) = lines i k /\ (k <= 3 * Z.to_nat phases)%nat.
Proof.
  intros Hs Hr Hi. destruct (barrier_main_ok threads phases C Hs Hr) as (_ & (C' & Hst & [v Hv]) & _).
  apply sure_steps in Hst.
  destruct (barrier_main_ok threads phases C' Hs) as (_ & _ & _ & _ & Hlog); [unfold reachable, steps in *; by etrans|].
  specialize (Hlog v Hv (Z.of_nat i) ltac:(lia)). rewrite !Nat2Z.id, worker_log_lines in Hlog.
  destruct (steps_out _ _ Hst) as [new Hnew]. unfold printed, log in *.
  rewrite Hnew, filter_app, rev_app_distr in Hlog.
  set (l := filter (fun e => ev_tid e = S i) (wout (wld C))) in *.
  exists (length l). assert (length l <= 3 * Z.to_nat phases)%nat as Hle.
  { apply (f_equal length) in Hlog. rewrite length_app, !length_rev, length_map, length_seq in Hlog. lia. }
  split; [|done]. unfold lines. rewrite <- (rev_involutive l) at 1. f_equal.
  apply (f_equal (take (length l))) in Hlog.
  rewrite take_app_le, take_ge in Hlog by (rewrite length_rev; lia). rewrite Hlog, <- fmap_take, take_seq.
  by rewrite Nat.min_l by lia.
Qed.

Lemma workers_exist threads phases C :
  sizes_ok threads phases -> reachable (main threads phases) C ->
  exists k : nat -> nat,
    (forall i, (i < Z.to_nat threads)%nat ->
       log (S i) (wout (wld C)) = lines i (k i) /\ (k i <= 3 * Z.to_nat phases)%nat) /\
    forall i, (Z.to_nat threads <= i)%nat -> k i = 0%nat.
Proof.
  intros Hs Hr. exists (fun i => if decide (i < Z.to_nat threads)%nat then length (log (S i) (wout (wld C))) else 0%nat).
  split; intros i Hi; [|by rewrite decide_False by lia]. rewrite decide_True by done.
  destruct (worker_prefix threads phases C i Hs Hr Hi) as (k & -> & Hk). by rewrite lines_length.
Qed.

(** C5. The barrier program refines the abstract barrier: at every moment of
    every execution, what the threads have printed is a run of the automaton
    in which a thread passes the barrier of a phase only when all threads have
    reached it; and when the program has returned, every thread is past the
    last phase. *)
Theorem barrier_refines_spec threads phases C :
  sizes_ok threads phases -> reachable (main threads phases) C ->
  exists s, spec_run (Z.to_nat threads) (Z.to_nat phases) (workers_out (wout (wld C))) s /\
    forall v i, returned C = Some v -> (i < Z.to_nat threads)%nat -> s i = (Z.to_nat phases, Before).
Proof.
  intros Hs Hr. destruct (workers_exist threads phases C Hs Hr) as (k & Hk & H0).
  destruct (barrier_main_ok threads phases C Hs Hr) as (_ & _ & Hsync & Htid & Hlog).
  exists (fun i => after_lines (k i)). split; [by apply lines_refine|]. intros v i Hv Hi.
  specialize (Hlog v Hv (Z.of_nat i) ltac:(lia)). rewrite !Nat2Z.id, worker_log_lines in Hlog.
  apply (f_equal length) in Hlog. unfold printed in Hlog. destruct (Hk i Hi) as [Hl _].
  rewrite Hl, length_rev, lines_length, length_map, length_seq in Hlog. rewrite Hlog. unfold after_lines.
  by destruct (lines_of_phase (3 * Z.to_nat phases) (Z.to_nat phases) 0) as [-> ->]; [lia..|].
Qed.

Lemma barrier_refines_spec_witness :
  (forall C, reachable (main NUM_THREADS NUM_PHASES) C ->
     exists s, spec_run 4 3 (workers_out (wout (wld C))) s) /\
  exists s, spec_run 3 2 (workers_out (wout (wld (drive 600 2 (start (main 3 2)))))) s /\
    s 1%nat = (2%nat, Before).
Proof.
  split.
  - intros C Hr. destruct (barrier_refines_spec NUM_THREADS NUM_PHASES C) as (s & Hs & _); [|done|by exists s].
    split; [done|split; [done|split; reflexivity]].
  - destruct (barrier_refines_spec 3 2 (drive 600 2 (start (main 3 2)))) as (s & Hs & Hf).
    + split; [lia|split; [lia|split; reflexivity]].
    + apply drive_steps.
    + exists s. split; [exact Hs|]. apply (Hf 0 1%nat); [vm_compute; reflexivity|lia].
Defined.
