(* ===== verification/Rwlock.v ===== *)
(** * Exercise 02: a reader-writer lock

    src/exercises/02_rwlock/02_rwlock.c: readers and writers of one plain
    counter under a [pthread_rwlock_t]. *)

From S2P Require Import Prelude Machine Logic Race Discipline Harness Bench Termination.

(** [#define NUM_READERS 8], [NUM_WRITERS 2], [OPERATIONS 10] *)
Definition NUM_READERS : Z := 8.
Definition NUM_WRITERS : Z := 2.
Definition OPERATIONS : Z := 10.

(** The globals. *)
Definition shared_data : loc := 8.
Definition rwlock : loc := 64.

(** The [timespec] that [sleep_for_us] hands to [nanosleep]; C's [/] and [%]
    round towards zero. *)
Definition sleep_request (usec : Z) : timespec :=
  Timespec (Z.quot usec 1000000) (Z.rem usec 1000000 * 1000).
Definition nanosleep (req : timespec) : prog unit := do_ Pause.
Definition sleep_for_us (usec : Z) : prog unit := nanosleep (sleep_request usec).

Definition read_fmt : string := "Reader %ld read: %d\n".
Definition write_fmt : string := "Writer %ld wrote: %d\n".

Section Threads.
Context (operations : Z).

Definition reader (id : Z) : prog Z :=
  for_ operations (fun _ =>
    do_ (RwRdlock rwlock);;
    v ← perform (NaRead shared_data);
    printf read_fmt [id; v];;
    sleep_for_us 100000;;
    do_ (RwUnlock rwlock);;
    sleep_for_us 50000);;
  Ret 0.

Definition writer (id : Z) : prog Z :=
  for_ operations (fun _ =>
    do_ (RwWrlock rwlock);;
    incr INT_BITS shared_data;;
    v ← perform (NaRead shared_data);
    printf write_fmt [id; v];;
    sleep_for_us 200000;;
    do_ (RwUnlock rwlock);;
    sleep_for_us 300000);;
  Ret 0.
End Threads.

(** The elapsed time is printed in nanoseconds, before the division by 1e9. *)
Definition main (readers writers operations : Z) : prog Z :=
  do_ (RwInit rwlock);;
  printf "Starting read-write lock demo (readers: %d, writers: %d)\n\n" [readers; writers];;
  start ← clock_gettime;
  rs ← create_threads readers (reader operations);
  ws ← create_threads writers (writer operations);
  join_threads rs;;
  join_threads ws;;
  end_ ← clock_gettime;
  printf "\nCompleted in %.2f seconds\n"
    [(tv_sec end_ - tv_sec start) * 10 ^ 9 + (tv_nsec end_ - tv_nsec start)];;
  v ← perform (NaRead shared_data);
  printf "Final value: %d\n" [v];;
  do_ (RwDestroy rwlock);;
  Ret 0.

(** ** Specification *)

(** The number of writers' lines. *)
Definition writes (out : list event) : Z :=
  Z.of_nat (length (filter (fun e => ev_fmt e = write_fmt) out)).

(** The output (latest line first) is one that a counter accessed one
    operation at a time could have produced: a reader reports the number of
    writes reported before it, a writer one more. *)
Definition sequential (out : list event) : Prop :=
  forall l1 l2 e id v, out = l1 ++ e :: l2 -> ev_args e = [id; v] ->
    (ev_fmt e = read_fmt -> v = writes l2) /\ (ev_fmt e = write_fmt -> v = writes l2 + 1).

(** ** The invariant *)

(** Where a thread is: outside; reading, with the value it has read; or
    writing: not yet begun, the counter read, written back, the new value read
    again, and the line printed. *)
Inductive rstage :=
  Idle | Reading (v : option Z) | Writing | Updating (v : Z) | Updated (v : option Z) | Reported.

Definition is_writing (s : rstage) : bool := match s with Idle | Reading _ => false | _ => true end.
Definition is_reading (s : rstage) : bool := match s with Reading _ => true | _ => false end.
Definition is_updated (s : rstage) : bool := match s with Updated _ => true | _ => false end.

(** The value of the counter a thread knows, while it holds the lock. *)
Definition knows (s : rstage) : option Z :=
  match s with Reading o | Updated o => o | Updating v => Some v | _ => None end.

(** Ghost state: the operations done (a write counts when it is written back)
    and the stage. *)
Record rst := Rst { r_cnt : Z; r_st : rstage }.

Definition r_finished (ops : Z) (s : rst) : Prop := r_cnt s = ops /\ r_st s = Idle.

Section Invariant.
Context (R N : nat) (ops : Z).

(** Threads 1 to [R] read, threads [R+1] to [N] write. *)
Definition written (x : tid -> rst) : Z :=
  sumn (S N) (fun u => if decide (R < u)%nat then r_cnt (x u) else 0).

(** The lock, and the order it puts on the accesses. *)
Record rw_lock (w : world) (x : tid -> rst) : Prop := {
  rl_writer : forall u, is_writing (r_st (x u)) = true <-> rwriter (wrw w rwlock) = Some u;
  rl_readers : forall u, is_reading (r_st (x u)) = true <-> u ∈ rreaders (wrw w rwlock);
  rl_nodup : NoDup (rreaders (wrw w rwlock));
  rl_excl : rwriter (wrw w rwlock) <> None -> rreaders (wrw w rwlock) = [];
  rl_seen : (exists u, (0 < u <= N)%nat /\ ~ r_finished ops (x u)) ->
    exists B, (forall u, (u < Nat.max 1 (wn w))%nat -> B ⊑v wview w u) /\
    match rwriter (wrw w rwlock) with
    | Some u => forall e, e ∈ epochs (wcell w shared_data) -> covers (B ⊔v wview w u) e = true
    | None =>
        covers (B ⊔v rw_wrel (wrw w rwlock)) (nwr (wcell w shared_data)) = true /\
        (forall e, e ∈ nrd (wcell w shared_data) ->
           covers (B ⊔v rw_wrel (wrw w rwlock) ⊔v rw_rrel (wrw w rwlock)) e = true \/
           e.1 ∈ rreaders (wrw w rwlock)) /\
        (forall u, u ∈ rreaders (wrw w rwlock) ->
           covers (wview w u) (nwr (wcell w shared_data)) = true)
    end
}.

(** Readers read and writers write. *)
Definition role_ok (u : tid) (s : rstage) : Prop :=
  match s with Idle => True | Reading _ => (0 < u <= R)%nat | _ => (R < u)%nat end.

(** The counter's value [v] and the output. *)
Record rw_data (v : Z) (out : list event) (x : tid -> rst) : Prop := {
  rd_sum : v = written x;
  rd_cnt : forall u, 0 <= r_cnt (x u) <= match u with O => 0 | S _ => ops end;
  rd_read : forall u v', knows (r_st (x u)) = Some v' -> v' = v;
  rd_out : sequential out;
  rd_writes : (forall u, is_updated (r_st (x u)) = false) -> writes out = v;
  rd_behind : forall u, is_updated (r_st (x u)) = true -> writes out = v - 1;
  rd_role : forall u, role_ok u (r_st (x u))
}.

Record rw_inv (w : world) (x : tid -> rst) : Prop := {
  ri_lock : rw_lock w x;
  ri_data : rw_data (nval (wcell w shared_data)) (wout w) x
}.

(** A thread can get on when it has the lock, or when nobody has it. *)
Definition rw_ready (t : tid) (w : world) (x : tid -> rst) : Prop :=
  r_st (x t) <> Idle \/ forall u, r_st (x u) = Idle.

Definition rw_harness : harness rst :=
  Harness N (fun i => if decide (i < R)%nat then reader ops (Z.of_nat i)
                      else writer ops (Z.of_nat (i - R)))
    (fun _ => Rst 0 Idle) (fun _ _ _ s => r_finished ops s) (fun _ => True)
    rw_ready (fun _ => true).
End Invariant.

(** ** Lemmas *)

Section Rules.
Context (R N : nat) (ops : Z).
Local Abbreviation H := (rw_harness R N ops).
Local Abbreviation CI := (rw_inv R N ops).
Local Abbreviation wp := (wp (hlogic H CI)).

Lemma written_ext x x' : (forall u, x u = x' u) -> written R N x = written R N x'.
Proof. intros Hx. apply sumn_ext. intros u _. by rewrite Hx. Qed.

Lemma data_ext v out x x' :
  (forall u, x u = x' u) -> rw_data R N ops v out x -> rw_data R N ops v out x'.
Proof.
  intros Hx [D1 D2 D3 D4 D5 D6 D7]. split; try done.
  - rewrite D1. by apply written_ext.
  - intros u. rewrite <- Hx. apply D2.
  - intros u v'. rewrite <- Hx. apply D3.
  - intros Hno. apply D5. intros u. rewrite Hx. apply Hno.
  - intros u. rewrite <- Hx. apply D6.
  - intros u. rewrite <- Hx. apply D7.
Qed.

Lemma written_upd t y x :
  (t < S N)%nat ->
  written R N (<[t := y]> x) = written R N x + if decide (R < t)%nat then r_cnt y - r_cnt (x t) else 0.
Proof.
  intros Ht. unfold written.
  rewrite (sumn_upd _ (fun u => if decide (R < u)%nat then r_cnt (x u) else 0) _ t);
    [|done|intros; by fn_simpl]. fn_simpl. case_decide; lia.
Qed.

#[export] Instance rw_growing : Growing CI.
Proof.
  intros w w' x x' Hg Hx [[H1 H2 H3 H4 H5] Hd].
  destruct Hg as [Hv _ Hc _ _ Hrw Hout Hn Hnew]. split.
  - split; rewrite ?Hrw, ?Hc; try done; [intros u; rewrite <- Hx; apply H1|intros u; rewrite <- Hx; apply H2|].
    intros (u & Hu & Hnf). rewrite <- Hx in Hnf. destruct H5 as (B & HB & Hcov); [by exists u|].
    exists B. split.
    + intros v Hlt. destruct (decide (v < Nat.max 1 (wn w))%nat) as [Hl|Hge].
      * etrans; [by apply HB|apply Hv].
      * etrans; [apply (HB 0%nat); lia|apply Hnew; lia].
    + destruct (rwriter (wrw w rwlock)) as [v|].
      * intros e He. eapply covers_mono; [|by apply Hcov]. apply vjoin_proper; [done|apply Hv].
      * destruct Hcov as (C1 & C2 & C3). split_all; [done..|]. intros v Hv'.
        eapply covers_mono; [apply Hv|by apply C3].
  - rewrite Hc, Hout. by eapply data_ext.
Qed.

(** A thread's move that changes neither the counter nor the output. *)
Lemma data_move t y v out x :
  rw_data R N ops v out x -> (0 < t < S N)%nat -> is_updated (r_st y) = is_updated (r_st (x t)) ->
  (forall v', knows (r_st y) = Some v' -> v' = v) -> 0 <= r_cnt y <= ops ->
  ((R < t)%nat -> r_cnt y = r_cnt (x t)) -> role_ok R t (r_st y) ->
  rw_data R N ops v out (<[t := y]> x).
Proof.
  intros [D1 D2 D3 D4 D5 D6 D7] Ht Hs Hv Hc Hw Hrole. split; try done.
  - rewrite written_upd, D1 by lia. case_decide; [rewrite Hw by done|]; lia.
  - intros u. fn_case; [destruct u; [lia|done]|apply D2].
  - intros u v'. fn_case; [apply Hv|apply D3].
  - intros Hno. apply D5. intros u. specialize (Hno u). revert Hno. fn_case; [by rewrite Hs|done].
  - intros u. fn_case; [rewrite Hs|]; apply D6.
  - intros u. fn_case; [done|apply D7].
Qed.

Lemma in_range_t t l V w x : hfacts H CI t l V w x -> (0 < t)%nat -> (0 < t < S N)%nat.
Proof. intros Hf Ht. pose proof (hf_lt Hf). pose proof (hf_max Hf). simpl in *. lia. Qed.

(** A ready thread that does not have the lock finds it free. *)
Lemma ready_idle t l V w x c :
  hfacts H CI t l V w x -> (0 < t)%nat -> ready_for H t w x -> l_w l = Rst c Idle ->
  rwriter (wrw w rwlock) = None /\ rreaders (wrw w rwlock) = [].
Proof.
  intros Hf Ht Hr Hl. assert (forall u, r_st (x u) = Idle) as Hidle.
  { destruct t; [lia|]. destruct Hr as [Hne|]; [|done]. by rewrite (hf_me Hf), Hl in Hne. }
  destruct (hf_ci Hf) as [[H1 H2 _ _ _] _]. split.
  - destruct (rwriter (wrw w rwlock)) as [u|]; [|done].
    assert (is_writing (r_st (x u)) = true) as Hu by (by apply H1). by rewrite Hidle in Hu.
  - destruct (rreaders (wrw w rwlock)) as [|u us]; [done|].
    assert (is_reading (r_st (x u)) = true) as Hu by (apply H2; by left). by rewrite Hidle in Hu.
Qed.

#[export] Instance rw_progress : Progress H CI.
Proof.
  intros w g Hi Hwf _ (u & Hu & Hnd). pose proof (hi_ci _ _ _ _ Hi) as [[H1 H2 _ _ _] Hd].
  assert (forall v, r_st (gw g v) <> Idle -> exists v, (0 < v < wn w)%nat /\ wdone w v = None /\ h_ready H v w (gw g)) as Hone.
  { intros v Hv. exists v. split; [split|split; [|by left]].
    - destruct v; [|lia]. pose proof (rd_role _ _ _ _ _ _ Hd 0%nat) as Hrole. by destruct (r_st (gw g 0%nat)); simpl in Hrole; try lia.
    - destruct (decide (wn w <= v)%nat) as [Hge|]; [|lia]. unfold gw in Hv.
      by rewrite (proj1 (hi_init _ _ _ _ Hi v Hge)) in Hv.
    - destruct (wdone w v) as [r|] eqn:E; [|done]. by destruct (hi_done _ _ _ _ Hi v r E) as (_ & [_ ?] & _). }
  destruct (rwriter (wrw w rwlock)) as [v|] eqn:Ew.
  { apply (Hone v). intros Hv. assert (is_writing (r_st (gw g v)) = true) as Hw by (by apply H1).
    by rewrite Hv in Hw. }
  destruct (rreaders (wrw w rwlock)) as [|v vs] eqn:Er.
  - exists u. split; [lia|]. split; [done|]. right. intros v. destruct (r_st (gw g v)) eqn:E; try done; exfalso.
    1: assert (v ∈ []) as Hv by (apply H2; by rewrite E); by apply elem_of_nil in Hv.
    all: assert (None = Some v) by (apply H1; by rewrite E); done.
  - apply (Hone v). intros Hv. assert (is_reading (r_st (gw g v)) = true) as Hr by (apply H2; by left).
    by rewrite Hv in Hr.
Qed.

(** *** Readers *)

Lemma wp_rdlock {A} t c l V (k : Z -> prog A) Q :
  l_end l = false -> (0 < t <= R)%nat -> l_w l = Rst c Idle -> 0 <= c < ops ->
  (forall V', wp t (k 0) (upd_w l (Rst c (Reading None))) V' Q) ->
  wp t (Op (RwRdlock rwlock) k) l V Q.
Proof.
  intros Hend Ht Hl Hc Hk. apply wp_client_wait; [apply _|done..| |].
  2:{ intros w x Hf Hr. exists (Choice 0 false 0). split; [done|]. simpl. unfold do_rdlock.
      by destruct (ready_idle _ _ _ _ _ _ Hf ltac:(lia) Hr Hl) as [-> _]. }
  intros w x ch Hf. simpl. unfold do_rdlock.
  pose proof (hf_ci Hf) as Hci. destruct Hci as [[H1 H2 H3 H4 H5] Hd].
  pose proof (hf_me Hf) as Hx. rewrite Hl in Hx. pose proof (in_range_t _ _ _ _ _ Hf ltac:(lia)) as Htr.
  destruct (rwriter (wrw w rwlock)) as [u|] eqn:E; [done|].
  exists (Rst c (Reading None)). split; [|apply Hk].
  assert (t ∉ rreaders (wrw w rwlock)) as Hnot by (intros Hin; apply H2 in Hin; by rewrite Hx in Hin).
  split; [|apply data_move; simpl; rewrite ?Hx; simpl; try done; lia].
  destruct H5 as (B & HB & C1 & C2 & C3).
  { exists t. split; [lia|]. rewrite Hx. intros [Hbad _]. simpl in Hbad. lia. }
  split; simpl; fn_simpl; simpl.
  - intros u. rewrite <- H1. fn_case; [by rewrite Hx|done].
  - intros u. rewrite elem_of_cons, <- H2. fn_case; [split; [by left|done]|]. split; [by right|]. by intros [->|].
  - by constructor.
  - done.
  - intros _. exists B. split; [intros u Hu; specialize (HB u Hu); fn_case; [auto with workshop|done]|].
    split_all; [done|..].
    + intros e He. destruct (C2 e He) as [|Hin]; [by left|right; by right].
    + intros u [->|Hu]%elem_of_cons.
      * fn_simpl. eapply covers_mono; [|exact C1]. apply vjoin_proper; [apply HB|done].
        pose proof (hf_lt Hf). lia.
      * assert (u <> t) by (by intros ->). fn_simpl. by apply C3.
Qed.

(** An access by a thread that keeps its hold on the lock: the new accesses
    are its own. *)
Lemma reader_access t w x V c y :
  rw_lock N ops w x -> is_reading (r_st (x t)) = true -> is_reading (r_st y) = true ->
  wview w t ⊑v V -> nwr c = nwr (wcell w shared_data) ->
  (forall e, e ∈ nrd c -> e.1 = t \/ e ∈ nrd (wcell w shared_data)) ->
  rw_lock N ops (set_cell shared_data c (set_view t V w)) (<[t := y]> x).
Proof.
  intros [H1 H2 H3 H4 H5] Hr Hr' HV Hw Hrd.
  assert (rwriter (wrw w rwlock) = None) as Hno.
  { destruct (rwriter (wrw w rwlock)) eqn:E; [|done]. apply H2 in Hr. rewrite H4 in Hr by done. by apply elem_of_nil in Hr. }
  split; simpl; fn_simpl; try done.
  - intros u. rewrite <- H1. fn_case; [|done]. by destruct (r_st y), (r_st (x u)).
  - intros u. rewrite <- H2. fn_case; [|done]. by rewrite Hr, Hr'.
  - intros (u & Hu & Hnf).
    destruct H5 as (B & HB & Hc).
    { destruct (decide (u = t)) as [->|]; [exists t; split; [done|]; intros [_ Hbad]; by rewrite Hbad in Hr|].
      exists u. split; [done|]. by rewrite fn_lookup_insert_ne in Hnf by done. }
    rewrite Hno in *. destruct Hc as (C1 & C2 & C3).
    exists B. split; [intros v Hv; specialize (HB v Hv); fn_case; [by etrans|done]|].
    rewrite Hw. split_all; [done|..].
    + intros e He. destruct (Hrd e He) as [E|Hin]; [right; rewrite E; by apply H2|by apply C2].
    + intros v Hv. eapply covers_mono; [|by apply C3]. by fn_case.
Qed.

Lemma wp_reader_read {A} t c l V (k : Z -> prog A) Q :
  l_end l = false -> (0 < t <= R)%nat -> l_w l = Rst c (Reading None) -> 0 <= c <= ops ->
  (forall v V', wp t (k v) (upd_w l (Rst c (Reading (Some v)))) V' Q) ->
  wp t (Op (NaRead shared_data) k) l V Q.
Proof.
  intros Hend Ht Hl Hc Hk. apply wp_client; [apply _|done..|]. intros w x ch Hf. simpl. unfold do_na_read.
  pose proof (hf_ci Hf) as Hci. destruct Hci as [Hlk Hd]. pose proof (in_range_t _ _ _ _ _ Hf ltac:(lia)) as Htr.
  pose proof (hf_me Hf) as Hx. rewrite Hl in Hx.
  assert (covers (wview w t) (nwr (wcell w shared_data)) = true) as ->.
  { pose proof Hlk as [H1 H2 H3 H4 H5]. assert (t ∈ rreaders (wrw w rwlock)) as Hin by (apply H2; by rewrite Hx).
    destruct H5 as (B & HB & Hcv); [exists t; rewrite Hx; split; [lia|by intros [_ ?]]|].
    destruct (rwriter (wrw w rwlock)) eqn:E; [rewrite H4 in Hin by done; by apply elem_of_nil in Hin|]. by apply Hcv. }
  eexists. split; [|apply Hk]. split.
  - apply reader_access; simpl; rewrite ?Hx; try done; auto with workshop.
    intros e [->|He]%elem_of_cons; [by left|by right].
  - simpl. fn_simpl. apply data_move; simpl; rewrite ?Hx; simpl; try done; by intros v' [= <-].
Qed.

(** *** Printing *)

Lemma sequential_cons e out :
  sequential out ->
  (forall id v, ev_args e = [id; v] ->
     (ev_fmt e = read_fmt -> v = writes out) /\ (ev_fmt e = write_fmt -> v = writes out + 1)) ->
  sequential (e :: out).
Proof. intros Hs He [|e' l1] l2 e2 id v Heq Ha; simplify_eq/=; [by eapply He|by eapply Hs]. Qed.

Lemma writes_cons e out :
  writes (e :: out) = writes out + if decide (ev_fmt e = write_fmt) then 1 else 0.
Proof. unfold writes. rewrite filter_cons. case_decide; simpl; lia. Qed.

Lemma lock_out w x x' e :
  (forall u, is_writing (r_st (x' u)) = is_writing (r_st (x u))) ->
  (forall u, is_reading (r_st (x' u)) = is_reading (r_st (x u))) ->
  (forall u, r_finished ops (x u) -> r_finished ops (x' u)) ->
  rw_lock N ops w x -> rw_lock N ops (add_out e w) x'.
Proof.
  intros Hw Hr Hfin [H1 H2 H3 H4 H5]. split; simpl; try done.
  - intros u. rewrite Hw. apply H1.
  - intros u. rewrite Hr. apply H2.
  - intros (u & Hu & Hnf). apply H5. exists u. split; [done|]. intros Hf. by apply Hnf, Hfin.
Qed.

(** A line that is not a writer's. *)
Lemma wp_quiet_print {A} t fmt args l V (k : Z -> prog A) Q :
  l_end l = false -> fmt <> write_fmt ->
  (forall w x id v, hfacts H CI t l V w x -> args = [id; v] -> fmt = read_fmt -> v = writes (wout w)) ->
  wp t (k 0) (say (Event t fmt args) l) V Q -> wp t (Op (Printf fmt args) k) l V Q.
Proof.
  intros Hend Hw Hr Hk. apply wp_print_gen; [apply _|done|done|]. intros w x Hf.
  exists (l_w l). split; [|by destruct l]. destruct (hf_ci Hf) as [Hl Hd].
  assert (forall u, <[t := l_w l]> x u = x u) as Hid by (intros u; fn_case; [by rewrite (hf_me Hf)|done]).
  split; [eapply lock_out; [..|exact Hl]; intros u; by rewrite Hid|]. simpl.
  assert (writes (Event t fmt args :: wout w) = writes (wout w)) as Hwr
    by (rewrite writes_cons, decide_False by done; lia).
  apply (data_ext _ _ x); [intros u; by rewrite Hid|].
  destruct Hd as [D1 D2 D3 D4 D5 D6 D7]. split; rewrite ?Hwr; try done.
  apply sequential_cons; [done|]. intros id v Ha. split; [|done]. by apply (Hr w x id v).
Qed.

(** While a thread reads, the output reports all writes. *)
Lemma reader_sees_writes t w x :
  CI w x -> is_reading (r_st (x t)) = true -> writes (wout w) = nval (wcell w shared_data).
Proof.
  intros [[H1 H2 _ H4 _] [_ _ _ _ D5 _ _]] Hr. apply D5. intros u.
  destruct (is_updated (r_st (x u))) eqn:E; [|done].
  assert (rwriter (wrw w rwlock) = Some u) as Hw by (apply H1; by destruct (r_st (x u))).
  apply H2 in Hr. rewrite H4 in Hr by (by rewrite Hw). by apply elem_of_nil in Hr.
Qed.

Lemma wp_reader_print {A} t id v c l V (k : Z -> prog A) Q :
  l_end l = false -> l_w l = Rst c (Reading (Some v)) ->
  wp t (k 0) (say (Event t read_fmt [id; v]) l) V Q ->
  wp t (Op (Printf read_fmt [id; v]) k) l V Q.
Proof.
  intros Hend Hl Hk. apply wp_quiet_print; [done..| |done]. intros w x id' v' Hf [= <- <-] _.
  pose proof (hf_me Hf) as Hx. rewrite Hl in Hx.
  rewrite (reader_sees_writes t w x (hf_ci Hf)) by (by rewrite Hx).
  apply (rd_read _ _ _ _ _ _ (ri_data _ _ _ _ _ (hf_ci Hf)) t). by rewrite Hx.
Qed.

(** *** Unlocking a reader *)

Lemma wp_rdunlock {A} t c o l V (k : Z -> prog A) Q :
  l_end l = false -> (0 < t <= R)%nat -> l_w l = Rst c (Reading o) -> 0 <= c < ops ->
  (forall V', wp t (k 0) (upd_w l (Rst (c + 1) Idle)) V' Q) ->
  wp t (Op (RwUnlock rwlock) k) l V Q.
Proof.
  intros Hend Ht Hl Hc Hk. apply wp_client; [apply _|done..|]. intros w x ch Hf. simpl. unfold do_rwunlock.
  pose proof (hf_ci Hf) as Hci. destruct Hci as [[H1 H2 H3 H4 H5] Hd].
  pose proof (hf_me Hf) as Hx. rewrite Hl in Hx. pose proof (in_range_t _ _ _ _ _ Hf ltac:(lia)) as Htr.
  assert (t ∈ rreaders (wrw w rwlock)) as Hin by (apply H2; by rewrite Hx).
  assert (rwriter (wrw w rwlock) = None) as Hno.
  { destruct (rwriter (wrw w rwlock)) eqn:E; [|done]. rewrite H4 in Hin by done. by apply elem_of_nil in Hin. }
  rewrite Hno, decide_False, decide_True by done. rewrite Hno in *.
  exists (Rst (c + 1) Idle). split; [|apply Hk].
  split; [|simpl; apply data_move; simpl; rewrite ?Hx; simpl; try done; lia].
  destruct H5 as (B & HB & C1 & C2 & C3); [exists t; rewrite Hx; split; [lia|by intros [_ ?]]|].
  split; simpl; fn_simpl; simpl; try done.
  - intros u. rewrite <- H1. fn_case; [by rewrite Hx|done].
  - intros u. rewrite elem_of_remove1, <- H2 by done. fn_case; [split; [done|by intros [_ ?]]|split; [by split|by intros [? _]]].
  - by apply nodup_remove1.
  - intros _. exists B. split; [done|]. split_all; [done|..].
    + intros e He. destruct (C2 e He) as [Hcv|Hr]; [left; eapply covers_mono; [|exact Hcv]; intros kk; unfold vjoin; lia|].
      destruct (decide (e.1 = t)) as [E|Hne]; [left|right; by apply elem_of_remove1].
      assert (e ∈ epochs (wcell w shared_data)) as He' by (by right).
      pose proof (wf_epoch _ (hf_wf Hf) _ _ He') as Hle. unfold covers, vjoin. apply Nat.leb_le.
      rewrite E in *. lia.
    + intros u [Hu _]%elem_of_remove1; [|done]. by apply C3.
Qed.

Lemma wp_sleep {A} t us l V (k : unit -> prog A) Q :
  l_end l = false -> wp t (k tt) l V Q -> wp t (bind (sleep_for_us us) k) l V Q.
Proof. intros Hend Hk. unfold sleep_for_us, nanosleep. prog_simpl. by apply wp_pause; [apply _|..]. Qed.

Hypothesis Hops : 0 <= ops.

Lemma wp_reader t id V :
  (0 < t <= R)%nat ->
  wp t (reader ops id) (fresh (Rst 0 Idle)) V
    (fun v l' _ => l_end l' = false /\ r_finished ops (l_w l')).
Proof.
  intros Ht. apply wp_bind. eapply wp_mono.
  { apply wp_for with (P := fun c l _ => l_end l = false /\ l_w l = Rst c Idle); [done| |done].
    intros c l V1 Hc [Hend Hl]. cbn [bind perform do_ printf].
    apply (wp_rdlock t c); [done|lia|done..|]. intros V2.
    apply (wp_reader_read t c); [done|lia|done|lia|]. intros v V3.
    apply (wp_reader_print t id v c); [done..|]. apply wp_sleep; [done|]. cbn [bind do_].
    apply (wp_rdunlock t c (Some v)); [done..|]. intros V4.
    eapply (wp_peq _ _ (bind (sleep_for_us 50000) Ret)); [apply bind_ret|].
    apply wp_sleep; [done|]. by apply wp_ret. }
  intros u l V1 [Hend Hl]. apply wp_ret. by rewrite Hl.
Qed.

(** *** Writers *)

(** The thread that writes is alone. *)
Lemma writer_alone t w x :
  rw_lock N ops w x -> is_writing (r_st (x t)) = true ->
  rwriter (wrw w rwlock) = Some t /\ rreaders (wrw w rwlock) = [] /\
  forall u, u <> t -> r_st (x u) = Idle.
Proof.
  intros [H1 H2 H3 H4 _] Ht. apply H1 in Ht. assert (rreaders (wrw w rwlock) = []) as Hr by (apply H4; by rewrite Ht).
  split_all; [done..|]. intros u Hu. destruct (r_st (x u)) eqn:E; try done; exfalso.
  - assert (u ∈ rreaders (wrw w rwlock)) as Hin by (apply H2; by rewrite E). rewrite Hr in Hin. by apply elem_of_nil in Hin.
  - assert (rwriter (wrw w rwlock) = Some u) by (apply H1; by rewrite E). congruence.
  - assert (rwriter (wrw w rwlock) = Some u) by (apply H1; by rewrite E). congruence.
  - assert (rwriter (wrw w rwlock) = Some u) by (apply H1; by rewrite E). congruence.
  - assert (rwriter (wrw w rwlock) = Some u) by (apply H1; by rewrite E). congruence.
Qed.

Lemma wp_wrlock {A} t c l V (k : Z -> prog A) Q :
  l_end l = false -> (R < t)%nat -> l_w l = Rst c Idle -> 0 <= c < ops ->
  (forall V', wp t (k 0) (upd_w l (Rst c Writing)) V' Q) ->
  wp t (Op (RwWrlock rwlock) k) l V Q.
Proof.
  intros Hend Ht Hl Hc Hk. apply wp_client_wait; [apply _|done..| |].
  2:{ intros w x Hf Hr. exists (Choice 0 false 0). split; [done|]. simpl. unfold do_wrlock.
      by destruct (ready_idle _ _ _ _ _ _ Hf ltac:(lia) Hr Hl) as [-> ->]. }
  intros w x ch Hf. simpl. unfold do_wrlock.
  pose proof (hf_ci Hf) as Hci. destruct Hci as [[H1 H2 H3 H4 H5] Hd].
  pose proof (hf_me Hf) as Hx. rewrite Hl in Hx. pose proof (in_range_t _ _ _ _ _ Hf ltac:(lia)) as Htr.
  destruct (rwriter (wrw w rwlock)) as [u|] eqn:E; [done|].
  destruct (rreaders (wrw w rwlock)) as [|u us] eqn:Er; [|done].
  exists (Rst c Writing). split; [|apply Hk].
  split; [|apply data_move; simpl; rewrite ?Hx; simpl; try done; lia].
  destruct H5 as (B & HB & C1 & C2 & _).
  { exists t. rewrite Hx. split; [lia|]. intros [Hbad _]. simpl in Hbad. lia. }
  split; simpl; fn_simpl; simpl; try done.
  - intros u. fn_case; [done|]. rewrite H1. split; congruence.
  - intros u. rewrite <- H2. fn_case; [by rewrite Hx|done].
  - intros _. exists B. split; [intros u Hu; specialize (HB u Hu); fn_case; [auto with workshop|done]|].
    fn_simpl. intros e [->|He]%elem_of_cons.
    + eapply covers_mono; [|exact C1]. intros kk. unfold vjoin. lia.
    + destruct (C2 e He) as [Hcv|Hin]; [|by apply elem_of_nil in Hin].
      eapply covers_mono; [|exact Hcv]. intros kk. unfold vjoin. lia.
Qed.

Lemma writer_covers t l V w x e :
  hfacts H CI t l V w x -> (0 < t)%nat -> is_writing (r_st (x t)) = true ->
  e ∈ epochs (wcell w shared_data) -> covers (wview w t) e = true.
Proof.
  intros Hf Ht Hw He. pose proof (hf_ci Hf) as Hci. destruct Hci as [Hlk _].
  pose proof (in_range_t _ _ _ _ _ Hf Ht). destruct (writer_alone t w x Hlk Hw) as (Ho & _ & _).
  destruct (rl_seen _ _ _ _ Hlk) as (B & HB & Hc).
  { exists t. split; [lia|]. intros [_ Hbad]. by rewrite Hbad in Hw. }
  rewrite Ho in Hc. eapply covers_mono; [|by apply Hc]. pose proof (hf_lt Hf).
  specialize (HB t ltac:(lia)). intros kk. specialize (HB kk). unfold vjoin. lia.
Qed.

Lemma writer_access t w x V c y :
  rw_lock N ops w x -> is_writing (r_st (x t)) = true -> is_writing (r_st y) = true ->
  wview w t ⊑v V -> (forall e, e ∈ epochs c -> covers V e = true) ->
  rw_lock N ops (set_cell shared_data c (set_view t V w)) (<[t := y]> x).
Proof.
  intros Hlk Hw Hw' HV Hc. destruct (writer_alone t w x Hlk Hw) as (Ho & Hr & Hall).
  destruct Hlk as [H1 H2 H3 H4 _]. split; simpl; fn_simpl; rewrite ?Ho, ?Hr; try done.
  - intros u. fn_case; [done|]. by rewrite H1, Ho.
  - intros u. rewrite <- Hr, <- H2. fn_case; [|done]. by destruct (r_st y), (r_st (x u)).
  - constructor.
  - intros _. exists vbot. split; [intros; apply vbot_le|]. fn_simpl. intros e He.
    eapply covers_mono; [apply vjoin_r|by apply Hc].
Qed.

(** A plain access of the writer: the counter becomes [v'], the thread's
    ghost state [y]. *)
Lemma writer_step t l V w x y c V' :
  hfacts H CI t l V w x -> is_writing (r_st (x t)) = true -> is_writing (r_st y) = true ->
  wview w t ⊑v V' -> (forall e, e ∈ epochs c -> covers V' e = true) ->
  rw_data R N ops (nval c) (wout w) (<[t := y]> x) ->
  CI (set_cell shared_data c (set_view t V' w)) (<[t := y]> x).
Proof.
  intros Hf Hw Hw' HV Hc Hd. split; [by apply writer_access; [apply Hf|..]|]. simpl. by fn_simpl.
Qed.

Hypothesis HRN : (R <= N)%nat.

Lemma quota_sum : sumn (S N) (fun u => if decide (R < u)%nat then ops else 0) = Z.of_nat (N - R) * ops.
Proof.
  clear Hops. induction N as [|n IH].
  - assert (R = 0%nat) as -> by lia. done.
  - change (sumn (S (S n)) ?f) with (sumn (S n) f + f (S n)). destruct (decide (R = S n)) as [->|].
    + rewrite (sumn_const _ _ 0) by (intros; by rewrite decide_False by lia).
      rewrite decide_False by lia. lia.
    + rewrite IH by lia. rewrite decide_True by lia.
      replace (Z.of_nat (S n - R)) with (Z.of_nat (n - R) + 1) by lia. lia.
Qed.

Hypothesis Hrange : in_range INT_BITS (Z.of_nat (N - R) * ops) = true.

(** A writer that has work left sees room for one more increment. *)
Lemma written_below t x :
  (R < t < S N)%nat -> (forall u, 0 <= r_cnt (x u) <= match u with O => 0 | S _ => ops end) ->
  r_cnt (x t) < ops -> 0 <= written R N x < Z.of_nat (N - R) * ops.
Proof.
  intros Ht Hb Hlt.
  assert (forall u, 0 <= r_cnt (x u) <= ops) as Hb' by (intros u; specialize (Hb u); destruct u; lia).
  split; [apply sumn_nonneg; intros u _; case_decide; [apply Hb'|done]|].
  pose proof (written_upd t (Rst (r_cnt (x t) + 1) Idle) x ltac:(lia)) as Hu.
  rewrite decide_True in Hu by lia. simpl in Hu. rewrite <- quota_sum.
  enough (written R N (<[t := Rst (r_cnt (x t) + 1) Idle]> x)
    <= sumn (S N) (fun u => if decide (R < u)%nat then ops else 0)) by lia.
  apply sumn_mono. intros u _. case_decide; [|done]. fn_case; [simpl; lia|apply Hb'].
Qed.

Lemma wp_writer_incr {A} t c l V (k : unit -> prog A) Q :
  l_end l = false -> (R < t)%nat -> l_w l = Rst c Writing -> 0 <= c < ops ->
  (forall V', wp t (k tt) (upd_w l (Rst (c + 1) (Updated None))) V' Q) ->
  wp t (bind (incr INT_BITS shared_data) k) l V Q.
Proof.
  intros Hend Ht Hl Hc Hk. prog_simpl. apply wp_client; [apply _|done..|]. intros w x ch Hf. simpl.
  pose proof (in_range_t _ _ _ _ _ Hf ltac:(lia)) as Htr. pose proof (hf_me Hf) as Hx. rewrite Hl in Hx.
  assert (is_writing (r_st (x t)) = true) as Hw by (by rewrite Hx).
  rewrite na_read_ok by (intros e; eapply writer_covers; [exact Hf|lia|done]).
  destruct (hf_ci Hf) as [_ Hd]. set (v := nval (wcell w shared_data)) in *.
  exists (Rst c (Updating v)). split.
  { eapply writer_step; [exact Hf|done|done|auto with workshop|..].
    - intros e [->|He]%epochs_read; [by apply covers_tick|].
      eapply covers_mono; [apply tick_le|]. by eapply writer_covers; [exact Hf|lia|..].
    - simpl. apply data_move; simpl; rewrite ?Hx; simpl; try done; [by intros v' [= <-]|lia]. }
  assert (in_range INT_BITS (v + 1) = true) as ->.
  { eapply in_range_between; [exact Hrange|]. rewrite (rd_sum _ _ _ _ _ _ Hd).
    pose proof (written_below t x ltac:(lia) (rd_cnt _ _ _ _ _ _ Hd) ltac:(rewrite Hx; simpl; lia)). lia. }
  simpl. fn_simpl. generalize (tick t (wview w t)). clearbody v. clear w x ch Hf Hx Hw Hd. intros V1.
  prog_simpl. apply wp_client; [apply _|done..|]. intros w x ch Hf. simpl.
  pose proof (hf_me Hf) as Hx. simpl in Hx. assert (is_writing (r_st (x t)) = true) as Hw by (by rewrite Hx).
  rewrite na_write_ok by (intros e; eapply writer_covers; [exact Hf|lia|done]).
  exists (Rst (c + 1) (Updated None)). split; [|apply Hk].
  destruct (hf_ci Hf) as [Hlk [D1 D2 D3 D4 D5 D6 D7]].
  destruct (writer_alone t w x Hlk Hw) as (_ & _ & Hall).
  assert (v = nval (wcell w shared_data)) as Hv by (apply (D3 t); by rewrite Hx).
  assert (writes (wout w) = v) as Hwr.
  { rewrite Hv. apply D5. intros u. destruct (decide (u = t)) as [->|]; [by rewrite Hx|by rewrite Hall]. }
  eapply writer_step; [exact Hf|done|done|auto with workshop|..].
  { intros e ->%epochs_write. by apply covers_tick. }
  simpl. split; [| | |done| | |].
  - rewrite written_upd, decide_True, <- D1, Hx by lia. simpl. lia.
  - intros u. fn_case; [simpl; destruct u; lia|apply D2].
  - intros u v'. fn_case; [done|]. by rewrite Hall.
  - intros Hno. specialize (Hno t). by rewrite fn_lookup_insert in Hno.
  - intros u _. lia.
  - intros u. fn_case; [done|apply D7].
Qed.

Lemma wp_writer_read {A} t c l V (k : Z -> prog A) Q :
  l_end l = false -> (R < t)%nat -> l_w l = Rst c (Updated None) -> 0 <= c <= ops ->
  (forall v V', wp t (k v) (upd_w l (Rst c (Updated (Some v)))) V' Q) ->
  wp t (Op (NaRead shared_data) k) l V Q.
Proof.
  intros Hend Ht Hl Hc Hk. apply wp_client; [apply _|done..|]. intros w x ch Hf. simpl.
  pose proof (in_range_t _ _ _ _ _ Hf ltac:(lia)) as Htr. pose proof (hf_me Hf) as Hx. rewrite Hl in Hx.
  assert (is_writing (r_st (x t)) = true) as Hw by (by rewrite Hx).
  rewrite na_read_ok by (intros e; eapply writer_covers; [exact Hf|lia|done]).
  eexists. split; [|apply Hk]. destruct (hf_ci Hf) as [_ Hd].
  eapply writer_step; [exact Hf|done|done|auto with workshop|..].
  - intros e [->|He]%epochs_read; [by apply covers_tick|].
    eapply covers_mono; [apply tick_le|]. by eapply writer_covers; [exact Hf|lia|..].
  - simpl. apply data_move; simpl; rewrite ?Hx; simpl; try done. by intros v' [= <-].
Qed.

Lemma wp_writer_print {A} t id v c l V (k : Z -> prog A) Q :
  l_end l = false -> (0 < t)%nat -> l_w l = Rst c (Updated (Some v)) -> 0 <= c <= ops ->
  wp t (k 0) (upd_w (say (Event t write_fmt [id; v]) l) (Rst c Reported)) V Q ->
  wp t (Op (Printf write_fmt [id; v]) k) l V Q.
Proof.
  intros Hend Ht Hl Hc Hk. apply wp_print_gen; [apply _|done|done|]. intros w x Hf.
  pose proof (in_range_t _ _ _ _ _ Hf ltac:(lia)) as Htr. pose proof (hf_me Hf) as Hx. rewrite Hl in Hx.
  exists (Rst c Reported). split; [|done]. destruct (hf_ci Hf) as [Hlk [D1 D2 D3 D4 D5 D6 D7]].
  destruct (writer_alone t w x Hlk) as (_ & _ & Hall); [by rewrite Hx|].
  assert (v = nval (wcell w shared_data)) as Hv by (apply (D3 t); by rewrite Hx).
  assert (writes (wout w) = v - 1) as Hwr by (rewrite Hv; apply (D6 t); by rewrite Hx).
  split.
  - eapply lock_out; [..|exact Hlk]; intros u; fn_case; try done; rewrite ?Hx; try done. by intros [_ ?].
  - cbn [add_out wcell wout]. rewrite <- Hv in *.
    assert (writes (Event t write_fmt [id; v] :: wout w) = v) as Hwr'
      by (rewrite writes_cons, decide_True by done; lia).
    split; rewrite ?Hwr'; try done.
    + rewrite written_upd, Hx by lia. simpl. case_decide; lia.
    + intros u. fn_case; [simpl; destruct u; lia|apply D2].
    + intros u v'. fn_case; [done|]. by rewrite Hall.
    + apply sequential_cons; [done|]. intros id' v' [= <- <-]. split; [done|]. intros _. lia.
    + intros u. fn_case; [done|]. by rewrite Hall.
    + intros u. fn_case; [simpl; specialize (D7 u); by rewrite Hx in D7|apply D7].
Qed.

Lemma wp_wrunlock {A} t c l V (k : Z -> prog A) Q :
  l_end l = false -> (0 < t)%nat -> l_w l = Rst c Reported -> 0 <= c <= ops ->
  (forall V', wp t (k 0) (upd_w l (Rst c Idle)) V' Q) ->
  wp t (Op (RwUnlock rwlock) k) l V Q.
Proof.
  intros Hend Ht Hl Hc Hk. apply wp_client; [apply _|done..|]. intros w x ch Hf. simpl. unfold do_rwunlock.
  pose proof (in_range_t _ _ _ _ _ Hf ltac:(lia)) as Htr. pose proof (hf_me Hf) as Hx. rewrite Hl in Hx.
  pose proof (hf_ci Hf) as Hci. destruct Hci as [Hlk Hd].
  assert (is_writing (r_st (x t)) = true) as Hw by (by rewrite Hx).
  destruct (writer_alone t w x Hlk Hw) as (Ho & Hr & Hall). rewrite decide_True by done.
  exists (Rst c Idle). split; [|apply Hk].
  split; [|simpl; apply data_move; simpl; rewrite ?Hx; simpl; try done; lia].
  pose proof (fun e => writer_covers t l V w x e Hf Ht Hw) as Hcov.
  destruct Hlk as [H1 H2 H3 H4 _]. split; simpl; fn_simpl; simpl; rewrite ?Hr; try done.
  - intros u. fn_case; [done|]. by rewrite Hall.
  - intros u. fn_case; [|rewrite Hall by done]; split; [done|intros Hbad|done|intros Hbad]; by apply elem_of_nil in Hbad.
  - constructor.
  - intros _. exists vbot. split; [intros; apply vbot_le|]. split_all.
    + eapply covers_mono; [|apply Hcov; by left]. intros kk. unfold vjoin. lia.
    + intros e He. left. eapply covers_mono; [|apply Hcov; by right]. intros kk. unfold vjoin. lia.
    + intros u Hu. by apply elem_of_nil in Hu.
Qed.

Lemma wp_writer t id V :
  (R < t)%nat ->
  wp t (writer ops id) (fresh (Rst 0 Idle)) V
    (fun v l' _ => l_end l' = false /\ r_finished ops (l_w l')).
Proof.
  intros Ht. apply wp_bind. eapply wp_mono.
  { apply wp_for with (P := fun c l _ => l_end l = false /\ l_w l = Rst c Idle); [done| |done].
    intros c l V1 Hc [Hend Hl]. cbn [bind perform do_ printf].
    apply (wp_wrlock t c); [done|lia|done..|]. intros V2.
    apply (wp_writer_incr t c); [done..|]. intros V3.
    apply (wp_writer_read t (c + 1)); [done|lia|done|lia|]. intros v V4.
    apply (wp_writer_print t id v (c + 1)); [done|lia|done|lia|]. apply wp_sleep; [done|]. cbn [bind do_].
    apply (wp_wrunlock t (c + 1)); [done|lia|done|lia|]. intros V5.
    eapply (wp_peq _ _ (bind (sleep_for_us 300000) Ret)); [apply bind_ret|].
    apply wp_sleep; [done|]. by apply wp_ret. }
  intros u l V1 [Hend Hl]. apply wp_ret. by rewrite Hl.
Qed.

Lemma rw_code_ok : code_ok H CI.
Proof.
  intros i V Hi. simpl in *. destruct (decide (i < R)%nat); [apply wp_reader; lia|apply wp_writer; lia].
Qed.

(** *** Thread 0 *)

Lemma rw_idle_init : CI init_world (fun _ => Rst 0 Idle).
Proof.
  split; [split; simpl; try done|split; simpl; try done].
  - intros u. split; [done|]. intros Hu. by apply elem_of_nil in Hu.
  - constructor.
  - intros _. exists vbot. split; [intros; apply vbot_le|]. split_all; [done|..];
      intros ? He; by apply elem_of_nil in He.
  - unfold written. rewrite (sumn_const _ _ 0); [lia|]. intros u _. by case_decide.
  - intros [|u]; lia.
  - intros l1 l2 e id v E. by destruct l1.
Qed.

Lemma wp_rwinit {A} l V (k : Z -> prog A) Q :
  l_end l = false -> l_w l = Rst 0 Idle -> l_c l = 0%nat ->
  wp 0%nat (k 0) l V Q -> wp 0%nat (Op (RwInit rwlock) k) l V Q.
Proof.
  intros Hend Hl Hc Hk. apply wp_client; [apply _|done..|]. intros w x c Hf. simpl.
  exists (l_w l). split; [|rewrite upd_w_id, (hf_view Hf) by done; exact Hk].
  destruct (hf_main Hf eq_refl) as [Hn _]. rewrite Hc in Hn.
  assert (forall u, x u = Rst 0 Idle) as Hx.
  { intros [|u]; [by rewrite (hf_me Hf)|]. by rewrite (hf_init Hf) by lia. }
  assert (forall u, <[0%nat := l_w l]> x u = x u) as Hid by (intros u; fn_case; by rewrite Hx).
  split; [|eapply (data_ext _ _ x); [intros u; by rewrite Hid|apply Hf]].
  split; simpl; fn_simpl; simpl; try done.
  - intros u. by rewrite Hid, Hx.
  - intros u. rewrite Hid, Hx. split; [done|]. intros Hu. by apply elem_of_nil in Hu.
  - constructor.
  - intros _. exists (wview w 0%nat). split; [intros u Hu; by replace u with 0%nat by lia|].
    pose proof (fun e => covers_alone w shared_data e (hf_wf Hf) Hn) as Hcov. split_all.
    + eapply covers_mono; [apply vjoin_l|]. apply Hcov. by left.
    + intros e He. left. eapply covers_mono; [|apply Hcov; by right]. intros kk. unfold vjoin. lia.
    + intros u Hu. by apply elem_of_nil in Hu.
Qed.

(** When all threads have been joined. *)
Definition over (l : lst rst) : Prop :=
  l_end l = false /\ l_w l = Rst 0 Idle /\ l_c l = N /\ forall u, (0 < u <= N)%nat -> u ∈ l_j l.

Lemma over_facts l V w x :
  over l -> hfacts H CI 0%nat l V w x ->
  wn w = S N /\ (forall u, (0 < u <= N)%nat -> r_finished ops (x u)) /\
  (forall u, r_st (x u) = Idle) /\ forall u, (u < wn w)%nat -> wview w u ⊑v wview w 0%nat.
Proof.
  intros (Hend & Hl & Hc & Hj) Hf. destruct (hf_main Hf eq_refl) as [Hn Hjo]. rewrite Hc in Hn.
  assert (forall u, (0 < u <= N)%nat -> r_finished ops (x u)) as Hfin.
  { intros u Hu. by destruct (Hjo u (Hj u Hu)) as [(v & out & Hv) _]. }
  split_all; [done|done|..].
  - intros [|u]; [by rewrite (hf_me Hf), Hl|]. destruct (decide (u < N)%nat); [apply Hfin; lia|].
    by rewrite (hf_init Hf) by lia.
  - intros [|u] Hu; [done|]. apply (Hjo (S u) (Hj (S u) ltac:(lia))).
Qed.

Lemma wp_final_read {A} l V (k : Z -> prog A) Q :
  over l -> (forall V', wp 0%nat (k (Z.of_nat (N - R) * ops)) l V' Q) ->
  wp 0%nat (Op (NaRead shared_data) k) l V Q.
Proof.
  intros Hov Hk. pose proof Hov as (Hend & Hl & _). apply wp_client; [apply _|done..|].
  intros w x c Hf. simpl. destruct (over_facts _ _ _ _ Hov Hf) as (Hn & Hfin & Hidle & Hv).
  rewrite na_read_ok by (intros e; apply covers_all; [apply Hf|done]).
  assert (nval (wcell w shared_data) = Z.of_nat (N - R) * ops) as Hval.
  { destruct (hf_ci Hf) as [_ [D1 _ _ _ _ _ _]]. rewrite D1, <- quota_sum. apply sumn_ext. intros u Hu.
    case_decide; [|done]. apply Hfin. lia. }
  exists (l_w l). split; [|rewrite upd_w_id by done; rewrite Hval; apply Hk].
  assert (forall u, <[0%nat := l_w l]> x u = x u) as Hid by (intros u; fn_case; [by rewrite (hf_me Hf)|done]).
  destruct (hf_ci Hf) as [[H1 H2 H3 H4 _] Hd]. split.
  - split; simpl; try done; [intros u; rewrite Hid; apply H1|intros u; rewrite Hid; apply H2|].
    intros (u & Hu & Hnf). rewrite Hid in Hnf. by destruct Hnf; apply Hfin.
  - simpl. fn_simpl. by eapply (data_ext _ _ x).
Qed.

Lemma wp_rwdestroy {A} l V (k : Z -> prog A) Q :
  over l -> (forall V', wp 0%nat (k 0) l V' Q) -> wp 0%nat (Op (RwDestroy rwlock) k) l V Q.
Proof.
  intros Hov Hk. pose proof Hov as (Hend & _). apply wp_grow; [apply _|done..|].
  intros w x c Hf. simpl. destruct (over_facts _ _ _ _ Hov Hf) as (_ & _ & Hidle & _).
  destruct (hf_ci Hf) as [[H1 H2 H3 H4 _] _].
  assert (rw_is_free (wrw w rwlock) = true) as ->; [|split; [apply grows_refl|apply Hk]].
  unfold rw_is_free. destruct (rwriter (wrw w rwlock)) as [u|] eqn:E.
  { assert (is_writing (r_st (x u)) = true) as Hb by (by apply H1). by rewrite Hidle in Hb. }
  destruct (rreaders (wrw w rwlock)) as [|u us] eqn:Er; [done|].
  assert (is_reading (r_st (x u)) = true) as Hb by (apply H2; by left). by rewrite Hidle in Hb.
Qed.

(** The lines thread 0 has printed at the end. *)
Definition final_lines (total : Z) (out : list event) : Prop :=
  exists d, rev out = [Event 0 "Starting read-write lock demo (readers: %d, writers: %d)\n\n"
                         [Z.of_nat R; Z.of_nat (N - R)];
                       Event 0 "\nCompleted in %.2f seconds\n" [d];
                       Event 0 "Final value: %d\n" [total]].

Lemma wp_rwlock_main :
  wp 0%nat (main (Z.of_nat R) (Z.of_nat (N - R)) ops) (fresh (Rst 0 Idle)) vbot
    (fun v l _ => v = 0 /\ final_lines (Z.of_nat (N - R) * ops) (l_out l)).
Proof.
  unfold main, clock_gettime. cbn [bind perform do_ printf]. apply wp_rwinit; [done..|].
  apply wp_quiet_print; [done..|]. apply wp_clock; [apply _|done|]. intros t0. unfold create_threads.
  rewrite !Nat2Z.id. apply wp_bind. apply (wp_create_from H CI); [apply rw_code_ok|done|simpl; lia|..].
  { intros i Hi. simpl. by rewrite decide_True by lia. }
  apply wp_bind. apply (wp_create_from H CI); [apply rw_code_ok|done|simpl; lia|..].
  { intros i Hi. simpl. rewrite decide_False by lia. f_equal. lia. }
  simpl l_c. apply wp_bind. apply wp_join_threads; [apply _|done|done|..].
  { intros u. rewrite elem_of_seq. simpl. lia. }
  intros V1 _. apply wp_bind. apply wp_join_threads; [apply _|done|done|..].
  { intros u. rewrite elem_of_seq. simpl. lia. }
  intros V2 _. apply wp_clock; [apply _|done|]. intros t1.
  cbn [bind]. apply wp_quiet_print; [done..|].
  set (l := say _ _).
  assert (over l) as Hov.
  { split; [done|]. split; [done|]. split; [simpl; lia|]. intros u Hu. simpl.
    rewrite !elem_of_app, !elem_of_reverse_rev, !elem_of_seq. lia. }
  apply wp_final_read; [done|]. intros V3. apply wp_quiet_print; [done..|].
  apply wp_rwdestroy; [by destruct Hov as (? & ? & ? & ?); split_all|]. intros V4.
  apply wp_ret. split; [done|]. by eexists.
Qed.
End Rules.


(** ** The program *)

(** What is asked of the constants: the final count fits an [int]. *)
Definition sizes_ok (readers writers operations : Z) : Prop :=
  0 <= readers /\ 0 <= writers /\ 0 <= operations /\
  in_range INT_BITS (writers * operations) = true.

Lemma rw_main_bounded readers writers operations : bounded (main readers writers operations).
Proof.
  unfold main, reader, writer, sleep_for_us, nanosleep, clock_gettime. auto 40 with ends.
Qed.

Section Verdict.
Context (readers writers operations : Z) (C : config).
Hypothesis (Hs : sizes_ok readers writers operations) (HC : reachable (main readers writers operations) C).
Local Abbreviation R := (Z.to_nat readers).
Local Abbreviation N := (R + Z.to_nat writers)%nat.
Local Abbreviation H := (rw_harness R N operations).
Local Abbreviation CI := (rw_inv R N operations).

Lemma rw_main_wp :
  wp (hlogic H CI) 0%nat (main readers writers operations) (fresh (Rst 0 Idle)) vbot
    (fun v l _ => v = 0 /\ final_lines R N (writers * operations) (l_out l)).
Proof.
  destruct Hs as (Hr & Hw & Ho & Hrange).
  assert (writers = Z.of_nat (N - R)) as Ew by lia. rewrite Ew in Hrange.
  assert (main readers writers operations = main (Z.of_nat R) (Z.of_nat (N - R)) operations) as -> by (f_equal; lia).
  assert (writers * operations = Z.of_nat (N - R) * operations) as -> by (by rewrite <- Ew).
  apply wp_rwlock_main; [done|lia|done].
Qed.

Lemma rw_main_init : CI init_world (h_init H).
Proof. destruct Hs as (_ & _ & Ho & _). apply rw_idle_init; [done|lia]. Qed.

Lemma rw_main_inv : ~ faulty C /\ exists g, hinv H CI (wld C) g.
Proof.
  destruct (harness_adequacy H CI _ _ rw_main_init rw_main_wp C HC) as (Hf & _ & g & Hi & _).
  split; [done|by exists g].
Qed.

Lemma rw_main_ok :
  ~ faulty C /\ must_return C /\ sequential (wout (wld C)) /\
  forall v, returned C = Some v -> v = 0 /\
    exists d, printed 0 C =
      [Event 0 "Starting read-write lock demo (readers: %d, writers: %d)\n\n" [readers; writers];
       Event 0 "\nCompleted in %.2f seconds\n" [d];
       Event 0 "Final value: %d\n" [writers * operations]].
Proof.
  destruct rw_main_inv as [Hf [g Hi]].
  destruct (harness_always H CI _ C _ (rw_main_bounded readers writers operations) HC rw_main_init rw_main_wp)
    as (_ & Hret & _ & Hq).
  split_all; [done|done|apply (hi_ci _ _ _ _ Hi)|]. intros v Hv. destruct (Hq v Hv) as (l & [-> [d Hl]] & -> & _).
  split; [done|]. exists d. destruct Hs as (Hr & Hw & _). rewrite Hl.
  by replace (Z.of_nat R) with readers by lia; replace (Z.of_nat (N - R)) with writers by lia.
Qed.
End Verdict.

(** The code of the threads, and of [main] after it has initialized the lock,
    keeps the discipline of the lock. *)
Lemma reader_obeys ops id : obeys rwlock shared_data true HNone (reader ops id) (fun h _ => h = HNone).
Proof. apply obeys_bind, obeys_for; [|done]. intros j. simpl. by intros _ v _ _ _. Qed.

Lemma writer_obeys ops id : obeys rwlock shared_data true HNone (writer ops id) (fun h _ => h = HNone).
Proof.
  apply obeys_bind, obeys_for; [|done]. intros j. simpl. intros _ v. case_match; simpl; by intros _ v' _ _ _.
Qed.

Lemma rw_main_discipline readers writers operations C t b :
  reachable (main readers writers operations) C -> (0 < t)%nat -> about_to shared_data b t C ->
  let l := wrw (wld C) rwlock in held_for b t l /\ (rwriter l <> None -> rreaders l = []).
Proof.
  intros Hr Ht Ha. refine (discipline_holds rwlock shared_data _ C _ Hr t b Ht Ha). simpl. intros _ t0.
  apply obeys_bind, obeys_create; [apply reader_obeys|]. intros rs.
  apply obeys_bind, obeys_create; [apply writer_obeys|]. intros ws.
  apply obeys_bind, obeys_join. apply obeys_bind, obeys_join. simpl. by intros t1 _ v _ _.
Qed.

(** C10. The lock excludes: in every configuration the program reaches, a
    reader or writer thread that is about to write the counter holds the lock
    for writing, and one that is about to read it holds the lock; while a
    thread holds the lock for writing, no other reader or writer thread is
    about to access the counter; and no two threads, [main] included, are about
    to access it with one of them writing. *)
Theorem rwlock_exclusion readers writers operations C :
  sizes_ok readers writers operations -> reachable (main readers writers operations) C ->
  let l := wrw (wld C) rwlock in
  (forall t, (0 < t)%nat -> about_to shared_data true t C -> rwriter l = Some t) /\
  (forall t, (0 < t)%nat -> about_to shared_data false t C -> rwriter l = Some t \/ t ∈ rreaders l) /\
  (forall t u b, rwriter l = Some t -> (0 < u)%nat -> about_to shared_data b u C -> u = t) /\
  ~ conflict shared_data C.
Proof.
  intros Hs Hr l. split_all.
  - intros t Ht Ha. by destruct (rw_main_discipline _ _ _ C t true Hr Ht Ha).
  - intros t Ht Ha. by destruct (rw_main_discipline _ _ _ C t false Hr Ht Ha).
  - intros t u b Hw Hu Ha. destruct (rw_main_discipline _ _ _ C u b Hr Hu Ha) as [Hh Hex]. fold l in Hh, Hex.
    destruct b; [simpl in Hh; congruence|]. destruct Hh as [Hh|Hh]; [congruence|].
    rewrite Hex in Hh by (by rewrite Hw). by apply elem_of_nil in Hh.
  - refine (race_free_excl _ _ C shared_data Hr). intros C' Hr'.
    destruct (rw_main_inv readers writers operations C' Hs Hr') as [Hf [g Hi]]. split; [done|apply (hi_exit _ _ _ _ Hi)].
Qed.

Lemma rwlock_exclusion_witness :
  exists C, reachable (main 1 2 2) C /\ about_to shared_data true 3%nat C /\
    rwriter (wrw (wld C) rwlock) = Some 3%nat /\ ~ conflict shared_data C.
Proof.
  assert (forall C, reachable (main 1 2 2) C -> about_to shared_data true 3%nat C ->
    rwriter (wrw (wld C) rwlock) = Some 3%nat /\ ~ conflict shared_data C) as H.
  { intros C Hr Ha. destruct (rwlock_exclusion 1 2 2 C ltac:(by split_all) Hr) as (Hw & _ & _ & Hc).
    split; [apply Hw; [lia|exact Ha]|exact Hc]. }
  exists (drive 30 2 (start (main 1 2 2))). split; [apply drive_steps|].
  split; [vm_compute; reflexivity|]. apply H; [apply drive_steps|vm_compute; reflexivity].
Defined.

(** C3. The lock makes the counter sequential: for any number of readers,
    writers and operations whose product fits an [int], on every execution
    there is no data race, no overflow and no other undefined behaviour, every
    reader prints the number of writes reported before its line, and every
    writer one more. *)
Theorem rwlock_sequential readers writers operations C :
  sizes_ok readers writers operations -> reachable (main readers writers operations) C ->
  ~ faulty C /\ sequential (wout (wld C)).
Proof. intros Hs Hr. by destruct (rw_main_ok _ _ _ C Hs Hr) as (? & _ & ? & _). Qed.

Lemma rwlock_sequential_witness :
  (forall C, reachable (main NUM_READERS NUM_WRITERS OPERATIONS) C ->
     ~ faulty C /\ sequential (wout (wld C))) /\
  map (fun e => (ev_tid e, ev_args e)) (rev (wout (wld (drive 300 2 (start (main 1 2 2)))))) =
    [(0%nat, [1; 2]); (1%nat, [0; 0]); (3%nat, [1; 1]); (1%nat, [0; 1]); (2%nat, [0; 2]);
     (3%nat, [1; 3]); (2%nat, [0; 4]); (0%nat, [0]); (0%nat, [4])].
Proof.
  split; [|vm_compute; reflexivity].
  intros C. apply (rwlock_sequential NUM_READERS NUM_WRITERS OPERATIONS C). by split_all.
Defined.

(** C7. The result: every execution returns, whatever the scheduler does, so
    readers and writers never block each other for good; and when it returns, thread 0 has printed its three lines, and the final value
    is the number of writers times the number of operations. *)
Theorem rwlock_final_value readers writers operations C :
  sizes_ok readers writers operations -> reachable (main readers writers operations) C ->
  must_return C /\
  forall v, returned C = Some v -> v = 0 /\ exists d, printed 0 C =
    [Event 0 "Starting read-write lock demo (readers: %d, writers: %d)\n\n" [readers; writers];
     Event 0 "\nCompleted in %.2f seconds\n" [d];
     Event 0 "Final value: %d\n" [writers * operations]].
Proof. intros Hs Hr. by destruct (rw_main_ok _ _ _ C Hs Hr) as (_ & ? & _ & ?). Qed.

Lemma rwlock_final_value_witness :
  (forall C, reachable (main NUM_READERS NUM_WRITERS OPERATIONS) C -> must_return C) /\
  exists d, printed 0 (drive 300 2 (start (main 1 2 2))) =
    [Event 0 "Starting read-write lock demo (readers: %d, writers: %d)\n\n" [1; 2];
     Event 0 "\nCompleted in %.2f seconds\n" [d]; Event 0 "Final value: %d\n" [4]].
Proof.
  split.
  - intros C Hr. apply (rwlock_final_value NUM_READERS NUM_WRITERS OPERATIONS C); [by split_all|done].
  - apply (proj2 (rwlock_final_value 1 2 2 (drive 300 2 (start (main 1 2 2))) ltac:(by split_all)
      ltac:(apply drive_steps)) 0). vm_compute. reflexivity.
Defined.

(** C34. [sleep_for_us] asks for the right time: the [timespec] is one that
    [nanosleep] accepts, and it is the number of microseconds it was given. *)
Theorem sleep_request_valid usec :
  0 <= usec ->
  0 <= tv_sec (sleep_request usec) /\ 0 <= tv_nsec (sleep_request usec) < 10 ^ 9 /\
  tv_sec (sleep_request usec) * 10 ^ 9 + tv_nsec (sleep_request usec) = usec * 1000.
Proof.
  intros Hu. unfold sleep_request. cbn [tv_sec tv_nsec].
  pose proof (Z.quot_rem usec 1000000 ltac:(lia)) as Hq.
  pose proof (Z.rem_bound_pos usec 1000000 Hu ltac:(lia)) as Hr.
  pose proof (Z.quot_pos usec 1000000 Hu ltac:(lia)) as Hp. lia.
Qed.

Lemma sleep_request_valid_witness :
  sleep_request 1300000 = Timespec 1 300000000 /\
  tv_sec (sleep_request 1300000) * 10 ^ 9 + tv_nsec (sleep_request 1300000) = 1300000 * 1000.
Proof. split; [reflexivity|]. apply (sleep_request_valid 1300000). lia. Defined.
