(* ===== verification/RwlockSolution.v ===== *)
(** * Exercise 02: the solution

    src/exercises/02_rwlock/solution.c, a program of its own: the exercise
    with [usleep] for [sleep_for_us]. The theorem composes the lemmas on the
    exercise's lock and counter. *)

From S2P Require Import Prelude Machine Logic Harness Bench Termination Rwlock.

(** [#define NUM_READERS 8], [NUM_WRITERS 2], [OPERATIONS 10] *)
Definition NUM_READERS : Z := 8.
Definition NUM_WRITERS : Z := 2.
Definition OPERATIONS : Z := 10.

(** The globals. *)
Definition shared_data : loc := 8.
Definition rwlock : loc := 64.

(** [usleep]: the caller does nothing; the machine lets any thread run. *)
Definition usleep (usec : Z) : prog unit := do_ Pause.

Section Threads.
Context (operations : Z).

Definition reader (id : Z) : prog Z :=
  for_ operations (fun _ =>
    do_ (RwRdlock rwlock);;
    v ← perform (NaRead shared_data);
    printf "Reader %ld read: %d\n" [id; v];;
    usleep 100000;;
    do_ (RwUnlock rwlock);;
    usleep 50000);;
  Ret 0.

Definition writer (id : Z) : prog Z :=
  for_ operations (fun _ =>
    do_ (RwWrlock rwlock);;
    incr INT_BITS shared_data;;
    v ← perform (NaRead shared_data);
    printf "Writer %ld wrote: %d\n" [id; v];;
    usleep 200000;;
    do_ (RwUnlock rwlock);;
    usleep 300000);;
  Ret 0.
End Threads.

(** The elapsed time is printed in nanoseconds, before the division by 1e9. *)
Definition main (readers writers operations : Z) : prog Z :=
  do_ (RwInit rwlock);;
  printf "Starting read-write lock demo (readers: %d, writers: %d)\n\n" [readers; writers];;
  start ← clock_gettime;
  rs ← create_threads readers (reader operations);
  ws ← create_threads writers (writer operations);
  join_threads rs;;
  join_threads ws;;
  end_ ← clock_gettime;
  printf "\nCompleted in %.2f seconds\n"
    [(tv_sec end_ - tv_sec start) * 10 ^ 9 + (tv_nsec end_ - tv_nsec start)];;
  v ← perform (NaRead shared_data);
  printf "Final value: %d\n" [v];;
  do_ (RwDestroy rwlock);;
  Ret 0.

(** C36. The solution of exercise 02 is correct: for any number of readers,
    writers and operations whose product fits an [int], on every execution
    there is no data race or other undefined behaviour, every reader prints the
    number of writes reported before its line and every writer one more; every
    execution returns, and it has then printed the exact final value. *)
Theorem solution_sequential readers writers operations C :
  sizes_ok readers writers operations -> reachable (main readers writers operations) C ->
  ~ faulty C /\ must_return C /\ sequential (wout (wld C)) /\
  forall v, returned C = Some v -> v = 0 /\ exists d, printed 0 C =
    [Event 0 "Starting read-write lock demo (readers: %d, writers: %d)\n\n" [readers; writers];
     Event 0 "\nCompleted in %.2f seconds\n" [d];
     Event 0 "Final value: %d\n" [writers * operations]].
Proof. intros Hs Hr. exact (rw_main_ok readers writers operations C Hs Hr). Qed.

Lemma solution_sequential_witness :
  (forall C, reachable (main NUM_READERS NUM_WRITERS OPERATIONS) C ->
     ~ faulty C /\ must_return C /\ sequential (wout (wld C))) /\
  exists d, printed 0 (drive 300 2 (start (main 1 2 2))) =
    [Event 0 "Starting read-write lock demo (readers: %d, writers: %d)\n\n" [1; 2];
     Event 0 "\nCompleted in %.2f seconds\n" [d]; Event 0 "Final value: %d\n" [4]].
Proof.
  split.
  - intros C Hr. destruct (solution_sequential NUM_READERS NUM_WRITERS OPERATIONS C) as (? & ? & ? & _);
      [by split_all|done|by split_all].
  - apply (solution_sequential 1 2 2 (drive 300 2 (start (main 1 2 2)))
      ltac:(by split_all) ltac:(apply drive_steps)) with (v := 0). vm_compute. reflexivity.
Defined.
