(* ===== verification/Summary.v ===== *)
(** * Exercise 08: the capstone, as it is

    src/exercises/08_summary/08_summary.c: three variants whose bodies are left
    to the reader; what is there resets the state, times empty blocks and
    reports the totals. *)

From S2P Require Import Prelude Machine Logic Harness Bench Termination.


Definition shared_counter : loc := 16.


(** The thread functions return at once. *)
Definition variant_a_worker : prog Z := Ret 0.
Definition variant_b_worker_packed : prog Z := Ret 0.
Definition variant_b_worker_padded : prog Z := Ret 0.
Definition producer : prog Z := Ret 0.
Definition consumer : prog Z := Ret 0.






(** The program of 08_summary/solution.c. *)
Definition solution_main : prog Z :=
  puts ["Exercise 08 solution: See README and the starter in 08_summary.c.\n";
        "Implement TAS/TTAS, run padded vs packed counters, and the SPSC path.\n"];;
  Ret 0.

(** ** What it reports *)


Definition summary_inv (w : world) (x : tid -> unit) : Prop :=
  wn w = 1%nat /\ nval (wcell w shared_counter) = 0.
Definition summary_harness : harness unit :=
  Harness 0 (fun _ => Ret 0) (fun _ => tt) (fun _ _ _ _ => True) (fun _ => True)
    (fun _ _ _ => True) (fun _ => true).

Local Abbreviation wp := (wp (hlogic summary_harness summary_inv)).

#[export] Instance summary_client : Client summary_inv.
Proof. intros w w' x x' [_ _ Hc _ _ _ _ _ _] Hn _ [H1 H2]. split; congruence. Qed.
#[export] Instance summary_progress : Progress summary_harness summary_inv.
Proof. intros w g Hi Hwf _ (u & Hu & Hnd). by exists u. Qed.
#[export] Instance summary_outfree t : OutFree summary_inv t.
Proof. by intros w fmt args x [H1 H2]. Qed.
















